(** * modCA: predator / prey / substrate cellular automaton

    A shallow embedding of [backend/app/constants.py], [backend/app/grid.py],
    [backend/app/simulation.py] and the endpoints of [backend/app/main.py],
    followed by the properties that are stated about them.

    Modelling conventions.
    - NumPy integer arrays are lists of rows of [Z]; a coordinate is a pair
      of [Z].  Reading outside the array yields 0 and writing outside it does
      nothing (NumPy would raise or wrap a negative index); the lemmas
      [nearby_cells_in_range] and [neighbors_coords_in_range] show that the
      engine never forms such a coordinate.
    - A float is the rational number it stands for ([Q]).  The arithmetic
      of floats rounds as IEEE 754 binary64 does, with operands and result
      rounded to the nearest double: see [double], [fadd], [fmul] and
      [fdiv]; a decimal fraction given as a parameter thus enters the
      arithmetic as the double that the literal denotes.  Comparisons are
      those of the rationals; the thresholds written in the rules are
      compared as their decimal fractions where no draw tells the
      difference ([default_thresholds]) and as doubles otherwise.  The one
      product that is not rounded is the
      density limit [total_cells * max_density] in the test of
      [initialize_grid], which is only compared with a count
      ([density_test_unrounded] shows that rounding it changes nothing for
      the sizes up to 5000).  [int(.)] of a float is truncation.
    - The two random generators ([random] and [numpy.random]) are explicit
      states threaded through the code, see [Rng].
    - [datetime.now()] is an argument of the operations that read the clock. *)

From Stdlib Require Import String DecimalString.
From Stdlib Require Import ZArith QArith Qround Qminmax Qabs Qpower.
From Stdlib Require Import List Bool Lia Lqa Permutation.
Import ListNotations.

Local Open Scope string_scope.
Local Open Scope list_scope.
Local Open Scope Z_scope.

(** ** constants.py *)

Definition EMPTY : Z := 0.
Definition PREY : Z := 1.
Definition PREDATOR : Z := 2.
Definition SUBSTRATE : Z := 3.

(** ** Two-dimensional integer arrays *)

Definition coord : Type := (Z * Z)%type.
Definition array2 : Type := list (list Z).

Definition coord_eqb (a b : coord) : bool :=
  (fst a =? fst b) && (snd a =? snd b).

Fixpoint upd_nth {A : Type} (n : nat) (f : A -> A) (l : list A) : list A :=
  match l, n with
  | [], _ => []
  | a :: l', O => f a :: l'
  | a :: l', S n' => a :: upd_nth n' f l'
  end.

(** [a[x, y]] *)
Definition get2 (a : array2) (c : coord) : Z :=
  if (0 <=? fst c) && (0 <=? snd c)
  then nth (Z.to_nat (snd c)) (nth (Z.to_nat (fst c)) a []) 0
  else 0.

(** [a[x, y] = v] *)
Definition set2 (a : array2) (c : coord) (v : Z) : array2 :=
  if (0 <=? fst c) && (0 <=? snd c)
  then upd_nth (Z.to_nat (fst c)) (upd_nth (Z.to_nat (snd c)) (fun _ => v)) a
  else a.

(** [a.shape[0]] *)
Definition shape0 (a : array2) : Z := Z.of_nat (length a).

(** [np.ones(shape, dtype=int) * v] for a square shape *)
Definition full (n : nat) (v : Z) : array2 := repeat (repeat v n) n.

(** [np.ones(a.shape, dtype=int) * v] *)
Definition full_like (a : array2) (v : Z) : array2 :=
  map (fun row => repeat v (length row)) a.

(** [np.count_nonzero(a == v)] *)
Definition count_eq (a : array2) (v : Z) : Z :=
  fold_right (fun row acc =>
    fold_right (fun x acc' => if x =? v then acc' + 1 else acc') acc row) 0 a.

(** [a.size] *)
Definition array_size (a : array2) : Z :=
  fold_right (fun row acc => Z.of_nat (length row) + acc) 0 a.

(** The array is [n] x [n]. *)
Definition square (n : nat) (a : array2) : Prop :=
  length a = n /\ Forall (fun row => length row = n) a.

Definition in_range (n : Z) (c : coord) : Prop :=
  0 <= fst c < n /\ 0 <= snd c < n.

Definition in_rangeb (n : Z) (c : coord) : bool :=
  (0 <=? fst c) && (fst c <? n) && (0 <=? snd c) && (snd c <? n).

(** [range(lo, hi)] *)
Definition range_Z (lo hi : Z) : list Z :=
  map (fun i => lo + Z.of_nat i) (seq 0 (Z.to_nat (hi - lo))).

(** The list built by
    [for x in range(n): for y in range(n): coords.append((x, y))]. *)
Definition all_coords (n : Z) : list coord :=
  flat_map (fun x => map (fun y => (x, y)) (range_Z 0 n)) (range_Z 0 n).

(** ** Random generators

    One generator is a stream of raw words and a read position.  Every
    primitive consumes one word: [random.random()] returns [k / 2^53] for
    a [k] below [2^53], [random.choice] and the index draws of a shuffle
    reduce the word modulo the number of alternatives. *)

Record Rng : Type := mkRng { raw : nat -> N; pos : nat }.

Definition advance (r : Rng) : Rng := mkRng (raw r) (S (pos r)).

Definition word (r : Rng) : N := raw r (pos r).

Definition two53 : positive := 9007199254740992.

(** [random.random()] *)
Definition random (r : Rng) : Q * Rng :=
  (Qmake (Z.of_N (word r mod Npos two53)) two53, advance r).

(** [random.choice(l)] for a non-empty [l] *)
Definition choice {A : Type} (d : A) (l : list A) (r : Rng) : A * Rng :=
  (nth (N.to_nat (word r mod N.of_nat (length l))) l d, advance r).

Fixpoint remove_nth {A : Type} (n : nat) (l : list A) : list A :=
  match l, n with
  | [], _ => []
  | _ :: l', O => l'
  | a :: l', S n' => a :: remove_nth n' l'
  end.

(** [random.shuffle] and [np.random.shuffle]: the library routines are used
    through their contract only (the result is a permutation of the
    argument chosen by the generator); the model draws the next element
    among the remaining ones. *)
Fixpoint shuffle_n {A : Type} (n : nat) (l : list A) (r : Rng) : list A * Rng :=
  match n with
  | O => ([], r)
  | S n' =>
      match l with
      | [] => ([], r)
      | a :: _ =>
          let j := N.to_nat (word r mod N.of_nat (length l)) in
          let '(rest, r') := shuffle_n n' (remove_nth j l) (advance r) in
          (nth j l a :: rest, r')
      end
  end.

Definition shuffle {A : Type} (l : list A) (r : Rng) : list A * Rng :=
  shuffle_n (length l) l r.

(** ** Floats *)

(** Comparison of floats. *)
Definition Qltb (a b : Q) : bool := negb (Qle_bool b a).

(** [int(q)] *)
Definition Qtrunc (q : Q) : Z := Z.quot (Qnum q) (Zpos (Qden q)).

(** [round(q)] to the nearest integer, ties to even. *)
Definition round_half_even (q : Q) : Z :=
  let f := Qfloor q in
  let d := (q - inject_Z f)%Q in
  if Qltb d (1 # 2) then f
  else if Qltb (1 # 2) d then f + 1
  else if Z.even f then f else f + 1.

(** The largest [e] with [2 ^ e <= q], for positive [q]. *)
Definition Qlog2 (q : Q) : Z :=
  let e := Z.log2 (Qnum q) - Z.log2 (Zpos (Qden q)) in
  if Qle_bool (2 ^ e) q then e else e - 1.

(** The exponent of the last bit of the double nearest to [q]: doubles
    have significands of 53 bits and exponents from -1074 on (the
    subnormal numbers). *)
Definition fexp (q : Q) : Z := Z.max (Qlog2 (Qabs q) - 52) (-1074).

(** The double nearest to [q], ties to the even significand.  This is the
    value of a decimal literal and of [float(n)] for an integer [n], and
    the rounding of every operation.  Overflow is left out: the numbers
    rounded here are counts of cells, ratios of counts and probabilities. *)
Definition double (q : Q) : Q :=
  if Qeq_bool q 0 then 0%Q
  else Qred (inject_Z (round_half_even (q / 2 ^ fexp q)) * 2 ^ fexp q).

(** [a + b], [a * b] and [a / b] on floats; an integer operand is
    converted first. *)
Definition fadd (a b : Q) : Q := double (double a + double b).
Definition fmul (a b : Q) : Q := double (double a * double b).
Definition fdiv (a b : Q) : Q := double (double a / double b).

(** [a / b] on two Python integers: the quotient is rounded once. *)
Definition int_truediv (a b : Z) : Q := double (inject_Z a / inject_Z b).

(** ** grid.py: neighbourhoods *)

Definition moore_directions : list coord :=
  flat_map (fun dx =>
    flat_map (fun dy =>
      if (dx =? 0) && (dy =? 0) then [] else [(dx, dy)])
      [-1; 0; 1]) [-1; 0; 1].

Definition get_neighbors_coords (grid : array2) (x y : Z)
    (neighborhood_type grid_type : string) : list coord :=
  let size := shape0 grid in
  let directions :=
    if String.eqb neighborhood_type "von_neumann"
    then [(0, 1); (1, 0); (0, -1); (-1, 0)]
    else moore_directions in
  flat_map (fun d =>
    let nx := x + fst d in
    let ny := y + snd d in
    if String.eqb grid_type "torus"
    then [(nx mod size, ny mod size)]
    else if (0 <=? nx) && (nx <? size) && (0 <=? ny) && (ny <? size)
         then [(nx, ny)] else [])
    directions.

Definition count_neighbors (grid : array2) (x y entity_type : Z)
    (neighborhood_type grid_type : string) : Z :=
  fold_left (fun count c => if get2 grid c =? entity_type then count + 1 else count)
    (get_neighbors_coords grid x y neighborhood_type grid_type) 0.

(** ** simulation.py: data *)

(** The parameter dictionary.  Keys the engine reads with
    [params.get(key, default)] are optional and the default is applied where
    the key is read; keys it reads with [params[key]] are present.
    [neighborhood_type] and [grid_type] are read both ways and are present. *)
Record Params : Type := mkParams {
  neighborhood_type : string;
  grid_type : string;
  predator_death_chance : option Q;
  predator_starvation_steps : option Z;
  hunt_success_prob : option Q;
  predator_reproduction_chance : option Q;
  predator_movement_prob : option Q;
  prey_death_chance : option Q;
  prey_starvation_steps : option Z;
  prey_reproduction_chance : option Q;
  substrate_random_death : Q;
  predator_birth_probability : Q;
  initial_substrate_probability : Q
}.

(** [d.get(key, default)] *)
Definition get_or {A : Type} (o : option A) (default : A) : A :=
  match o with Some v => v | None => default end.

(** [self.statistics]: the event counters. *)
Record Events : Type := mkEvents {
  predator_deaths : Z;
  predator_births : Z;
  predator_starved : Z;
  prey_deaths : Z;
  prey_births : Z;
  prey_hunted : Z;
  prey_starved : Z;
  substrate_created : Z;
  substrate_consumed : Z
}.

Definition no_events : Events := mkEvents 0 0 0 0 0 0 0 0 0.

(** [self.stats]: the historical series. *)
Record History : Type := mkHistory {
  hist_predator_count : list Z;
  hist_prey_count : list Z;
  hist_substrate_count : list Z
}.

(** The ['statistics'] entry of a frame. *)
Record Counts : Type := mkCounts {
  cnt_predator : Z;
  cnt_prey : Z;
  cnt_substrate : Z;
  cnt_empty : Z
}.

(** One element of [self.recorded_frames]; [fr_grid = None] is the Python
    [None], [fr_grid_size = None] an absent key. *)
Record Frame : Type := mkFrame {
  fr_grid : option array2;
  fr_grid_size : option Z;
  fr_step : Z;
  fr_statistics : Counts;
  fr_timestamp : string
}.

(** The report of [initialize_grid]. *)
Record OriginalValues : Type := mkOriginal {
  orig_initial_prey : Z;
  orig_initial_predators : Z;
  orig_initial_substrate_prob : Q
}.

Record AdjustedValues : Type := mkAdjusted {
  adj_initial_prey : option Z;
  adj_initial_predators : option Z;
  adj_initial_substrate_prob : option Q;
  adj_actual_predator_count : option Z;
  adj_actual_prey_count : option Z;
  adj_actual_substrate_count : option Z
}.

Definition no_adjusted : AdjustedValues :=
  mkAdjusted None None None None None None.

Record AdjustmentInfo : Type := mkAdjustment {
  values_adjusted : bool;
  original_values : option OriginalValues;
  adjusted_values : option AdjustedValues;
  reason : option string
}.

Record Simulation : Type := mkSimulation {
  grid : array2;
  params : Params;
  adjustment_info : AdjustmentInfo;
  recording_enabled : bool;
  recorded_frames : list Frame;
  stats : History;
  statistics : Events;
  predator_hunger : array2;
  prey_hunger : array2
}.

(** [a[grid == v] = h] *)
Definition assign_where (a grid : array2) (v h : Z) : array2 :=
  map (fun rows => map (fun xg => if snd xg =? v then h else fst xg)
                       (combine (fst rows) (snd rows)))
      (combine a grid).

Definition grid_counts (g : array2) : Counts :=
  mkCounts (count_eq g PREDATOR) (count_eq g PREY)
           (count_eq g SUBSTRATE) (count_eq g EMPTY).

(** [Simulation.__init__]; [adjustment] is the optional argument and [now]
    the clock reading. *)
Definition init (g : array2) (p : Params) (recording : bool)
    (adjustment : option AdjustmentInfo) (now : string) : Simulation :=
  mkSimulation g p
    (match adjustment with
     | Some a => a
     | None => mkAdjustment false None None None
     end)
    recording
    (if recording
     then [mkFrame (Some g) None 0 (grid_counts g) now]
     else [])
    (mkHistory [count_eq g PREDATOR] [count_eq g PREY] [count_eq g SUBSTRATE])
    no_events
    (assign_where (full_like g (-1)) g PREDATOR 0)
    (assign_where (full_like g (-1)) g PREY 0).

(** ** simulation.py: the neighbourhood of the rules *)

Definition _get_nearby_cells (s : Simulation) (x y distance : Z) : list coord :=
  let grid_size := shape0 (grid s) in
  let grid_type := grid_type (params s) in
  let neighborhood_type := neighborhood_type (params s) in
  flat_map (fun dx =>
    flat_map (fun dy =>
      if (dx =? 0) && (dy =? 0) then []
      else if String.eqb neighborhood_type "von_neumann"
              && (Z.abs dx + Z.abs dy >? distance) then []
      else
        let nx := x + dx in
        let ny := y + dy in
        if String.eqb grid_type "bounded"
        then if (0 <=? nx) && (nx <? grid_size) && (0 <=? ny) && (ny <? grid_size)
             then [(nx, ny)] else []
        else [((nx + grid_size) mod grid_size, (ny + grid_size) mod grid_size)])
      (range_Z (- distance) (distance + 1)))
    (range_Z (- distance) (distance + 1)).

(** ** simulation.py: the cell rules

    The rules read the committed state [s] and write into the buffers of
    the generation being computed. *)

Record Work : Type := mkWork {
  new_grid : array2;
  new_predator_hunger : array2;
  new_prey_hunger : array2;
  events : Events
}.

Definition set_grid (w : Work) (c : coord) (v : Z) : Work :=
  mkWork (set2 (new_grid w) c v) (new_predator_hunger w) (new_prey_hunger w)
         (events w).

Definition set_predator_hunger (w : Work) (c : coord) (v : Z) : Work :=
  mkWork (new_grid w) (set2 (new_predator_hunger w) c v) (new_prey_hunger w)
         (events w).

Definition set_prey_hunger (w : Work) (c : coord) (v : Z) : Work :=
  mkWork (new_grid w) (new_predator_hunger w) (set2 (new_prey_hunger w) c v)
         (events w).

Definition count_predator_birth (w : Work) : Work :=
  let e := events w in
  mkWork (new_grid w) (new_predator_hunger w) (new_prey_hunger w)
    (mkEvents (predator_deaths e) (predator_births e + 1) (predator_starved e)
       (prey_deaths e) (prey_births e) (prey_hunted e) (prey_starved e)
       (substrate_created e) (substrate_consumed e)).

Definition count_substrate_created (w : Work) : Work :=
  let e := events w in
  mkWork (new_grid w) (new_predator_hunger w) (new_prey_hunger w)
    (mkEvents (predator_deaths e) (predator_births e) (predator_starved e)
       (prey_deaths e) (prey_births e) (prey_hunted e) (prey_starved e)
       (substrate_created e + 1) (substrate_consumed e)).

(** How a rule ends: it returns, or an exception leaves it.  The only
    exception of the model is the division by a zero threshold (for a NumPy
    scalar the division yields inf or nan with a warning instead; the
    case is shown unreachable below). *)
Inductive outcome : Type :=
| Done (w : Work) (r : Rng)
| Raised (w : Work) (r : Rng).

Definition nonempty {A : Type} (l : list A) : bool :=
  match l with [] => false | _ :: _ => true end.

(** [cond and random.random() < p]: the draw is made only when [cond]. *)
Definition and_draw (cond : bool) (p : Q) (r : Rng) : bool * Rng :=
  if cond then let '(u, r') := random r in (Qltb u p, r') else (false, r).

(** [xs and random.choice(xs)] guarded: [random.choice(xs)] for a list the
    caller has found non-empty. *)
Definition choose (l : list coord) (r : Rng) : coord * Rng :=
  choice (0, 0) l r.

(** The part of [_update_predator] after the death and starvation tests,
    from the computation of [hunger_risk] on. *)
Definition predator_hunt_or_move (s : Simulation) (w : Work) (x y : Z)
    (current_hunger hunger_threshold : Z) (r : Rng) : outcome :=
  let p := params s in
  let neighbors := _get_nearby_cells s x y 2 in
  if hunger_threshold =? 0 then Raised w r else
  let hunger_risk := fdiv (inject_Z current_hunger) (inject_Z hunger_threshold) in
  let hunt_success_prob := get_or (hunt_success_prob p) (7 # 10) in
  let hunt_probability := fmul hunt_success_prob (fadd 1 hunger_risk) in
  let prey_neighbors := filter (fun c => get2 (grid s) c =? PREY) neighbors in
  let '(hunt, r) := and_draw (nonempty prey_neighbors) hunt_probability r in
  if hunt then
    let '(prey, r) := choose prey_neighbors r in
    let w := set_grid w prey PREDATOR in
    let w := set_grid w (x, y) EMPTY in
    let w := set_predator_hunger w prey 0 in
    let w := set_predator_hunger w (x, y) (-1) in
    let '(u, r) := random r in
    if Qltb u (get_or (predator_reproduction_chance p) (2 # 10)) then
      let empty_neighbors :=
        filter (fun c => get2 (grid s) c =? EMPTY) (_get_nearby_cells s x y 1) in
      if nonempty empty_neighbors then
        let '(n, r) := choose empty_neighbors r in
        let w := set_grid w n PREDATOR in
        let w := set_predator_hunger w n 0 in
        Done w r
      else Done w r
    else Done w r
  else
    let new_hunger := current_hunger + 1 in
    let w := set_predator_hunger w (x, y) new_hunger in
    let empty_neighbors :=
      filter (fun c => get2 (grid s) c =? EMPTY) (_get_nearby_cells s x y 1) in
    let '(move, r) :=
      and_draw (nonempty empty_neighbors)
               (get_or (predator_movement_prob p) (5 # 10)) r in
    if move then
      let '(n, r) := choose empty_neighbors r in
      let w := set_grid w n PREDATOR in
      let w := set_grid w (x, y) EMPTY in
      let w := set_predator_hunger w n new_hunger in
      let w := set_predator_hunger w (x, y) (-1) in
      Done w r
    else Done w r.

Definition _update_predator (s : Simulation) (w : Work) (x y : Z) (r : Rng)
    : outcome :=
  let p := params s in
  let '(u, r) := random r in
  if Qltb u (get_or (predator_death_chance p) (5 # 1000)) then
    Done (set_grid w (x, y) EMPTY) r
  else
    let current_hunger := get2 (predator_hunger s) (x, y) in
    let hunger_threshold := get_or (predator_starvation_steps p) 10 in
    if current_hunger >=? hunger_threshold then
      Done (set_grid w (x, y) EMPTY) r
    else predator_hunt_or_move s w x y current_hunger hunger_threshold r.

Definition _update_prey (s : Simulation) (w : Work) (x y : Z) (r : Rng)
    : Work * Rng :=
  let p := params s in
  let '(u, r) := random r in
  if Qltb u (get_or (prey_death_chance p) (1 # 100)) then
    (set_grid w (x, y) EMPTY, r)
  else
    let current_hunger := get2 (prey_hunger s) (x, y) in
    let hunger_threshold := get_or (prey_starvation_steps p) 15 in
    if current_hunger >=? hunger_threshold then
      (set_grid w (x, y) EMPTY, r)
    else
      let neighbors := _get_nearby_cells s x y 1 in
      let predator_nearby :=
        existsb (fun c => get2 (grid s) c =? PREDATOR) neighbors in
      let new_hunger := current_hunger + 1 in
      let w := set_prey_hunger w (x, y) new_hunger in
      let '(freeze, r) := and_draw predator_nearby (double (7 # 10)) r in
      if freeze then (w, r)
      else
        let substrate_neighbors :=
          filter (fun c => get2 (grid s) c =? SUBSTRATE) neighbors in
        let empty_neighbors :=
          filter (fun c => get2 (grid s) c =? EMPTY) neighbors in
        if nonempty substrate_neighbors then
          let '(sub, r) := choose substrate_neighbors r in
          let w := set_grid w sub EMPTY in
          let w := set_prey_hunger w (x, y) 0 in
          let '(u, r) := random r in
          if Qltb u (get_or (prey_reproduction_chance p) (3 # 10)) then
            if nonempty empty_neighbors then
              let '(n, r) := choose empty_neighbors r in
              let w := set_grid w n PREY in
              let w := set_prey_hunger w n 0 in
              (w, r)
            else (w, r)
          else (w, r)
        else if nonempty empty_neighbors then
          let '(n, r) := choose empty_neighbors r in
          let w := set_grid w n PREY in
          let w := set_grid w (x, y) EMPTY in
          let w := set_prey_hunger w n new_hunger in
          let w := set_prey_hunger w (x, y) (-1) in
          (w, r)
        else (w, r).

Definition _update_substrate (s : Simulation) (w : Work) (x y : Z) (r : Rng)
    : Work * Rng :=
  let '(u, r) := random r in
  if Qltb u (substrate_random_death (params s))
  then (set_grid w (x, y) EMPTY, r)
  else (w, r).

Definition _update_empty (s : Simulation) (w : Work) (x y : Z) (r : Rng)
    : Work * Rng :=
  let p := params s in
  let predator_neighbors :=
    count_neighbors (grid s) x y PREDATOR (neighborhood_type p) (grid_type p) in
  let prey_neighbors :=
    count_neighbors (grid s) x y PREY (neighborhood_type p) (grid_type p) in
  let '(birth, r) :=
    and_draw ((predator_neighbors >=? 2) && (prey_neighbors >=? 1))
             (predator_birth_probability p) r in
  if birth then
    let w := set_grid w (x, y) PREDATOR in
    let w := set_predator_hunger w (x, y) 0 in
    (count_predator_birth w, r)
  else
    let '(u, r) := random r in
    if Qltb u (fdiv (initial_substrate_probability p) 10) then
      (count_substrate_created (set_grid w (x, y) SUBSTRATE), r)
    else (w, r).

(** ** simulation.py: one generation *)

(** The body of the loop over the shuffled coordinates, with its
    [try ... except] around the rule of the cell. *)
Definition process_cell (s : Simulation) (w : Work) (c : coord) (r : Rng)
    : Work * Rng :=
  if negb (get2 (new_grid w) c =? get2 (grid s) c) then (w, r)
  else
    let x := fst c in
    let y := snd c in
    let res :=
      if get2 (grid s) c =? PREDATOR then _update_predator s w x y r
      else if get2 (grid s) c =? PREY then
        let '(w', r') := _update_prey s w x y r in Done w' r'
      else if get2 (grid s) c =? SUBSTRATE then
        let '(w', r') := _update_substrate s w x y r in Done w' r'
      else if get2 (grid s) c =? EMPTY then
        let '(w', r') := _update_empty s w x y r in Done w' r'
      else Done w r in
    match res with
    | Done w' r' => (w', r')
    | Raised w' r' => (set_grid w' c (get2 (grid s) c), r')
    end.

(** The loop itself; the batches of the source cut [coords] into
    consecutive slices and process them in order. *)
Definition sweep (s : Simulation) (coords : list coord) (w : Work) (r : Rng)
    : Work * Rng :=
  fold_left (fun st c => process_cell s (fst st) c (snd st)) coords (w, r).

Inductive exn : Type := MemoryError.

(** What the caller of [step] observes. *)
Inductive step_result : Type :=
| Returned (g : array2)
| Propagated (e : exn).

(** The buffers allocated at the start of a generation. *)
Definition fresh_work (s : Simulation) : Work :=
  mkWork (grid s) (full_like (grid s) (-1)) (full_like (grid s) (-1))
         (statistics s).

Definition step_frame (g : array2) (step_num : Z) (now : string) : Frame :=
  let grid_size := shape0 g in
  let new_predator_count := count_eq g PREDATOR in
  let new_prey_count := count_eq g PREY in
  let new_substrate_count := count_eq g SUBSTRATE in
  let counts :=
    mkCounts new_predator_count new_prey_count new_substrate_count
      (grid_size * grid_size
       - (new_predator_count + new_prey_count + new_substrate_count)) in
  if grid_size >? 500
  then mkFrame None (Some grid_size) step_num counts now
  else mkFrame (Some g) None step_num counts now.

(** The [try] block of [step].  [alloc_ok = false] is the environment in
    which the allocation of the buffers fails. *)
Definition step_try (alloc_ok : bool) (now : string) (s : Simulation) (r : Rng)
    : (exn + array2) * Simulation * Rng :=
  if negb alloc_ok then (inl MemoryError, s, r)
  else
    let w0 := fresh_work s in
    let grid_size := shape0 (grid s) in
    let '(coords, r) := shuffle (all_coords grid_size) r in
    let '(w, r) := sweep s coords w0 r in
    let g := new_grid w in
    let h := stats s in
    let h' := mkHistory (hist_predator_count h ++ [count_eq g PREDATOR])
                        (hist_prey_count h ++ [count_eq g PREY])
                        (hist_substrate_count h ++ [count_eq g SUBSTRATE]) in
    let frames :=
      if recording_enabled s
      then recorded_frames s
           ++ [step_frame g (Z.of_nat (length (recorded_frames s))) now]
      else recorded_frames s in
    let s' := mkSimulation g (params s) (adjustment_info s)
                (recording_enabled s) frames h' (events w)
                (new_predator_hunger w) (new_prey_hunger w) in
    (inr g, s', r).

(** [step]: the [except Exception] clause around the [try] block returns
    [self.grid], which exists on every constructed simulation. *)
Definition step (alloc_ok : bool) (now : string) (s : Simulation) (r : Rng)
    : step_result * Simulation * Rng :=
  let '(res, s', r') := step_try alloc_ok now s r in
  match res with
  | inr g => (Returned g, s', r')
  | inl _ => (Returned (grid s'), s', r')
  end.

(** The simulation after a generation whose allocations succeed. *)
Definition next (now : string) (s : Simulation) (r : Rng) : Simulation * Rng :=
  let '(_, s', r') := step true now s r in (s', r').

(** ** simulation.py: statistics *)

(** [round(x, 2)] of a float: the double nearest to the decimal with two
    digits that is nearest to [x], ties to the even digit. *)
Definition round2 (x : Q) : Q :=
  double (inject_Z (round_half_even (x * 100)) / 100).

(** [np.sum((a >= t) & (g == v))] *)
Definition count_at_risk (a g : array2) (t v : Z) : Z :=
  fold_right (fun rows acc =>
    fold_right (fun ag acc' =>
      if (fst ag >=? t) && (snd ag =? v) then acc' + 1 else acc')
      acc (combine (fst rows) (snd rows)))
    0 (combine a g).

(** [xs[-1]] of a non-empty list *)
Definition last_of (l : list Z) : Z := last l 0.

Record Statistics : Type := mkStatistics {
  st_predator_count : Z;
  st_prey_count : Z;
  st_substrate_count : Z;
  st_empty_count : Z;
  st_predator_percentage : Q;
  st_prey_percentage : Q;
  st_substrate_percentage : Q;
  st_empty_percentage : Q;
  st_starving_predators : Z;
  st_starving_prey : Z;
  (* the keys added when values were adjusted; an absent inner value is
     the default of the [.get] that reads it *)
  st_adjustment : option AdjustmentInfo
}.

Definition default_statistics : Statistics :=
  mkStatistics 0 0 0 0 0 0 0 0 0 0 None.

(** [get_statistics]; the simulation is returned with the result, as the
    method leaves it. *)
Definition get_statistics (s : Simulation) : Statistics * Simulation :=
  let g := grid s in
  let predator_count := count_eq g PREDATOR in
  let prey_count := count_eq g PREY in
  let substrate_count := count_eq g SUBSTRATE in
  let empty_count := count_eq g EMPTY in
  let total_cells := array_size g in
  let predator_starvation_threshold :=
    get_or (predator_starvation_steps (params s)) 10 in
  let prey_starvation_threshold :=
    get_or (prey_starvation_steps (params s)) 3 in
  let predator_risk_threshold :=
    Qtrunc (fmul (inject_Z predator_starvation_threshold) (8 # 10)) in
  let prey_risk_threshold :=
    Qtrunc (fmul (inject_Z prey_starvation_threshold) (8 # 10)) in
  let starving_predators :=
    count_at_risk (predator_hunger s) g predator_risk_threshold PREDATOR in
  let starving_prey :=
    count_at_risk (prey_hunger s) g prey_risk_threshold PREY in
  if total_cells =? 0 then
    (* ZeroDivisionError, caught by the outer handler *)
    (default_statistics, s)
  else
    let pct (n : Z) : Q :=
      round2 (fmul (int_truediv n total_cells) 100) in
    let h := stats s in
    let latest (series : list Z) (current : Z) : Z :=
      if (0 <? Z.of_nat (length (hist_predator_count h)))
      then last_of series else current in
    (mkStatistics
       (latest (hist_predator_count h) predator_count)
       (latest (hist_prey_count h) prey_count)
       (latest (hist_substrate_count h) substrate_count)
       empty_count
       (pct predator_count) (pct prey_count) (pct substrate_count)
       (pct empty_count)
       starving_predators starving_prey
       (if values_adjusted (adjustment_info s)
        then Some (adjustment_info s) else None),
     s).

(** ** grid.py: initialisation *)

(** [str(n)] of an integer, as the f-strings print it. *)
Definition str_Z (n : Z) : string := NilZero.string_of_int (Z.to_int n).

(** [create_empty_grid] for a size that passed the validation. *)
Definition create_empty_grid (size : Z) : array2 := full (Z.to_nat size) 0.

(** [np.unravel_index(i, (size, size))] *)
Definition unravel_index (size i : Z) : coord := (i / size, i mod size).

(** [l[a : a + k]] *)
Definition slice {A : Type} (l : list A) (a k : Z) : list A :=
  firstn (Z.to_nat k) (skipn (Z.to_nat a) l).

(** [grid[np.unravel_index(indices, (size, size))] = v] *)
Definition place (size : Z) (g : array2) (indices : list Z) (v : Z) : array2 :=
  fold_left (fun g' i => set2 g' (unravel_index size i) v) indices g.

Definition with_adjusted (a : AdjustmentInfo) (v : AdjustedValues)
    : AdjustmentInfo :=
  mkAdjustment (values_adjusted a) (original_values a) (Some v) (reason a).

Definition adjusted_of (a : AdjustmentInfo) : AdjustedValues :=
  get_or (adjusted_values a) no_adjusted.

Definition reason_of (a : AdjustmentInfo) : string := get_or (reason a) "".

(** The split of the allowed total done when a cap applies. *)
Definition split_entities (total_cells : Z) (max_density : Q)
    (initial_prey total_entities : Z) : Z * Z :=
  let ratio :=
    if total_entities >? 0
    then int_truediv initial_prey total_entities
    else (5 # 10)%Q in
  let max_entities := Qtrunc (fmul (inject_Z total_cells) max_density) in
  let adjusted_prey := Qtrunc (fmul (inject_Z max_entities) ratio) in
  let adjusted_predators := max_entities - adjusted_prey in
  (adjusted_prey, adjusted_predators).

Definition record_split (a : AdjustmentInfo) (adjusted_prey adjusted_predators : Z)
    (msg : string) : AdjustmentInfo :=
  let v := adjusted_of a in
  mkAdjustment true (original_values a)
    (Some (mkAdjusted (Some adjusted_prey) (Some adjusted_predators)
             (adj_initial_substrate_prob v) (adj_actual_predator_count v)
             (adj_actual_prey_count v) (adj_actual_substrate_count v)))
    (Some msg).

(** The first part of [initialize_grid]: the density policy.  It returns
    the counts and the probability to place and the report so far.  The
    density limit of the two tests is the product that is not rounded; the
    split computes in doubles. *)
Definition density_policy (size initial_prey initial_predators : Z)
    (initial_substrate_prob : Q) : Z * Z * Q * AdjustmentInfo :=
  let adjustment_info :=
    mkAdjustment false
      (Some (mkOriginal initial_prey initial_predators initial_substrate_prob))
      (Some no_adjusted) (Some "") in
  let total_cells := size * size in
  let total_entities := initial_prey + initial_predators in
  if size >=? 800 then
    let max_density := if size >=? 1000 then (3 # 10)%Q else (4 # 10)%Q in
    let '(initial_prey, initial_predators, adjustment_info) :=
      if Qltb (inject_Z total_cells * max_density) (inject_Z total_entities)
      then
        let '(adjusted_prey, adjusted_predators) :=
          split_entities total_cells max_density initial_prey total_entities in
        (adjusted_prey, adjusted_predators,
         record_split adjustment_info adjusted_prey adjusted_predators
           ("Grid too large (" ++ str_Z size ++ "×" ++ str_Z size
            ++ "). Entity counts reduced to prevent memory issues.")%string)
      else (initial_prey, initial_predators, adjustment_info) in
    if Qltb (2 # 10) initial_substrate_prob then
      let initial_substrate_prob := Qmin initial_substrate_prob (2 # 10) in
      let v := adjusted_of adjustment_info in
      (initial_prey, initial_predators, initial_substrate_prob,
       mkAdjustment true (original_values adjustment_info)
         (Some (mkAdjusted (adj_initial_prey v) (adj_initial_predators v)
                  (Some initial_substrate_prob) (adj_actual_predator_count v)
                  (adj_actual_prey_count v) (adj_actual_substrate_count v)))
         (Some (reason_of adjustment_info
                ++ " Substrate probability reduced to avoid memory issues.")%string))
    else (initial_prey, initial_predators, initial_substrate_prob, adjustment_info)
  else if Qltb (inject_Z total_cells * (8 # 10)) (inject_Z total_entities) then
    let '(adjusted_prey, adjusted_predators) :=
      split_entities total_cells (8 # 10) initial_prey total_entities in
    (adjusted_prey, adjusted_predators, initial_substrate_prob,
     record_split adjustment_info adjusted_prey adjusted_predators
       "Too many entities for grid size. Reduced to 80% of total cells.")
  else (initial_prey, initial_predators, initial_substrate_prob, adjustment_info).

(** The second part of [initialize_grid] places the entities along one
    shuffled list of the cell indices, in three stages that share the grid,
    the position [current_index] in the list and the report. *)

(** Stage 1: predators. *)
Definition place_predators (size initial_predators : Z)
    (all_indices : list Z) (grid : array2) (current_index : Z)
    (adjustment_info : AdjustmentInfo) : array2 * Z * AdjustmentInfo :=
  let total_cells := size * size in
  if initial_predators >? 0 then
    let predator_count := Z.min initial_predators (total_cells - current_index) in
    let grid := place size grid (slice all_indices current_index predator_count)
                      PREDATOR in
    let a :=
      if predator_count <? initial_predators then
        let v := adjusted_of adjustment_info in
        mkAdjustment true (original_values adjustment_info)
          (Some (mkAdjusted (adj_initial_prey v) (adj_initial_predators v)
                   (adj_initial_substrate_prob v) (Some predator_count)
                   (adj_actual_prey_count v) (adj_actual_substrate_count v)))
          (Some (reason_of adjustment_info ++ " Only placed "
                 ++ str_Z predator_count ++ "/" ++ str_Z initial_predators
                 ++ " predators due to space constraints.")%string)
      else adjustment_info in
    (grid, current_index + predator_count, a)
  else (grid, current_index, adjustment_info).

(** Stage 2: prey. *)
Definition place_prey (size initial_prey : Z)
    (all_indices : list Z) (grid : array2) (current_index : Z)
    (adjustment_info : AdjustmentInfo) : array2 * Z * AdjustmentInfo :=
  let total_cells := size * size in
  if initial_prey >? 0 then
    let prey_count := Z.min initial_prey (total_cells - current_index) in
    let grid := place size grid (slice all_indices current_index prey_count)
                      PREY in
    let a :=
      if prey_count <? initial_prey then
        let v := adjusted_of adjustment_info in
        mkAdjustment true (original_values adjustment_info)
          (Some (mkAdjusted (adj_initial_prey v) (adj_initial_predators v)
                   (adj_initial_substrate_prob v) (adj_actual_predator_count v)
                   (Some prey_count) (adj_actual_substrate_count v)))
          (Some (reason_of adjustment_info ++ " Only placed "
                 ++ str_Z prey_count ++ "/" ++ str_Z initial_prey
                 ++ " prey due to space constraints.")%string)
      else adjustment_info in
    (grid, current_index + prey_count, a)
  else (grid, current_index, adjustment_info).

(** Stage 3: substrate. *)
Definition place_substrate (size : Z) (initial_substrate_prob : Q)
    (all_indices : list Z) (grid : array2) (current_index : Z)
    (adjustment_info : AdjustmentInfo) : array2 * AdjustmentInfo :=
  let total_cells := size * size in
  if Qltb 0 initial_substrate_prob then
    let remaining_cells := total_cells - current_index in
    let substrate_count :=
      Qtrunc (fmul (inject_Z remaining_cells) initial_substrate_prob) in
    if substrate_count >? 0 then
      let v := adjusted_of adjustment_info in
      (place size grid (slice all_indices current_index substrate_count)
             SUBSTRATE,
       with_adjusted adjustment_info
         (mkAdjusted (adj_initial_prey v) (adj_initial_predators v)
            (adj_initial_substrate_prob v) (adj_actual_predator_count v)
            (adj_actual_prey_count v) (Some substrate_count)))
    else (grid, adjustment_info)
  else (grid, adjustment_info).

(** The final counts and their reconciliation into the report. *)
Definition reconcile (grid : array2) (initial_prey initial_predators : Z)
    (adjustment_info : AdjustmentInfo) : AdjustmentInfo :=
  let actual_predator_count := count_eq grid PREDATOR in
  let actual_prey_count := count_eq grid PREY in
  if negb (actual_predator_count =? initial_predators)
     || negb (actual_prey_count =? initial_prey)
  then
    let v := adjusted_of adjustment_info in
    mkAdjustment true (original_values adjustment_info)
      (Some (mkAdjusted (adj_initial_prey v) (adj_initial_predators v)
               (adj_initial_substrate_prob v) (Some actual_predator_count)
               (Some actual_prey_count) (adj_actual_substrate_count v)))
      (reason adjustment_info)
  else adjustment_info.

Definition place_entities (size initial_prey initial_predators : Z)
    (initial_substrate_prob : Q) (adjustment_info : AdjustmentInfo)
    (all_indices : list Z) : array2 * AdjustmentInfo :=
  let grid := create_empty_grid size in
  let current_index := 0 in
  let '(grid, current_index, adjustment_info) :=
    place_predators size initial_predators all_indices grid current_index
                    adjustment_info in
  let '(grid, current_index, adjustment_info) :=
    place_prey size initial_prey all_indices grid current_index
               adjustment_info in
  let '(grid, adjustment_info) :=
    place_substrate size initial_substrate_prob all_indices grid current_index
                    adjustment_info in
  (grid, reconcile grid initial_prey initial_predators adjustment_info).

(** [initialize_grid]; the [ValueError] of the validation carries its
    message (the message about the probability without the float it
    prints).  [r] is the generator of [numpy.random]. *)
Definition initialize_grid (size initial_prey initial_predators : Z)
    (initial_substrate_prob : Q) (r : Rng)
    : (string + array2 * AdjustmentInfo) * Rng :=
  if size <=? 0 then
    (inl ("Grid size must be a positive integer, got " ++ str_Z size)%string, r)
  else if initial_prey <? 0 then
    (inl ("Initial prey must be a non-negative integer, got "
          ++ str_Z initial_prey)%string, r)
  else if initial_predators <? 0 then
    (inl ("Initial predators must be a non-negative integer, got "
          ++ str_Z initial_predators)%string, r)
  else if negb (Qle_bool 0 initial_substrate_prob
                && Qle_bool initial_substrate_prob 1) then
    (inl "Initial substrate probability must be between 0 and 1", r)
  else
    let '(prey, predators, prob, adjustment_info) :=
      density_policy size initial_prey initial_predators initial_substrate_prob in
    let '(all_indices, r) := shuffle (range_Z 0 (size * size)) r in
    (inr (place_entities size prey predators prob adjustment_info all_indices), r).


(** ** Vocabulary of the statements *)

(** *** Neighbourhoods *)

(** The offsets the extended-radius helper visits: the square of side
    [2 * distance + 1] without its centre and, for the von Neumann
    neighbourhood, without the offsets of Manhattan length above
    [distance]. *)
Definition nearby_offsets (neighborhood_type : string) (distance : Z) : list coord :=
  filter (fun o =>
            negb ((fst o =? 0) && (snd o =? 0))
            && negb (String.eqb neighborhood_type "von_neumann"
                     && (Z.abs (fst o) + Z.abs (snd o) >? distance)))
         (list_prod (range_Z (- distance) (distance + 1))
                    (range_Z (- distance) (distance + 1))).

(** The offsets of the radius-1 helper. *)
Definition directions (neighborhood_type : string) : list coord :=
  if String.eqb neighborhood_type "von_neumann"
  then [(0, 1); (1, 0); (0, -1); (-1, 0)]
  else [(-1, -1); (-1, 0); (-1, 1); (0, -1); (0, 1); (1, -1); (1, 0); (1, 1)].

(** Toroidal wrapping of the neighbour at offset [o] of [(x, y)]. *)
Definition wrap (size x y : Z) (o : coord) : coord :=
  ((x + fst o) mod size, (y + snd o) mod size).

(** The neighbour at offset [o], not wrapped. *)
Definition shift (x y : Z) (o : coord) : coord := (x + fst o, y + snd o).

(** How often [p] occurs in a list of coordinates. *)
Definition occurrences (p : coord) (l : list coord) : Z :=
  fold_left (fun count c => if coord_eqb c p then count + 1 else count) l 0.

(** The lists the radius-1 helper can return on a grid of size 5: either
    set of directions, wrapped or filtered. *)
Definition neighbor_lists_5 (c : coord) : list (list coord) :=
  flat_map (fun ds =>
    [map (wrap 5 (fst c) (snd c)) ds;
     filter (in_rangeb 5) (map (shift (fst c) (snd c)) ds)])
    [directions "von_neumann"; directions "moore"].

(** *** Initialisation *)

(** The number of cells of one row equal to [v]. *)
Definition count_row (row : list Z) (v : Z) : Z :=
  fold_right (fun x acc => if x =? v then acc + 1 else acc) 0 row.

(** The state between two stages of the placement: the grid is square,
    [current_index] lies within the list and the cells of the indices not
    yet consumed are Empty. *)
Definition stage_ok (n : nat) (idx : list Z) (g : array2) (current_index : Z)
    : Prop :=
  square n g
  /\ 0 <= current_index <= Z.of_nat (length idx)
  /\ forall i, In i (skipn (Z.to_nat current_index) idx) ->
                get2 g (unravel_index (Z.of_nat n) i) = EMPTY.

(** The density that caps predators plus prey, in tenths: 30% from size
    1000 on, 40% from size 800 on, 80% below. *)
Definition density_tenths (size : Z) : Z :=
  if size >=? 1000 then 3 else if size >=? 800 then 4 else 8.

(** The same density as the float of the source. *)
Definition max_density (size : Z) : Q :=
  if size >=? 1000 then (3 # 10)%Q
  else if size >=? 800 then (4 # 10)%Q else (8 # 10)%Q.

(** The largest total the cap allows: [int(total_cells * max_density)]. *)
Definition entity_cap (size : Z) : Z :=
  Qtrunc (fmul (inject_Z (size * size)) (max_density size)).

(** The prey share of a cap: [int(max_entities * (prey / total))]. *)
Definition prey_share (cap initial_prey initial_predators : Z) : Z :=
  Qtrunc (fmul (inject_Z cap)
               (int_truediv initial_prey (initial_prey + initial_predators))).

(** The requested total exceeds the cap. *)
Definition clamp_applies (size initial_prey initial_predators : Z) : Prop :=
  size * size * density_tenths size < (initial_prey + initial_predators) * 10.

(** The predator share worded as the floor of the cap times a ratio. *)
Definition claimed_predator_share (cap : Z) (ratio : Q) : Z :=
  Qfloor (inject_Z cap * ratio).


(** *** What a rule may do

    The effects of the rules on the buffers, without the generator: each
    constructor is one path through the rule, with the facts about the
    committed state that the path has tested. *)

Definition predator_threshold (s : Simulation) : Z :=
  get_or (predator_starvation_steps (params s)) 10.

Definition prey_threshold (s : Simulation) : Z :=
  get_or (prey_starvation_steps (params s)) 15.

(** The four writes of a predator that leaves [(x, y)] for [dest] with
    hunger [h]. *)
Definition predator_goes (w : Work) (x y : Z) (dest : coord) (h : Z) : Work :=
  set_predator_hunger
    (set_predator_hunger
       (set_grid (set_grid w dest PREDATOR) (x, y) EMPTY) dest h)
    (x, y) (-1).

(** The writes of a prey that leaves [(x, y)] for [dest] with hunger [h]. *)
Definition prey_goes (w : Work) (x y : Z) (dest : coord) (h : Z) : Work :=
  set_prey_hunger
    (set_prey_hunger (set_grid (set_grid w dest PREY) (x, y) EMPTY) dest h)
    (x, y) (-1).

Inductive predator_effect (s : Simulation) (x y : Z) (w : Work) : Work -> Prop :=
| predator_random_death :
    (0 < get_or (predator_death_chance (params s)) (5 # 1000))%Q ->
    predator_effect s x y w (set_grid w (x, y) EMPTY)
| predator_starves :
    predator_threshold s <= get2 (predator_hunger s) (x, y) ->
    predator_effect s x y w (set_grid w (x, y) EMPTY)
| predator_hunts prey :
    get2 (predator_hunger s) (x, y) < predator_threshold s ->
    In prey (_get_nearby_cells s x y 2) ->
    get2 (grid s) prey = PREY ->
    predator_effect s x y w (predator_goes w x y prey 0)
| predator_hunts_and_breeds prey n :
    get2 (predator_hunger s) (x, y) < predator_threshold s ->
    In prey (_get_nearby_cells s x y 2) ->
    get2 (grid s) prey = PREY ->
    In n (_get_nearby_cells s x y 1) ->
    get2 (grid s) n = EMPTY ->
    predator_effect s x y w
      (set_predator_hunger
         (set_grid (predator_goes w x y prey 0) n PREDATOR) n 0)
| predator_stays :
    get2 (predator_hunger s) (x, y) < predator_threshold s ->
    predator_effect s x y w
      (set_predator_hunger w (x, y) (get2 (predator_hunger s) (x, y) + 1))
| predator_moves n :
    get2 (predator_hunger s) (x, y) < predator_threshold s ->
    In n (_get_nearby_cells s x y 1) ->
    get2 (grid s) n = EMPTY ->
    predator_effect s x y w
      (predator_goes
         (set_predator_hunger w (x, y) (get2 (predator_hunger s) (x, y) + 1))
         x y n (get2 (predator_hunger s) (x, y) + 1)).

Inductive prey_effect (s : Simulation) (x y : Z) (w : Work) : Work -> Prop :=
| prey_random_death :
    (0 < get_or (prey_death_chance (params s)) (1 # 100))%Q ->
    prey_effect s x y w (set_grid w (x, y) EMPTY)
| prey_starves :
    prey_threshold s <= get2 (prey_hunger s) (x, y) ->
    prey_effect s x y w (set_grid w (x, y) EMPTY)
| prey_stays :
    get2 (prey_hunger s) (x, y) < prey_threshold s ->
    prey_effect s x y w
      (set_prey_hunger w (x, y) (get2 (prey_hunger s) (x, y) + 1))
| prey_eats sub :
    get2 (prey_hunger s) (x, y) < prey_threshold s ->
    In sub (_get_nearby_cells s x y 1) ->
    get2 (grid s) sub = SUBSTRATE ->
    prey_effect s x y w
      (set_prey_hunger
         (set_grid
            (set_prey_hunger w (x, y) (get2 (prey_hunger s) (x, y) + 1))
            sub EMPTY)
         (x, y) 0)
| prey_eats_and_breeds sub n :
    get2 (prey_hunger s) (x, y) < prey_threshold s ->
    In sub (_get_nearby_cells s x y 1) ->
    get2 (grid s) sub = SUBSTRATE ->
    In n (_get_nearby_cells s x y 1) ->
    get2 (grid s) n = EMPTY ->
    prey_effect s x y w
      (set_prey_hunger
         (set_grid
            (set_prey_hunger
               (set_grid
                  (set_prey_hunger w (x, y) (get2 (prey_hunger s) (x, y) + 1))
                  sub EMPTY)
               (x, y) 0)
            n PREY)
         n 0)
| prey_moves n :
    get2 (prey_hunger s) (x, y) < prey_threshold s ->
    (forall c, In c (_get_nearby_cells s x y 1) -> get2 (grid s) c <> SUBSTRATE) ->
    In n (_get_nearby_cells s x y 1) ->
    get2 (grid s) n = EMPTY ->
    prey_effect s x y w
      (set_prey_hunger
         (set_prey_hunger
            (set_grid
               (set_grid
                  (set_prey_hunger w (x, y) (get2 (prey_hunger s) (x, y) + 1))
                  n PREY)
               (x, y) EMPTY)
            n (get2 (prey_hunger s) (x, y) + 1))
         (x, y) (-1)).

Inductive substrate_effect (s : Simulation) (x y : Z) (w : Work) : Work -> Prop :=
| substrate_decays :
    (0 < substrate_random_death (params s))%Q ->
    substrate_effect s x y w (set_grid w (x, y) EMPTY)
| substrate_persists : substrate_effect s x y w w.

Inductive empty_effect (s : Simulation) (x y : Z) (w : Work) : Work -> Prop :=
| empty_predator_birth :
    2 <= count_neighbors (grid s) x y PREDATOR
           (neighborhood_type (params s)) (grid_type (params s)) ->
    1 <= count_neighbors (grid s) x y PREY
           (neighborhood_type (params s)) (grid_type (params s)) ->
    empty_effect s x y w
      (count_predator_birth
         (set_predator_hunger (set_grid w (x, y) PREDATOR) (x, y) 0))
| empty_regrowth :
    (0 < fdiv (initial_substrate_probability (params s)) 10)%Q ->
    empty_effect s x y w
      (count_substrate_created (set_grid w (x, y) SUBSTRATE))
| empty_remains : empty_effect s x y w w.

(** The effect of processing one cell of the sweep. *)
Inductive cell_effect (s : Simulation) (c : coord) (w : Work) : Work -> Prop :=
| cell_skipped :
    get2 (new_grid w) c <> get2 (grid s) c -> cell_effect s c w w
| cell_predator w' :
    get2 (new_grid w) c = PREDATOR -> get2 (grid s) c = PREDATOR ->
    predator_effect s (fst c) (snd c) w w' -> cell_effect s c w w'
| cell_predator_fault :
    get2 (grid s) c = PREDATOR ->
    predator_threshold s = 0 -> get2 (predator_hunger s) c < 0 ->
    cell_effect s c w (set_grid w c (get2 (grid s) c))
| cell_prey w' :
    get2 (new_grid w) c = PREY -> get2 (grid s) c = PREY ->
    prey_effect s (fst c) (snd c) w w' -> cell_effect s c w w'
| cell_substrate w' :
    get2 (new_grid w) c = SUBSTRATE -> get2 (grid s) c = SUBSTRATE ->
    substrate_effect s (fst c) (snd c) w w' -> cell_effect s c w w'
| cell_empty w' :
    get2 (new_grid w) c = EMPTY -> get2 (grid s) c = EMPTY ->
    empty_effect s (fst c) (snd c) w w' -> cell_effect s c w w'
| cell_other :
    get2 (grid s) c <> PREDATOR -> get2 (grid s) c <> PREY ->
    get2 (grid s) c <> SUBSTRATE -> get2 (grid s) c <> EMPTY ->
    cell_effect s c w w.

(** *** The sweep *)

(** Cell [d] of the next-generation grid holds a value written during the
    sweep: it differs from the generation-start value. *)
Definition written (s : Simulation) (w : Work) (d : coord) : Prop :=
  get2 (new_grid w) d <> get2 (grid s) d.

(** First-writer-wins along a processing order: at every point of the
    sweep, the rule of the next cell leaves alone every cell of the
    next-generation grid that was written before. *)
Definition first_writer_wins (s : Simulation) (order : list coord)
    (w : Work) (r : Rng) : Prop :=
  forall done c rest d,
    order = done ++ c :: rest ->
    let st := sweep s done w r in
    written s (fst st) d ->
    get2 (new_grid (fst (process_cell s (fst st) c (snd st)))) d
    = get2 (new_grid (fst st)) d.

(** *** Reachable states and the hunger arrays *)

(** The states a session goes through: the constructor on a square grid,
    then any number of calls of [step]. *)
Inductive reachable : Simulation -> Prop :=
| reachable_init n g p recording adjustment now :
    square n g -> reachable (init g p recording adjustment now)
| reachable_step s alloc_ok now r :
    reachable s -> reachable (snd (fst (step alloc_ok now s r))).

(** The hunger invariant of one array: the counter of a cell is -1 exactly
    when the cell is not of the kind of the array, and non-negative
    otherwise. *)
Definition hunger_matches (g hunger : array2) (kind : Z) : Prop :=
  forall c, in_range (shape0 g) c ->
    (get2 hunger c = -1 <-> get2 g c <> kind)
    /\ (get2 g c = kind -> 0 <= get2 hunger c).

Definition hunger_invariant (s : Simulation) : Prop :=
  hunger_matches (grid s) (predator_hunger s) PREDATOR
  /\ hunger_matches (grid s) (prey_hunger s) PREY.

(** Every predator has a non-negative hunger counter. *)
Definition predator_hunger_ok (g hunger : array2) : Prop :=
  forall c, get2 g c = PREDATOR -> 0 <= get2 hunger c.

Definition hunger_tracked (n : nat) (s : Simulation) : Prop :=
  square n (grid s) /\ square n (predator_hunger s)
  /\ predator_hunger_ok (grid s) (predator_hunger s).

(** The same during a sweep: a predator of the buffer has a counter in the
    buffer, or it is a predator of the committed grid whose turn is still
    to come. *)
Definition sweep_tracked (s : Simulation) (n : nat) (rest : list coord)
    (w : Work) : Prop :=
  square n (new_grid w) /\ square n (new_predator_hunger w)
  /\ forall c, get2 (new_grid w) c = PREDATOR ->
       0 <= get2 (new_predator_hunger w) c
       \/ (get2 (grid s) c = PREDATOR /\ In c rest).

(** Every prey has a non-negative hunger counter. *)
Definition prey_hunger_ok (g hunger : array2) : Prop :=
  forall c, get2 g c = PREY -> 0 <= get2 hunger c.

Definition prey_tracked (n : nat) (s : Simulation) : Prop :=
  square n (grid s) /\ square n (prey_hunger s)
  /\ prey_hunger_ok (grid s) (prey_hunger s).

Definition sweep_tracked_prey (s : Simulation) (n : nat) (rest : list coord)
    (w : Work) : Prop :=
  square n (new_grid w) /\ square n (new_prey_hunger w)
  /\ forall c, get2 (new_grid w) c = PREY ->
       0 <= get2 (new_prey_hunger w) c
       \/ (get2 (grid s) c = PREY /\ In c rest).

(** *** Starvation *)

(** The simulation after [k] generations, all stamped [now]. *)
Fixpoint generations (k : nat) (now : string) (s : Simulation) (r : Rng)
    : Simulation * Rng :=
  match k with
  | O => (s, r)
  | S k' => let '(s', r') := generations k' now s r in next now s' r'
  end.

(** The probability that [_update_predator] compares its hunting draw
    with. *)
Definition hunt_probability (s : Simulation) (x y : Z) : Q :=
  fmul (get_or (hunt_success_prob (params s)) (7 # 10))
       (fadd 1 (fdiv (inject_Z (get2 (predator_hunger s) (x, y)))
                     (inject_Z (predator_threshold s)))).

(** The first draw of the rule of a predator is below the death chance. *)
Definition predator_dies_at_random (s : Simulation) (r : Rng) : bool :=
  Qltb (fst (random r)) (get_or (predator_death_chance (params s)) (5 # 1000)).

(** The predator at [(x, y)] feeds: a Prey is within distance 2 and the
    draw that follows the death draw is below the hunting probability. *)
Definition predator_feeds (s : Simulation) (x y : Z) (r : Rng) : bool :=
  fst (and_draw
         (nonempty (filter (fun c => get2 (grid s) c =? PREY)
                           (_get_nearby_cells s x y 2)))
         (hunt_probability s x y) (snd (random r))).

(** What [_update_predator] does to a predator that starves, and to one
    that neither dies at random nor feeds: whether no Prey is in reach or
    the hunting draw fails. *)
Definition predator_unfed (s : Simulation) (w : Work) (x y : Z) (r : Rng) : Prop :=
  let h := get2 (predator_hunger s) (x, y) in
  let t := predator_threshold s in
  let out := _update_predator s w x y r in
  (t <= h -> exists r', out = Done (set_grid w (x, y) EMPTY) r')
  /\ (h < t -> t <> 0 ->
      predator_dies_at_random s r = false ->
      predator_feeds s x y r = false ->
      (exists r', out = Done (set_predator_hunger w (x, y) (h + 1)) r')
      \/ (exists m r',
            In m (_get_nearby_cells s x y 1) /\ get2 (grid s) m = EMPTY
            /\ out = Done (predator_goes
                             (set_predator_hunger w (x, y) (h + 1))
                             x y m (h + 1)) r'))
  /\ ((forall c, In c (_get_nearby_cells s x y 2) -> get2 (grid s) c <> PREY)
      -> predator_feeds s x y r = false).

(** The first draw of the rule of a prey is below the death chance. *)
Definition prey_dies_at_random (s : Simulation) (r : Rng) : bool :=
  Qltb (fst (random r)) (get_or (prey_death_chance (params s)) (1 # 100)).

(** The prey at [(x, y)] stays put because of a Predator next to it: the
    draw that follows the death draw is below 0.7. *)
Definition prey_freezes (s : Simulation) (x y : Z) (r : Rng) : bool :=
  fst (and_draw
         (existsb (fun c => get2 (grid s) c =? PREDATOR)
                  (_get_nearby_cells s x y 1))
         (double (7 # 10)) (snd (random r))).

(** The prey at [(x, y)] feeds: it does not stay put and a Substrate cell
    is next to it. *)
Definition prey_feeds (s : Simulation) (x y : Z) (r : Rng) : bool :=
  negb (prey_freezes s x y r)
  && nonempty (filter (fun c => get2 (grid s) c =? SUBSTRATE)
                      (_get_nearby_cells s x y 1)).

(** What [_update_prey] does to a prey that starves, and to one that
    neither dies at random nor feeds: whether no Substrate is next to it or
    a Predator next to it keeps it in place. *)
Definition prey_unfed (s : Simulation) (w : Work) (x y : Z) (r : Rng) : Prop :=
  let h := get2 (prey_hunger s) (x, y) in
  let t := prey_threshold s in
  let out := _update_prey s w x y r in
  (t <= h -> exists r', out = (set_grid w (x, y) EMPTY, r'))
  /\ (h < t ->
      prey_dies_at_random s r = false ->
      prey_feeds s x y r = false ->
      (exists r', out = (set_prey_hunger w (x, y) (h + 1), r'))
      \/ (exists m r',
            In m (_get_nearby_cells s x y 1) /\ get2 (grid s) m = EMPTY
            /\ out = (prey_goes (set_prey_hunger w (x, y) (h + 1))
                                x y m (h + 1), r')))
  /\ ((forall c, In c (_get_nearby_cells s x y 1) ->
                 get2 (grid s) c <> SUBSTRATE)
      -> prey_feeds s x y r = false).

(** The 5 x 5 grid whose only entity is a predator at [p]. *)
Definition lone_grid (p : coord) : array2 := set2 (full 5 EMPTY) p PREDATOR.

(** The simulation holds one predator, at [p] with hunger [h], and no
    prey. *)
Definition lone_predator (s : Simulation) (p : coord) (h : Z) : Prop :=
  in_range 5 p
  /\ square 5 (grid s) /\ square 5 (predator_hunger s)
  /\ get2 (grid s) p = PREDATOR
  /\ get2 (predator_hunger s) p = h
  /\ forall c, c <> p -> get2 (grid s) c <> PREDATOR /\ get2 (grid s) c <> PREY.

(** The simulation holds neither predator nor prey. *)
Definition no_hunter (s : Simulation) : Prop :=
  forall c, get2 (grid s) c <> PREDATOR /\ get2 (grid s) c <> PREY.

(** The state of the buffers while the lone predator of [s] is swept: its
    turn is still to come, or it has survived at [p'] with hunger [h + 1],
    or it has starved. *)
Definition lone_sweep (s : Simulation) (p : coord) (h : Z)
    (rest : list coord) (w : Work) : Prop :=
  square 5 (new_grid w) /\ square 5 (new_predator_hunger w)
  /\ ((In p rest /\ get2 (new_grid w) p = PREDATOR
       /\ forall c, c <> p ->
            get2 (new_grid w) c <> PREDATOR /\ get2 (new_grid w) c <> PREY)
      \/ (~ In p rest /\ h < 3
          /\ exists p', in_range 5 p'
               /\ get2 (new_grid w) p' = PREDATOR
               /\ get2 (new_predator_hunger w) p' = h + 1
               /\ forall c, c <> p' ->
                    get2 (new_grid w) c <> PREDATOR
                    /\ get2 (new_grid w) c <> PREY)
      \/ (~ In p rest /\ 3 <= h
          /\ get2 (new_grid w) p = EMPTY
          /\ forall c, get2 (new_grid w) c <> PREDATOR
                       /\ get2 (new_grid w) c <> PREY)).

(** The cell [p] is Empty after [k] generations. *)
Definition starved_after (k : nat) (p : coord) (now : string)
    (s : Simulation) (r : Rng) : Prop :=
  get2 (grid (fst (generations k now s r))) p = EMPTY.

(** *** Failure of an allocation *)

(** A failed allocation reaches the caller of [step] as an error. *)
Definition allocation_failure_surfaces (now : string) (s : Simulation) (r : Rng)
    : Prop :=
  exists e, fst (fst (step false now s r)) = Propagated e.

(** ** Concrete simulations used in the examples *)

Module Examples.

(** The word whose [random.random()] is [num / den] rounded down to a
    multiple of [2^-53]. *)
Definition uniform (num den : Z) : N :=
  Z.to_N (num * Zpos two53 / den).

(** A generator reading its words from a list, then zeros. *)
Definition rng_of (words : list N) : Rng :=
  mkRng (fun i => nth i words 0%N) 0.

Definition zeros : Rng := rng_of [].

(** A parameter dictionary as the transport layer builds it (none of the
    keys read with [.get] except the starvation thresholds), for a given
    boundary mode. *)
Definition settings (neighborhood boundary : string) : Params :=
  mkParams neighborhood boundary None (Some 10) None None None None (Some 3)
           None (3 # 100) (33 # 100) (25 # 100).

(** A 3 x 3 grid with one prey, one predator and one substrate cell. *)
Definition small_grid : array2 := [[0; 1; 0]; [2; 0; 0]; [3; 0; 0]].

Definition finite_sim : Simulation :=
  init small_grid (settings "moore" "finite") true None "2024-01-01T00:00:00".

Definition torus_sim : Simulation :=
  init small_grid (settings "moore" "torus") true None "2024-01-01T00:00:00".

(** A 5 x 5 torus with a predator at (2, 2) and a prey next to it. *)
Definition hunt_grid : array2 :=
  [[0; 0; 0; 0; 0]; [0; 0; 0; 0; 0]; [0; 0; 2; 1; 0];
   [0; 0; 0; 0; 0]; [0; 0; 0; 0; 0]].

(** A 5 x 5 torus with a predator at (2, 2) and a prey two cells away. *)
Definition move_grid : array2 :=
  [[0; 0; 0; 0; 0]; [0; 0; 0; 0; 0]; [0; 0; 2; 0; 1];
   [0; 0; 0; 0; 0]; [0; 0; 0; 0; 0]].

(** Parameters without births, regrowth or substrate decay. *)
Definition quiet (neighborhood boundary : string) : Params :=
  mkParams neighborhood boundary None (Some 10) None None None None (Some 3)
           None 0 0 0.

Definition hunt_sim : Simulation :=
  init hunt_grid (quiet "moore" "torus") false None "2024-01-01T00:00:00".

Definition move_sim : Simulation :=
  init move_grid (quiet "moore" "torus") false None "2024-01-01T00:00:00".

(** The prey (2, 3) is processed first and freezes; the predator (2, 2) is
    processed second and hunts it. *)
Definition hunt_rng : Rng :=
  rng_of ([13; 12] ++ repeat 0 23
          ++ [uniform 9 10; uniform 1 10;
              uniform 9 10; uniform 1 10; 0; uniform 9 10])%N.

(** The prey (2, 4) is processed first and moves to (2, 3); the predator
    (2, 2) is processed second, fails its hunt and moves to (2, 3). *)
Definition move_rng : Rng :=
  rng_of ([14; 12] ++ repeat 0 23
          ++ [uniform 9 10; 3;
              uniform 9 10; uniform 9 10; uniform 1 10; 4])%N.

(** The lone predator: a predator at (2, 2) of the empty 5 x 5 torus,
    death chance 0 under the key [predator_death_chance] that the rule
    reads, starvation after 3 steps. *)
Definition lone_params : Params :=
  mkParams "moore" "torus" (Some 0%Q) (Some 3) None None None None (Some 3)
           None (3 # 100) (33 # 100) (25 # 100).

Definition lone_sim : Simulation :=
  init (lone_grid (2, 2)) lone_params false None "2024-01-01T00:00:00".

(** Every draw is 0.9: no move, no regrowth. *)
Definition steady_rng : Rng := mkRng (fun _ => uniform 9 10) 0.

End Examples.


(** ** grid.py: the remaining functions *)

(** [create_empty_grid] with its validation: a size that is not positive
    raises [ValueError] with the message given. *)
Definition create_empty_grid_checked (size : Z) : string + array2 :=
  if size <=? 0
  then inl ("Grid size must be a positive integer, got " ++ str_Z size)%string
  else inr (create_empty_grid size).

(** [find_empty_neighbor]; [r] is the generator of [random]. *)
Definition find_empty_neighbor (grid : array2) (x y : Z)
    (neighborhood_type grid_type : string) (r : Rng) : option coord * Rng :=
  let empty_neighbors :=
    filter (fun c => get2 grid c =? EMPTY)
           (get_neighbors_coords grid x y neighborhood_type grid_type) in
  if nonempty empty_neighbors
  then let '(c, r') := choice (0, 0) empty_neighbors r in (Some c, r')
  else (None, r).

(** *** Vocabulary: adjacency *)

(** [q] is next to [p]: one step along an axis for the von Neumann
    neighbourhood, one step along an axis or a diagonal otherwise. *)
Definition adjacent (neighborhood_type : string) (p q : coord) : Prop :=
  let dx := fst q - fst p in
  let dy := snd q - snd p in
  if String.eqb neighborhood_type "von_neumann"
  then Z.abs dx + Z.abs dy = 1
  else Z.max (Z.abs dx) (Z.abs dy) = 1.

(** The number of neighbours of a cell of a torus. *)
Definition neighborhood_size (neighborhood_type : string) : Z :=
  if String.eqb neighborhood_type "von_neumann" then 4 else 8.

(** *** Vocabulary: grids of entity codes *)

(** Every cell holds one of the four entity codes. *)
Definition cells_valid (g : array2) : Prop :=
  Forall (Forall (fun v => 0 <= v <= 3)) g.

(** The arguments pass the validation of [initialize_grid]. *)
Definition valid_request (size initial_prey initial_predators : Z)
    (initial_substrate_prob : Q) : Prop :=
  0 < size /\ 0 <= initial_prey /\ 0 <= initial_predators
  /\ (0 <= initial_substrate_prob)%Q /\ (initial_substrate_prob <= 1)%Q.

(** The substrate probability that is applied: capped at 0.2 from size 800
    on. *)
Definition applied_substrate_prob (size : Z) (initial_substrate_prob : Q) : Q :=
  if size >=? 800 then Qmin initial_substrate_prob (2 # 10)
  else initial_substrate_prob.

(** *** Vocabulary: sessions and populations *)

(** [s'] is reached from [s] by any number of calls of [step], with
    allocations that succeed or fail. *)
Inductive evolves (s : Simulation) : Simulation -> Prop :=
| evolves_here : evolves s s
| evolves_step s' alloc_ok now r :
    evolves s s' -> evolves s (snd (fst (step alloc_ok now s' r))).

(** What the code [old] of a cell can be replaced with in one generation:
    an entity dies or is eaten, a prey is replaced by the predator that
    hunts it, an Empty cell receives an entity. *)
Definition may_become (old new : Z) : Prop :=
  new = old
  \/ (1 <= old <= 3 /\ new = EMPTY)
  \/ (old = PREY /\ new = PREDATOR)
  \/ (old = EMPTY /\ 1 <= new <= 3).

(** Every predator has gone at least [k] generations without feeding. *)
Definition hunger_at_least (k : Z) (s : Simulation) : Prop :=
  forall c, get2 (grid s) c = PREDATOR -> k <= get2 (predator_hunger s) c.

(** During a sweep of a grid without prey whose predators have hunger at
    least [k]: a predator of the buffer has hunger above [k] in the buffer,
    or it is a predator of the committed grid whose turn is still to
    come. *)
Definition sweep_hungry (s : Simulation) (n : nat) (k : Z) (rest : list coord)
    (w : Work) : Prop :=
  square n (new_grid w) /\ square n (new_predator_hunger w)
  /\ forall c, get2 (new_grid w) c = PREDATOR ->
       k + 1 <= get2 (new_predator_hunger w) c
       \/ (get2 (grid s) c = PREDATOR /\ In c rest).

(** During a sweep in which every predator starves: the predators of the
    buffer are predators of the committed grid whose turn is still to
    come. *)
Definition sweep_starving (s : Simulation) (n : nat) (rest : list coord)
    (w : Work) : Prop :=
  square n (new_grid w)
  /\ forall c, get2 (new_grid w) c = PREDATOR ->
       get2 (grid s) c = PREDATOR /\ In c rest.

(** ** simulation.py: the remaining readers *)

(** [get_historical_stats] *)
Definition get_historical_stats (s : Simulation) : History := stats s.

(** The generations [0 .. m] of a session that starts from [s0], all
    stamped [now]. *)
Definition generation (now : string) (s0 : Simulation) (r : Rng) (k : nat)
    : Simulation :=
  fst (generations k now s0 r).

(** *** Vocabulary: the extended neighbourhood *)

(** [c] is within [distance] of [(x, y)] and is not [(x, y)] itself: in
    both coordinates, and for the von Neumann neighbourhood also in the sum
    of the two offsets. *)
Definition within (neighborhood_type : string) (distance x y : Z) (c : coord)
    : Prop :=
  let dx := fst c - x in
  let dy := snd c - y in
  Z.abs dx <= distance /\ Z.abs dy <= distance
  /\ ~ (dx = 0 /\ dy = 0)
  /\ (neighborhood_type = "von_neumann" -> Z.abs dx + Z.abs dy <= distance).

(** What a successful hunt from [(x, y)] writes: the move onto a prey in
    reach, and possibly an offspring on an Empty neighbour. *)
Definition hunted (s : Simulation) (x y : Z) (w w' : Work) : Prop :=
  exists prey,
    In prey (_get_nearby_cells s x y 2) /\ get2 (grid s) prey = PREY
    /\ (w' = predator_goes w x y prey 0
        \/ exists m,
             In m (_get_nearby_cells s x y 1) /\ get2 (grid s) m = EMPTY
             /\ w' = set_predator_hunger
                       (set_grid (predator_goes w x y prey 0) m PREDATOR) m 0).

(** Every prey has gone at least [k] generations without feeding. *)
Definition prey_hunger_at_least (k : Z) (s : Simulation) : Prop :=
  forall c, get2 (grid s) c = PREY -> k <= get2 (prey_hunger s) c.

(** Nothing for prey to eat, now or later: no Substrate cell, and Empty
    cells never turn into Substrate. *)
Definition barren (s : Simulation) : Prop :=
  (forall c, get2 (grid s) c <> SUBSTRATE)
  /\ (initial_substrate_probability (params s) <= 0)%Q.

(** During a sweep of a barren grid whose prey have hunger at least [k]: a
    prey of the buffer has hunger above [k] in the buffer, or it is a prey
    of the committed grid whose turn is still to come. *)
Definition sweep_hungry_prey (s : Simulation) (n : nat) (k : Z)
    (rest : list coord) (w : Work) : Prop :=
  square n (new_grid w) /\ square n (new_prey_hunger w)
  /\ forall c, get2 (new_grid w) c = PREY ->
       k + 1 <= get2 (new_prey_hunger w) c
       \/ (get2 (grid s) c = PREY /\ In c rest).

(** During a sweep in which every prey starves: the prey of the buffer are
    prey of the committed grid whose turn is still to come. *)
Definition sweep_starving_prey (s : Simulation) (n : nat) (rest : list coord)
    (w : Work) : Prop :=
  square n (new_grid w)
  /\ forall c, get2 (new_grid w) c = PREY ->
       get2 (grid s) c = PREY /\ In c rest.

(** ** Further concrete simulations *)

Module MoreExamples.

(** The 5 x 5 torus of [Examples.hunt_grid] in a state in which the
    predator at (2, 2) has gone 5 generations without feeding. *)
Definition hungry_sim : Simulation :=
  mkSimulation Examples.hunt_grid (Examples.quiet "moore" "torus")
    (mkAdjustment false None None None) false []
    (mkHistory [1] [1] [0]) no_events
    (set2 (full 5 (-1)) (2, 2) 5)
    (set2 (full 5 (-1)) (2, 3) 0).

(** A 5 x 5 torus holding two prey and no substrate, with parameters
    without regrowth. *)
Definition barren_grid : array2 :=
  [[0; 0; 0; 0; 0]; [0; 1; 0; 0; 0]; [0; 0; 0; 0; 0];
   [0; 0; 0; 1; 0]; [0; 0; 0; 0; 0]].

Definition barren_sim : Simulation :=
  init barren_grid (Examples.quiet "moore" "torus") false None
       "2024-01-01T00:00:00".

End MoreExamples.

(** ** models.py and main.py: the transport layer

    Conventions.  An endpoint is a function of the request, of the registry
    [active_simulations] and of what it reads from its environment (the
    generators, the clock, whether a guarded wait ended in time, the
    identifier the database returned); it returns the HTTP outcome with the
    registry and the generators it leaves.  The request bodies are taken
    after their validation by the framework.  A mutable dictionary stored
    in the registry and updated in place is written back into the
    registry. *)

(** [SimulationSettings] *)
Record Settings : Type := mkSettings {
  cfg_grid_size : Z;
  cfg_steps : Z;
  cfg_neighborhood_type : string;
  cfg_grid_type : string;
  cfg_record_simulation : bool;
  cfg_predator_death_probability : Q;
  cfg_predator_birth_probability : Q;
  cfg_initial_predators : Z;
  cfg_predator_starvation_steps : Z;
  cfg_prey_hunted_probability : Q;
  cfg_prey_random_death : Q;
  cfg_initial_prey : Z;
  cfg_prey_birth_probability : Q;
  cfg_prey_starvation_steps : Z;
  cfg_initial_substrate_probability : Q;
  cfg_substrate_random_death : Q;
  cfg_substrate_consumption_prob : Q
}.

(** [settings.dict()], as the engine reads it: the keys of the settings
    that the engine looks up, and none of the keys it looks up under other
    names. *)
Definition settings_dict (c : Settings) : Params :=
  mkParams (cfg_neighborhood_type c) (cfg_grid_type c)
    None (Some (cfg_predator_starvation_steps c)) None None None
    None (Some (cfg_prey_starvation_steps c)) None
    (cfg_substrate_random_death c) (cfg_predator_birth_probability c)
    (cfg_initial_substrate_probability c).

(** The assignments [settings.initial_prey = a] and
    [settings.initial_predators = b]. *)
Definition with_counts (c : Settings) (prey predators : Z) : Settings :=
  mkSettings (cfg_grid_size c) (cfg_steps c) (cfg_neighborhood_type c)
    (cfg_grid_type c) (cfg_record_simulation c)
    (cfg_predator_death_probability c) (cfg_predator_birth_probability c)
    predators (cfg_predator_starvation_steps c)
    (cfg_prey_hunted_probability c) (cfg_prey_random_death c)
    prey (cfg_prey_birth_probability c) (cfg_prey_starvation_steps c)
    (cfg_initial_substrate_probability c) (cfg_substrate_random_death c)
    (cfg_substrate_consumption_prob c).

(** An entry of [active_simulations]. *)
Record SimData : Type := mkSimData {
  sd_simulation : Simulation;
  sd_settings : Settings;
  sd_current_step : Z;
  sd_total_steps : Z;
  sd_status : string;
  sd_created_at : string
}.

Definition with_simulation (d : SimData) (sim : Simulation) (current : Z)
    : SimData :=
  mkSimData sim (sd_settings d) current (sd_total_steps d) (sd_status d)
            (sd_created_at d).

Definition with_status (d : SimData) (status : string) : SimData :=
  mkSimData (sd_simulation d) (sd_settings d) (sd_current_step d)
            (sd_total_steps d) status (sd_created_at d).

(** [active_simulations]: a dictionary in insertion order. *)
Definition Registry : Type := list (string * SimData).

(** [active_simulations[key]], [None] when the key is absent. *)
Fixpoint registry_get (reg : Registry) (key : string) : option SimData :=
  match reg with
  | [] => None
  | (k, d) :: reg' => if String.eqb k key then Some d else registry_get reg' key
  end.

(** [active_simulations[key] = d] *)
Fixpoint registry_set (reg : Registry) (key : string) (d : SimData) : Registry :=
  match reg with
  | [] => [(key, d)]
  | (k, d') :: reg' =>
      if String.eqb k key then (k, d) :: reg'
      else (k, d') :: registry_set reg' key d
  end.

(** The outcome of an endpoint: the body returned, or an [HTTPException]. *)
Inductive http (A : Type) : Type :=
| Http200 (body : A)
| HttpError (status_code : Z) (detail : string).

Arguments Http200 {A} body.
Arguments HttpError {A} status_code detail.

(** The argument [grid] of the constructor of [Simulation] as the callers
    pass it: an array, or the pair that [initialize_grid] returns. *)
Inductive grid_argument : Type :=
| AsArray (g : array2)
| AsPair (g : array2) (report : AdjustmentInfo).

(** [Simulation(grid, params, recording_enabled, adjustment_info)]: on the
    pair, the comparisons with the entity codes are false and the counts 0;
    [self.grid.shape] then raises [AttributeError], whose message is
    returned. *)
Definition new_simulation (grid : grid_argument) (p : Params) (recording : bool)
    (adjustment : option AdjustmentInfo) (now : string) : string + Simulation :=
  match grid with
  | AsArray g => inr (init g p recording adjustment now)
  | AsPair _ _ => inl "'tuple' object has no attribute 'shape'"
  end.

(** *** POST /api/simulate *)

Record StartResponse : Type := mkStartResponse {
  sr_simulation_id : string;
  sr_status : string;
  sr_current_step : Z;
  sr_total_steps : Z;
  sr_grid : array2;
  sr_statistics : Statistics;
  sr_db_save_success : bool;
  sr_adjustments : option AdjustmentInfo
}.

(** What [start_simulation] reads from its environment. *)
Record StartEnv : Type := mkStartEnv {
  env_stamp : string;         (* [datetime.now().strftime('%Y%m%d%H%M%S')] *)
  env_now : string;           (* [datetime.now().isoformat()] *)
  env_init_in_time : bool;    (* the initialisation ends within 300 s *)
  env_settings_id : Z         (* what [db.save_settings] returns; not
                                 positive when the saving fails *)
}.

(** The reduction of the counts that [start_simulation] applies above size
    800, before the initialisation. *)
Definition reduce_for_large_grid (c : Settings) : Settings :=
  if cfg_grid_size c >? 800 then
    let total_cells := cfg_grid_size c * cfg_grid_size c in
    let max_density := (4 # 10)%Q in
    let total_entities := cfg_initial_prey c + cfg_initial_predators c in
    if Qltb (fmul (inject_Z total_cells) max_density) (inject_Z total_entities)
    then
      let ratio :=
        if total_entities >? 0
        then int_truediv (cfg_initial_prey c) total_entities
        else (8 # 10)%Q in
      let max_entities := Qtrunc (fmul (inject_Z total_cells) max_density) in
      let adjusted_prey := Qtrunc (fmul (inject_Z max_entities) ratio) in
      let adjusted_predators := max_entities - adjusted_prey in
      with_counts c adjusted_prey adjusted_predators
    else c
  else c.

Definition start_simulation (env : StartEnv) (settings : Settings)
    (active_simulations : Registry) (r : Rng)
    : http StartResponse * Registry * Rng :=
  let settings := reduce_for_large_grid settings in
  let simulation_id :=
    ("sim_" ++ env_stamp env ++ "_"
     ++ str_Z (Z.of_nat (length active_simulations)))%string in
  (* the initialisation runs in a worker thread, which a timeout of the
     wait does not interrupt *)
  let '(result, r) :=
    initialize_grid (cfg_grid_size settings) (cfg_initial_prey settings)
      (cfg_initial_predators settings)
      (cfg_initial_substrate_probability settings) r in
  if negb (env_init_in_time env) then
    (HttpError 504
       ("Grid initialization timed out. The grid size "
        ++ str_Z (cfg_grid_size settings) ++ "×"
        ++ str_Z (cfg_grid_size settings)
        ++ " is too large to process within the time limit."),
     active_simulations, r)
  else
    match result with
    | inl msg =>
        (* the [ValueError] is caught by the handler of the initialisation *)
        (HttpError 500 ("Grid initialization failed: " ++ msg),
         active_simulations, r)
    | inr (grid, adjustment_info) =>
        let params := settings_dict settings in
        let record_simulation := cfg_record_simulation settings in
        match new_simulation (AsArray grid) params record_simulation
                (if values_adjusted adjustment_info
                 then Some adjustment_info else None)
                (env_now env) with
        | inl msg =>
            (HttpError 500 ("Simulation initialization failed: " ++ msg),
             active_simulations, r)
        | inr simulation =>
            let '(_, simulation) := get_statistics simulation in
            let active_simulations :=
              registry_set active_simulations simulation_id
                (mkSimData simulation settings 0 (cfg_steps settings)
                   "running" (env_now env)) in
            let db_save_success := env_settings_id env >? 0 in
            let '(statistics, _) := get_statistics simulation in
            (Http200
               (mkStartResponse simulation_id "running" 0 (cfg_steps settings)
                  grid statistics db_save_success
                  (if values_adjusted adjustment_info
                   then Some adjustment_info else None)),
             active_simulations, r)
        end
    end.

(** *** POST /api/simulate/{simulation_id}/step *)

Record StepResponse : Type := mkStepResponse {
  rs_simulation_id : string;
  rs_status : string;
  rs_current_step : Z;
  rs_total_steps : Z;
  rs_grid : array2;
  rs_statistics : Statistics;
  rs_message : option string;
  rs_steps_run : Z
}.

(** The loop [for i in range(steps)] of [step_simulation] on a grid below
    size 500, where [simulation.step()] is called directly; it returns the
    entry, the generator and [steps_actually_run].  [step] handles its own
    exceptions, so the handler around the loop is not entered. *)
Fixpoint run_steps (k : nat) (alloc_ok : bool) (now : string) (d : SimData)
    (r : Rng) (steps_actually_run : Z) : SimData * Rng * Z :=
  match k with
  | O => (d, r, steps_actually_run)
  | S k' =>
      if sd_current_step d <? sd_total_steps d then
        let '(_, simulation, r) := step alloc_ok now (sd_simulation d) r in
        let steps_actually_run := steps_actually_run + 1 in
        let d := with_simulation d simulation (sd_current_step d + 1) in
        if sd_current_step d >=? sd_total_steps d
        then (with_status d "completed", r, steps_actually_run)
        else run_steps k' alloc_ok now d r steps_actually_run
      else run_steps k' alloc_ok now d r steps_actually_run
  end.

(** [step_simulation].  From size 500 on the endpoint runs each step in a
    worker thread and waits for it under a timeout; that part is outside
    this embedding and the result is [None]. *)
Definition step_simulation (alloc_ok : bool) (now : string)
    (simulation_id : string) (steps : Z) (active_simulations : Registry)
    (r : Rng) : option (http StepResponse * Registry * Rng) :=
  let steps := if steps <=? 0 then 1 else steps in
  match registry_get active_simulations simulation_id with
  | None => Some (HttpError 404 "Simulation not found", active_simulations, r)
  | Some sim_data =>
      let simulation := sd_simulation sim_data in
      if String.eqb (sd_status sim_data) "completed" then
        Some (Http200
                (mkStepResponse simulation_id (sd_status sim_data)
                   (sd_current_step sim_data) (sd_total_steps sim_data)
                   (grid simulation) (fst (get_statistics simulation))
                   (Some "Simulation already completed") 0),
              active_simulations, r)
      else
        let grid_size := shape0 (grid simulation) in
        if grid_size >=? 500 then None
        else
          let '(sim_data, r, steps_actually_run) :=
            run_steps (Z.to_nat steps) alloc_ok now sim_data r 0 in
          let sim_data :=
            if sd_current_step sim_data >=? sd_total_steps sim_data
            then with_status sim_data "completed" else sim_data in
          let simulation := sd_simulation sim_data in
          Some (Http200
                  (mkStepResponse simulation_id (sd_status sim_data)
                     (sd_current_step sim_data) (sd_total_steps sim_data)
                     (grid simulation) (fst (get_statistics simulation))
                     None steps_actually_run),
                registry_set active_simulations simulation_id sim_data, r)
  end.

(** *** WebSocket /ws/simulate/{simulation_id} *)

(** A command received on the socket, after [json.loads]: its action and,
    when the key is present, its integer [steps]. *)
Record Command : Type := mkCommand {
  cmd_action : string;
  cmd_steps : option Z
}.

(** What the handler sends back. *)
Inductive ws_message : Type :=
| WsState (simulation_id status : string) (current_step total_steps : Z)
          (grid : array2) (statistics : Statistics)
| WsPong (timestamp : string)
| WsStopped (simulation_id status message : string)
| WsError (error : string).

(** The loop of the action ["step"]. *)
Fixpoint ws_run_steps (k : nat) (alloc_ok : bool) (now : string) (d : SimData)
    (r : Rng) : SimData * Rng :=
  match k with
  | O => (d, r)
  | S k' =>
      if sd_current_step d <? sd_total_steps d then
        let '(_, simulation, r) := step alloc_ok now (sd_simulation d) r in
        ws_run_steps k' alloc_ok now
          (with_simulation d simulation (sd_current_step d + 1)) r
      else (with_status d "completed", r)
  end.

Definition ws_state (simulation_id : string) (d : SimData) : ws_message :=
  WsState simulation_id (sd_status d) (sd_current_step d) (sd_total_steps d)
          (grid (sd_simulation d)) (fst (get_statistics (sd_simulation d))).

(** The body of the loop of [websocket_endpoint] for one command, on the
    entry [sim_data] of the simulation of the connection.  [r] is the
    generator of [random], [r_np] the one of [numpy.random]. *)
Definition ws_command (alloc_ok : bool) (now : string) (simulation_id : string)
    (command : Command) (sim_data : SimData) (r r_np : Rng)
    : SimData * ws_message * Rng * Rng :=
  let action := cmd_action command in
  if String.eqb action "ping" then (sim_data, WsPong now, r, r_np)
  else if String.eqb action "step" then
    let steps := get_or (cmd_steps command) 1 in
    let '(sim_data, r) :=
      ws_run_steps (Z.to_nat steps) alloc_ok now sim_data r in
    let sim_data :=
      if sd_current_step sim_data >=? sd_total_steps sim_data
      then with_status sim_data "completed" else sim_data in
    (sim_data, ws_state simulation_id sim_data, r, r_np)
  else if String.eqb action "stop" then
    let sim_data := with_status sim_data "stopped" in
    (sim_data,
     WsStopped simulation_id (sd_status sim_data) "Simulation stopped", r, r_np)
  else if String.eqb action "reset" then
    let settings := sd_settings sim_data in
    match initialize_grid (cfg_grid_size settings) (cfg_initial_prey settings)
            (cfg_initial_predators settings)
            (cfg_initial_substrate_probability settings) r_np with
    | (inl msg, r_np) =>
        (sim_data, WsError ("Error processing command: " ++ msg), r, r_np)
    | (inr (g, report), r_np) =>
        (* [grid] is bound to the pair and passed on as it is *)
        match new_simulation (AsPair g report) (settings_dict settings)
                false None now with
        | inl msg =>
            (sim_data, WsError ("Error processing command: " ++ msg), r, r_np)
        | inr simulation =>
            let sim_data :=
              mkSimData simulation (sd_settings sim_data) 0
                (sd_total_steps sim_data) "running" (sd_created_at sim_data) in
            (sim_data, ws_state simulation_id sim_data, r, r_np)
        end
    end
  else (sim_data, WsError ("Unknown action: " ++ action), r, r_np).

(** *** Vocabulary: the accounting of steps *)

(** The number of generations that a request for [steps] steps runs on an
    entry: as many as requested, up to the steps that remain. *)
Definition steps_to_run (steps : Z) (d : SimData) : Z :=
  Z.max 0 (Z.min steps (sd_total_steps d - sd_current_step d)).

(** The entry accepted by [SimulationSettings]: the bounds of [grid_size]
    and the two neighbourhood names. *)
Definition settings_validated (c : Settings) : Prop :=
  1 <= cfg_grid_size c <= 400
  /\ (cfg_neighborhood_type c = "von_neumann"
      \/ cfg_neighborhood_type c = "moore").

(** [k] consecutive calls of [step]. *)
Fixpoint steps_of (k : nat) (alloc_ok : bool) (now : string) (s : Simulation)
    (r : Rng) : Simulation * Rng :=
  match k with
  | O => (s, r)
  | S k' =>
      let '(_, s', r') := step alloc_ok now s r in
      steps_of k' alloc_ok now s' r'
  end.

(** ** A concrete registry *)

Module TransportExamples.

Definition settings : Settings :=
  mkSettings 5 3 "moore" "torus" false (5 # 100) 0 1 10 (7 # 10) (1 # 100) 1
    (7 # 10) 3 0 0 (6 # 10).

(** The simulation [Examples.hunt_sim], registered for a run of 3 steps. *)
Definition entry : SimData :=
  mkSimData Examples.hunt_sim settings 0 3 "running" "2024-01-01T00:00:00".

Definition registry : Registry := [("sim_1", entry)].

End TransportExamples.
(** * Properties *)

(** ** Floats *)

Section Rounding.

Local Open Scope Q_scope.

Lemma Qltb_iff (a b : Q) : Qltb a b = true <-> a < b.
Proof.
  unfold Qltb. rewrite negb_true_iff. split.
  - intros H. apply Qnot_le_lt. intros Hle.
    apply Qle_bool_iff in Hle. congruence.
  - intros H. destruct (Qle_bool b a) eqn:E; [|reflexivity].
    apply Qle_bool_iff in E. lra.
Qed.

Lemma Qltb_false_iff (a b : Q) : Qltb a b = false <-> b <= a.
Proof.
  split.
  - intros H. apply Qnot_lt_le. intros Hlt. apply Qltb_iff in Hlt. congruence.
  - intros H. destruct (Qltb a b) eqn:E; [|reflexivity].
    apply Qltb_iff in E. lra.
Qed.

(** [int(q)] of a float that is not negative is its floor. *)
Lemma Qtrunc_floor (q : Q) : 0 <= q -> Qtrunc q = Qfloor q.
Proof.
  destruct q as [n d]. unfold Qle, Qtrunc, Qfloor; simpl. intros H.
  apply Z.quot_div_nonneg; lia.
Qed.

Lemma Qfloor_unique (q : Q) (k : Z) :
  inject_Z k <= q -> q < inject_Z (k + 1) -> Qfloor q = k.
Proof.
  intros H1 H2.
  pose proof (Qfloor_le q) as A. pose proof (Qlt_floor q) as B.
  assert (C : inject_Z k < inject_Z (Qfloor q + 1)) by lra.
  assert (D : inject_Z (Qfloor q) < inject_Z (k + 1)) by lra.
  rewrite <- Zlt_Qlt in C, D. lia.
Qed.

(** Rounding to the nearest integer. *)
Lemma round_half_even_near (q : Q) :
  inject_Z (round_half_even q) - (1 # 2) <= q
  /\ q <= inject_Z (round_half_even q) + (1 # 2).
Proof.
  unfold round_half_even.
  pose proof (Qfloor_le q) as A. pose proof (Qlt_floor q) as B.
  rewrite inject_Z_plus in B. change (inject_Z 1) with 1 in B.
  destruct (Qltb (q - inject_Z (Qfloor q)) (1 # 2)) eqn:E1.
  { apply Qltb_iff in E1. split; lra. }
  apply Qltb_false_iff in E1.
  destruct (Qltb (1 # 2) (q - inject_Z (Qfloor q))) eqn:E2.
  { rewrite inject_Z_plus. change (inject_Z 1) with 1. split; lra. }
  apply Qltb_false_iff in E2.
  destruct (Z.even (Qfloor q));
    [|rewrite inject_Z_plus; change (inject_Z 1) with 1]; split; lra.
Qed.

Lemma round_half_even_le (a b : Q) :
  a <= b -> (round_half_even a <= round_half_even b)%Z.
Proof.
  intros Hab. pose proof (Qfloor_resp_le a b Hab) as Hf.
  unfold round_half_even.
  pose proof (Qfloor_le a) as A1. pose proof (Qlt_floor a) as A2.
  pose proof (Qfloor_le b) as B1. pose proof (Qlt_floor b) as B2.
  destruct (Z.eq_dec (Qfloor a) (Qfloor b)) as [E|N].
  - rewrite <- E in *.
    destruct (Qltb (a - inject_Z (Qfloor a)) (1 # 2)) eqn:Ea1.
    + destruct (Qltb (b - inject_Z (Qfloor a)) (1 # 2)); [lia|].
      destruct (Qltb (1 # 2) (b - inject_Z (Qfloor a))); [lia|].
      destruct (Z.even (Qfloor a)); lia.
    + apply Qltb_false_iff in Ea1.
      assert (Eb1 : Qltb (b - inject_Z (Qfloor a)) (1 # 2) = false)
        by (apply Qltb_false_iff; lra).
      rewrite Eb1.
      destruct (Qltb (1 # 2) (a - inject_Z (Qfloor a))) eqn:Ea2.
      * apply Qltb_iff in Ea2.
        assert (Eb2 : Qltb (1 # 2) (b - inject_Z (Qfloor a)) = true)
          by (apply Qltb_iff; lra).
        rewrite Eb2. lia.
      * destruct (Qltb (1 # 2) (b - inject_Z (Qfloor a)));
          destruct (Z.even (Qfloor a)); lia.
  - assert (Hlt : (Qfloor a + 1 <= Qfloor b)%Z) by lia.
    assert (Ha : (Qfloor a <= Qfloor a + 1)%Z) by lia.
    destruct (Qltb (a - inject_Z (Qfloor a)) (1 # 2));
      destruct (Qltb (1 # 2) (a - inject_Z (Qfloor a)));
      destruct (Z.even (Qfloor a));
      destruct (Qltb (b - inject_Z (Qfloor b)) (1 # 2));
      destruct (Qltb (1 # 2) (b - inject_Z (Qfloor b)));
      destruct (Z.even (Qfloor b)); lia.
Qed.

Lemma round_half_even_comp (a b : Q) :
  a == b -> round_half_even a = round_half_even b.
Proof.
  intros E. apply Z.le_antisymm; apply round_half_even_le; lra.
Qed.

Lemma round_half_even_Z (k : Z) : round_half_even (inject_Z k) = k.
Proof.
  unfold round_half_even. rewrite Qfloor_Z.
  assert (E : Qltb (inject_Z k - inject_Z k) (1 # 2) = true)
    by (apply Qltb_iff; lra).
  now rewrite E.
Qed.

(** Powers of two. *)
Lemma pow2_pos (e : Z) : 0 < 2 ^ e.
Proof. apply Qpower_0_lt. reflexivity. Qed.

Lemma pow2_plus (a b : Z) : 2 ^ (a + b) == 2 ^ a * 2 ^ b.
Proof. apply Qpower_plus. discriminate. Qed.

Lemma pow2_succ (a : Z) : 2 ^ (a + 1) == 2 * 2 ^ a.
Proof. rewrite pow2_plus. change (2 ^ 1) with 2. ring. Qed.

Lemma pow2_le (a b : Z) : (a <= b)%Z -> 2 ^ a <= 2 ^ b.
Proof. intros H. apply Qpower_le_compat_l; [assumption | discriminate]. Qed.

Lemma pow2_lt (a b : Z) : (a < b)%Z -> 2 ^ a < 2 ^ b.
Proof. intros H. apply Qpower_lt_compat_l; [assumption | reflexivity]. Qed.

Lemma pow2_Z (a : Z) : (0 <= a)%Z -> 2 ^ a == inject_Z (2 ^ a).
Proof. intros H. now rewrite Zpower_Qpower. Qed.

(** [Qlog2] is the binary logarithm rounded down. *)
Lemma Qlog2_spec (q : Q) :
  0 < q -> 2 ^ Qlog2 q <= q /\ q < 2 ^ (Qlog2 q + 1).
Proof.
  intros Hq. unfold Qlog2.
  destruct q as [n d]. cbn [Qnum Qden].
  assert (Hn : (0 < n)%Z) by (unfold Qlt in Hq; simpl in Hq; lia).
  destruct (Z.log2_spec n Hn) as [A1 A2].
  destruct (Z.log2_spec (Zpos d) ltac:(lia)) as [B1 B2].
  pose proof (Z.log2_nonneg n) as An. pose proof (Z.log2_nonneg (Zpos d)) as Bn.
  set (a := Z.log2 n) in *. set (b := Z.log2 (Zpos d)) in *.
  assert (Ea : 2 ^ a == inject_Z (2 ^ a)) by (now apply pow2_Z).
  assert (Eb : 2 ^ b == inject_Z (2 ^ b)) by (now apply pow2_Z).
  assert (Ea1 : 2 ^ (a + 1) == inject_Z (2 ^ (a + 1))) by (apply pow2_Z; lia).
  assert (Eb1 : 2 ^ (b + 1) == inject_Z (2 ^ (b + 1))) by (apply pow2_Z; lia).
  assert (Hq' : n # d == inject_Z n / inject_Z (Zpos d)) by apply Qmake_Qdiv.
  assert (Hd : 0 < inject_Z (Zpos d)) by reflexivity.
  assert (Q1 : 2 ^ a <= inject_Z n) by (rewrite Ea, <- Zle_Qle; assumption).
  assert (Q2 : inject_Z n < 2 ^ (a + 1)) by (rewrite Ea1, <- Zlt_Qlt; assumption).
  assert (Q3 : 2 ^ b <= inject_Z (Zpos d)) by (rewrite Eb, <- Zle_Qle; assumption).
  assert (Q4 : inject_Z (Zpos d) < 2 ^ (b + 1))
    by (rewrite Eb1, <- Zlt_Qlt; assumption).
  rewrite pow2_succ in Q2, Q4.
  pose proof (pow2_pos a) as Pa. pose proof (pow2_pos b) as Pb.
  assert (Em : 2 ^ (a - b) * 2 ^ b == 2 ^ a).
  { rewrite <- pow2_plus. now replace (a - b + b)%Z with a by lia. }
  pose proof (pow2_pos (a - b)) as Pe.
  assert (Hqd : (n # d) * inject_Z (Zpos d) == inject_Z n).
  { rewrite Hq'. field. lra. }
  set (x := n # d) in *. set (D := inject_Z (Zpos d)) in *.
  set (N := inject_Z n) in *.
  set (E := 2 ^ (a - b)) in *. set (A := 2 ^ a) in *. set (B := 2 ^ b) in *.
  assert (Hup : x < 2 * E) by nra.
  assert (Hlo : E < 2 * x) by nra.
  destruct (Qle_bool E x) eqn:C.
  - apply Qle_bool_iff in C. fold E. split; [assumption|].
    rewrite pow2_succ. fold E. assumption.
  - assert (C' : x < E).
    { apply Qnot_le_lt. intros H. apply Qle_bool_iff in H. congruence. }
    replace (a - b - 1 + 1)%Z with (a - b)%Z by lia. fold E.
    split; [|assumption].
    assert (E2 : E == 2 * 2 ^ (a - b - 1)).
    { unfold E. rewrite <- pow2_succ. now replace (a - b - 1 + 1)%Z with (a - b)%Z by lia. }
    lra.
Qed.

Lemma Qlog2_unique (q : Q) (k : Z) :
  2 ^ k <= q -> q < 2 ^ (k + 1) -> Qlog2 q = k.
Proof.
  intros H1 H2.
  assert (Hq : 0 < q) by (pose proof (pow2_pos k); lra).
  destruct (Qlog2_spec q Hq) as [A B].
  assert (C : 2 ^ k < 2 ^ (Qlog2 q + 1)) by lra.
  assert (D : 2 ^ Qlog2 q < 2 ^ (k + 1)) by lra.
  apply Qpower_lt_compat_l_inv in C; [|reflexivity].
  apply Qpower_lt_compat_l_inv in D; [|reflexivity]. lia.
Qed.

Lemma Qlog2_comp (a b : Q) : 0 < a -> a == b -> Qlog2 a = Qlog2 b.
Proof.
  intros Ha E. destruct (Qlog2_spec a Ha) as [A B].
  symmetry. apply Qlog2_unique; lra.
Qed.

Lemma Qlog2_le (a b : Q) : 0 < a -> a <= b -> (Qlog2 a <= Qlog2 b)%Z.
Proof.
  intros Ha Hab.
  destruct (Qlog2_spec a Ha) as [A _].
  destruct (Qlog2_spec b ltac:(lra)) as [_ B].
  assert (C : 2 ^ Qlog2 a < 2 ^ (Qlog2 b + 1)) by lra.
  apply Qpower_lt_compat_l_inv in C; [lia | reflexivity].
Qed.

(** *** Doubles *)

Lemma double_zero (q : Q) : q == 0 -> double q = 0.
Proof.
  intros E. unfold double. apply Qeq_bool_iff in E. now rewrite E.
Qed.

Lemma double_eq (q : Q) :
  ~ q == 0 ->
  double q == inject_Z (round_half_even (q / 2 ^ fexp q)) * 2 ^ fexp q.
Proof.
  intros N. unfold double.
  destruct (Qeq_bool q 0) eqn:E; [apply Qeq_bool_iff in E; contradiction|].
  apply Qred_correct.
Qed.

Lemma fexp_pos (q : Q) : 0 < q -> fexp q = Z.max (Qlog2 q - 52) (-1074).
Proof.
  intros H. unfold fexp. f_equal. f_equal.
  apply Qlog2_comp; [|apply Qabs_pos; lra].
  rewrite Qabs_pos; lra.
Qed.

Lemma fexp_comp (a b : Q) : ~ a == 0 -> a == b -> fexp a = fexp b.
Proof.
  intros N E. unfold fexp. f_equal. f_equal.
  apply Qlog2_comp; [|now apply Qabs_wd].
  destruct (Qlt_le_dec 0 a).
  - rewrite Qabs_pos; lra.
  - rewrite Qabs_neg by assumption.
    destruct (Qeq_dec a 0); [contradiction|]. 
    destruct (Qlt_le_dec a 0); lra.
Qed.

Lemma double_comp (a b : Q) : a == b -> double a = double b.
Proof.
  intros E. unfold double.
  destruct (Qeq_bool a 0) eqn:Ea.
  - apply Qeq_bool_iff in Ea.
    assert (Eb : Qeq_bool b 0 = true) by (apply Qeq_bool_iff; lra).
    now rewrite Eb.
  - assert (Na : ~ a == 0).
    { intros H. apply Qeq_bool_iff in H. congruence. }
    assert (Eb : Qeq_bool b 0 = false).
    { destruct (Qeq_bool b 0) eqn:Eb; [|reflexivity].
      apply Qeq_bool_iff in Eb. exfalso. apply Na. lra. }
    rewrite Eb. apply Qred_complete.
    rewrite (fexp_comp a b Na E).
    rewrite (round_half_even_comp (a / 2 ^ fexp b) (b / 2 ^ fexp b));
      [reflexivity|].
    now rewrite E.
Qed.

(** The scaled value lies below [2 ^ 53], and from [2 ^ 52] on for a
    normal number. *)
Lemma scaled_bounds (q : Q) :
  0 < q ->
  q / 2 ^ fexp q < 2 ^ 53
  /\ ((-1074 <= Qlog2 q - 52)%Z -> 2 ^ 52 <= q / 2 ^ fexp q).
Proof.
  intros Hq. rewrite fexp_pos by assumption.
  destruct (Qlog2_spec q Hq) as [A B].
  set (l := Qlog2 q) in *.
  set (e := Z.max (l - 52) (-1074)).
  pose proof (pow2_pos e) as Pe.
  assert (Hup : 2 ^ (l + 1) <= 2 ^ 53 * 2 ^ e).
  { rewrite <- pow2_plus. apply pow2_le. lia. }
  split.
  - apply Qlt_shift_div_r; [assumption|]. lra.
  - intros Hn. assert (Ee : e = (l - 52)%Z) by lia.
    apply Qle_shift_div_l; [assumption|].
    rewrite Ee, <- pow2_plus. replace (52 + (l - 52))%Z with l by lia.
    assumption.
Qed.

Lemma significand_bounds (q : Q) :
  0 < q ->
  (0 <= round_half_even (q / 2 ^ fexp q) <= 2 ^ 53)%Z
  /\ ((-1074 <= Qlog2 q - 52)%Z ->
      (2 ^ 52 <= round_half_even (q / 2 ^ fexp q))%Z).
Proof.
  intros Hq. destruct (scaled_bounds q Hq) as [A B].
  pose proof (pow2_pos (fexp q)) as Pe.
  assert (H0 : 0 <= q / 2 ^ fexp q).
  { apply Qle_shift_div_l; [assumption|]. lra. }
  split; [split|].
  - rewrite <- (round_half_even_Z 0). now apply round_half_even_le.
  - rewrite <- (round_half_even_Z (2 ^ 53)). apply round_half_even_le.
    rewrite <- pow2_Z by lia. lra.
  - intros Hn. rewrite <- (round_half_even_Z (2 ^ 52)).
    apply round_half_even_le. rewrite <- pow2_Z by lia. auto.
Qed.

Lemma double_nonneg (q : Q) : 0 <= q -> 0 <= double q.
Proof.
  intros H. destruct (Qeq_dec q 0) as [E|N].
  - rewrite (double_zero q E). lra.
  - rewrite (double_eq q N).
    assert (Hq : 0 < q) by (destruct (Qlt_le_dec 0 q); [assumption | exfalso; apply N; lra]).
    destruct (significand_bounds q Hq) as [[A _] _].
    pose proof (pow2_pos (fexp q)).
    assert (0 <= inject_Z (round_half_even (q / 2 ^ fexp q)))
      by (change 0 with (inject_Z 0); now rewrite <- Zle_Qle).
    nra.
Qed.

Lemma double_nonpos (q : Q) : q <= 0 -> double q <= 0.
Proof.
  intros H. destruct (Qeq_dec q 0) as [E|N].
  - rewrite (double_zero q E). lra.
  - rewrite (double_eq q N).
    pose proof (pow2_pos (fexp q)) as Pe.
    assert (Hs : q / 2 ^ fexp q <= inject_Z 0).
    { apply Qle_shift_div_r; [assumption|]. change (inject_Z 0) with 0. lra. }
    apply round_half_even_le in Hs. rewrite round_half_even_Z in Hs.
    assert (inject_Z (round_half_even (q / 2 ^ fexp q)) <= 0)
      by (change 0 with (inject_Z 0); now rewrite <- Zle_Qle).
    nra.
Qed.

(** The rounding error is at most half a unit in the last place. *)
Lemma double_error (q : Q) :
  ~ q == 0 ->
  double q - q <= 2 ^ fexp q / 2 /\ q - double q <= 2 ^ fexp q / 2.
Proof.
  intros N. rewrite (double_eq q N).
  pose proof (pow2_pos (fexp q)) as Pe.
  destruct (round_half_even_near (q / 2 ^ fexp q)) as [A B].
  set (m := inject_Z (round_half_even (q / 2 ^ fexp q))) in *.
  assert (E : q == q / 2 ^ fexp q * 2 ^ fexp q) by (field; lra).
  set (y := q / 2 ^ fexp q) in *. set (u := 2 ^ fexp q) in *.
  assert (G1 : m * u - q <= u * (1 # 2)) by nra.
  assert (G2 : q - m * u <= u * (1 # 2)) by nra.
  unfold Qdiv. change (/ 2) with (1 # 2). split; lra.
Qed.

(** A number of at most 53 significant bits, with an exponent that a
    double has, is a double. *)
Lemma double_exact (q : Q) (m k : Z) :
  (0 < m <= 2 ^ 53)%Z -> (-1074 <= k)%Z -> q == inject_Z m * 2 ^ k ->
  double q == q.
Proof.
  intros Hm Hk E.
  pose proof (pow2_pos k) as Pk.
  assert (Hm0 : 0 < inject_Z m)
    by (change 0 with (inject_Z 0); rewrite <- Zlt_Qlt; lia).
  assert (Hq : 0 < q) by nra.
  assert (N : ~ q == 0) by lra.
  destruct (Z.log2_spec m ltac:(lia)) as [L1 L2].
  pose proof (Z.log2_nonneg m) as L0.
  set (l := Z.log2 m) in *.
  assert (Hl : (l <= 53)%Z).
  { destruct (Z_le_gt_dec l 53); [assumption|].
    assert (2 ^ 54 <= 2 ^ l)%Z by (apply Z.pow_le_mono_r; lia). lia. }
  assert (Q1 : 2 ^ l <= inject_Z m) by (rewrite pow2_Z, <- Zle_Qle; lia).
  assert (Q2 : inject_Z m < 2 ^ (l + 1))
    by (rewrite pow2_Z, <- Zlt_Qlt; lia).
  assert (Elog : Qlog2 q = (l + k)%Z).
  { apply Qlog2_unique.
    - rewrite pow2_plus. pose proof (pow2_pos l). nra.
    - replace (l + k + 1)%Z with ((l + 1) + k)%Z by lia.
      rewrite pow2_plus. pose proof (pow2_pos (l + 1)). nra. }
  assert (Ee : fexp q = Z.max (l + k - 52) (-1074)).
  { rewrite fexp_pos, Elog by assumption. reflexivity. }
  assert (Hint : exists M, q / 2 ^ fexp q == inject_Z M).
  { pose proof (pow2_pos (fexp q)) as Pe.
    destruct (Z_le_gt_dec l 52) as [Hl52|Hl53].
    - assert (Hek : (fexp q <= k)%Z) by lia.
      exists (m * 2 ^ (k - fexp q))%Z.
      rewrite inject_Z_mult, <- pow2_Z by lia.
      apply Qmult_inj_r with (2 ^ fexp q); [lra|].
      rewrite <- Qmult_assoc, <- pow2_plus.
      replace (k - fexp q + fexp q)%Z with k by lia.
      rewrite <- E. field. lra.
    - assert (El : l = 53%Z) by lia.
      assert (Em : m = (2 ^ 53)%Z) by (rewrite El in L1; lia).
      assert (Hek : fexp q = (k + 1)%Z) by lia.
      exists (2 ^ 52)%Z.
      apply Qmult_inj_r with (2 ^ fexp q); [lra|].
      rewrite <- pow2_Z by lia. rewrite Hek at 3. rewrite <- pow2_plus.
      replace (52 + (k + 1))%Z with (53 + k)%Z by lia. rewrite pow2_plus.
      rewrite (pow2_Z 53) by lia. rewrite <- Em, <- E. field. lra. }
  destruct Hint as [M HM].
  rewrite (double_eq q N).
  rewrite (round_half_even_comp _ _ HM), round_half_even_Z, <- HM.
  pose proof (pow2_pos (fexp q)). field. lra.
Qed.

Lemma double_Z (n : Z) :
  (0 <= n <= 2 ^ 53)%Z -> double (inject_Z n) == inject_Z n.
Proof.
  intros Hn. destruct (Z.eq_dec n 0) as [->|N].
  - now rewrite double_zero.
  - apply (double_exact _ n 0); [lia | lia |].
    change (2 ^ 0) with 1. ring.
Qed.

Lemma Qred_inject_Z (n : Z) : Qred (inject_Z n) = inject_Z n.
Proof.
  unfold Qred, inject_Z.
  pose proof (Z.ggcd_gcd n 1) as G.
  pose proof (Z.ggcd_correct_divisors n 1) as D.
  destruct (Z.ggcd n 1) as [g [aa bb]]. simpl in *.
  rewrite Z.gcd_1_r in G. subst g. destruct D as [D1 D2].
  rewrite Z.mul_1_l in D1, D2. now subst aa bb.
Qed.

(** On integers the equality is the one of Leibniz. *)
Lemma double_inject_Z (n : Z) :
  double (inject_Z n) == inject_Z n -> double (inject_Z n) = inject_Z n.
Proof.
  intros E. unfold double in *.
  destruct (Qeq_bool (inject_Z n) 0) eqn:E0.
  - apply Qeq_bool_iff in E0. unfold Qeq in E0. simpl in E0.
    rewrite Z.mul_1_r in E0. now subst n.
  - rewrite Qred_correct in E. apply Qred_complete in E. rewrite E.
    apply Qred_inject_Z.
Qed.

Lemma double_Z_eq (n : Z) :
  (0 <= n <= 2 ^ 53)%Z -> double (inject_Z n) = inject_Z n.
Proof. intros H. apply double_inject_Z. now apply double_Z. Qed.

Lemma double_idem (q : Q) : 0 <= q -> double (double q) == double q.
Proof.
  intros H. destruct (Qeq_dec q 0) as [E|N].
  { rewrite (double_zero q E). now rewrite double_zero. }
  assert (Hq : 0 < q)
    by (destruct (Qlt_le_dec 0 q); [assumption | exfalso; apply N; lra]).
  destruct (significand_bounds q Hq) as [[A B] _].
  destruct (Z.eq_dec (round_half_even (q / 2 ^ fexp q)) 0) as [Z0|NZ].
  { assert (E0 : double q == 0) by (rewrite (double_eq q N), Z0; ring).
    rewrite (double_comp _ _ E0), E0. now rewrite double_zero. }
  apply (double_exact _ (round_half_even (q / 2 ^ fexp q)) (fexp q));
    [lia | unfold fexp; lia | apply (double_eq q N)].
Qed.

(** The integer part of a double is a double. *)
Lemma double_floor (q : Q) :
  0 <= q ->
  double (inject_Z (Qfloor (double q))) == inject_Z (Qfloor (double q)).
Proof.
  intros H. pose proof (double_nonneg q H) as Hd.
  destruct (Qeq_dec q 0) as [E|N].
  { rewrite (double_zero q E). now rewrite double_zero. }
  assert (Hq : 0 < q)
    by (destruct (Qlt_le_dec 0 q); [assumption | exfalso; apply N; lra]).
  destruct (significand_bounds q Hq) as [[A B] _].
  pose proof (double_eq q N) as Eq.
  set (m := round_half_even (q / 2 ^ fexp q)) in *.
  set (e := fexp q) in *.
  assert (He : (-1074 <= e)%Z) by (unfold e, fexp; lia).
  assert (Hf0 : (0 <= Qfloor (double q))%Z)
    by (rewrite <- (Qfloor_Z 0); now apply Qfloor_resp_le).
  destruct (Z_le_gt_dec 0 e) as [Hpos|Hneg].
  - (* the double is an integer *)
    assert (Ei : double q == inject_Z (m * 2 ^ e)).
    { rewrite Eq, inject_Z_mult, <- pow2_Z by lia. reflexivity. }
    rewrite (Qfloor_comp _ _ Ei), Qfloor_Z.
    destruct (Z.eq_dec m 0) as [->|Nm]; [now rewrite double_zero|].
    apply (double_exact _ m e); [lia | lia |].
    rewrite inject_Z_mult, <- pow2_Z by lia. reflexivity.
  - (* below [2 ^ 53] *)
    apply double_Z. split; [assumption|].
    assert (Hlt : double q <= inject_Z (2 ^ 53)).
    { rewrite Eq. pose proof (pow2_pos e) as Pe.
      assert (P1 : 2 ^ e <= 1).
      { change 1 with (2 ^ 0). apply pow2_le. lia. }
      assert (M1 : inject_Z m <= inject_Z (2 ^ 53))
        by (rewrite <- Zle_Qle; lia).
      assert (M0 : 0 <= inject_Z m)
        by (change 0 with (inject_Z 0); rewrite <- Zle_Qle; lia).
      nra. }
    rewrite <- (Qfloor_Z (2 ^ 53)). now apply Qfloor_resp_le.
Qed.

(** Rounding is monotone. *)
Lemma double_le (a b : Q) : 0 <= a -> a <= b -> double a <= double b.
Proof.
  intros Ha Hab.
  destruct (Qeq_dec a 0) as [E|N].
  { rewrite (double_zero a E). apply double_nonneg. lra. }
  assert (Ha' : 0 < a)
    by (destruct (Qlt_le_dec 0 a); [assumption | exfalso; apply N; lra]).
  assert (Hb' : 0 < b) by lra.
  assert (Nb : ~ b == 0) by lra.
  rewrite (double_eq a N), (double_eq b Nb).
  pose proof (Qlog2_le a b Ha' Hab) as Hl.
  pose proof (fexp_pos a Ha') as Ea. pose proof (fexp_pos b Hb') as Eb.
  pose proof (pow2_pos (fexp a)) as Pa. pose proof (pow2_pos (fexp b)) as Pb.
  destruct (Z.eq_dec (fexp a) (fexp b)) as [Eab|Nab].
  - rewrite Eab in *.
    assert (Hs : a / 2 ^ fexp b <= b / 2 ^ fexp b).
    { apply Qle_shift_div_l; [assumption|].
      assert (E : a / 2 ^ fexp b * 2 ^ fexp b == a) by (field; lra). lra. }
    apply round_half_even_le in Hs. rewrite Zle_Qle in Hs. nra.
  - assert (Hlt : (fexp a + 1 <= fexp b)%Z) by lia.
    assert (Hnb : (-1074 <= Qlog2 b - 52)%Z) by lia.
    destruct (significand_bounds a Ha') as [[_ A] _].
    destruct (significand_bounds b Hb') as [_ B]. specialize (B Hnb).
    rewrite Zle_Qle in A, B. rewrite <- !pow2_Z in A, B by lia.
    assert (Hp : 2 ^ 53 * 2 ^ fexp a <= 2 ^ 52 * 2 ^ fexp b).
    { rewrite <- !pow2_plus. apply pow2_le. lia. }
    pose proof (pow2_pos 52). pose proof (pow2_pos 53).
    set (ma := inject_Z (round_half_even (a / 2 ^ fexp a))) in *.
    set (mb := inject_Z (round_half_even (b / 2 ^ fexp b))) in *.
    apply Qle_trans with (2 ^ 53 * 2 ^ fexp a); [nra|].
    apply Qle_trans with (2 ^ 52 * 2 ^ fexp b); [assumption | nra].
Qed.

Lemma double_le_1 (q : Q) : 0 <= q -> q <= 1 -> double q <= 1.
Proof.
  intros H0 H1. rewrite <- (double_Z 1) by lia.
  now apply double_le.
Qed.

(** The relative error of a number from 1 on. *)
Lemma double_upper (q : Q) : 1 <= q -> double q <= q * (1 + 2 ^ (-53)).
Proof.
  intros H. assert (Hq : 0 < q) by lra. assert (N : ~ q == 0) by lra.
  destruct (double_error q N) as [A _].
  destruct (Qlog2_spec q Hq) as [L _].
  assert (Hl : (0 <= Qlog2 q)%Z).
  { destruct (Qlog2_spec q Hq) as [_ L2].
    destruct (Z_le_gt_dec 0 (Qlog2 q)); [assumption|].
    assert (2 ^ (Qlog2 q + 1) <= 2 ^ 0) by (apply pow2_le; lia).
    change (2 ^ 0) with 1 in *. lra. }
  assert (Ee : fexp q = (Qlog2 q - 52)%Z) by (rewrite fexp_pos by assumption; lia).
  rewrite Ee in A.
  assert (E2 : 2 ^ (Qlog2 q - 52) / 2 == 2 ^ Qlog2 q * 2 ^ (-53)).
  { rewrite <- pow2_plus.
    replace (Qlog2 q - 52)%Z with ((Qlog2 q + -53) + 1)%Z by lia.
    rewrite pow2_succ. field. }
  pose proof (pow2_pos (-53)). nra.
Qed.

(** The absolute error of a number below a power of two. *)
Lemma double_near (q : Q) (k : Z) :
  0 <= q -> q < 2 ^ k -> (-1021 <= k)%Z ->
  double q - q <= 2 ^ (k - 54) /\ q - double q <= 2 ^ (k - 54).
Proof.
  intros H0 Hk Hn. pose proof (pow2_pos (k - 54)) as Pk.
  destruct (Qeq_dec q 0) as [E|N].
  { rewrite (double_zero q E). split; lra. }
  assert (Hq : 0 < q) by lra.
  destruct (double_error q N) as [A B].
  unfold Qdiv in A, B. change (/ 2) with (1 # 2) in A, B.
  destruct (Qlog2_spec q Hq) as [L _].
  assert (Hl : (Qlog2 q < k)%Z).
  { assert (C : 2 ^ Qlog2 q < 2 ^ k) by lra.
    apply Qpower_lt_compat_l_inv in C; [assumption | reflexivity]. }
  assert (He : (fexp q <= k - 53)%Z) by (rewrite fexp_pos by assumption; lia).
  assert (Hp : 2 ^ fexp q * (1 # 2) <= 2 ^ (k - 54)).
  { apply Qle_trans with (2 ^ (k - 53) * (1 # 2)).
    - pose proof (pow2_le _ _ He). lra.
    - replace (k - 53)%Z with ((k - 54) + 1)%Z by lia.
      rewrite pow2_succ. lra. }
  split; lra.
Qed.

(** *** The operations of the program *)

(** A ratio of counts lies between 0 and 1. *)
Lemma int_truediv_bounds (a b : Z) :
  (0 <= a <= b)%Z -> (0 < b)%Z ->
  0 <= int_truediv a b /\ int_truediv a b <= 1.
Proof.
  intros Ha Hb. unfold int_truediv.
  assert (B : 0 < inject_Z b)
    by (change 0 with (inject_Z 0); rewrite <- Zlt_Qlt; lia).
  assert (A0 : 0 <= inject_Z a)
    by (change 0 with (inject_Z 0); rewrite <- Zle_Qle; lia).
  assert (A1 : inject_Z a <= inject_Z b) by (rewrite <- Zle_Qle; lia).
  assert (H0 : 0 <= inject_Z a / inject_Z b).
  { apply Qle_shift_div_l; [assumption|]. lra. }
  assert (H1 : inject_Z a / inject_Z b <= 1).
  { apply Qle_shift_div_r; [assumption|]. lra. }
  split; [now apply double_nonneg | now apply double_le_1].
Qed.

(** The integer part of the product of a count that is a double and a
    float between 0 and 1 is at most the count. *)
Lemma fmul_share (n : Z) (p : Q) :
  (0 <= n)%Z -> double (inject_Z n) == inject_Z n -> 0 <= p -> p <= 1 ->
  (0 <= Qtrunc (fmul (inject_Z n) p) <= n)%Z.
Proof.
  intros Hn Ed Hp0 Hp1. unfold fmul.
  assert (N0 : 0 <= inject_Z n)
    by (change 0 with (inject_Z 0); rewrite <- Zle_Qle; lia).
  pose proof (double_nonneg p Hp0) as P0.
  pose proof (double_le_1 p Hp0 Hp1) as P1.
  assert (H0 : 0 <= double (inject_Z n) * double p) by (rewrite Ed; nra).
  assert (H1 : double (inject_Z n) * double p <= inject_Z n)
    by (rewrite Ed; nra).
  pose proof (double_nonneg _ H0) as D0.
  pose proof (double_le _ _ H0 H1) as D1. rewrite Ed in D1 at 2.
  rewrite Qtrunc_floor by assumption. split.
  - exact (Qfloor_resp_le 0 _ D0).
  - pose proof (Qfloor_resp_le _ _ D1) as F. now rewrite Qfloor_Z in F.
Qed.

(** [int(total_cells * max_density)] for a density of at most 0.9: a
    count that is a double and at most the number of cells. *)
Lemma fmul_cap (n : Z) (d : Q) :
  (0 <= n)%Z -> 0 <= d -> d <= 9 # 10 ->
  (0 <= Qtrunc (fmul (inject_Z n) d) <= n)%Z
  /\ double (inject_Z (Qtrunc (fmul (inject_Z n) d)))
     == inject_Z (Qtrunc (fmul (inject_Z n) d)).
Proof.
  intros Hn Hd0 Hd1. unfold fmul.
  assert (N0 : 0 <= inject_Z n)
    by (change 0 with (inject_Z 0); rewrite <- Zle_Qle; lia).
  pose proof (double_nonneg _ N0) as DN. pose proof (double_nonneg d Hd0) as DD.
  assert (H0 : 0 <= double (inject_Z n) * double d) by nra.
  pose proof (double_nonneg _ H0) as D0.
  rewrite Qtrunc_floor by assumption.
  split; [|now apply double_floor].
  split; [exact (Qfloor_resp_le 0 _ D0)|].
  cut (double (double (inject_Z n) * double d) <= inject_Z n).
  { intros D1. pose proof (Qfloor_resp_le _ _ D1) as F.
    now rewrite Qfloor_Z in F. }
  destruct (Z.eq_dec n 0) as [->|Nn].
  { rewrite (double_zero (inject_Z 0)) by reflexivity.
    rewrite double_zero; [apply Qle_refl | ring]. }
  assert (N1 : 1 <= inject_Z n)
    by (change 1 with (inject_Z 1); rewrite <- Zle_Qle; lia).
  pose proof (double_upper _ N1) as U1.
  assert (D9 : double d <= 91 # 100).
  { apply Qle_trans with (double (9 # 10)); [now apply double_le|].
    vm_compute. discriminate. }
  pose proof (pow2_pos (-53)) as P53.
  assert (S53 : 2 ^ (-53) <= 1 # 1000) by (vm_compute; discriminate).
  set (e := 2 ^ (-53)) in *. set (N := inject_Z n) in *.
  set (dn := double N) in *. set (dd := double d) in *.
  destruct (Qlt_le_dec (dn * dd) 1) as [Hs|Hb].
  - apply Qle_trans with (double 1).
    + apply double_le; [assumption | lra].
    + rewrite (double_Z 1) by lia. assumption.
  - pose proof (double_upper _ Hb) as U2. fold e in U2. nra.
Qed.

(** The prey share of a cap of at most [2 ^ 50]: the floor of the exact
    share, or next to it. *)
Lemma prey_share_near (cap prey pred : Z) :
  (0 <= cap <= 2 ^ 50)%Z -> (0 <= prey)%Z -> (0 <= pred)%Z ->
  (0 < prey + pred)%Z ->
  (cap * prey / (prey + pred) - 1 <= prey_share cap prey pred
   <= cap * prey / (prey + pred) + 1)%Z.
Proof.
  intros Hc Hprey Hpred Htot. unfold prey_share, fmul, int_truediv.
  set (total := (prey + pred)%Z) in *.
  assert (T0 : 0 < inject_Z total)
    by (change 0 with (inject_Z 0); rewrite <- Zlt_Qlt; lia).
  assert (Y0' : 0 <= inject_Z prey)
    by (change 0 with (inject_Z 0); rewrite <- Zle_Qle; lia).
  assert (Y1' : inject_Z prey <= inject_Z total)
    by (rewrite <- Zle_Qle; lia).
  assert (C0 : 0 <= inject_Z cap)
    by (change 0 with (inject_Z 0); rewrite <- Zle_Qle; lia).
  assert (C1 : inject_Z cap <= 2 ^ 50)
    by (rewrite pow2_Z by lia; rewrite <- Zle_Qle; lia).
  set (y := inject_Z prey / inject_Z total).
  assert (Y0 : 0 <= y) by (apply Qle_shift_div_l; lra).
  assert (Y1 : y <= 1) by (apply Qle_shift_div_r; lra).
  pose proof (double_nonneg y Y0) as R0.
  pose proof (double_le_1 y Y0 Y1) as R1.
  assert (Ry : double y - y <= 2 ^ (-53) /\ y - double y <= 2 ^ (-53)).
  { apply (double_near y 1); [assumption | | lia].
    change (2 ^ 1) with 2. lra. }
  rewrite (double_Z_eq cap) by lia.
  rewrite (double_comp (inject_Z cap * double (double y))
                       (inject_Z cap * double y))
    by (now rewrite double_idem).
  set (r := double y) in *. set (P := inject_Z cap * r).
  assert (P0 : 0 <= P) by (unfold P; nra).
  assert (P1 : P < 2 ^ 51).
  { apply Qle_lt_trans with (2 ^ 50); [unfold P; nra|].
    now apply pow2_lt. }
  destruct (double_near P 51 P0 P1 ltac:(lia)) as [V1 V2].
  change (2 ^ (51 - 54)) with (1 # 8) in V1, V2.
  pose proof (double_nonneg P P0) as V0.
  set (v := double P) in *.
  assert (E53 : 2 ^ 50 * 2 ^ (-53) == 1 # 8) by reflexivity.
  assert (X : P - inject_Z cap * y <= 1 # 8 /\ inject_Z cap * y - P <= 1 # 8).
  { unfold P. destruct Ry as [Ra Rb]. pose proof (pow2_pos (-53)).
    pose proof (pow2_pos 50). split; nra. }
  assert (Ex : inject_Z cap * y == inject_Z (cap * prey) / inject_Z total).
  { unfold y. rewrite inject_Z_mult. field. lra. }
  rewrite Zdiv_Qdiv. rewrite <- (Qfloor_comp _ _ Ex).
  set (x := inject_Z cap * y) in *.
  rewrite Qtrunc_floor by assumption.
  pose proof (Qfloor_le x) as F1. pose proof (Qlt_floor x) as F2.
  pose proof (Qfloor_le v) as G1. pose proof (Qlt_floor v) as G2.
  rewrite inject_Z_plus in F2, G2. change (inject_Z 1) with 1 in F2, G2.
  destruct X as [Xa Xb].
  assert (U : inject_Z (Qfloor v) < inject_Z (Qfloor x + 2)).
  { rewrite inject_Z_plus. change (inject_Z 2) with 2. lra. }
  assert (L : inject_Z (Qfloor x) < inject_Z (Qfloor v + 2)).
  { rewrite inject_Z_plus. change (inject_Z 2) with 2. lra. }
  rewrite <- Zlt_Qlt in U, L. lia.
Qed.

(** A probability that is not positive stays so when divided. *)
Lemma fdiv_nonpos (p : Q) (k : Z) :
  p <= 0 -> (0 < k <= 2 ^ 53)%Z -> fdiv p (inject_Z k) <= 0.
Proof.
  intros Hp Hk. unfold fdiv. apply double_nonpos.
  rewrite (double_Z_eq k) by lia.
  pose proof (double_nonpos p Hp) as D.
  assert (K : 0 < inject_Z k)
    by (change 0 with (inject_Z 0); rewrite <- Zlt_Qlt; lia).
  apply Qle_shift_div_r; [assumption|]. lra.
Qed.

(** A rounded percentage lies between 0 and 100. *)
Lemma percentage_bounds (k total : Z) :
  (0 <= k <= total)%Z -> (0 < total)%Z ->
  0 <= round2 (fmul (int_truediv k total) 100)
  /\ round2 (fmul (int_truediv k total) 100) <= 100.
Proof.
  intros Hk Ht. destruct (int_truediv_bounds k total Hk Ht) as [R0 R1].
  set (x := int_truediv k total) in *.
  pose proof (double_Z_eq 100 ltac:(lia)) as E100.
  change (inject_Z 100) with 100 in E100.
  assert (X0 : 0 <= fmul x 100 /\ fmul x 100 <= 100).
  { unfold fmul. rewrite E100.
    pose proof (double_nonneg x R0) as Dx0.
    pose proof (double_le_1 x R0 R1) as Dx1.
    assert (Hx : 0 <= double x * 100) by lra.
    split; [now apply double_nonneg|].
    rewrite <- E100 at 2. apply double_le; lra. }
  destruct X0 as [X0 X1]. set (y := fmul x 100) in *.
  unfold round2.
  assert (Y0 : inject_Z 0 <= y * 100) by (change (inject_Z 0) with 0; lra).
  assert (Y1 : y * 100 <= inject_Z 10000)
    by (change (inject_Z 10000) with 10000; lra).
  apply round_half_even_le in Y0, Y1. rewrite round_half_even_Z in Y0, Y1.
  set (m := round_half_even (y * 100)) in *.
  assert (M0 : 0 <= inject_Z m)
    by (change 0 with (inject_Z 0); rewrite <- Zle_Qle; lia).
  assert (M1 : inject_Z m <= 10000)
    by (change 10000 with (inject_Z 10000); rewrite <- Zle_Qle; lia).
  assert (Q0 : 0 <= inject_Z m / 100) by (apply Qle_shift_div_l; lra).
  assert (Q1 : inject_Z m / 100 <= 100) by (apply Qle_shift_div_r; lra).
  split; [now apply double_nonneg|].
  rewrite <- E100 at 2. apply double_le; assumption.
Qed.

(** Where the doubles differ from the rationals: the prey share of 180
    for 140 prey in 200 entities, the substrate cells of 100 cells at
    probability 0.29, a product of three thirds, the hunting probability
    for 0.6, hunger 2 and threshold 3, and the percentage of 218 cells in
    1600. *)
Lemma doubles_at_work :
  prey_share 180 140 60 = 125%Z
  /\ Qtrunc (fmul (inject_Z 100) (29 # 100)) = 28%Z
  /\ Qtrunc (fmul (inject_Z 3) (double (1 # 3))) = 1%Z
  /\ fmul (6 # 10) (fadd 1 (fdiv (inject_Z 2) (inject_Z 3))) < 1
  /\ round2 (fmul (int_truediv 218 1600) 100) == double (1363 # 100).
Proof. repeat split; vm_compute; reflexivity. Qed.

End Rounding.

(** ** Arrays *)

Section Arrays.

Lemma length_upd_nth {A : Type} (n : nat) (f : A -> A) (l : list A) :
  length (upd_nth n f l) = length l.
Proof.
  revert n; induction l as [|a l IH]; intros [|n]; simpl; auto.
Qed.

Lemma nth_upd_nth_same {A : Type} (n : nat) (f : A -> A) (l : list A) (d : A) :
  (n < length l)%nat -> nth n (upd_nth n f l) d = f (nth n l d).
Proof.
  revert n; induction l as [|a l IH]; intros [|n] H; simpl in *; try lia; auto.
  apply IH; lia.
Qed.

Lemma nth_upd_nth_other {A : Type} (n m : nat) (f : A -> A) (l : list A) (d : A) :
  n <> m -> nth m (upd_nth n f l) d = nth m l d.
Proof.
  revert n m; induction l as [|a l IH]; intros [|n] [|m] H; simpl; auto.
  congruence.
Qed.

Lemma get2_set2_other (a : array2) (c c' : coord) (v : Z) :
  c <> c' -> get2 (set2 a c v) c' = get2 a c'.
Proof.
  destruct c as [x y], c' as [x' y']; intros Hne.
  unfold get2, set2; simpl.
  destruct (0 <=? x) eqn:Hx, (0 <=? y) eqn:Hy; simpl; auto.
  destruct (0 <=? x') eqn:Hx', (0 <=? y') eqn:Hy'; simpl; auto.
  apply Z.leb_le in Hx, Hy, Hx', Hy'.
  destruct (Nat.eq_dec (Z.to_nat x) (Z.to_nat x')) as [E|E].
  - assert (x = x') by lia; subst x'.
    assert (Z.to_nat y <> Z.to_nat y') by (intro; apply Hne; f_equal; lia).
    destruct (Nat.lt_ge_cases (Z.to_nat x) (length a)) as [Hl|Hl].
    + rewrite nth_upd_nth_same by assumption.
      now apply nth_upd_nth_other.
    + rewrite !(nth_overflow _ []); auto.
      rewrite length_upd_nth; assumption.
  - now rewrite nth_upd_nth_other.
Qed.

Lemma get2_set2_same (n : nat) (a : array2) (c : coord) (v : Z) :
  square n a -> in_range (Z.of_nat n) c -> get2 (set2 a c v) c = v.
Proof.
  destruct c as [x y]; intros [Hlen Hrows] [Hx Hy]; simpl in *.
  unfold get2, set2; simpl.
  destruct (0 <=? x) eqn:Ex; [|apply Z.leb_gt in Ex; lia].
  destruct (0 <=? y) eqn:Ey; [|apply Z.leb_gt in Ey; lia].
  simpl.
  rewrite nth_upd_nth_same by lia.
  apply nth_upd_nth_same.
  rewrite Forall_forall in Hrows.
  rewrite (Hrows (nth (Z.to_nat x) a [])); [lia|].
  apply nth_In; lia.
Qed.

Lemma square_set2 (n : nat) (a : array2) (c : coord) (v : Z) :
  square n a -> square n (set2 a c v).
Proof.
  intros [Hlen Hrows]. unfold set2.
  destruct ((0 <=? fst c) && (0 <=? snd c)); [|split; assumption].
  split; [now rewrite length_upd_nth|].
  clear Hlen. revert Hrows. generalize (Z.to_nat (fst c)).
  induction a as [|row a IH]; intros [|k] H; simpl; auto;
    inversion H; subst; constructor; auto.
  now rewrite length_upd_nth.
Qed.

Lemma square_full_like (n : nat) (a : array2) (v : Z) :
  square n a -> square n (full_like a v).
Proof.
  intros [Hlen Hrows]; split.
  - unfold full_like; now rewrite length_map.
  - unfold full_like. rewrite Forall_forall in *.
    intros row Hin. apply in_map_iff in Hin as [row' [<- Hin]].
    rewrite repeat_length. auto.
Qed.

Lemma get2_full_like_in (n : nat) (a : array2) (v : Z) (c : coord) :
  square n a -> in_range (Z.of_nat n) c -> get2 (full_like a v) c = v.
Proof.
  intros [Hlen Hrows] [Hx Hy].
  unfold get2, full_like.
  destruct (0 <=? fst c) eqn:Ex; [|apply Z.leb_gt in Ex; lia].
  destruct (0 <=? snd c) eqn:Ey; [|apply Z.leb_gt in Ey; lia].
  simpl.
  rewrite (nth_indep _ [] (repeat v (length (@nil Z))))
    by (rewrite length_map; lia).
  rewrite (map_nth (fun row => repeat v (length row))).
  apply nth_repeat_lt.
  rewrite Forall_forall in Hrows.
  rewrite (Hrows (nth (Z.to_nat (fst c)) a [])); [lia|].
  apply nth_In; lia.
Qed.

End Arrays.

(** ** Neighbourhoods *)

Section Neighbourhoods.

Lemma flat_map_option_like {A B : Type} (p : A -> bool) (f : A -> B) (l : list A) :
  flat_map (fun a => if p a then [f a] else []) l = map f (filter p l).
Proof.
  induction l as [|a l IH]; simpl; auto.
  destruct (p a); simpl; now rewrite IH.
Qed.

Lemma flat_map_flat_map_prod {A B C : Type} (f : A * B -> list C)
    (l : list A) (l' : list B) :
  flat_map (fun a => flat_map (fun b => f (a, b)) l') l
  = flat_map f (list_prod l l').
Proof.
  induction l as [|a l IH]; simpl; auto.
  rewrite flat_map_app, IH. f_equal.
  clear. induction l' as [|b l' IH']; simpl; auto. now rewrite IH'.
Qed.

Lemma mod_plus_size (a n : Z) : (a + n) mod n = a mod n.
Proof.
  replace (a + n) with (a + 1 * n) by lia. apply Z_mod_plus_full.
Qed.

(** With a grid type other than ["bounded"] the extended-radius helper
    wraps every offset it visits. *)
Lemma nearby_cells_wrap (s : Simulation) (x y distance : Z) :
  grid_type (params s) <> "bounded" ->
  _get_nearby_cells s x y distance
  = map (wrap (shape0 (grid s)) x y)
        (nearby_offsets (neighborhood_type (params s)) distance).
Proof.
  intros Hgt. apply String.eqb_neq in Hgt.
  unfold _get_nearby_cells, nearby_offsets. rewrite Hgt.
  rewrite (flat_map_flat_map_prod
    (fun o => if (fst o =? 0) && (snd o =? 0) then []
              else if String.eqb (neighborhood_type (params s)) "von_neumann"
                      && (Z.abs (fst o) + Z.abs (snd o) >? distance) then []
              else [((x + fst o + shape0 (grid s)) mod shape0 (grid s),
                     (y + snd o + shape0 (grid s)) mod shape0 (grid s))])).
  rewrite <- flat_map_option_like.
  apply flat_map_ext. intros [dx dy]; simpl.
  destruct ((dx =? 0) && (dy =? 0)); simpl; auto.
  destruct (String.eqb (neighborhood_type (params s)) "von_neumann"
            && (Z.abs dx + Z.abs dy >? distance)); simpl; auto.
  unfold wrap; simpl. now rewrite !mod_plus_size.
Qed.

(** The radius-1 helper wraps for ["torus"] and filters otherwise. *)
Lemma neighbors_coords_cases (g : array2) (x y : Z) (nt gt : string) :
  get_neighbors_coords g x y nt gt
  = if String.eqb gt "torus"
    then map (wrap (shape0 g) x y) (directions nt)
    else filter (in_rangeb (shape0 g)) (map (shift x y) (directions nt)).
Proof.
  unfold get_neighbors_coords, directions.
  change moore_directions with
    [(-1, -1); (-1, 0); (-1, 1); (0, -1); (0, 1); (1, -1); (1, 0); (1, 1)].
  set (ds := if String.eqb nt "von_neumann" then _ else _).
  destruct (String.eqb gt "torus").
  - clearbody ds. induction ds as [|d ds IH]; simpl; [reflexivity|].
    rewrite IH. reflexivity.
  - clearbody ds. induction ds as [|d ds IH]; simpl; [reflexivity|].
    rewrite IH. unfold in_rangeb, shift at 1; simpl.
    destruct ((0 <=? x + fst d) && (x + fst d <? shape0 g)
              && (0 <=? y + snd d) && (y + snd d <? shape0 g)); reflexivity.
Qed.

Lemma wrap_in_range (n x y : Z) (o : coord) :
  0 < n -> in_range n (wrap n x y o).
Proof.
  intros Hn; unfold in_range, wrap; simpl.
  split; apply Z.mod_pos_bound; assumption.
Qed.

Lemma in_rangeb_iff (n : Z) (c : coord) : in_rangeb n c = true <-> in_range n c.
Proof.
  unfold in_rangeb, in_range.
  rewrite !andb_true_iff, !Z.leb_le, !Z.ltb_lt. lia.
Qed.

(** Every coordinate of the extended-radius helper lies in the grid. *)
Lemma nearby_cells_in_range (s : Simulation) (x y distance : Z) (c : coord) :
  0 < shape0 (grid s) ->
  In c (_get_nearby_cells s x y distance) -> in_range (shape0 (grid s)) c.
Proof.
  unfold _get_nearby_cells. intros Hn Hin.
  apply in_flat_map in Hin as [dx [_ Hin]].
  apply in_flat_map in Hin as [dy [_ Hin]].
  destruct ((dx =? 0) && (dy =? 0)); [contradiction|].
  destruct (_ && (_ >? _)); [contradiction|].
  destruct (String.eqb (grid_type (params s)) "bounded").
  - destruct (_ && _) eqn:E in Hin; [|contradiction].
    destruct Hin as [<-|[]]. now apply in_rangeb_iff.
  - destruct Hin as [<-|[]].
    split; apply Z.mod_pos_bound; assumption.
Qed.

(** Every coordinate of the radius-1 helper lies in the grid. *)
Lemma neighbors_coords_in_range (g : array2) (x y : Z) (nt gt : string) (c : coord) :
  0 < shape0 g ->
  In c (get_neighbors_coords g x y nt gt) -> in_range (shape0 g) c.
Proof.
  intros Hn. rewrite neighbors_coords_cases.
  destruct (String.eqb gt "torus"); intros Hin.
  - apply in_map_iff in Hin as [o [<- _]]. now apply wrap_in_range.
  - apply filter_In in Hin as [_ Hin]. now apply in_rangeb_iff.
Qed.

End Neighbourhoods.

(** ** Boundary vocabulary of the two neighbour helpers *)

(** C6. For every cell and every grid type other than ["bounded"] (so for
    the parameter values ["finite"] and ["torus"]), the extended-radius
    helper [_get_nearby_cells] returns the offsets it visits wrapped modulo
    the grid size, none dropped; the radius-1 helper [get_neighbors_coords]
    wraps for ["torus"] and for every other grid type keeps exactly the
    neighbours inside the grid. *)
Theorem C6_nearby_wraps_neighbors_drop (s : Simulation) (x y distance : Z)
    (g : array2) (x' y' : Z) (nt gt : string) :
  (grid_type (params s) <> "bounded" ->
   _get_nearby_cells s x y distance
   = map (wrap (shape0 (grid s)) x y)
         (nearby_offsets (neighborhood_type (params s)) distance))
  /\ get_neighbors_coords g x' y' nt gt
     = (if String.eqb gt "torus"
        then map (wrap (shape0 g) x' y') (directions nt)
        else filter (in_rangeb (shape0 g)) (map (shift x' y') (directions nt))).
Proof.
  split.
  - intros Hgt. now apply nearby_cells_wrap.
  - apply neighbors_coords_cases.
Qed.

(** With the parameter value ["finite"] the two helpers disagree at the
    corner [(0, 0)] of the 3 x 3 example: eight wrapped neighbours against
    three neighbours inside the grid. *)
Lemma C6_witness_finite :
  _get_nearby_cells Examples.finite_sim 0 0 1
  = [(2, 2); (2, 0); (2, 1); (0, 2); (0, 1); (1, 2); (1, 0); (1, 1)]
  /\ get_neighbors_coords (grid Examples.finite_sim) 0 0 "moore" "finite"
     = [(0, 1); (1, 0); (1, 1)].
Proof.
  destruct (C6_nearby_wraps_neighbors_drop Examples.finite_sim 0 0 1
              (grid Examples.finite_sim) 0 0 "moore" "finite") as [H1 H2].
  split.
  - rewrite H1; [reflexivity|]. simpl. discriminate.
  - rewrite H2. reflexivity.
Defined.

Example torus_helpers_agree :
  _get_nearby_cells Examples.torus_sim 0 0 1
  = [(2, 2); (2, 0); (2, 1); (0, 2); (0, 1); (1, 2); (1, 0); (1, 1)]
  /\ get_neighbors_coords (grid Examples.torus_sim) 0 0 "moore" "torus"
     = [(2, 2); (2, 0); (2, 1); (0, 2); (0, 1); (1, 2); (1, 0); (1, 1)].
Proof. split; reflexivity. Qed.

(** ** The shuffle *)

Section Shuffle.

Context {A : Type}.

Lemma remove_nth_perm (j : nat) (l : list A) (d : A) :
  (j < length l)%nat -> Permutation (nth j l d :: remove_nth j l) l.
Proof.
  revert j; induction l as [|a l IH]; intros [|j] H; simpl in *; try lia.
  - reflexivity.
  - rewrite perm_swap. constructor. apply IH. lia.
Qed.

Lemma length_remove_nth (j : nat) (l : list A) :
  (j < length l)%nat -> length (remove_nth j l) = pred (length l).
Proof.
  revert j; induction l as [|a l IH]; intros [|j] H; simpl in *; try lia.
  rewrite IH by lia. lia.
Qed.

Lemma draw_below (r : Rng) (k : nat) :
  (0 < k)%nat -> (N.to_nat (word r mod N.of_nat k) < k)%nat.
Proof.
  intros Hk.
  assert (word r mod N.of_nat k < N.of_nat k)%N by (apply N.mod_lt; lia).
  lia.
Qed.

Lemma shuffle_n_perm (n : nat) (l : list A) (r : Rng) :
  length l = n -> Permutation (fst (shuffle_n n l r)) l.
Proof.
  revert l r; induction n as [|n IH]; intros l r Hlen; simpl.
  - destruct l; [reflexivity | discriminate].
  - destruct l as [|a l]; [discriminate|].
    set (j := N.to_nat (word r mod N.of_nat (length (a :: l)))).
    assert (Hj : (j < length (a :: l))%nat) by (apply draw_below; simpl; lia).
    specialize (IH (remove_nth j (a :: l)) (advance r)).
    destruct (shuffle_n n (remove_nth j (a :: l)) (advance r)) as [rest r'].
    simpl in *.
    rewrite IH.
    + apply (remove_nth_perm j (a :: l) a Hj).
    + rewrite length_remove_nth by assumption. simpl in *. lia.
Qed.

(** The shuffle returns a permutation of its argument. *)
Lemma shuffle_perm (l : list A) (r : Rng) : Permutation (fst (shuffle l r)) l.
Proof. now apply shuffle_n_perm. Qed.

Lemma choice_In (d : A) (l : list A) (r : Rng) :
  l <> [] -> In (fst (choice d l r)) l.
Proof.
  intros Hl. unfold choice; simpl. apply nth_In, draw_below.
  destruct l; [congruence | simpl; lia].
Qed.

End Shuffle.

Lemma nonempty_true {A : Type} (l : list A) : nonempty l = true -> l <> [].
Proof. destruct l; [discriminate | congruence]. Qed.

Lemma range_Z_spec (lo hi z : Z) : In z (range_Z lo hi) <-> lo <= z < hi.
Proof.
  unfold range_Z. rewrite in_map_iff. split.
  - intros [i [<- Hi]]. apply in_seq in Hi. lia.
  - intros H. exists (Z.to_nat (z - lo)). split; [lia|]. apply in_seq. lia.
Qed.

Lemma range_Z_NoDup (lo hi : Z) : NoDup (range_Z lo hi).
Proof.
  unfold range_Z. apply Finite.Injective_map_NoDup.
  - intros i j H. lia.
  - apply seq_NoDup.
Qed.

Lemma length_range_Z (lo hi : Z) : length (range_Z lo hi) = Z.to_nat (hi - lo).
Proof. unfold range_Z. now rewrite length_map, length_seq. Qed.

Lemma all_coords_spec (n : Z) (c : coord) : In c (all_coords n) <-> in_range n c.
Proof.
  unfold all_coords, in_range. rewrite in_flat_map. split.
  - intros [x [Hx Hc]]. apply in_map_iff in Hc as [y [<- Hy]].
    apply range_Z_spec in Hx, Hy. simpl. lia.
  - intros [Hx Hy]. exists (fst c). split; [apply range_Z_spec; lia|].
    apply in_map_iff. exists (snd c). split; [now destruct c|].
    apply range_Z_spec; lia.
Qed.

Lemma all_coords_NoDup (n : Z) : NoDup (all_coords n).
Proof.
  unfold all_coords.
  assert (H : forall l : list Z, NoDup l ->
            NoDup (flat_map (fun x => map (fun y => (x, y)) (range_Z 0 n)) l)).
  { induction l as [|x l IH]; intros Hnd; simpl; [constructor|].
    inversion Hnd as [|? ? Hx Hl]; subst.
    apply NoDup_app; repeat split.
    - apply Finite.Injective_map_NoDup; [|apply range_Z_NoDup].
      intros a b E. now inversion E.
    - now apply IH.
    - intros c Hc Hc'. apply in_map_iff in Hc as [y [<- _]].
      apply in_flat_map in Hc' as [x' [Hx' Hc']].
      apply in_map_iff in Hc' as [y' [E _]]. inversion E; subst. contradiction. }
  apply H, range_Z_NoDup.
Qed.

(** ** Counting cells *)

Section Counting.

Lemma fold_count_acc (row : list Z) (v acc : Z) :
  fold_right (fun x acc' => if x =? v then acc' + 1 else acc') acc row
  = acc + count_row row v.
Proof.
  induction row as [|x row IH]; simpl; [lia|].
  rewrite IH. destruct (x =? v); lia.
Qed.

Lemma count_eq_cons (row : list Z) (a : array2) (v : Z) :
  count_eq (row :: a) v = count_eq a v + count_row row v.
Proof. unfold count_eq; simpl. apply fold_count_acc. Qed.

Lemma count_row_repeat (n : nat) (u v : Z) :
  u <> v -> count_row (repeat u n) v = 0.
Proof.
  intros H. induction n as [|n IH]; simpl; auto.
  destruct (u =? v) eqn:E; [apply Z.eqb_eq in E; contradiction | exact IH].
Qed.

Lemma count_eq_repeat (row : list Z) (k : nat) (v : Z) :
  count_row row v = 0 -> count_eq (repeat row k) v = 0.
Proof.
  intros Hrow. induction k as [|k IH]; [reflexivity|].
  change (repeat row (S k)) with (row :: repeat row k).
  rewrite count_eq_cons, IH, Hrow. reflexivity.
Qed.

Lemma count_eq_full (n : nat) (u v : Z) : u <> v -> count_eq (full n u) v = 0.
Proof.
  intros H. apply count_eq_repeat, count_row_repeat, H.
Qed.

Lemma count_row_upd (i : nat) (row : list Z) (u v : Z) :
  (i < length row)%nat ->
  count_row (upd_nth i (fun _ => u) row) v
  = count_row row v - Z.b2z (nth i row 0 =? v) + Z.b2z (u =? v).
Proof.
  revert i; induction row as [|x row IH]; intros [|i] H; simpl in *; try lia.
  - destruct (x =? v), (u =? v); simpl; lia.
  - rewrite IH by lia. destruct (x =? v); lia.
Qed.

Lemma count_eq_upd (x : nat) (f : list Z -> list Z) (a : array2) (v : Z) :
  (x < length a)%nat ->
  count_eq (upd_nth x f a) v
  = count_eq a v - count_row (nth x a []) v + count_row (f (nth x a [])) v.
Proof.
  revert x; induction a as [|row a IH]; intros [|x] H;
    try (simpl in H; lia).
  - change (upd_nth 0 f (row :: a)) with (f row :: a).
    change (nth 0 (row :: a) []) with row.
    rewrite !count_eq_cons. lia.
  - change (upd_nth (S x) f (row :: a)) with (row :: upd_nth x f a).
    change (nth (S x) (row :: a) []) with (nth x a []).
    rewrite !count_eq_cons, IH by (simpl in H; lia). lia.
Qed.

Lemma count_eq_set2 (n : nat) (g : array2) (c : coord) (u v : Z) :
  square n g -> in_range (Z.of_nat n) c ->
  count_eq (set2 g c u) v
  = count_eq g v - Z.b2z (get2 g c =? v) + Z.b2z (u =? v).
Proof.
  intros [Hlen Hrows] [Hx Hy]. unfold set2, get2.
  destruct (0 <=? fst c) eqn:Ex; [|apply Z.leb_gt in Ex; lia].
  destruct (0 <=? snd c) eqn:Ey; [|apply Z.leb_gt in Ey; lia].
  simpl. rewrite count_eq_upd by lia.
  rewrite count_row_upd; [lia|].
  rewrite Forall_forall in Hrows.
  rewrite (Hrows (nth (Z.to_nat (fst c)) g [])); [lia|].
  apply nth_In; lia.
Qed.

(** Writing [v] into distinct cells that are all Empty. *)
Lemma fill_cells (n : nat) (v : Z) (cells : list coord) :
  v <> EMPTY ->
  forall g, square n g -> NoDup cells ->
    (forall c, In c cells -> in_range (Z.of_nat n) c /\ get2 g c = EMPTY) ->
    let g' := fold_left (fun a c => set2 a c v) cells g in
    square n g'
    /\ count_eq g' v = count_eq g v + Z.of_nat (length cells)
    /\ (forall k, k <> v -> k <> EMPTY -> count_eq g' k = count_eq g k)
    /\ (forall c, ~ In c cells -> get2 g' c = get2 g c).
Proof.
  intros Hv. induction cells as [|c cells IH]; intros g Hsq Hnd Hcells; simpl.
  - split; [assumption|]. split; [lia|]. split; auto.
  - inversion Hnd as [|? ? Hc Hnd']; subst.
    destruct (Hcells c (or_introl eq_refl)) as [Hin He].
    specialize (IH (set2 g c v) (square_set2 n g c v Hsq) Hnd').
    destruct IH as (Hsq' & Hcount & Hother & Hget).
    { intros c' Hc'. destruct (Hcells c' (or_intror Hc')) as [Hin' He'].
      split; [assumption|].
      rewrite get2_set2_other; [assumption|]. intros ->. contradiction. }
    split; [|split; [|split]].
    + assumption.
    + rewrite Hcount, (count_eq_set2 n) by assumption.
      rewrite He. rewrite Z.eqb_refl.
      destruct (EMPTY =? v) eqn:E; [apply Z.eqb_eq in E; congruence|].
      simpl. lia.
    + intros k Hk Hk'. rewrite Hother by assumption.
      rewrite (count_eq_set2 n) by assumption. rewrite He.
      destruct (EMPTY =? k) eqn:E; [apply Z.eqb_eq in E; congruence|].
      destruct (v =? k) eqn:E'; [apply Z.eqb_eq in E'; congruence|].
      simpl. lia.
    + intros c' Hc'. rewrite Hget by tauto.
      apply get2_set2_other. intros ->. apply Hc'. now left.
Qed.

Lemma square_full (n : nat) (v : Z) : square n (full n v).
Proof.
  split; unfold full.
  - apply repeat_length.
  - apply Forall_forall. intros row Hin. apply repeat_spec in Hin. subst.
    apply repeat_length.
Qed.

Lemma get2_full (n : nat) (c : coord) : get2 (full n 0) c = 0.
Proof.
  unfold get2, full. destruct (_ && _); auto.
  destruct (Nat.lt_ge_cases (Z.to_nat (fst c)) n) as [H|H].
  - rewrite nth_repeat_lt by assumption.
    destruct (Nat.lt_ge_cases (Z.to_nat (snd c)) n) as [H'|H'].
    + now rewrite nth_repeat_lt.
    + apply nth_overflow. now rewrite repeat_length.
  - rewrite (nth_overflow _ []) by (now rewrite repeat_length).
    now destruct (Z.to_nat (snd c)).
Qed.

End Counting.

(** ** Placement along the shuffled indices *)

Section Placement.

Lemma NoDup_app_disjoint {A : Type} (l1 l2 : list A) (x : A) :
  NoDup (l1 ++ l2) -> In x l1 -> In x l2 -> False.
Proof.
  induction l1 as [|a l1 IH]; simpl; intros Hnd H1 H2; [contradiction|].
  inversion Hnd as [|? ? Ha Hnd']; subst.
  destruct H1 as [->|H1].
  - apply Ha, in_or_app. now right.
  - now apply IH.
Qed.

Lemma in_firstn {A : Type} (n : nat) (l : list A) (x : A) :
  In x (firstn n l) -> In x l.
Proof.
  intros H. rewrite <- (firstn_skipn n l). apply in_or_app. now left.
Qed.

Lemma in_skipn {A : Type} (n : nat) (l : list A) (x : A) :
  In x (skipn n l) -> In x l.
Proof.
  intros H. rewrite <- (firstn_skipn n l). apply in_or_app. now right.
Qed.

Lemma slice_incl {A : Type} (l : list A) (a k : Z) (x : A) :
  In x (slice l a k) -> In x l.
Proof. unfold slice. intros H. eapply in_skipn, in_firstn, H. Qed.

Lemma slice_NoDup {A : Type} (l : list A) (a k : Z) :
  NoDup l -> NoDup (slice l a k).
Proof.
  intros H. unfold slice.
  rewrite <- (firstn_skipn (Z.to_nat a) l) in H.
  apply NoDup_app_remove_l in H.
  rewrite <- (firstn_skipn (Z.to_nat k) (skipn (Z.to_nat a) l)) in H.
  now apply NoDup_app_remove_r in H.
Qed.

Lemma slice_disjoint {A : Type} (l : list A) (a k b k' : Z) (x : A) :
  NoDup l -> 0 <= a -> 0 <= k -> a + k <= b ->
  In x (slice l a k) -> In x (slice l b k') -> False.
Proof.
  intros Hnd Ha Hk Hb H1 H2. unfold slice in *.
  rewrite <- (firstn_skipn (Z.to_nat a) l) in Hnd.
  apply NoDup_app_remove_l in Hnd.
  rewrite <- (firstn_skipn (Z.to_nat k) (skipn (Z.to_nat a) l)) in Hnd.
  apply (NoDup_app_disjoint _ _ x Hnd H1).
  apply in_firstn in H2.
  replace (Z.to_nat b)
    with ((Z.to_nat b - Z.to_nat a - Z.to_nat k) + (Z.to_nat k + Z.to_nat a))%nat
    in H2 by lia.
  rewrite <- skipn_skipn in H2. apply in_skipn in H2.
  now rewrite <- skipn_skipn in H2.
Qed.

Lemma length_slice {A : Type} (l : list A) (a k : Z) :
  0 <= a -> 0 <= k -> a + k <= Z.of_nat (length l) ->
  Z.of_nat (length (slice l a k)) = k.
Proof.
  intros Ha Hk H. unfold slice. rewrite length_firstn, length_skipn. lia.
Qed.

Lemma unravel_in_range (n i : Z) :
  0 < n -> 0 <= i < n * n -> in_range n (unravel_index n i).
Proof.
  intros Hn Hi. unfold in_range, unravel_index; simpl. repeat split.
  - apply Z.div_pos; lia.
  - apply Z.div_lt_upper_bound; lia.
  - apply Z.mod_pos_bound; lia.
  - apply Z.mod_pos_bound; lia.
Qed.

Lemma unravel_inj (n i j : Z) :
  0 < n -> unravel_index n i = unravel_index n j -> i = j.
Proof.
  intros Hn H. unfold unravel_index in H. inversion H as [[Hd Hm]].
  rewrite (Z.div_mod i n), (Z.div_mod j n) by lia. now rewrite Hd, Hm.
Qed.

Lemma place_as_fill (size : Z) (g : array2) (indices : list Z) (v : Z) :
  place size g indices v
  = fold_left (fun a c => set2 a c v) (map (unravel_index size) indices) g.
Proof.
  unfold place. revert g.
  induction indices as [|i l IH]; intros g; simpl; auto.
Qed.

(** One stage of the placement: [k] fresh indices starting at [a] receive
    [v]; the cells of the later indices stay Empty. *)
Lemma place_stage (n : nat) (idx : list Z) (g : array2) (a k v : Z) :
  (0 < n)%nat -> v <> EMPTY ->
  NoDup idx ->
  (forall i, In i idx -> 0 <= i < Z.of_nat n * Z.of_nat n) ->
  square n g ->
  0 <= a -> 0 <= k -> a + k <= Z.of_nat (length idx) ->
  (forall i, In i (skipn (Z.to_nat a) idx) ->
             get2 g (unravel_index (Z.of_nat n) i) = EMPTY) ->
  let g' := place (Z.of_nat n) g (slice idx a k) v in
  square n g'
  /\ count_eq g' v = count_eq g v + k
  /\ (forall u, u <> v -> u <> EMPTY -> count_eq g' u = count_eq g u)
  /\ (forall i, In i (skipn (Z.to_nat (a + k)) idx) ->
                get2 g' (unravel_index (Z.of_nat n) i) = EMPTY).
Proof.
  intros Hn Hv Hnd Hidx Hsq Ha Hk Hlen Hempty. simpl.
  rewrite place_as_fill.
  destruct (fill_cells n v (map (unravel_index (Z.of_nat n)) (slice idx a k)) Hv g Hsq)
    as (Hsq' & Hcount & Hother & Hget).
  - apply Finite.Injective_map_NoDup_in.
    + intros i j Hi Hj E. apply (unravel_inj (Z.of_nat n)); [lia | assumption].
    + now apply slice_NoDup.
  - intros c Hc. apply in_map_iff in Hc as [i [<- Hi]]. split.
    + apply unravel_in_range; [lia|]. eapply Hidx, slice_incl, Hi.
    + apply Hempty. unfold slice in Hi. eapply in_firstn, Hi.
  - split; [assumption|]. split; [|split; [assumption|]].
    + rewrite Hcount, length_map, length_slice; auto.
    + intros i Hi. rewrite Hget.
      * apply Hempty.
        replace (Z.to_nat (a + k)) with (Z.to_nat k + Z.to_nat a)%nat in Hi by lia.
        rewrite <- skipn_skipn in Hi. eapply in_skipn, Hi.
      * intros Hc. apply in_map_iff in Hc as [j [E Hj]].
        apply (unravel_inj (Z.of_nat n)) in E; [subst j | lia].
        apply (slice_disjoint idx a k (a + k) (Z.of_nat (length idx)) i);
          auto; try lia.
        unfold slice. rewrite firstn_all2; [assumption|].
        rewrite length_skipn. lia.
Qed.

End Placement.

(** ** The three stages of the placement *)

(** A slice that runs past the end of the list stops there. *)
Lemma slice_min {A : Type} (l : list A) (a k : Z) :
  0 <= a <= Z.of_nat (length l) -> 0 <= k ->
  slice l a k = slice l a (Z.min k (Z.of_nat (length l) - a)).
Proof.
  intros Ha Hk. unfold slice.
  destruct (Z_le_gt_dec k (Z.of_nat (length l) - a)) as [H|H].
  - now rewrite Z.min_l.
  - rewrite Z.min_r by lia.
    rewrite !firstn_all2; [reflexivity | |]; rewrite length_skipn; lia.
Qed.

Section Stages.

Variable n : nat.
Variable idx : list Z.
Hypothesis Hn0 : (0 < n)%nat.
Hypothesis Hnd : NoDup idx.
Hypothesis Hidx : forall i, In i idx -> 0 <= i < Z.of_nat n * Z.of_nat n.

Lemma stage_step (g : array2) (ci k v : Z) :
  v <> EMPTY -> stage_ok n idx g ci -> 0 <= k ->
  ci + k <= Z.of_nat (length idx) ->
  let g' := place (Z.of_nat n) g (slice idx ci k) v in
  stage_ok n idx g' (ci + k)
  /\ count_eq g' v = count_eq g v + k
  /\ (forall u, u <> v -> u <> EMPTY -> count_eq g' u = count_eq g u).
Proof.
  intros Hv (Hsq & Hci & Hempty) Hk Hfit.
  destruct (place_stage n idx g ci k v Hn0 Hv Hnd Hidx Hsq) as (A & B & C & D);
    try lia; try assumption.
  simpl. split; [|split; assumption].
  split; [assumption|]. split; [lia | assumption].
Qed.

Lemma place_predators_fit (g : array2) (ci pred : Z) (info : AdjustmentInfo) :
  stage_ok n idx g ci -> 0 <= pred -> ci + pred <= Z.of_nat (length idx) ->
  Z.of_nat (length idx) = Z.of_nat n * Z.of_nat n ->
  exists g',
    place_predators (Z.of_nat n) pred idx g ci info = (g', ci + pred, info)
    /\ stage_ok n idx g' (ci + pred)
    /\ count_eq g' PREDATOR = count_eq g PREDATOR + pred
    /\ (forall u, u <> PREDATOR -> u <> EMPTY -> count_eq g' u = count_eq g u).
Proof.
  intros Hok Hpred Hfit Hlen. unfold place_predators.
  destruct (pred >? 0) eqn:E.
  - rewrite Z.min_l by lia. rewrite Z.ltb_irrefl.
    eexists. split; [reflexivity|].
    apply stage_step; auto. discriminate.
  - assert (pred = 0) by lia. subst pred.
    exists g. rewrite !Z.add_0_r. auto.
Qed.

Lemma place_prey_fit (g : array2) (ci prey : Z) (info : AdjustmentInfo) :
  stage_ok n idx g ci -> 0 <= prey -> ci + prey <= Z.of_nat (length idx) ->
  Z.of_nat (length idx) = Z.of_nat n * Z.of_nat n ->
  exists g',
    place_prey (Z.of_nat n) prey idx g ci info = (g', ci + prey, info)
    /\ stage_ok n idx g' (ci + prey)
    /\ count_eq g' PREY = count_eq g PREY + prey
    /\ (forall u, u <> PREY -> u <> EMPTY -> count_eq g' u = count_eq g u).
Proof.
  intros Hok Hprey Hfit Hlen. unfold place_prey.
  destruct (prey >? 0) eqn:E.
  - rewrite Z.min_l by lia. rewrite Z.ltb_irrefl.
    eexists. split; [reflexivity|].
    apply stage_step; auto. discriminate.
  - assert (prey = 0) by lia. subst prey.
    exists g. rewrite !Z.add_0_r. auto.
Qed.

Lemma place_substrate_fit (g : array2) (ci : Z) (prob : Q) (info : AdjustmentInfo) :
  stage_ok n idx g ci ->
  Z.of_nat (length idx) = Z.of_nat n * Z.of_nat n ->
  let g' := fst (place_substrate (Z.of_nat n) prob idx g ci info) in
  let info' := snd (place_substrate (Z.of_nat n) prob idx g ci info) in
  square n g'
  /\ (forall u, u <> SUBSTRATE -> u <> EMPTY -> count_eq g' u = count_eq g u)
  /\ values_adjusted info' = values_adjusted info
  /\ original_values info' = original_values info
  /\ reason info' = reason info
  /\ adj_initial_prey (adjusted_of info') = adj_initial_prey (adjusted_of info)
  /\ adj_initial_predators (adjusted_of info')
     = adj_initial_predators (adjusted_of info).
Proof.
  intros Hok Hlen. unfold place_substrate.
  destruct Hok as (Hsq & Hci & Hempty).
  destruct (Qltb 0 prob); [|simpl; repeat split; auto; apply Hsq].
  destruct (_ >? 0) eqn:E; [|simpl; repeat split; auto; apply Hsq].
  simpl.
  set (k := Qtrunc (fmul (inject_Z (Z.of_nat n * Z.of_nat n - ci)) prob)) in *.
  rewrite (slice_min idx ci k) by lia.
  destruct (stage_step g ci (Z.min k (Z.of_nat (length idx) - ci)) SUBSTRATE)
    as ((A & _) & _ & C); try lia; try discriminate.
  { split; [assumption|]. split; assumption. }
  repeat split; auto; apply A.
Qed.

End Stages.

(** When the requested counts fit into the grid, exactly these counts are
    placed and the reconciliation leaves the flag, the original values, the
    reason and the recorded split as the density policy set them. *)
Lemma place_entities_exact (size prey pred : Z) (prob : Q)
    (info : AdjustmentInfo) (idx : list Z) :
  0 < size -> 0 <= prey -> 0 <= pred -> prey + pred <= size * size ->
  Permutation idx (range_Z 0 (size * size)) ->
  let g := fst (place_entities size prey pred prob info idx) in
  let info' := snd (place_entities size prey pred prob info idx) in
  square (Z.to_nat size) g
  /\ count_eq g PREDATOR = pred
  /\ count_eq g PREY = prey
  /\ values_adjusted info' = values_adjusted info
  /\ original_values info' = original_values info
  /\ reason info' = reason info
  /\ adj_initial_prey (adjusted_of info') = adj_initial_prey (adjusted_of info)
  /\ adj_initial_predators (adjusted_of info')
     = adj_initial_predators (adjusted_of info).
Proof.
  intros Hsize Hprey Hpred Htotal Hperm.
  assert (Hn : size = Z.of_nat (Z.to_nat size)) by lia.
  generalize dependent (Z.to_nat size). intros n Hn. subst size.
  assert (Hn0 : (0 < n)%nat) by lia.
  assert (Hnd : NoDup idx).
  { eapply Permutation_NoDup; [symmetry; exact Hperm | apply range_Z_NoDup]. }
  assert (Hidx : forall i, In i idx -> 0 <= i < Z.of_nat n * Z.of_nat n).
  { intros i Hi. apply (Permutation_in _ Hperm), range_Z_spec in Hi. lia. }
  assert (Hlen : Z.of_nat (length idx) = Z.of_nat n * Z.of_nat n).
  { rewrite (Permutation_length Hperm), length_range_Z. lia. }
  assert (Hok0 : stage_ok n idx (create_empty_grid (Z.of_nat n)) 0).
  { unfold create_empty_grid. rewrite Nat2Z.id.
    split; [apply square_full|]. split; [lia|]. intros i _. apply get2_full. }
  assert (Hc0 : forall u, u <> EMPTY ->
                  count_eq (create_empty_grid (Z.of_nat n)) u = 0).
  { intros u Hu. apply count_eq_full. unfold EMPTY in Hu. congruence. }
  unfold place_entities.
  destruct (place_predators_fit n idx Hn0 Hnd Hidx _ 0 pred info Hok0)
    as (g1 & E1 & Hok1 & Hc1 & Ho1); try lia.
  rewrite E1.
  destruct (place_prey_fit n idx Hn0 Hnd Hidx g1 (0 + pred) prey info Hok1)
    as (g2 & E2 & Hok2 & Hc2 & Ho2); try lia.
  rewrite E2.
  destruct (place_substrate_fit n idx Hn0 Hnd Hidx g2 (0 + pred + prey) prob info
              Hok2 Hlen) as (Hsq3 & Ho3 & Hinfo).
  destruct (place_substrate (Z.of_nat n) prob idx g2 (0 + pred + prey) info)
    as [g3 info3].
  simpl in *.
  assert (Hpredators : count_eq g3 PREDATOR = pred).
  { rewrite Ho3 by discriminate. rewrite Ho2 by discriminate.
    rewrite Hc1, Hc0 by discriminate. lia. }
  assert (Hpreys : count_eq g3 PREY = prey).
  { rewrite Ho3 by discriminate. rewrite Hc2, Ho1 by discriminate.
    rewrite Hc0 by discriminate. lia. }
  unfold reconcile. rewrite Hpredators, Hpreys, !Z.eqb_refl. simpl.
  split; [assumption|]. split; [reflexivity|]. split; [reflexivity|]. exact Hinfo.
Qed.

(** ** The density policy *)

Lemma Qltb_scaled (a b n : Z) (d : positive) :
  Qltb (inject_Z a * (n # d)) (inject_Z b) = (a * n <? b * Zpos d).
Proof.
  unfold Qltb, Qle_bool; simpl.
  rewrite Z.mul_1_r.
  destruct (b * Zpos d <=? a * n) eqn:E1, (a * n <? b * Zpos d) eqn:E2;
    simpl; try reflexivity; lia.
Qed.

(** The densities of the source. *)
Lemma max_density_bounds (size : Z) :
  (0 <= max_density size)%Q /\ (max_density size <= 9 # 10)%Q.
Proof.
  unfold max_density.
  destruct (size >=? 1000), (size >=? 800); split; discriminate.
Qed.

(** The cap is a count of cells that a double holds. *)
Lemma entity_cap_double (size : Z) :
  0 < size ->
  (double (inject_Z (entity_cap size)) == inject_Z (entity_cap size))%Q.
Proof.
  intros Hs. unfold entity_cap.
  destruct (max_density_bounds size) as [D0 D1].
  apply fmul_cap; [nia | assumption | assumption].
Qed.

Lemma entity_cap_bounds (size : Z) :
  0 < size -> 0 <= entity_cap size <= size * size.
Proof.
  intros Hs. unfold entity_cap.
  destruct (max_density_bounds size) as [D0 D1].
  apply fmul_cap; [nia | assumption | assumption].
Qed.

(** The prey share of a cap lies between 0 and the cap. *)
Lemma share_bounds (cap prey pred : Z) :
  0 <= cap -> (double (inject_Z cap) == inject_Z cap)%Q ->
  0 <= prey -> 0 <= pred -> 0 < prey + pred ->
  0 <= prey_share cap prey pred <= cap.
Proof.
  intros Hc Hd Hprey Hpred Htot. unfold prey_share.
  destruct (int_truediv_bounds prey (prey + pred)) as [R0 R1]; try lia.
  now apply fmul_share.
Qed.

Lemma split_entities_shares (size prey pred : Z) :
  0 < prey + pred ->
  split_entities (size * size) (max_density size) prey (prey + pred)
  = (prey_share (entity_cap size) prey pred,
     entity_cap size - prey_share (entity_cap size) prey pred).
Proof.
  intros Htotal. unfold split_entities.
  destruct (prey + pred >? 0) eqn:E; [reflexivity | lia].
Qed.

(** A float is below an integer exactly when its floor is. *)
Lemma Qltb_floor (q : Q) (n : Z) : Qltb q (inject_Z n) = (Qfloor q <? n).
Proof.
  pose proof (Qfloor_le q) as A. pose proof (Qlt_floor q) as B.
  rewrite inject_Z_plus in B. change (inject_Z 1) with 1%Q in B.
  destruct (Qfloor q <? n) eqn:E.
  - apply Qltb_iff. apply Z.ltb_lt in E.
    assert (H : (inject_Z (Qfloor q + 1) <= inject_Z n)%Q)
      by (rewrite <- Zle_Qle; lia).
    rewrite inject_Z_plus in H. change (inject_Z 1) with 1%Q in H. lra.
  - apply Qltb_false_iff. apply Z.ltb_ge in E.
    rewrite Zle_Qle in E. lra.
Qed.

(** The test [total_entities > total_cells * max_density] is modelled on
    the product that is not rounded.  For the sizes up to 5000 this is the
    test on the product of doubles. *)
Lemma density_test_unrounded (size total : Z) :
  1 <= size <= 5000 ->
  Qltb (fmul (inject_Z (size * size)) (max_density size)) (inject_Z total)
  = Qltb (inject_Z (size * size) * max_density size) (inject_Z total).
Proof.
  intros Hs. rewrite !Qltb_floor. f_equal.
  assert (Hall : forallb
            (fun n => Qfloor (fmul (inject_Z (n * n)) (max_density n))
                      =? Qfloor (inject_Z (n * n) * max_density n))
            (range_Z 1 5001) = true) by (vm_compute; reflexivity).
  rewrite forallb_forall in Hall.
  apply Z.eqb_eq, Hall, range_Z_spec. lia.
Qed.

(** The validation accepts well-formed arguments. *)
Lemma initialize_grid_valid (size prey pred : Z) (prob : Q) (r : Rng) :
  0 < size -> 0 <= prey -> 0 <= pred -> (0 <= prob)%Q -> (prob <= 1)%Q ->
  initialize_grid size prey pred prob r
  = (let '(prey', pred', prob', info) := density_policy size prey pred prob in
     let '(idx, r') := shuffle (range_Z 0 (size * size)) r in
     (inr (place_entities size prey' pred' prob' info idx), r')).
Proof.
  intros Hs Hprey Hpred Hp0 Hp1. unfold initialize_grid.
  destruct (size <=? 0) eqn:E1; [lia|].
  destruct (prey <? 0) eqn:E2; [lia|].
  destruct (pred <? 0) eqn:E3; [lia|].
  apply Qle_bool_iff in Hp0, Hp1. rewrite Hp0, Hp1. reflexivity.
Qed.

(** What the density policy returns when the cap applies. *)
Lemma density_policy_clamped (size prey pred : Z) (prob : Q) :
  0 < size -> 0 <= prey -> 0 <= pred -> clamp_applies size prey pred ->
  let cap := entity_cap size in
  let share := prey_share cap prey pred in
  exists prob' info,
    density_policy size prey pred prob
    = (share, cap - share, prob', info)
    /\ (prob' = prob \/ prob' = Qmin prob (2 # 10))
    /\ values_adjusted info = true
    /\ original_values info = Some (mkOriginal prey pred prob)
    /\ adj_initial_prey (adjusted_of info) = Some share
    /\ adj_initial_predators (adjusted_of info) = Some (cap - share)
    /\ (exists msg, reason info = Some msg /\ msg <> "").
Proof.
  intros Hs Hprey Hpred Hclamp. unfold clamp_applies in Hclamp.
  assert (Hsq : 0 <= size * size) by nia.
  assert (Htot : 0 < prey + pred).
  { unfold density_tenths in Hclamp.
    destruct (size >=? 1000), (size >=? 800); nia. }
  pose proof (split_entities_shares size prey pred Htot) as Hsplit.
  unfold density_policy, max_density, density_tenths in *.
  destruct (size >=? 800) eqn:E800.
  - assert (Hd : exists n, (if size >=? 1000 then 3 # 10 else 4 # 10)
                           = (n # 10) /\ 0 <= n
                           /\ n = (if size >=? 1000 then 3 else 4)).
    { destruct (size >=? 1000); [exists 3 | exists 4]; repeat split; lia. }
    destruct Hd as (n & Ed & Hn & En). rewrite <- En in *.
    assert (Ed' : (if size >=? 1000 then 3 # 10
                   else if true then 4 # 10 else 8 # 10) = (n # 10))
      by (destruct (size >=? 1000); assumption).
    rewrite Ed' in Hsplit. rewrite Ed.
    rewrite Qltb_scaled.
    destruct (size * size * n <? (prey + pred) * 10) eqn:E; [|lia].
    rewrite Hsplit.
    destruct (Qltb (2 # 10) prob).
    + do 2 eexists. split; [reflexivity|].
      split; [now right|]. simpl. repeat split; try reflexivity.
      eexists. split; [reflexivity|].
      discriminate.
    + do 2 eexists. split; [reflexivity|].
      split; [now left|]. simpl. repeat split; try reflexivity.
      eexists. split; [reflexivity|]. discriminate.
  - destruct (size >=? 1000) eqn:E1000; [lia|].
    rewrite Qltb_scaled.
    destruct (size * size * 8 <? (prey + pred) * 10) eqn:E; [|lia].
    rewrite Hsplit.
    do 2 eexists. split; [reflexivity|].
    split; [now left|]. simpl. repeat split; try reflexivity.
    eexists. split; [reflexivity|]. discriminate.
Qed.

(** C5 (amended). Whenever the initializer clamps the requested total
    (density cap of 30% or 40% from size 800 on, 80% cap below), the allowed
    total [cap = int(cells * density)] is split as prey share
    [int(cap * (prey / (prey + predators)))], computed in double precision,
    and predator share [cap - prey share]; both shares lie between 0 and the
    cap, and for a grid of at most [2 ^ 50] cells the prey share is the
    floor of [cap * prey / (prey + predators)] or next to it.  The report
    has [values_adjusted] set, holds the original values and the two shares
    as adjusted values and a non-empty reason, and exactly the two shares
    are placed. *)
Theorem C5_clamp_splits_by_float_prey_share (size prey pred : Z) (prob : Q)
    (r : Rng) :
  0 < size -> 0 <= prey -> 0 <= pred -> (0 <= prob)%Q -> (prob <= 1)%Q ->
  clamp_applies size prey pred ->
  let cap := entity_cap size in
  let share := prey_share cap prey pred in
  exists g info r',
    initialize_grid size prey pred prob r = (inr (g, info), r')
    /\ values_adjusted info = true
    /\ original_values info = Some (mkOriginal prey pred prob)
    /\ adj_initial_prey (adjusted_of info) = Some share
    /\ adj_initial_predators (adjusted_of info) = Some (cap - share)
    /\ (exists msg, reason info = Some msg /\ msg <> "")
    /\ count_eq g PREY = share
    /\ count_eq g PREDATOR = cap - share
    /\ 0 <= share <= cap
    /\ (size * size <= 2 ^ 50 ->
        cap * prey / (prey + pred) - 1 <= share
        <= cap * prey / (prey + pred) + 1).
Proof.
  intros Hs Hprey Hpred Hp0 Hp1 Hclamp cap share.
  assert (Htot : 0 < prey + pred).
  { unfold clamp_applies, density_tenths in Hclamp.
    destruct (size >=? 1000), (size >=? 800); nia. }
  destruct (entity_cap_bounds size Hs) as [Hcap0 Hcap].
  pose proof (entity_cap_double size Hs) as Hcapd.
  destruct (share_bounds cap prey pred Hcap0 Hcapd Hprey Hpred Htot)
    as [Hsh0 Hsh].
  rewrite initialize_grid_valid by assumption.
  destruct (density_policy_clamped size prey pred prob Hs Hprey Hpred Hclamp)
    as (prob' & info0 & -> & Hprob' & Hflag & Horig & Hap & Had & Hreason).
  pose proof (shuffle_perm (range_Z 0 (size * size)) r) as Hperm.
  destruct (shuffle (range_Z 0 (size * size)) r) as [idx r'].
  cbn [fst] in Hperm.
  fold cap in Hsh0, Hsh |- *. fold share in Hsh0, Hsh |- *.
  assert (Hshare0 : 0 <= cap - share) by lia.
  assert (Hfit : share + (cap - share) <= size * size) by lia.
  pose proof (place_entities_exact size share (cap - share) prob' info0 idx
                Hs Hsh0 Hshare0 Hfit Hperm) as Hexact.
  cbv zeta in Hexact.
  destruct (place_entities size share (cap - share) prob' info0 idx)
    as [g info].
  cbn [fst snd] in Hexact.
  destruct Hexact as (_ & Hcp & Hcy & Hv & Ho & Hr & Hip & Hid).
  exists g, info, r'. split; [reflexivity|].
  rewrite Hv, Ho, Hr, Hip, Hid.
  do 7 (split; [assumption|]). split; [lia|].
  intros Hsmall. apply prey_share_near; try assumption. lia.
Qed.

Lemma C5_witness :
  exists g info r',
    initialize_grid 15 140 60 0 Examples.zeros = (inr (g, info), r')
    /\ values_adjusted info = true
    /\ original_values info = Some (mkOriginal 140 60 0)
    /\ adj_initial_prey (adjusted_of info) = Some 125
    /\ adj_initial_predators (adjusted_of info) = Some (180 - 125)
    /\ (exists msg, reason info = Some msg /\ msg <> "")
    /\ count_eq g PREY = 125
    /\ count_eq g PREDATOR = 180 - 125
    /\ 0 <= 125 <= 180
    /\ (15 * 15 <= 2 ^ 50 ->
        180 * 140 / (140 + 60) - 1 <= 125 <= 180 * 140 / (140 + 60) + 1).
Proof.
  apply (C5_clamp_splits_by_float_prey_share 15 140 60 0 Examples.zeros);
    try lia; try discriminate.
  vm_compute. reflexivity.
Defined.

(** C5 as stated fails: with 3 prey and 2 predators requested on a 2 x 2
    grid the cap is 3 and the recorded predator share is 2, which is not
    [floor(cap * ratio)] for the ratio of the source (prey over total), nor
    for predators over total, nor for prey over predators. *)
Lemma C5_counterexample :
  exists g info r',
    initialize_grid 2 3 2 0 Examples.zeros = (inr (g, info), r')
    /\ entity_cap 2 = 3
    /\ adj_initial_predators (adjusted_of info) = Some 2
    /\ 2 <> claimed_predator_share 3 (3 # 5)
    /\ 2 <> claimed_predator_share 3 (2 # 5)
    /\ 2 <> claimed_predator_share 3 (3 # 2).
Proof.
  do 3 eexists. split; [vm_compute; reflexivity|].
  repeat split; vm_compute; discriminate.
Qed.





(** ** Thresholds written in the rules

    The death, reproduction and movement chances that the rules fall back
    on are compared as the decimal fractions of the source text: no draw
    tells one of them from the double that the literal denotes.  The
    threshold 0.7 of a prey next to a predator is the exception (the draw
    [6305039478318694 / 2 ^ 53] is below the fraction and is the double)
    and enters [_update_prey] as its double. *)

Lemma draw_ceiling (r : Rng) (a : Q) :
  Qltb (fst (random r)) a
  = (Z.of_N (word r mod Npos two53) <? Qceiling (a * inject_Z (Zpos two53))).
Proof.
  unfold random. cbn [fst].
  set (k := Z.of_N (word r mod Npos two53)).
  assert (E : (k # two53 == inject_Z k / inject_Z (Zpos two53))%Q)
    by apply Qmake_Qdiv.
  assert (T : (0 < inject_Z (Zpos two53))%Q) by reflexivity.
  set (t := inject_Z (Zpos two53)) in *.
  pose proof (Qle_ceiling (a * t)) as C1.
  pose proof (Qceiling_lt (a * t)) as C2.
  assert (Ek : (inject_Z k == (k # two53) * t)%Q) by (rewrite E; field; lra).
  destruct (k <? Qceiling (a * t)) eqn:H.
  - apply Qltb_iff. apply Z.ltb_lt in H.
    assert (H' : (inject_Z k <= inject_Z (Qceiling (a * t) - 1))%Q)
      by (rewrite <- Zle_Qle; lia).
    assert (Hlt : (inject_Z k < a * t)%Q) by lra.
    rewrite Ek in Hlt. nra.
  - apply Qltb_false_iff. apply Z.ltb_ge in H. rewrite Zle_Qle in H.
    assert (Hle : (a * t <= inject_Z k)%Q) by lra.
    rewrite Ek in Hle. nra.
Qed.

Lemma threshold_of_the_threatened_prey :
  (double (7 # 10) == 6305039478318694 # two53)%Q
  /\ Qltb (6305039478318694 # two53) (7 # 10) = true.
Proof. split; vm_compute; reflexivity. Qed.

Lemma default_thresholds (r : Rng) :
  Forall (fun a => Qltb (fst (random r)) a = Qltb (fst (random r)) (double a))
         [(5 # 1000)%Q; (2 # 10)%Q; (5 # 10)%Q; (1 # 100)%Q; (3 # 10)%Q].
Proof.
  repeat constructor; rewrite !draw_ceiling; f_equal; vm_compute; reflexivity.
Qed.

(** ** The rules realise the effects *)

Section RuleEffects.

Lemma Qltb_lt (a b : Q) : Qltb a b = true -> (a < b)%Q.
Proof.
  unfold Qltb. intros H. apply negb_true_iff in H.
  apply Qnot_le_lt. intros Hle. apply Qle_bool_iff in Hle. congruence.
Qed.

Lemma random_nonneg (r : Rng) : (0 <= fst (random r))%Q.
Proof.
  unfold random, Qle; simpl. rewrite Z.mul_1_r. apply N2Z.is_nonneg.
Qed.

(** A draw below [p] shows that [p] is positive. *)
Lemma draw_below_positive (r : Rng) (p : Q) :
  Qltb (fst (random r)) p = true -> (0 < p)%Q.
Proof.
  intros H. apply Qle_lt_trans with (fst (random r));
    [apply random_nonneg | apply Qltb_lt, H].
Qed.

Lemma and_draw_true (cond : bool) (p : Q) (r : Rng) :
  fst (and_draw cond p r) = true -> cond = true /\ (0 < p)%Q.
Proof.
  unfold and_draw. destruct cond; [|discriminate].
  destruct (random r) as [u r'] eqn:E. simpl. intros H. split; [reflexivity|].
  apply (draw_below_positive r). now rewrite E.
Qed.

Lemma choose_filter (f : coord -> bool) (l : list coord) (r : Rng) :
  nonempty (filter f l) = true ->
  In (fst (choose (filter f l) r)) l /\ f (fst (choose (filter f l) r)) = true.
Proof.
  intros H. apply filter_In. apply choice_In. now apply nonempty_true.
Qed.

Lemma filter_empty {A : Type} (f : A -> bool) (l : list A) :
  nonempty (filter f l) = false -> forall a, In a l -> f a = false.
Proof.
  intros H a Ha. destruct (f a) eqn:E; [|reflexivity].
  assert (Hin : In a (filter f l)) by (apply filter_In; auto).
  destruct (filter f l); [contradiction | discriminate].
Qed.

Lemma predator_rule_effect (s : Simulation) (w : Work) (x y : Z) (r : Rng) :
  match _update_predator s w x y r with
  | Done w' _ => predator_effect s x y w w'
  | Raised w' _ =>
      w' = w /\ predator_threshold s = 0
      /\ get2 (predator_hunger s) (x, y) < 0
  end.
Proof.
  unfold _update_predator.
  destruct (random r) as [u r1] eqn:Eu.
  destruct (Qltb u _) eqn:Edeath.
  { apply predator_random_death. apply (draw_below_positive r).
    now rewrite Eu. }
  fold (predator_threshold s).
  destruct (_ >=? _) eqn:Estarve.
  { apply predator_starves. lia. }
  assert (Hlt : get2 (predator_hunger s) (x, y) < predator_threshold s) by lia.
  unfold predator_hunt_or_move.
  destruct (predator_threshold s =? 0) eqn:Ezero.
  { split; [reflexivity|]. lia. }
  set (preys := filter _ (_get_nearby_cells s x y 2)).
  set (empties := filter _ (_get_nearby_cells s x y 1)).
  destruct (and_draw (nonempty preys) _ r1) as [hunt r2] eqn:Ehunt.
  destruct hunt.
  - pose proof (and_draw_true _ _ _ (f_equal fst Ehunt)) as [Hne _].
    destruct (choose_filter _ _ r2 Hne) as [Hin Hprey]. fold preys in Hin, Hprey.
    apply Z.eqb_eq in Hprey.
    destruct (choose preys r2) as [prey r3]. simpl in Hin, Hprey.
    destruct (random r3) as [u2 r4].
    destruct (Qltb u2 _); [|now apply predator_hunts].
    destruct (nonempty empties) eqn:Hne'; [|now apply predator_hunts].
    destruct (choose_filter _ _ r4 Hne') as [Hin' Hempty].
    fold empties in Hin', Hempty. apply Z.eqb_eq in Hempty.
    destruct (choose empties r4) as [n r5]. simpl in Hin', Hempty.
    now apply predator_hunts_and_breeds.
  - destruct (and_draw (nonempty empties) _ r2) as [move r3] eqn:Emove.
    destruct move; [|now apply predator_stays].
    pose proof (and_draw_true _ _ _ (f_equal fst Emove)) as [Hne _].
    destruct (choose_filter _ _ r3 Hne) as [Hin Hempty].
    fold empties in Hin, Hempty. apply Z.eqb_eq in Hempty.
    destruct (choose empties r3) as [n r4]. simpl in Hin, Hempty.
    now apply predator_moves.
Qed.

Lemma prey_rule_effect (s : Simulation) (w : Work) (x y : Z) (r : Rng) :
  prey_effect s x y w (fst (_update_prey s w x y r)).
Proof.
  unfold _update_prey.
  destruct (random r) as [u r1] eqn:Eu.
  destruct (Qltb u _) eqn:Edeath.
  { apply prey_random_death. apply (draw_below_positive r). now rewrite Eu. }
  fold (prey_threshold s).
  destruct (_ >=? _) eqn:Estarve.
  { apply prey_starves. lia. }
  assert (Hlt : get2 (prey_hunger s) (x, y) < prey_threshold s) by lia.
  destruct (and_draw _ _ r1) as [freeze r2].
  destruct freeze; [now apply prey_stays|].
  set (subs := filter (fun c => get2 (grid s) c =? SUBSTRATE) _).
  set (empties := filter (fun c => get2 (grid s) c =? EMPTY) _).
  destruct (nonempty subs) eqn:Hsub.
  - destruct (choose_filter _ _ r2 Hsub) as [Hin Hs].
    fold subs in Hin, Hs. apply Z.eqb_eq in Hs.
    destruct (choose subs r2) as [sub r3]. simpl in Hin, Hs.
    destruct (random r3) as [u2 r4].
    destruct (Qltb u2 _); [|now apply prey_eats].
    destruct (nonempty empties) eqn:Hne; [|now apply prey_eats].
    destruct (choose_filter _ _ r4 Hne) as [Hin' He].
    fold empties in Hin', He. apply Z.eqb_eq in He.
    destruct (choose empties r4) as [n r5]. simpl in Hin', He.
    now apply prey_eats_and_breeds.
  - destruct (nonempty empties) eqn:Hne; [|now apply prey_stays].
    destruct (choose_filter _ _ r2 Hne) as [Hin He].
    fold empties in Hin, He. apply Z.eqb_eq in He.
    destruct (choose empties r2) as [n r3]. simpl in Hin, He.
    apply prey_moves; auto.
    intros c Hc E. pose proof (filter_empty _ _ Hsub c Hc) as Hf.
    simpl in Hf. rewrite E in Hf. discriminate Hf.
Qed.

Lemma substrate_rule_effect (s : Simulation) (w : Work) (x y : Z) (r : Rng) :
  substrate_effect s x y w (fst (_update_substrate s w x y r)).
Proof.
  unfold _update_substrate.
  destruct (random r) as [u r1] eqn:Eu.
  destruct (Qltb u _) eqn:E; [|apply substrate_persists].
  apply substrate_decays. apply (draw_below_positive r). now rewrite Eu.
Qed.

Lemma empty_rule_effect (s : Simulation) (w : Work) (x y : Z) (r : Rng) :
  empty_effect s x y w (fst (_update_empty s w x y r)).
Proof.
  unfold _update_empty.
  destruct (and_draw _ _ r) as [birth r1] eqn:Eb.
  destruct birth.
  - pose proof (and_draw_true _ _ _ (f_equal fst Eb)) as [Hc _].
    apply andb_true_iff in Hc as [H2 H1].
    apply empty_predator_birth; lia.
  - destruct (random r1) as [u r2] eqn:Eu.
    destruct (Qltb u _) eqn:E; [|apply empty_remains].
    apply empty_regrowth. apply (draw_below_positive r1). now rewrite Eu.
Qed.

(** Processing a cell has one of the cell effects. *)
Lemma process_cell_effect (s : Simulation) (w : Work) (c : coord) (r : Rng) :
  cell_effect s c w (fst (process_cell s w c r)).
Proof.
  unfold process_cell.
  destruct (get2 (new_grid w) c =? get2 (grid s) c) eqn:Eskip; simpl.
  2:{ apply cell_skipped. lia. }
  apply Z.eqb_eq in Eskip.
  destruct (get2 (grid s) c =? PREDATOR) eqn:E1.
  { apply Z.eqb_eq in E1.
    pose proof (predator_rule_effect s w (fst c) (snd c) r) as H.
    destruct (_update_predator s w (fst c) (snd c) r) as [w' r'|w' r']; simpl.
    - apply cell_predator; congruence.
    - destruct H as (-> & Ht & Hh).
      apply cell_predator_fault; auto; now destruct c. }
  destruct (get2 (grid s) c =? PREY) eqn:E2.
  { apply Z.eqb_eq in E2.
    pose proof (prey_rule_effect s w (fst c) (snd c) r) as H.
    destruct (_update_prey s w (fst c) (snd c) r) as [w' r']; simpl in *.
    apply cell_prey; congruence. }
  destruct (get2 (grid s) c =? SUBSTRATE) eqn:E3.
  { apply Z.eqb_eq in E3.
    pose proof (substrate_rule_effect s w (fst c) (snd c) r) as H.
    destruct (_update_substrate s w (fst c) (snd c) r) as [w' r']; simpl in *.
    apply cell_substrate; congruence. }
  destruct (get2 (grid s) c =? EMPTY) eqn:E4.
  { apply Z.eqb_eq in E4.
    pose proof (empty_rule_effect s w (fst c) (snd c) r) as H.
    destruct (_update_empty s w (fst c) (snd c) r) as [w' r']; simpl in *.
    apply cell_empty; congruence. }
  simpl. apply cell_other; lia.
Qed.

End RuleEffects.

(** ** Writes to cells that were already written *)

(** The guard of the loop: a cell whose buffer value differs from its
    generation-start value is passed over at its turn. *)
Lemma process_cell_skips_written (s : Simulation) (w : Work) (c : coord)
    (r : Rng) :
  written s w c -> process_cell s w c r = (w, r).
Proof.
  unfold written, process_cell. intros H.
  destruct (get2 (new_grid w) c =? get2 (grid s) c) eqn:E; [|reflexivity].
  apply Z.eqb_eq in E. contradiction.
Qed.

(** C1 (failing input). On the 5 x 5 torus of [Examples.move_sim] the prey
    at (2, 4) is processed first and moves to the empty cell (2, 3); the
    predator at (2, 2) is processed next, and its ordinary move writes
    Predator over the Prey already written at (2, 3). *)
Theorem C1_later_move_overwrites_earlier_move :
  let s := Examples.move_sim in
  let sh := shuffle (all_coords (shape0 (grid s))) Examples.move_rng in
  let order := fst sh in
  let w1 := fst (sweep s (firstn 1 order) (fresh_work s) (snd sh)) in
  let w2 := fst (sweep s (firstn 2 order) (fresh_work s) (snd sh)) in
  firstn 2 order = [(2, 4); (2, 2)]
  /\ get2 (grid s) (2, 3) = EMPTY
  /\ get2 (new_grid w1) (2, 3) = PREY
  /\ get2 (new_grid w2) (2, 3) = PREDATOR
  /\ ~ first_writer_wins s order (fresh_work s) (snd sh).
Proof.
  intros s sh order w1 w2.
  assert (H1 : get2 (new_grid w1) (2, 3) = PREY) by (vm_compute; reflexivity).
  assert (H2 : get2 (new_grid w2) (2, 3) = PREDATOR) by (vm_compute; reflexivity).
  split; [vm_compute; reflexivity|].
  split; [vm_compute; reflexivity|].
  split; [exact H1|]. split; [exact H2|].
  intros H.
  assert (Hsplit : order = firstn 1 order ++ (2, 2) :: skipn 2 order)
    by (vm_compute; reflexivity).
  specialize (H (firstn 1 order) (2, 2) (skipn 2 order) (2, 3) Hsplit).
  cbv zeta in H.
  assert (Hnext : fst (process_cell s
                         (fst (sweep s (firstn 1 order) (fresh_work s) (snd sh)))
                         (2, 2)
                         (snd (sweep s (firstn 1 order) (fresh_work s) (snd sh))))
                  = w2) by (vm_compute; reflexivity).
  rewrite Hnext in H. fold w1 in H. rewrite H1, H2 in H.
  assert (E : PREDATOR = PREY).
  { apply H. unfold written. fold w1. rewrite H1. vm_compute. discriminate. }
  discriminate E.
Qed.

(** ** Predators keep a hunger counter *)

Lemma coord_eqb_eq (a b : coord) : coord_eqb a b = true <-> a = b.
Proof.
  unfold coord_eqb. rewrite andb_true_iff, !Z.eqb_eq.
  destruct a, b; simpl. split; [intros [-> ->]; reflexivity|].
  intros E; inversion E; auto.
Qed.

Lemma coord_eqb_neq (a b : coord) : coord_eqb a b = false <-> a <> b.
Proof.
  rewrite <- coord_eqb_eq. destruct (coord_eqb a b); split; congruence.
Qed.

Lemma get2_set2 (n : nat) (a : array2) (d c : coord) (v : Z) :
  square n a -> in_range (Z.of_nat n) d ->
  get2 (set2 a d v) c = if coord_eqb d c then v else get2 a c.
Proof.
  intros Hsq Hd. destruct (coord_eqb d c) eqn:E.
  - apply coord_eqb_eq in E. subst c. now apply (get2_set2_same n).
  - apply coord_eqb_neq in E. now apply get2_set2_other.
Qed.

Lemma shape0_square (n : nat) (a : array2) : square n a -> shape0 a = Z.of_nat n.
Proof. intros [H _]. unfold shape0. now rewrite H. Qed.

Lemma nearby_in_range (n : nat) (s : Simulation) (x y distance : Z) (c c0 : coord) :
  square n (grid s) -> in_range (Z.of_nat n) c0 ->
  In c (_get_nearby_cells s x y distance) -> in_range (Z.of_nat n) c.
Proof.
  intros Hsq Hc0 Hin. rewrite <- (shape0_square n (grid s) Hsq).
  apply (nearby_cells_in_range s x y distance); [|assumption].
  rewrite (shape0_square n (grid s) Hsq). destruct Hc0. lia.
Qed.

Create HintDb squares.
#[local] Hint Resolve square_set2 : squares.

(** Case analysis on the cells named in the lookups of updated arrays. *)
Ltac split_cells :=
  repeat match goal with
         | H : context [coord_eqb ?d ?c] |- _ =>
             let E := fresh "E" in
             destruct (coord_eqb d c) eqn:E;
             [apply coord_eqb_eq in E | apply coord_eqb_neq in E]
         | |- context [coord_eqb ?d ?c] =>
             let E := fresh "E" in
             destruct (coord_eqb d c) eqn:E;
             [apply coord_eqb_eq in E | apply coord_eqb_neq in E]
         end.

Section HungerTracking.

Variable s : Simulation.
Variable n : nat.
Hypothesis Hs : hunger_tracked n s.

Lemma sweep_tracked_cell (c0 : coord) (rest : list coord) (w w' : Work) :
  in_range (Z.of_nat n) c0 ->
  cell_effect s c0 w w' ->
  sweep_tracked s n (c0 :: rest) w -> sweep_tracked s n rest w'.
Proof.
  destruct Hs as (Hg & Hph & Hok).
  intros Hc0 Heff (Hsg & Hsh & Hw).
  assert (Hnear : forall x y d c, In c (_get_nearby_cells s x y d) ->
                    in_range (Z.of_nat n) c).
  { intros x y d c. now apply (nearby_in_range n s x y d c c0). }
  assert (Hold : forall c, c <> c0 -> get2 (new_grid w) c = PREDATOR ->
            0 <= get2 (new_predator_hunger w) c
            \/ (get2 (grid s) c = PREDATOR /\ In c rest)).
  { intros c Hne Hc. destruct (Hw c Hc) as [H|[H [H'|H']]]; auto. congruence. }
  destruct c0 as [x y]. simpl in Heff.
  destruct Heff as [Hskip | w' Hnew Hold0 Heff | Hold0 Ht Hh
                   | w' Hnew Hold0 Heff | w' Hnew Hold0 Heff
                   | w' Hnew Hold0 Heff | H1 H2 H3 H4].
  - (* skipped *)
    split; [assumption|]. split; [assumption|]. intros c Hc.
    destruct (Hw c Hc) as [H|[H [H'|H']]]; auto. subst c. congruence.
  - (* predator *)
    pose proof (Hok _ Hold0) as Hh0.
    destruct Heff as [Hd | Hst | prey Hlt Hin Hprey | prey m Hlt Hin Hprey Hin' Hm
                     | Hlt | m Hlt Hin Hm];
      unfold sweep_tracked, predator_goes, set_grid, set_predator_hunger; simpl;
      (split; [auto 10 with squares|]); (split; [auto 10 with squares|]);
      intros c; rewrite ?(get2_set2 n) by eauto 10 with squares;
      intros Hc; split_cells; subst; try discriminate; try congruence;
      try (left; lia); try (apply Hold; congruence);
      try (apply Hold; [intro; subst; unfold PREY, PREDATOR, EMPTY, SUBSTRATE in *;
                        congruence | congruence]).
  - (* division by zero: excluded by the counter of the predator *)
    pose proof (Hok _ Hold0). lia.
  - (* prey *)
    destruct Heff as [Hd | Hst | Hlt | sub Hlt Hin Hsub
                     | sub m Hlt Hin Hsub Hin' Hm | m Hlt Hno Hin Hm];
      unfold sweep_tracked, set_grid, set_prey_hunger; simpl;
      (split; [auto 10 with squares|]); (split; [auto 10 with squares|]);
      intros c; rewrite ?(get2_set2 n) by eauto 10 with squares;
      intros Hc; split_cells; subst; try discriminate; try congruence;
      try (apply Hold; congruence);
      try (apply Hold; [intro; subst; unfold PREY, PREDATOR, EMPTY, SUBSTRATE in *;
                        congruence | congruence]).
  - (* substrate *)
    destruct Heff as [Hd|];
      unfold sweep_tracked, set_grid; simpl;
      (split; [auto 10 with squares|]); (split; [auto 10 with squares|]);
      intros c; rewrite ?(get2_set2 n) by eauto 10 with squares;
      intros Hc; split_cells; subst; try discriminate; try congruence;
      try (apply Hold; congruence);
      try (apply Hold; [intro; subst; unfold PREY, PREDATOR, EMPTY, SUBSTRATE in *;
                        congruence | congruence]).
  - (* empty *)
    destruct Heff as [H2 H1 | Hp |];
      unfold sweep_tracked, count_predator_birth, count_substrate_created,
        set_grid, set_predator_hunger; simpl;
      (split; [auto 10 with squares|]); (split; [auto 10 with squares|]);
      intros c; rewrite ?(get2_set2 n) by eauto 10 with squares;
      intros Hc; split_cells; subst; try discriminate; try congruence;
      try (left; lia); try (apply Hold; congruence);
      try (apply Hold; [intro; subst; unfold PREY, PREDATOR, EMPTY, SUBSTRATE in *;
                        congruence | congruence]).
  - (* a value that is no entity kind *)
    split; [assumption|]. split; [assumption|]. intros c Hc.
    destruct (Hw c Hc) as [H|[H [H'|H']]]; auto. subst c. congruence.
Qed.

(** The sweep over a list of cells of the grid. *)
Lemma sweep_tracked_all (coords : list coord) (w : Work) (r : Rng) :
  Forall (in_range (Z.of_nat n)) coords ->
  sweep_tracked s n coords w ->
  sweep_tracked s n [] (fst (sweep s coords w r)).
Proof.
  unfold sweep. revert w r.
  induction coords as [|c coords IH]; intros w r Hin Hw; simpl; [assumption|].
  inversion Hin as [|? ? Hc Hin']; subst.
  destruct (process_cell s w c r) as [w' r'] eqn:E.
  apply IH; [assumption|]. simpl.
  apply (sweep_tracked_cell c coords w w' Hc); [|assumption].
  pose proof (process_cell_effect s w c r) as H. now rewrite E in H.
Qed.

End HungerTracking.

Lemma assign_where_full_like (g : array2) (u v h : Z) :
  assign_where (full_like g u) g v h
  = map (map (fun x => if x =? v then h else u)) g.
Proof.
  unfold assign_where, full_like.
  induction g as [|row g IH]; simpl; [reflexivity|].
  rewrite IH. f_equal.
  clear IH. induction row as [|x row IH]; simpl; [reflexivity|].
  now rewrite IH.
Qed.

Lemma get2_map_map (F : Z -> Z) (g : array2) (c : coord) :
  get2 g c <> 0 -> get2 (map (map F) g) c = F (get2 g c).
Proof.
  unfold get2. destruct (_ && _); [|congruence].
  intros H.
  destruct (Nat.lt_ge_cases (Z.to_nat (fst c)) (length g)) as [Hx|Hx].
  - rewrite (nth_indep _ [] (map F [])) by (now rewrite length_map).
    rewrite map_nth.
    set (row := nth (Z.to_nat (fst c)) g []) in *.
    destruct (Nat.lt_ge_cases (Z.to_nat (snd c)) (length row)) as [Hy|Hy].
    + rewrite (nth_indep _ 0 (F 0)) by (now rewrite length_map).
      now rewrite map_nth.
    + exfalso. apply H. now apply nth_overflow.
  - exfalso. apply H. rewrite (nth_overflow g) by assumption.
    now destruct (Z.to_nat (snd c)).
Qed.

Lemma square_map_map (F : Z -> Z) (n : nat) (g : array2) :
  square n g -> square n (map (map F) g).
Proof.
  intros [Hlen Hrows]. split; [now rewrite length_map|].
  rewrite Forall_forall in *. intros row Hin.
  apply in_map_iff in Hin as [row' [<- Hin]]. rewrite length_map. auto.
Qed.

Lemma get2_nonzero_in_range (n : nat) (g : array2) (c : coord) :
  square n g -> get2 g c <> 0 -> in_range (Z.of_nat n) c.
Proof.
  intros [Hlen Hrows] H. unfold get2 in H.
  destruct (0 <=? fst c) eqn:Ex; [|simpl in H; congruence].
  destruct (0 <=? snd c) eqn:Ey; [|simpl in H; congruence].
  simpl in H. apply Z.leb_le in Ex, Ey.
  destruct (Nat.lt_ge_cases (Z.to_nat (fst c)) (length g)) as [Hx|Hx].
  - destruct (Nat.lt_ge_cases (Z.to_nat (snd c))
                (length (nth (Z.to_nat (fst c)) g []))) as [Hy|Hy].
    + rewrite Forall_forall in Hrows.
      rewrite (Hrows (nth (Z.to_nat (fst c)) g [])) in Hy
        by (apply nth_In; assumption).
      unfold in_range. lia.
    + exfalso. apply H. now apply nth_overflow.
  - exfalso. apply H. rewrite (nth_overflow g) by assumption.
    now destruct (Z.to_nat (snd c)).
Qed.

(** The constructor establishes the tracking of predator hunger. *)
Lemma init_tracked (n : nat) (g : array2) (p : Params) (recording : bool)
    (a : option AdjustmentInfo) (now : string) :
  square n g -> hunger_tracked n (init g p recording a now).
Proof.
  intros Hsq. unfold hunger_tracked, init; simpl.
  rewrite assign_where_full_like.
  split; [assumption|]. split; [now apply square_map_map|].
  intros c Hc. rewrite get2_map_map by (rewrite Hc; discriminate).
  rewrite Hc. simpl. lia.
Qed.

(** One call of [step] preserves it. *)
Lemma step_tracked (n : nat) (s : Simulation) (alloc_ok : bool) (now : string)
    (r : Rng) :
  hunger_tracked n s -> hunger_tracked n (snd (fst (step alloc_ok now s r))).
Proof.
  intros Hs. unfold step, step_try.
  destruct alloc_ok; simpl; [|assumption].
  pose proof (shuffle_perm (all_coords (shape0 (grid s))) r) as Hperm.
  destruct (shuffle (all_coords (shape0 (grid s))) r) as [coords r1].
  simpl in Hperm.
  pose proof (sweep_tracked_all s n Hs coords (fresh_work s) r1) as Hsweep.
  destruct (sweep s coords (fresh_work s) r1) as [w r2]. simpl in *.
  destruct Hs as (Hg & Hph & Hok).
  destruct Hsweep as (Hsg & Hsh & Hw).
  - apply Forall_forall. intros c Hc.
    apply (Permutation_in _ Hperm), all_coords_spec in Hc.
    now rewrite (shape0_square n) in Hc.
  - split; [assumption|]. split; [now apply square_full_like|].
    intros c Hc. right. split; [assumption|].
    apply (Permutation_in _ (Permutation_sym Hperm)), all_coords_spec.
    rewrite (shape0_square n) by assumption.
    apply (get2_nonzero_in_range n (grid s)); [assumption|].
    simpl in Hc. rewrite Hc. discriminate.
  - split; [assumption|]. split; [assumption|].
    intros c Hc. destruct (Hw c Hc) as [H|[_ []]]. assumption.
Qed.

Lemma reachable_tracked (s : Simulation) :
  reachable s -> exists n, hunger_tracked n s.
Proof.
  induction 1 as [n g p recording a now Hsq | s alloc_ok now r _ [n IH]].
  - exists n. now apply init_tracked.
  - exists n. now apply step_tracked.
Qed.

(** ** Prey keep a hunger counter *)

Section PreyTracking.

Variable s : Simulation.
Variable n : nat.
Hypothesis Hs : prey_tracked n s.

Lemma sweep_tracked_prey_cell (c0 : coord) (rest : list coord) (w w' : Work) :
  in_range (Z.of_nat n) c0 ->
  cell_effect s c0 w w' ->
  sweep_tracked_prey s n (c0 :: rest) w -> sweep_tracked_prey s n rest w'.
Proof.
  destruct Hs as (Hg & Hph & Hok).
  intros Hc0 Heff (Hsg & Hsh & Hw).
  assert (Hnear : forall x y d c, In c (_get_nearby_cells s x y d) ->
                    in_range (Z.of_nat n) c).
  { intros x y d c. now apply (nearby_in_range n s x y d c c0). }
  assert (Hold : forall c, c <> c0 -> get2 (new_grid w) c = PREY ->
            0 <= get2 (new_prey_hunger w) c
            \/ (get2 (grid s) c = PREY /\ In c rest)).
  { intros c Hne Hc. destruct (Hw c Hc) as [H|[H [H'|H']]]; auto. congruence. }
  assert (Hkeep : sweep_tracked_prey s n rest w
                  \/ get2 (new_grid w) c0 = get2 (grid s) c0).
  { destruct (Z.eq_dec (get2 (new_grid w) c0) (get2 (grid s) c0)) as [E|E];
      [now right | left].
    split; [assumption|]. split; [assumption|]. intros c Hc.
    destruct (Hw c Hc) as [H|[H [H'|H']]]; auto. subst c. congruence. }
  destruct c0 as [x y]. simpl in Heff.
  destruct Heff as [Hskip | w' Hnew Hold0 Heff | Hold0 Ht Hh
                   | w' Hnew Hold0 Heff | w' Hnew Hold0 Heff
                   | w' Hnew Hold0 Heff | H1 H2 H3 H4].
  - (* skipped *)
    destruct Hkeep as [H|H]; [assumption | contradiction].
  - (* predator *)
    destruct Heff as [Hd | Hst | prey Hlt Hin Hprey | prey m Hlt Hin Hprey Hin' Hm
                     | Hlt | m Hlt Hin Hm];
      unfold sweep_tracked_prey, predator_goes, set_grid, set_predator_hunger;
      simpl;
      (split; [auto 10 with squares|]); (split; [auto 10 with squares|]);
      intros c; rewrite ?(get2_set2 n) by eauto 10 with squares;
      intros Hc; split_cells; subst; try discriminate; try congruence;
      try (apply Hold; congruence);
      try (apply Hold; [intro; subst; unfold PREY, PREDATOR, EMPTY, SUBSTRATE in *;
                        congruence | congruence]).
  - (* division by zero: the handler restores the Predator *)
    unfold sweep_tracked_prey, set_grid; simpl.
    split; [auto with squares|]. split; [assumption|].
    intros c. rewrite (get2_set2 n) by assumption.
    intros Hc. split_cells; subst;
      [unfold PREY, PREDATOR in *; congruence | now apply Hold].
  - (* prey *)
    pose proof (Hok _ Hold0) as Hh0.
    destruct Heff as [Hd | Hst | Hlt | sub Hlt Hin Hsub
                     | sub m Hlt Hin Hsub Hin' Hm | m Hlt Hno Hin Hm];
      unfold sweep_tracked_prey, set_grid, set_prey_hunger; simpl;
      (split; [auto 10 with squares|]); (split; [auto 10 with squares|]);
      intros c; rewrite ?(get2_set2 n) by eauto 10 with squares;
      intros Hc; split_cells; subst; try discriminate; try congruence;
      try (left; lia); try (apply Hold; congruence).
  - (* substrate *)
    destruct Heff as [Hd|];
      unfold sweep_tracked_prey, set_grid; simpl;
      (split; [auto 10 with squares|]); (split; [auto 10 with squares|]);
      intros c; rewrite ?(get2_set2 n) by eauto 10 with squares;
      intros Hc; split_cells; subst; try discriminate; try congruence;
      try (apply Hold; congruence);
      try (apply Hold; [intro; subst; unfold PREY, PREDATOR, EMPTY, SUBSTRATE in *;
                        congruence | congruence]).
  - (* empty *)
    destruct Heff as [H2 H1 | Hp |];
      unfold sweep_tracked_prey, count_predator_birth, count_substrate_created,
        set_grid, set_predator_hunger; simpl;
      (split; [auto 10 with squares|]); (split; [auto 10 with squares|]);
      intros c; rewrite ?(get2_set2 n) by eauto 10 with squares;
      intros Hc; split_cells; subst; try discriminate; try congruence;
      try (apply Hold; congruence);
      try (apply Hold; [intro; subst; unfold PREY, PREDATOR, EMPTY, SUBSTRATE in *;
                        congruence | congruence]).
  - (* a value that is no entity kind *)
    split; [assumption|]. split; [assumption|]. intros c Hc.
    destruct (Hw c Hc) as [H|[H [H'|H']]]; auto. subst c. congruence.
Qed.

Lemma sweep_tracked_prey_all (coords : list coord) (w : Work) (r : Rng) :
  Forall (in_range (Z.of_nat n)) coords ->
  sweep_tracked_prey s n coords w ->
  sweep_tracked_prey s n [] (fst (sweep s coords w r)).
Proof.
  unfold sweep. revert w r.
  induction coords as [|c coords IH]; intros w r Hin Hw; simpl; [assumption|].
  inversion Hin as [|? ? Hc Hin']; subst.
  destruct (process_cell s w c r) as [w' r'] eqn:E.
  apply IH; [assumption|]. simpl.
  apply (sweep_tracked_prey_cell c coords w w' Hc); [|assumption].
  pose proof (process_cell_effect s w c r) as H. now rewrite E in H.
Qed.

End PreyTracking.

Lemma init_prey_tracked (n : nat) (g : array2) (p : Params) (recording : bool)
    (a : option AdjustmentInfo) (now : string) :
  square n g -> prey_tracked n (init g p recording a now).
Proof.
  intros Hsq. unfold prey_tracked, init; simpl.
  rewrite assign_where_full_like.
  split; [assumption|]. split; [now apply square_map_map|].
  intros c Hc. rewrite get2_map_map by (rewrite Hc; discriminate).
  rewrite Hc. simpl. lia.
Qed.

Lemma step_prey_tracked (n : nat) (s : Simulation) (alloc_ok : bool)
    (now : string) (r : Rng) :
  prey_tracked n s -> prey_tracked n (snd (fst (step alloc_ok now s r))).
Proof.
  intros Hs. unfold step, step_try.
  destruct alloc_ok; simpl; [|assumption].
  pose proof (shuffle_perm (all_coords (shape0 (grid s))) r) as Hperm.
  destruct (shuffle (all_coords (shape0 (grid s))) r) as [coords r1].
  simpl in Hperm.
  pose proof (sweep_tracked_prey_all s n Hs coords (fresh_work s) r1) as Hsweep.
  destruct (sweep s coords (fresh_work s) r1) as [w r2]. simpl in *.
  destruct Hs as (Hg & Hph & Hok).
  destruct Hsweep as (Hsg & Hsh & Hw).
  - apply Forall_forall. intros c Hc.
    apply (Permutation_in _ Hperm), all_coords_spec in Hc.
    now rewrite (shape0_square n) in Hc.
  - split; [assumption|]. split; [now apply square_full_like|].
    intros c Hc. right. split; [assumption|].
    apply (Permutation_in _ (Permutation_sym Hperm)), all_coords_spec.
    rewrite (shape0_square n) by assumption.
    apply (get2_nonzero_in_range n (grid s)); [assumption|].
    simpl in Hc. rewrite Hc. discriminate.
  - split; [assumption|]. split; [assumption|].
    intros c Hc. destruct (Hw c Hc) as [H|[_ []]]. assumption.
Qed.

(** The half of the hunger invariant that every reachable state satisfies:
    a predator has a predator counter and a prey a prey counter. *)
Lemma reachable_counters (s : Simulation) :
  reachable s ->
  predator_hunger_ok (grid s) (predator_hunger s)
  /\ prey_hunger_ok (grid s) (prey_hunger s).
Proof.
  intros Hreach. split.
  - destruct (reachable_tracked s Hreach) as (n & _ & _ & H). exact H.
  - assert (H : exists n, prey_tracked n s).
    { induction Hreach as [n g p recording a now Hsq | s alloc_ok now r _ [n IH]].
      - exists n. now apply init_prey_tracked.
      - exists n. now apply step_prey_tracked. }
    destruct H as (n & _ & _ & H). exact H.
Qed.

(** ** The hunger arrays after initialisation *)

Lemma get2_map_map_in (F : Z -> Z) (n : nat) (g : array2) (c : coord) :
  square n g -> in_range (Z.of_nat n) c ->
  get2 (map (map F) g) c = F (get2 g c).
Proof.
  intros [Hlen Hrows] [Hx Hy]. unfold get2.
  destruct (0 <=? fst c) eqn:Ex; [|apply Z.leb_gt in Ex; lia].
  destruct (0 <=? snd c) eqn:Ey; [|apply Z.leb_gt in Ey; lia].
  simpl.
  rewrite (nth_indep _ [] (map F [])) by (rewrite length_map; lia).
  rewrite map_nth.
  rewrite (nth_indep _ 0 (F 0)); [now rewrite map_nth|].
  rewrite length_map. rewrite Forall_forall in Hrows.
  rewrite (Hrows (nth (Z.to_nat (fst c)) g [])); [lia|].
  apply nth_In; lia.
Qed.

(** The constructor establishes the hunger invariant on a square grid. *)
Lemma init_hunger_invariant (n : nat) (g : array2) (p : Params)
    (recording : bool) (a : option AdjustmentInfo) (now : string) :
  square n g -> hunger_invariant (init g p recording a now).
Proof.
  intros Hsq. unfold hunger_invariant, hunger_matches, init; simpl.
  rewrite !assign_where_full_like, (shape0_square n g Hsq).
  split; intros c Hc; rewrite (get2_map_map_in _ n) by assumption;
    destruct (get2 g c =? _) eqn:E;
    [apply Z.eqb_eq in E | apply Z.eqb_neq in E
    |apply Z.eqb_eq in E | apply Z.eqb_neq in E];
    repeat split; intros; try lia; try congruence.
Qed.

(** ** The hunger arrays *)

(** C2 (failing input). On the 5 x 5 torus of [Examples.hunt_sim] the state
    after initialisation satisfies the hunger invariant; in the first
    generation the prey at (2, 3) is processed first and freezes, which
    writes its hunger 1, and the predator at (2, 2) then hunts it: in the
    committed state, which is reachable, the cell is a Predator and its
    prey hunger is still 1. *)
Theorem C2_prey_hunger_survives_hunt :
  let s0 := Examples.hunt_sim in
  let s1 := snd (fst (step true "2024-01-01T00:00:01" s0 Examples.hunt_rng)) in
  hunger_invariant s0
  /\ reachable s1
  /\ get2 (grid s0) (2, 3) = PREY
  /\ get2 (grid s1) (2, 3) = PREDATOR
  /\ get2 (prey_hunger s1) (2, 3) = 1
  /\ ~ hunger_invariant s1.
Proof.
  intros s0 s1.
  assert (Hsq : square 5 Examples.hunt_grid).
  { split; [reflexivity | repeat constructor]. }
  assert (H0 : shape0 (grid s1) = 5) by (vm_compute; reflexivity).
  assert (H1 : get2 (grid s1) (2, 3) = PREDATOR) by (vm_compute; reflexivity).
  assert (H2 : get2 (prey_hunger s1) (2, 3) = 1) by (vm_compute; reflexivity).
  split; [now apply (init_hunger_invariant 5)|].
  split; [apply reachable_step; now apply (reachable_init 5)|].
  split; [vm_compute; reflexivity|].
  split; [exact H1|]. split; [exact H2|].
  intros [_ H].
  destruct (H (2, 3)) as [[_ Hback] _].
  - rewrite H0. unfold in_range; simpl. lia.
  - rewrite H1, H2 in Hback.
    assert (E : 1 = -1) by (apply Hback; discriminate).
    discriminate E.
Qed.

(** ** The division of the hunt probability *)

(** The rule reaches the part that divides only after both early returns. *)
Lemma update_predator_cases (s : Simulation) (w : Work) (x y : Z) (r : Rng) :
  let h := get2 (predator_hunger s) (x, y) in
  let t := predator_threshold s in
  _update_predator s w x y r = Done (set_grid w (x, y) EMPTY) (snd (random r))
  \/ (h < t
      /\ _update_predator s w x y r
         = predator_hunt_or_move s w x y h t (snd (random r))).
Proof.
  unfold _update_predator, predator_threshold.
  destruct (random r) as [u r1]; simpl.
  destruct (Qltb u _); [now left|].
  destruct (_ >=? _) eqn:E; [now left|].
  right. split; [lia | reflexivity].
Qed.

(** The part that divides raises exactly when the threshold is 0. *)
Lemma hunt_or_move_raises (s : Simulation) (w : Work) (x y h t : Z) (r : Rng) :
  (t = 0 -> predator_hunt_or_move s w x y h t r = Raised w r)
  /\ (t <> 0 -> exists w' r', predator_hunt_or_move s w x y h t r = Done w' r').
Proof.
  unfold predator_hunt_or_move. split.
  - intros ->. reflexivity.
  - intros Ht. apply Z.eqb_neq in Ht. rewrite Ht.
    destruct (and_draw _ _ r) as [hunt r1]. destruct hunt.
    + destruct (choose _ r1) as [prey r2]. destruct (random r2) as [u r3].
      destruct (Qltb u _); [|eauto].
      destruct (nonempty _); [|eauto].
      destruct (choose _ r3) as [m r4]. eauto.
    + destruct (and_draw _ _ r1) as [move r2]. destruct move; [|eauto].
      destruct (choose _ r2) as [m r3]. eauto.
Qed.

(** C10. In every reachable state and for every predator cell, the hunger
    read by [_update_predator] is non-negative; the rule either returns
    from its death or starvation test with the cell set to Empty, or it
    reaches the division with [0 <= hunger < threshold], hence with a
    threshold of at least 1; the division by zero is never executed: the
    rule always returns. The threshold is any integer. *)
Theorem C10_division_by_zero_unreachable (s : Simulation) (c : coord)
    (w : Work) (r : Rng) :
  reachable s -> get2 (grid s) c = PREDATOR ->
  let h := get2 (predator_hunger s) c in
  let t := predator_threshold s in
  0 <= h
  /\ (_update_predator s w (fst c) (snd c) r
      = Done (set_grid w c EMPTY) (snd (random r))
      \/ (0 <= h < t /\ 1 <= t
          /\ _update_predator s w (fst c) (snd c) r
             = predator_hunt_or_move s w (fst c) (snd c) h t (snd (random r))))
  /\ (exists w' r', _update_predator s w (fst c) (snd c) r = Done w' r').
Proof.
  intros Hreach Hc h t.
  destruct (reachable_tracked s Hreach) as (n & _ & _ & Hok).
  assert (Hh : 0 <= h) by (now apply Hok).
  destruct c as [x y]. simpl.
  split; [assumption|].
  destruct (update_predator_cases s w x y r) as [E | [Hlt E]].
  - split; [now left|]. rewrite E. eauto.
  - fold h t in Hlt, E. split.
    + right. repeat split; try assumption; lia.
    + rewrite E. apply hunt_or_move_raises. lia.
Qed.

Lemma C10_witness :
  let s := snd (fst (step true "2024-01-01T00:00:01" Examples.hunt_sim
                      Examples.hunt_rng)) in
  0 <= get2 (predator_hunger s) (2, 3)
  /\ (_update_predator s (fresh_work s) 2 3 Examples.zeros
      = Done (set_grid (fresh_work s) (2, 3) EMPTY) (snd (random Examples.zeros))
      \/ (0 <= get2 (predator_hunger s) (2, 3) < predator_threshold s
          /\ 1 <= predator_threshold s
          /\ _update_predator s (fresh_work s) 2 3 Examples.zeros
             = predator_hunt_or_move s (fresh_work s) 2 3
                 (get2 (predator_hunger s) (2, 3)) (predator_threshold s)
                 (snd (random Examples.zeros))))
  /\ (exists w' r', _update_predator s (fresh_work s) 2 3 Examples.zeros
                    = Done w' r').
Proof.
  intros s.
  apply (C10_division_by_zero_unreachable s (2, 3) (fresh_work s) Examples.zeros).
  - apply reachable_step. apply (reachable_init 5).
    split; [reflexivity | repeat constructor].
  - vm_compute. reflexivity.
Defined.

(** ** Hunger of an entity that does not feed *)

Lemma filter_none {A : Type} (f : A -> bool) (l : list A) :
  (forall a, In a l -> f a = false) -> filter f l = [].
Proof.
  induction l as [|a l IH]; intros H; simpl; [reflexivity|].
  rewrite (H a (or_introl eq_refl)). apply IH. intros b Hb. apply H. now right.
Qed.

Lemma predator_unfed_holds (s : Simulation) (w : Work) (x y : Z) (r : Rng) :
  predator_unfed s w x y r.
Proof.
  unfold predator_unfed, predator_dies_at_random, predator_feeds,
    hunt_probability, _update_predator, predator_threshold.
  destruct (random r) as [u r1]. cbn [fst snd].
  split; [|split].
  - intros Hh. destruct (Qltb u _); [eauto|].
    destruct (_ >=? _) eqn:E; [eauto | lia].
  - intros Hlt Ht Hlive Hunfed. rewrite Hlive.
    destruct (_ >=? _) eqn:E; [lia|].
    unfold predator_hunt_or_move.
    apply Z.eqb_neq in Ht. rewrite Ht.
    destruct (and_draw (nonempty (filter _ (_get_nearby_cells s x y 2))) _ r1)
      as [hunt r2] eqn:Ehunt.
    cbn [fst] in Hunfed. subst hunt.
    set (empties := filter _ (_get_nearby_cells s x y 1)).
    destruct (and_draw (nonempty empties) _ r2) as [move r3] eqn:Emove.
    destruct move.
    + right.
      pose proof (and_draw_true _ _ _ (f_equal fst Emove)) as [Hne _].
      destruct (choose_filter _ _ r3 Hne) as [Hin Hempty].
      fold empties in Hin, Hempty. apply Z.eqb_eq in Hempty.
      destruct (choose empties r3) as [m r4]. simpl in Hin, Hempty.
      exists m, r4. split; [assumption|]. split; [assumption|]. reflexivity.
    + left. eauto.
  - intros Hno.
    rewrite (filter_none (fun c => get2 (grid s) c =? PREY)); [reflexivity|].
    intros c Hc. apply Z.eqb_neq. now apply Hno.
Qed.

Lemma prey_unfed_holds (s : Simulation) (w : Work) (x y : Z) (r : Rng) :
  prey_unfed s w x y r.
Proof.
  unfold prey_unfed, prey_dies_at_random, prey_feeds, prey_freezes,
    _update_prey, prey_threshold.
  destruct (random r) as [u r1]. cbn [fst snd].
  split; [|split].
  - intros Hh. destruct (Qltb u _); [eauto|].
    destruct (_ >=? _) eqn:E; [eauto | lia].
  - intros Hlt Hlive Hunfed. rewrite Hlive.
    destruct (_ >=? _) eqn:E; [lia|].
    destruct (and_draw _ _ r1) as [freeze r2].
    cbn [fst] in Hunfed.
    destruct freeze; [left; eauto|].
    cbn [negb andb] in Hunfed. rewrite Hunfed.
    set (empties := filter _ (_get_nearby_cells s x y 1)).
    destruct (nonempty empties) eqn:Hne; [|left; eauto].
    right.
    destruct (choose_filter _ _ r2 Hne) as [Hin Hempty].
    fold empties in Hin, Hempty. apply Z.eqb_eq in Hempty.
    destruct (choose empties r2) as [m r3]. simpl in Hin, Hempty.
    exists m, r3. split; [assumption|]. split; [assumption|]. reflexivity.
  - intros Hno.
    rewrite (filter_none (fun c => get2 (grid s) c =? SUBSTRATE));
      [apply andb_false_r|].
    intros c Hc. apply Z.eqb_neq. now apply Hno.
Qed.

(** ** The lone predator *)

Lemma fold_count_ext (f g : coord -> bool) (l : list coord) (a : Z) :
  (forall c, f c = g c) ->
  fold_left (fun count c => if f c then count + 1 else count) l a
  = fold_left (fun count c => if g c then count + 1 else count) l a.
Proof.
  intros H. revert a. induction l as [|c l IH]; intros a; simpl; [reflexivity|].
  rewrite H. apply IH.
Qed.

(** On a grid of size 5 no cell occurs twice among the neighbours of a
    cell. *)
Lemma neighbors_5_distinct :
  forallb (fun c =>
    forallb (fun p =>
      forallb (fun l => occurrences p l <? 2) (neighbor_lists_5 c))
      (all_coords 5)) (all_coords 5) = true.
Proof. vm_compute. reflexivity. Qed.

Section LonePredator.

Variable s : Simulation.
Variable p : coord.
Variable h : Z.
Hypothesis Hlone : lone_predator s p h.
Hypothesis Hdeath : predator_death_chance (params s) = Some 0%Q.
Hypothesis Hthreshold : predator_starvation_steps (params s) = Some 3.

Lemma lone_threshold : predator_threshold s = 3.
Proof. unfold predator_threshold. now rewrite Hthreshold. Qed.

Lemma lone_is_predator (c : coord) :
  (get2 (grid s) c =? PREDATOR) = coord_eqb c p.
Proof.
  destruct Hlone as (_ & _ & _ & Hp & _ & Hothers).
  destruct (coord_eqb c p) eqn:E.
  - apply coord_eqb_eq in E. subst c. now apply Z.eqb_eq.
  - apply coord_eqb_neq in E. apply Z.eqb_neq. now apply Hothers.
Qed.

(** An empty cell never has two predator neighbours. *)
Lemma lone_no_birth (c : coord) :
  in_range 5 c ->
  count_neighbors (grid s) (fst c) (snd c) PREDATOR
    (neighborhood_type (params s)) (grid_type (params s)) < 2.
Proof.
  intros Hc.
  destruct Hlone as (Hp & Hg & _).
  unfold count_neighbors.
  rewrite (fold_count_ext _ (fun c' => coord_eqb c' p)) by apply lone_is_predator.
  fold (occurrences p (get_neighbors_coords (grid s) (fst c) (snd c)
                         (neighborhood_type (params s)) (grid_type (params s)))).
  rewrite neighbors_coords_cases, (shape0_square 5 (grid s) Hg).
  pose proof neighbors_5_distinct as H.
  rewrite forallb_forall in H.
  specialize (H c (proj2 (all_coords_spec 5 c) Hc)).
  rewrite forallb_forall in H.
  specialize (H p (proj2 (all_coords_spec 5 p) Hp)).
  rewrite forallb_forall in H.
  apply Z.ltb_lt, H. unfold neighbor_lists_5, directions.
  change (Z.of_nat 5) with 5.
  destruct (String.eqb (grid_type (params s)) "torus"),
           (String.eqb (neighborhood_type (params s)) "von_neumann");
    simpl; auto 10.
Qed.

Lemma lone_nearby_in_range (x y d : Z) (c : coord) :
  In c (_get_nearby_cells s x y d) -> in_range 5 c.
Proof.
  destruct Hlone as (Hp & Hg & _).
  intros Hin. apply (nearby_in_range 5 s x y d c p); assumption.
Qed.

(** A cell other than the predator is skipped or keeps the state. *)
Lemma lone_sweep_skip (c0 : coord) (rest : list coord) (w : Work) :
  c0 <> p ->
  lone_sweep s p h (c0 :: rest) w -> lone_sweep s p h rest w.
Proof.
  intros Hne (Hsg & Hsh & Hphase).
  split; [assumption|]. split; [assumption|].
  destruct Hphase as [(Hin & H) | [(Hin & H) | (Hin & H)]].
  - left. split; [|assumption]. destruct Hin; [congruence | assumption].
  - right. left. split; [|assumption]. intros Hp. apply Hin. now right.
  - right. right. split; [|assumption]. intros Hp. apply Hin. now right.
Qed.

(** A cell other than the predator receives a value that is neither
    Predator nor Prey. *)
Lemma lone_sweep_benign (c0 : coord) (v : Z) (rest : list coord) (w : Work) :
  c0 <> p -> in_range 5 c0 -> v <> PREDATOR -> v <> PREY ->
  get2 (new_grid w) c0 <> PREDATOR ->
  lone_sweep s p h (c0 :: rest) w ->
  lone_sweep s p h rest (set_grid w c0 v).
Proof.
  intros Hne Hc0 Hv1 Hv2 Hnot Hsweep.
  apply lone_sweep_skip in Hsweep; [|assumption].
  destruct Hsweep as (Hsg & Hsh & Hphase).
  unfold lone_sweep, set_grid; simpl.
  split; [auto with squares|]. split; [assumption|].
  destruct Hphase as [(Hin & Hp & Ho) | [(Hin & Hlt & p' & Hp' & Hg' & Hh' & Ho)
                                        | (Hin & Hge & Hp & Ho)]].
  - left. split; [assumption|].
    rewrite !(get2_set2 5) by assumption.
    split.
    + split_cells; congruence.
    + intros c Hc. rewrite (get2_set2 5) by assumption.
      split_cells; subst; auto.
  - right. left. split; [assumption|]. split; [assumption|].
    exists p'. split; [assumption|].
    rewrite (get2_set2 5) by assumption.
    split; [split_cells; congruence|]. split; [assumption|].
    intros c Hc. rewrite (get2_set2 5) by assumption.
    split_cells; subst; auto.
  - right. right. split; [assumption|]. split; [assumption|].
    rewrite (get2_set2 5) by assumption.
    split.
    + split_cells; congruence.
    + intros c. rewrite (get2_set2 5) by assumption.
      split_cells; subst; auto.
Qed.

(** The turn of the predator itself. *)
Lemma lone_sweep_turn (rest : list coord) (w w' : Work) :
  ~ In p rest ->
  predator_effect s (fst p) (snd p) w w' ->
  lone_sweep s p h (p :: rest) w -> lone_sweep s p h rest w'.
Proof.
  intros Hnotin Heff (Hsg & Hsh & Hphase).
  destruct Hlone as (Hp & Hg & Hph & Hgp & Hhp & Hothers).
  destruct Hphase as [(_ & Hnp & Ho) | [(Hin & _) | (Hin & _)]];
    try (exfalso; apply Hin; now left).
  assert (Hnoprey : forall c, get2 (grid s) c <> PREY).
  { intros c. destruct (coord_eqb c p) eqn:E.
    - apply coord_eqb_eq in E. subst c. rewrite Hgp. discriminate.
    - apply coord_eqb_neq in E. now apply Hothers. }
  pose proof lone_threshold as Ht.
  assert (Epair : (fst p, snd p) = p) by (symmetry; apply surjective_pairing).
  destruct Heff as [Hd | Hst | prey Hlt Hin Hprey | prey m Hlt Hin Hprey Hin' Hm
                   | Hlt | m Hlt Hin Hm];
    rewrite ?Epair in *.
  - (* random death needs a positive chance *)
    rewrite Hdeath in Hd. simpl in Hd. now apply Qlt_irrefl in Hd.
  - (* starvation *)
    unfold lone_sweep, set_grid; simpl.
    split; [auto with squares|]. split; [assumption|].
    right. right. split; [assumption|]. split; [lia|].
    rewrite (get2_set2 5) by assumption.
    split; [split_cells; congruence|].
    intros c. rewrite (get2_set2 5) by assumption.
    split_cells; subst; [split; discriminate | now apply Ho].
  - now apply Hnoprey in Hprey.
  - now apply Hnoprey in Hprey.
  - (* the predator stays *)
    unfold lone_sweep, set_predator_hunger; simpl.
    split; [assumption|]. split; [auto with squares|].
    right. left. split; [assumption|]. split; [lia|].
    exists p. split; [assumption|]. split; [assumption|].
    rewrite (get2_set2 5) by assumption.
    split; [split_cells; congruence | assumption].
  - (* the predator moves to [m] *)
    assert (Hmr : in_range 5 m) by (eapply lone_nearby_in_range; eassumption).
    assert (Hmp : m <> p).
    { intros ->. rewrite Hgp in Hm. discriminate. }
    unfold lone_sweep, predator_goes, set_grid, set_predator_hunger; simpl.
    rewrite ?Epair.
    split; [auto with squares|]. split; [auto 10 with squares|].
    right. left. split; [assumption|]. split; [lia|].
    exists m. split; [assumption|].
    rewrite !(get2_set2 5) by auto 10 with squares.
    split; [split_cells; congruence|].
    split; [split_cells; congruence|].
    intros c Hc. rewrite !(get2_set2 5) by auto 10 with squares.
    split_cells; subst; try congruence; [split; discriminate | now apply Ho].
Qed.

(** One cell of the sweep. *)
Lemma lone_sweep_cell (c0 : coord) (rest : list coord) (w w' : Work) :
  NoDup (c0 :: rest) -> in_range 5 c0 ->
  cell_effect s c0 w w' ->
  lone_sweep s p h (c0 :: rest) w -> lone_sweep s p h rest w'.
Proof.
  intros Hnd Hc0 Heff Hsweep.
  inversion Hnd as [|? ? Hnotin _]; subst.
  pose proof lone_threshold as Ht.
  destruct Hlone as (Hp & Hg & Hph & Hgp & Hhp & Hothers).
  destruct (coord_eqb c0 p) eqn:E.
  - apply coord_eqb_eq in E. subst c0.
    destruct Heff as [Hskip | w' Hnew Hold0 Heff | Hold0 Ht0 Hh
                     | w' Hnew Hold0 Heff | w' Hnew Hold0 Heff
                     | w' Hnew Hold0 Heff | H1 H2 H3 H4];
      try congruence;
      try (unfold EMPTY, PREY, PREDATOR, SUBSTRATE in *; congruence).
    + destruct Hsweep as (_ & _ & [(_ & Hnp & _) | [(Hin & _) | (Hin & _)]]);
        try (exfalso; apply Hin; now left).
      congruence.
    + now apply (lone_sweep_turn rest w w').
  - apply coord_eqb_neq in E.
    destruct (Hothers c0 E) as [Hnotpred Hnotprey].
    destruct Heff as [Hskip | w' Hnew Hold0 Heff | Hold0 Ht0 Hh
                     | w' Hnew Hold0 Heff | w' Hnew Hold0 Heff
                     | w' Hnew Hold0 Heff | H1 H2 H3 H4];
      try congruence; try (now apply (lone_sweep_skip c0)).
    + (* substrate *)
      destruct Heff as [Hd|]; [|now apply (lone_sweep_skip c0)].
      replace (fst c0, snd c0) with c0 by (now destruct c0).
      apply lone_sweep_benign; auto; try discriminate.
      rewrite Hnew. discriminate.
    + (* empty *)
      destruct Heff as [H2 H1 | Hregrow |]; [| |now apply (lone_sweep_skip c0)].
      * pose proof (lone_no_birth c0 Hc0). lia.
      * replace (fst c0, snd c0) with c0 by (now destruct c0).
        change (lone_sweep s p h rest (set_grid w c0 SUBSTRATE)).
        apply lone_sweep_benign; auto; try discriminate.
        rewrite Hnew. discriminate.
Qed.

(** The whole sweep. *)
Lemma lone_sweep_all (coords : list coord) (w : Work) (r : Rng) :
  NoDup coords -> Forall (in_range 5) coords ->
  lone_sweep s p h coords w ->
  lone_sweep s p h [] (fst (sweep s coords w r)).
Proof.
  unfold sweep. revert w r.
  induction coords as [|c coords IH]; intros w r Hnd Hin Hw; simpl; [assumption|].
  inversion Hin as [|? ? Hc Hin']; subst.
  destruct (process_cell s w c r) as [w' r'] eqn:E.
  apply IH; [now inversion Hnd | assumption |]. simpl.
  apply (lone_sweep_cell c coords w w' Hnd Hc); [|assumption].
  pose proof (process_cell_effect s w c r) as H. now rewrite E in H.
Qed.

(** A generation of the lone predator: it survives with one more unit of
    hunger while its hunger is below 3 and starves otherwise. *)
Lemma lone_generation (now : string) (r : Rng) :
  let s' := fst (next now s r) in
  params s' = params s
  /\ (h < 3 -> exists p', lone_predator s' p' (h + 1))
  /\ (3 <= h -> get2 (grid s') p = EMPTY /\ no_hunter s').
Proof.
  unfold next, step, step_try. simpl.
  pose proof (shuffle_perm (all_coords (shape0 (grid s))) r) as Hperm.
  destruct (shuffle (all_coords (shape0 (grid s))) r) as [coords r1].
  simpl in Hperm.
  pose proof (lone_sweep_all coords (fresh_work s) r1) as Hsweep.
  destruct (sweep s coords (fresh_work s) r1) as [w r2]. simpl in *.
  destruct Hlone as (Hp & Hg & Hph & Hgp & Hhp & Hothers).
  rewrite (shape0_square 5 (grid s) Hg) in Hperm.
  split; [reflexivity|].
  destruct Hsweep as (Hsg & Hsh & Hphase).
  - apply (Permutation_NoDup (Permutation_sym Hperm)), all_coords_NoDup.
  - apply Forall_forall. intros c Hc.
    now apply (Permutation_in _ Hperm), all_coords_spec in Hc.
  - split; [assumption|]. split; [now apply square_full_like|].
    left. split; [|split; assumption].
    apply (Permutation_in _ (Permutation_sym Hperm)), all_coords_spec, Hp.
  - destruct Hphase as [([] & _) | [(_ & Hlt & p' & Hp' & Hg' & Hh' & Ho)
                                   | (_ & Hge & Hempty & Ho)]].
    + split; [|intros; lia].
      intros _. exists p'. unfold lone_predator; simpl. auto 10.
    + split; [intros; lia|]. intros _. split; assumption.
Qed.

End LonePredator.

Lemma lone_init (prm : Params) (p0 : coord) (recording : bool)
    (a : option AdjustmentInfo) (now : string) :
  in_range 5 p0 ->
  lone_predator (init (lone_grid p0) prm recording a now) p0 0.
Proof.
  intros Hp0.
  assert (Hsq : square 5 (lone_grid p0)).
  { apply square_set2, square_full. }
  assert (Hp : get2 (lone_grid p0) p0 = PREDATOR).
  { apply (get2_set2_same 5); [apply square_full | assumption]. }
  unfold lone_predator, init; simpl. rewrite assign_where_full_like.
  split; [assumption|]. split; [assumption|].
  split; [now apply square_map_map|]. split; [assumption|].
  split.
  - rewrite get2_map_map by (rewrite Hp; discriminate). now rewrite Hp.
  - intros c Hc. unfold lone_grid.
    rewrite get2_set2_other by congruence.
    change EMPTY with 0. rewrite get2_full. split; discriminate.
Qed.

(** The first three generations of the lone predator. *)
Lemma lone_generations (prm : Params) (p0 : coord) (recording : bool)
    (now : string) (r : Rng) (k : nat) :
  in_range 5 p0 ->
  predator_death_chance prm = Some 0%Q ->
  predator_starvation_steps prm = Some 3 ->
  (k <= 3)%nat ->
  let s := fst (generations k now (init (lone_grid p0) prm recording None now) r) in
  params s = prm /\ exists p, lone_predator s p (Z.of_nat k).
Proof.
  intros Hp0 Hd Ht. induction k as [|k IH]; intros Hk; simpl.
  - split; [reflexivity|]. exists p0. now apply lone_init.
  - destruct IH as [Hprm [p Hlone]]; [lia|].
    destruct (generations k now _ r) as [sk rk]. simpl in *.
    destruct (lone_generation sk p (Z.of_nat k) Hlone) with (now := now) (r := rk)
      as (Hprm' & Hlive & _); try (rewrite Hprm; assumption).
    split; [congruence|].
    replace (Z.pos (Pos.of_succ_nat k)) with (Z.of_nat k + 1) by lia.
    apply Hlive. lia.
Qed.

(** C3 (amended). The rule of a predator (of a prey) sets the cell to Empty
    when the hunger read at the start of the generation has reached the
    starvation threshold; below the threshold, a predator (a prey) that
    neither dies at random nor feeds, whether no food is in reach, the
    hunting draw fails or a predator next to the prey keeps it in place,
    stays or moves to an empty neighbour and carries its hunger plus 1.
    So an entity starves in the first generation that it starts with
    hunger at the threshold: on the 5 x 5 grid whose only
    entity is a predator, with death chance 0 and starvation after 3 steps
    (any boundary and neighbourhood mode, any draws), one predator is alive
    after each of the generations 1, 2 and 3, with hunger 1, 2 and 3, and
    the cell it occupies after generation 3 is Empty after generation 4,
    when neither predator nor prey is left. *)
Theorem C3_unfed_hunger_and_starvation :
  (forall s w x y r, predator_unfed s w x y r)
  /\ (forall s w x y r, prey_unfed s w x y r)
  /\ (forall (prm : Params) (p0 : coord) (recording : bool) (now : string)
             (r : Rng),
        in_range 5 p0 ->
        predator_death_chance prm = Some 0%Q ->
        predator_starvation_steps prm = Some 3 ->
        let s0 := init (lone_grid p0) prm recording None now in
        (forall k, (1 <= k <= 3)%nat ->
           exists p, lone_predator (fst (generations k now s0 r)) p (Z.of_nat k))
        /\ exists p,
             lone_predator (fst (generations 3 now s0 r)) p 3
             /\ get2 (grid (fst (generations 4 now s0 r))) p = EMPTY
             /\ no_hunter (fst (generations 4 now s0 r))).
Proof.
  split; [exact predator_unfed_holds|]. split; [exact prey_unfed_holds|].
  intros prm p0 recording now r Hp0 Hd Ht s0. split.
  - intros k Hk.
    now apply (lone_generations prm p0 recording now r k Hp0 Hd Ht).
  - destruct (lone_generations prm p0 recording now r 3 Hp0 Hd Ht)
      as [Hprm [p Hlone]]; [lia|].
    exists p. split; [exact Hlone|].
    change (generations 4 now s0 r)
      with (let '(s', r') := generations 3 now s0 r in next now s' r').
    fold s0 in Hprm, Hlone.
    destruct (generations 3 now s0 r) as [s3 r3]. simpl in Hprm, Hlone.
    destruct (lone_generation s3 p 3 Hlone) with (now := now) (r := r3)
      as (_ & _ & Hstarve); try (rewrite Hprm; assumption).
    apply Hstarve. lia.
Qed.

Lemma C3_witness :
  let s0 := Examples.lone_sim in
  let now := "2024-01-01T00:00:00" in
  (forall k, (1 <= k <= 3)%nat ->
     exists p, lone_predator (fst (generations k now s0 Examples.steady_rng)) p
                 (Z.of_nat k))
  /\ exists p,
       lone_predator (fst (generations 3 now s0 Examples.steady_rng)) p 3
       /\ get2 (grid (fst (generations 4 now s0 Examples.steady_rng))) p = EMPTY
       /\ no_hunter (fst (generations 4 now s0 Examples.steady_rng)).
Proof.
  apply (proj2 (proj2 C3_unfed_hunger_and_starvation)
           Examples.lone_params (2, 2) false "2024-01-01T00:00:00"
           Examples.steady_rng).
  - unfold in_range; simpl; lia.
  - reflexivity.
  - reflexivity.
Defined.

(** C3 as stated fails: after exactly 3 generations the predator of the
    scenario is still in its cell (with hunger 3); the cell is Empty after
    4 generations. *)
Lemma C3_counterexample :
  let now := "2024-01-01T00:00:00" in
  ~ starved_after 3 (2, 2) now Examples.lone_sim Examples.steady_rng
  /\ get2 (grid (fst (generations 3 now Examples.lone_sim Examples.steady_rng)))
          (2, 2) = PREDATOR
  /\ get2 (predator_hunger
             (fst (generations 3 now Examples.lone_sim Examples.steady_rng)))
          (2, 2) = 3
  /\ starved_after 4 (2, 2) now Examples.lone_sim Examples.steady_rng.
Proof.
  intros now. unfold starved_after.
  split; [|split; [|split]]; vm_compute; congruence.
Qed.

(** ** Allocation failure in [step] *)

(** C7 (amended). When the allocation of the buffers fails, the
    [MemoryError] raised inside [step] is caught by the handler of [step]
    itself: the call returns the committed grid as an ordinary result, and
    the simulation (grid, hunger arrays, history, frames) and the generator
    are left as they were. *)
Theorem C7_allocation_failure_returns_grid (now : string) (s : Simulation) (r : Rng) :
  step false now s r = (Returned (grid s), s, r).
Proof. reflexivity. Qed.

(** C7 as stated fails: no error reaches the caller. *)
Lemma C7_counterexample :
  ~ allocation_failure_surfaces "2024-01-01T00:00:01" Examples.torus_sim
      Examples.zeros.
Proof.
  intros [e He]. cbn in He. discriminate He.
Qed.

(** ** Recording *)

(** A frame recorded by [step] holds the grid exactly when the size is at
    most 500; otherwise it holds the size instead. *)
Lemma step_frame_grid (g : array2) (k : Z) (now : string) :
  fr_grid (step_frame g k now) = (if shape0 g >? 500 then None else Some g)
  /\ fr_grid_size (step_frame g k now)
     = (if shape0 g >? 500 then Some (shape0 g) else None)
  /\ fr_timestamp (step_frame g k now) = now.
Proof.
  unfold step_frame. destruct (shape0 g >? 500); auto.
Qed.

(** The frame of generation 0 holds the grid whatever the size. *)
Lemma init_frame_holds_grid (g : array2) (p : Params)
    (a : option AdjustmentInfo) (now : string) :
  map fr_grid (recorded_frames (init g p true a now)) = [Some g].
Proof. reflexivity. Qed.

Lemma shape0_full (n : nat) (v : Z) : shape0 (full n v) = Z.of_nat n.
Proof. unfold shape0, full. now rewrite repeat_length. Qed.

(** C8 (failing input). For the empty 501 x 501 grid the frame captured at
    session start stores the full grid, although the size exceeds 500. *)
Theorem C8_generation0_frame_keeps_large_grid :
  let g := full 501 EMPTY in
  let s := init g (Examples.settings "moore" "torus") true None "t0" in
  shape0 (grid s) = 501
  /\ map fr_grid (recorded_frames s) = [Some g].
Proof.
  intros g s. split.
  - apply shape0_full.
  - apply init_frame_holds_grid.
Qed.

(** ** Statistics *)

(** C9. [get_statistics] leaves the simulation as it found it (grid, hunger
    arrays, historical series and every other attribute), and a second call
    made right after the first returns the same output. *)
Theorem C9_get_statistics_idempotent (s : Simulation) :
  let '(out1, s1) := get_statistics s in
  let '(out2, s2) := get_statistics s1 in
  out2 = out1 /\ s1 = s /\ s2 = s
  /\ grid s2 = grid s /\ predator_hunger s2 = predator_hunger s
  /\ prey_hunger s2 = prey_hunger s /\ stats s2 = stats s.
Proof.
  unfold get_statistics.
  destruct (array_size (grid s) =? 0) eqn:E; rewrite ?E; repeat split.
Qed.

(** ** The neighbours of a cell *)

Section NeighbourLists.

Lemma directions_length (nt : string) :
  Z.of_nat (length (directions nt)) = neighborhood_size nt.
Proof. unfold directions, neighborhood_size. now destruct (String.eqb nt _). Qed.

Lemma directions_NoDup (nt : string) : NoDup (directions nt).
Proof.
  unfold directions. destruct (String.eqb nt _);
    repeat (constructor; [simpl; intuition congruence|]); constructor.
Qed.

(** The offsets are the non-zero offsets of the neighbourhood. *)
Lemma directions_spec (nt : string) (d : coord) :
  In d (directions nt) <-> adjacent nt (0, 0) d.
Proof.
  unfold directions, adjacent. destruct d as [dx dy]; simpl.
  rewrite !Z.sub_0_r.
  destruct (String.eqb nt _); simpl; split.
  - intros H. repeat destruct H as [H|H]; try contradiction;
      inversion H; subst; reflexivity.
  - intros H.
    assert (Hc : (dx = 0 /\ dy = 1) \/ (dx = 1 /\ dy = 0)
                 \/ (dx = 0 /\ dy = -1) \/ (dx = -1 /\ dy = 0)) by lia.
    destruct Hc as [[? ?]|[[? ?]|[[? ?]|[? ?]]]]; subst; auto 10.
  - intros H. repeat destruct H as [H|H]; try contradiction;
      inversion H; subst; reflexivity.
  - intros H.
    assert (Hx : dx = -1 \/ dx = 0 \/ dx = 1) by lia.
    assert (Hy : dy = -1 \/ dy = 0 \/ dy = 1) by lia.
    destruct Hx as [?|[?|?]], Hy as [?|[?|?]]; subst; auto 10; simpl in H; lia.
Qed.

Lemma adjacent_shift (nt : string) (x y : Z) (d : coord) :
  adjacent nt (0, 0) d <-> adjacent nt (x, y) (shift x y d).
Proof.
  unfold adjacent, shift; simpl.
  replace (x + fst d - x) with (fst d - 0) by lia.
  replace (y + snd d - y) with (snd d - 0) by lia. reflexivity.
Qed.

Lemma adjacent_sym (nt : string) (p q : coord) :
  adjacent nt p q -> adjacent nt q p.
Proof. unfold adjacent. destruct (String.eqb nt _); lia. Qed.

Lemma mod_near_inj (n a b : Z) :
  0 < n -> Z.abs (a - b) < n -> a mod n = b mod n -> a = b.
Proof.
  intros Hn Hab E.
  pose proof (Z.div_mod a n ltac:(lia)) as Ha.
  pose proof (Z.div_mod b n ltac:(lia)) as Hb.
  assert (Hq : a - b = n * (a / n - b / n)) by lia.
  assert (a / n - b / n = 0) by nia. lia.
Qed.

Lemma shift_injective (x y : Z) (d d' : coord) : shift x y d = shift x y d' -> d = d'.
Proof.
  destruct d, d'; unfold shift; simpl. intros E; inversion E. f_equal; lia.
Qed.

(** On a torus of size 3 or more, different offsets of length 1 wrap to
    different cells. *)
Lemma wrap_injective (n x y : Z) (nt : string) (d d' : coord) :
  3 <= n -> In d (directions nt) -> In d' (directions nt) ->
  wrap n x y d = wrap n x y d' -> d = d'.
Proof.
  intros Hn Hd Hd' E.
  apply directions_spec in Hd, Hd'.
  assert (Hb : Z.abs (fst d) <= 1 /\ Z.abs (snd d) <= 1
               /\ Z.abs (fst d') <= 1 /\ Z.abs (snd d') <= 1).
  { unfold adjacent in Hd, Hd'; simpl in *.
    destruct (String.eqb nt _); lia. }
  unfold wrap in E. inversion E as [[E1 E2]].
  apply mod_near_inj in E1; [|lia|lia].
  apply mod_near_inj in E2; [|lia|lia].
  destruct d, d'; simpl in *. f_equal; lia.
Qed.

Lemma fold_count_filter {A : Type} (f : A -> bool) (l : list A) (a : Z) :
  fold_left (fun count c => if f c then count + 1 else count) l a
  = a + Z.of_nat (length (filter f l)).
Proof.
  revert a; induction l as [|c l IH]; intros a; simpl; [lia|].
  rewrite IH. destruct (f c); simpl; lia.
Qed.

Lemma neighbors_coords_length (g : array2) (x y : Z) (nt gt : string) :
  Z.of_nat (length (get_neighbors_coords g x y nt gt)) <= neighborhood_size nt.
Proof.
  rewrite neighbors_coords_cases, <- directions_length.
  destruct (String.eqb gt "torus").
  - rewrite length_map. lia.
  - pose proof (filter_length_le (in_rangeb (shape0 g))
                  (map (shift x y) (directions nt))) as H.
    rewrite length_map in H. lia.
Qed.

End NeighbourLists.

(** X1. On a torus of size 3 or more, [get_neighbors_coords] returns exactly
    4 cells (von Neumann) or 8 cells (any other neighbourhood type), all of
    them inside the grid, pairwise different and different from the cell
    itself, whatever the coordinates of the cell. *)
Theorem neighbors_torus_distinct (g : array2) (x y : Z) (nt : string) :
  3 <= shape0 g ->
  let l := get_neighbors_coords g x y nt "torus" in
  Z.of_nat (length l) = neighborhood_size nt
  /\ NoDup l
  /\ (forall c, In c l -> in_range (shape0 g) c)
  /\ ~ In (x, y) l.
Proof.
  intros Hn l. subst l. rewrite neighbors_coords_cases. simpl.
  split; [rewrite length_map; apply directions_length|].
  split.
  { apply Finite.Injective_map_NoDup_in; [|apply directions_NoDup].
    intros d d' Hd Hd'. now apply (wrap_injective (shape0 g) x y nt). }
  split.
  { intros c Hc. apply in_map_iff in Hc as [d [<- _]].
    apply wrap_in_range. lia. }
  intros Hc. apply in_map_iff in Hc as [d [E Hd]].
  apply directions_spec in Hd.
  assert (Hin : in_range (shape0 g) (x, y)).
  { rewrite <- E. apply wrap_in_range. lia. }
  unfold in_range in Hin; simpl in Hin.
  unfold wrap in E. inversion E as [[E1 E2]].
  rewrite <- (Z.mod_small x (shape0 g)) in E1 at 2 by lia.
  rewrite <- (Z.mod_small y (shape0 g)) in E2 at 2 by lia.
  unfold adjacent in Hd; simpl in Hd.
  apply mod_near_inj in E1; [| lia | destruct (String.eqb nt _); lia].
  apply mod_near_inj in E2; [| lia | destruct (String.eqb nt _); lia].
  destruct (String.eqb nt _); lia.
Qed.

Lemma neighbors_torus_distinct_witness :
  let l := get_neighbors_coords Examples.small_grid 0 2 "moore" "torus" in
  Z.of_nat (length l) = 8 /\ NoDup l
  /\ (forall c, In c l -> in_range 3 c) /\ ~ In (0, 2) l.
Proof.
  apply (neighbors_torus_distinct Examples.small_grid 0 2 "moore").
  vm_compute. discriminate.
Defined.

(** Away from the torus, the radius-1 helper lists the cells of the grid
    next to the cell. *)
Lemma neighbors_finite_In (g : array2) (x y : Z) (nt gt : string) (c : coord) :
  gt <> "torus" ->
  In c (get_neighbors_coords g x y nt gt)
  <-> in_range (shape0 g) c /\ adjacent nt (x, y) c.
Proof.
  intros Hgt. apply String.eqb_neq in Hgt.
  rewrite neighbors_coords_cases, Hgt.
  rewrite filter_In, in_map_iff, in_rangeb_iff. split.
  - intros [[d [<- Hd]] Hr]. split; [assumption|].
    now apply adjacent_shift, directions_spec.
  - intros [Hr Hadj]. split; [|assumption].
    exists (fst c - x, snd c - y). split.
    + unfold shift; simpl. destruct c; simpl. f_equal; lia.
    + apply directions_spec, (adjacent_shift nt x y).
      unfold shift; simpl.
      replace (x + (fst c - x), y + (snd c - y)) with c; [assumption|].
      destruct c; simpl. f_equal; lia.
Qed.

(** On the torus, a cell is among the neighbours of each of its
    neighbours. *)
Lemma neighbors_torus_back (n : Z) (p q : coord) (nt : string) :
  in_range n p ->
  In q (map (wrap n (fst p) (snd p)) (directions nt)) ->
  In p (map (wrap n (fst q) (snd q)) (directions nt)).
Proof.
  intros [Hx Hy] Hq. apply in_map_iff in Hq as [d [<- Hd]].
  apply in_map_iff. exists (- fst d, - snd d). split.
  - unfold wrap; simpl.
    rewrite !Zplus_mod_idemp_l.
    replace (fst p + fst d + - fst d) with (fst p) by lia.
    replace (snd p + snd d + - snd d) with (snd p) by lia.
    rewrite !Z.mod_small by lia. now destruct p.
  - apply directions_spec. apply directions_spec in Hd.
    unfold adjacent in *; simpl in *. destruct (String.eqb nt _); lia.
Qed.

(** X2. With any grid type other than ["torus"], the cells that
    [get_neighbors_coords] returns for [(x, y)] are exactly the cells inside
    the grid that are next to [(x, y)] (one step along an axis for
    ["von_neumann"], along an axis or a diagonal for any other neighbourhood
    type), each listed once. *)
Theorem neighbors_finite_adjacent (g : array2) (x y : Z) (nt gt : string) :
  gt <> "torus" ->
  let l := get_neighbors_coords g x y nt gt in
  NoDup l
  /\ forall c, In c l <-> in_range (shape0 g) c /\ adjacent nt (x, y) c.
Proof.
  intros Hgt l. subst l. split.
  - apply String.eqb_neq in Hgt. rewrite neighbors_coords_cases, Hgt.
    apply NoDup_filter, Finite.Injective_map_NoDup; [|apply directions_NoDup].
    intros d d'. apply shift_injective.
  - intros c. now apply neighbors_finite_In.
Qed.

Lemma neighbors_finite_adjacent_witness :
  let l := get_neighbors_coords Examples.small_grid 0 0 "moore" "finite" in
  NoDup l
  /\ forall c, In c l <-> in_range 3 c /\ adjacent "moore" (0, 0) c.
Proof.
  apply (neighbors_finite_adjacent Examples.small_grid 0 0 "moore" "finite").
  discriminate.
Defined.

(** X3. Being a neighbour is symmetric between cells of the grid, for
    either boundary mode and either neighbourhood: [q] is returned for [p]
    exactly when [p] is returned for [q]. *)
Theorem neighbors_symmetric (g : array2) (p q : coord) (nt gt : string) :
  in_range (shape0 g) p -> in_range (shape0 g) q ->
  In q (get_neighbors_coords g (fst p) (snd p) nt gt)
  <-> In p (get_neighbors_coords g (fst q) (snd q) nt gt).
Proof.
  intros Hp Hq.
  destruct (String.eqb gt "torus") eqn:E.
  - rewrite !neighbors_coords_cases, E.
    split; now apply neighbors_torus_back.
  - apply String.eqb_neq in E.
    rewrite !neighbors_finite_In by assumption.
    rewrite <- !surjective_pairing.
    split; intros [_ H]; (split; [assumption | now apply adjacent_sym]).
Qed.

Lemma neighbors_symmetric_witness :
  In (2, 0) (get_neighbors_coords Examples.small_grid 0 0 "von_neumann" "torus")
  <-> In (0, 0) (get_neighbors_coords Examples.small_grid 2 0 "von_neumann" "torus").
Proof.
  apply (neighbors_symmetric Examples.small_grid (0, 0) (2, 0)
           "von_neumann" "torus"); vm_compute; intuition discriminate.
Defined.

(** ** Counting and choosing among the neighbours *)

(** X4. On a square grid, [count_neighbors] lies between 0 and the size of
    the neighbourhood (4 for ["von_neumann"], 8 otherwise), and it is
    positive exactly when one of the cells of [get_neighbors_coords] holds
    the entity. *)
Theorem count_neighbors_bounds (n : nat) (g : array2) (x y e : Z)
    (nt gt : string) :
  (0 < n)%nat -> square n g ->
  0 <= count_neighbors g x y e nt gt <= neighborhood_size nt
  /\ (0 < count_neighbors g x y e nt gt
      <-> exists c, In c (get_neighbors_coords g x y nt gt) /\ get2 g c = e).
Proof.
  intros _ _. unfold count_neighbors. rewrite fold_count_filter.
  pose proof (neighbors_coords_length g x y nt gt) as Hlen.
  pose proof (filter_length_le (fun c => get2 g c =? e)
                (get_neighbors_coords g x y nt gt)) as Hf.
  split; [lia|]. split.
  - intros Hpos.
    destruct (filter (fun c => get2 g c =? e)
                (get_neighbors_coords g x y nt gt)) as [|c l] eqn:E;
      [simpl in Hpos; lia|].
    assert (Hc : In c (filter (fun c => get2 g c =? e)
                         (get_neighbors_coords g x y nt gt)))
      by (rewrite E; now left).
    apply filter_In in Hc as [Hc He]. exists c. split; [assumption | lia].
  - intros [c [Hc He]].
    assert (Hin : In c (filter (fun c => get2 g c =? e)
                          (get_neighbors_coords g x y nt gt)))
      by (apply filter_In; split; [assumption | lia]).
    destruct (filter _ _); [contradiction | simpl; lia].
Qed.

Lemma count_neighbors_bounds_witness :
  0 <= count_neighbors Examples.small_grid 0 0 PREY "moore" "finite" <= 8
  /\ (0 < count_neighbors Examples.small_grid 0 0 PREY "moore" "finite"
      <-> exists c,
            In c (get_neighbors_coords Examples.small_grid 0 0 "moore" "finite")
            /\ get2 Examples.small_grid c = PREY).
Proof.
  apply (count_neighbors_bounds 3 Examples.small_grid 0 0 PREY "moore" "finite").
  - lia.
  - split; [reflexivity | repeat constructor].
Defined.

(** X5. On a square grid, [find_empty_neighbor] returns [None] exactly when
    none of the cells of [get_neighbors_coords] is Empty, and then it draws
    nothing from the generator; otherwise it returns one of these cells
    that is Empty, chosen with one draw. *)
Theorem find_empty_neighbor_spec (n : nat) (g : array2) (x y : Z)
    (nt gt : string) (r : Rng) :
  (0 < n)%nat -> square n g ->
  match find_empty_neighbor g x y nt gt r with
  | (Some c, r') =>
      In c (get_neighbors_coords g x y nt gt) /\ in_range (Z.of_nat n) c
      /\ get2 g c = EMPTY /\ r' = advance r
  | (None, r') =>
      (forall c, In c (get_neighbors_coords g x y nt gt) -> get2 g c <> EMPTY)
      /\ r' = r
  end.
Proof.
  intros Hn Hsq. unfold find_empty_neighbor.
  set (l := filter _ _).
  destruct (nonempty l) eqn:E.
  - destruct (choice (0, 0) l r) as [c r'] eqn:Ec.
    assert (Hc : In c l).
    { change c with (fst (c, r')). rewrite <- Ec.
      apply choice_In. now apply nonempty_true. }
    apply filter_In in Hc as [Hc He].
    split; [assumption|]. split.
    + rewrite <- (shape0_square n g Hsq).
      apply (neighbors_coords_in_range g x y nt gt); [|assumption].
      rewrite (shape0_square n g Hsq). lia.
    + split; [lia|]. unfold choice in Ec. now inversion Ec.
  - split; [|reflexivity]. intros c Hc.
    pose proof (filter_empty _ _ E c Hc) as H. simpl in H. lia.
Qed.

Lemma find_empty_neighbor_spec_witness :
  match find_empty_neighbor Examples.small_grid 1 1 "moore" "finite"
          Examples.zeros with
  | (Some c, r') =>
      In c (get_neighbors_coords Examples.small_grid 1 1 "moore" "finite")
      /\ in_range 3 c
      /\ get2 Examples.small_grid c = EMPTY /\ r' = advance Examples.zeros
  | (None, r') =>
      (forall c,
         In c (get_neighbors_coords Examples.small_grid 1 1 "moore" "finite") ->
         get2 Examples.small_grid c <> EMPTY)
      /\ r' = Examples.zeros
  end.
Proof.
  apply (find_empty_neighbor_spec 3 Examples.small_grid 1 1 "moore" "finite"
           Examples.zeros).
  - lia.
  - split; [reflexivity | repeat constructor].
Defined.

(** ** Grids of entity codes *)

Section EntityCodes.

Lemma count_row_nonneg (row : list Z) (v : Z) : 0 <= count_row row v.
Proof. induction row as [|x row IH]; simpl; [lia|]. destruct (x =? v); lia. Qed.

Lemma count_eq_nonneg (g : array2) (v : Z) : 0 <= count_eq g v.
Proof.
  induction g as [|row g IH]; [reflexivity|].
  rewrite count_eq_cons. pose proof (count_row_nonneg row v). lia.
Qed.

Lemma count_row_total (row : list Z) :
  Forall (fun v => 0 <= v <= 3) row ->
  count_row row EMPTY + count_row row PREY + count_row row PREDATOR
  + count_row row SUBSTRATE = Z.of_nat (length row).
Proof.
  unfold EMPTY, PREY, PREDATOR, SUBSTRATE.
  induction 1 as [|x row Hx _ IH]; [reflexivity|].
  cbn [count_row fold_right length]. fold (count_row row 0) (count_row row 1)
    (count_row row 2) (count_row row 3).
  destruct (x =? 0) eqn:E0, (x =? 1) eqn:E1, (x =? 2) eqn:E2, (x =? 3) eqn:E3;
    lia.
Qed.

Lemma array_size_cons (row : list Z) (g : array2) :
  array_size (row :: g) = Z.of_nat (length row) + array_size g.
Proof. reflexivity. Qed.

(** The four counts of a grid of entity codes add up to its size. *)
Lemma count_total (g : array2) :
  cells_valid g ->
  count_eq g EMPTY + count_eq g PREY + count_eq g PREDATOR
  + count_eq g SUBSTRATE = array_size g.
Proof.
  induction 1 as [|row g Hrow _ IH]; [reflexivity|].
  rewrite !count_eq_cons, array_size_cons.
  pose proof (count_row_total row Hrow). lia.
Qed.

Lemma array_size_rows (k : nat) (g : array2) :
  Forall (fun row : list Z => length row = k) g ->
  array_size g = Z.of_nat (length g) * Z.of_nat k.
Proof.
  induction 1 as [|row g' Hrow _ IH]; [reflexivity|].
  rewrite array_size_cons, IH, Hrow. simpl length. lia.
Qed.

Lemma array_size_square (n : nat) (g : array2) :
  square n g -> array_size g = Z.of_nat n * Z.of_nat n.
Proof.
  intros [Hlen Hrows]. rewrite (array_size_rows n g Hrows), Hlen. reflexivity.
Qed.

Lemma count_row_le (row : list Z) (v : Z) : count_row row v <= Z.of_nat (length row).
Proof.
  induction row as [|x row IH]; simpl; [lia|]. destruct (x =? v); lia.
Qed.

Lemma count_eq_le_size (g : array2) (v : Z) : count_eq g v <= array_size g.
Proof.
  induction g as [|row g IH]; [reflexivity|].
  rewrite count_eq_cons, array_size_cons.
  pose proof (count_row_le row v). lia.
Qed.

Lemma Forall_upd_nth {A : Type} (P : A -> Prop) (i : nat) (f : A -> A)
    (l : list A) :
  (forall a, P a -> P (f a)) -> Forall P l -> Forall P (upd_nth i f l).
Proof.
  intros Hf. revert i. induction l as [|a l IH]; intros [|i] H; simpl; auto;
    inversion H; subst; constructor; auto.
Qed.

Lemma cells_valid_set2 (g : array2) (c : coord) (v : Z) :
  0 <= v <= 3 -> cells_valid g -> cells_valid (set2 g c v).
Proof.
  intros Hv Hg. unfold set2. destruct (_ && _); [|assumption].
  apply Forall_upd_nth; [|assumption].
  intros row Hrow. apply Forall_upd_nth; auto.
Qed.

Lemma cells_valid_get2 (g : array2) (c : coord) :
  cells_valid g -> 0 <= get2 g c <= 3.
Proof.
  intros Hg. unfold get2. destruct (_ && _); [|lia].
  assert (Hrow : Forall (fun v => 0 <= v <= 3) (nth (Z.to_nat (fst c)) g [])).
  { destruct (nth_in_or_default (Z.to_nat (fst c)) g []) as [H| ->];
      [|constructor].
    unfold cells_valid in Hg. rewrite Forall_forall in Hg. now apply Hg. }
  destruct (nth_in_or_default (Z.to_nat (snd c)) (nth (Z.to_nat (fst c)) g []) 0)
    as [H| ->]; [|lia].
  rewrite Forall_forall in Hrow. now apply Hrow.
Qed.

Lemma cells_valid_full (n : nat) (v : Z) : 0 <= v <= 3 -> cells_valid (full n v).
Proof.
  intros Hv. unfold cells_valid, full.
  apply Forall_forall. intros row Hrow. apply repeat_spec in Hrow. subst.
  apply Forall_forall. intros x Hx. apply repeat_spec in Hx. now subst.
Qed.

Lemma count_eq_full_same (n : nat) (v : Z) :
  count_eq (full n v) v = Z.of_nat n * Z.of_nat n.
Proof.
  unfold full.
  assert (Hrow : forall k, count_row (repeat v k) v = Z.of_nat k).
  { induction k as [|k IH]; [reflexivity|].
    cbn [repeat count_row fold_right]. fold (count_row (repeat v k) v).
    rewrite Z.eqb_refl, IH. lia. }
  assert (H : forall k m, count_eq (repeat (repeat v m) k) v
                          = Z.of_nat k * Z.of_nat m).
  { intros k m. induction k as [|k IH]; [reflexivity|].
    change (repeat (repeat v m) (S k)) with (repeat v m :: repeat (repeat v m) k).
    rewrite count_eq_cons, IH, Hrow. lia. }
  apply H.
Qed.

End EntityCodes.

(** X6. [create_empty_grid] raises for a size that is not positive;
    otherwise it returns a grid of [size] rows and [size] columns whose
    cells are all Empty. *)
Theorem create_empty_grid_contract (size : Z) :
  match create_empty_grid_checked size with
  | inl _ => size <= 0
  | inr g =>
      0 < size /\ square (Z.to_nat size) g
      /\ (forall c, in_range size c -> get2 g c = EMPTY)
      /\ count_eq g EMPTY = size * size
      /\ count_eq g PREY = 0 /\ count_eq g PREDATOR = 0
      /\ count_eq g SUBSTRATE = 0
  end.
Proof.
  unfold create_empty_grid_checked, create_empty_grid.
  destruct (size <=? 0) eqn:E; [lia|].
  split; [lia|]. split; [apply square_full|].
  split; [intros c _; apply get2_full|].
  split; [unfold EMPTY; rewrite count_eq_full_same; lia|].
  repeat split; apply count_eq_full; discriminate.
Qed.

(** ** The contract of [initialize_grid] *)

Section InitializeGrid.

Lemma cells_valid_place (size : Z) (g : array2) (indices : list Z) (v : Z) :
  0 <= v <= 3 -> cells_valid g -> cells_valid (place size g indices v).
Proof.
  intros Hv. unfold place. revert g.
  induction indices as [|i l IH]; intros g Hg; simpl; [assumption|].
  apply IH. now apply cells_valid_set2.
Qed.

Lemma place_predators_valid (size pred : Z) (idx : list Z) (g : array2)
    (ci : Z) (info : AdjustmentInfo) :
  cells_valid g ->
  cells_valid (fst (fst (place_predators size pred idx g ci info))).
Proof.
  intros Hg. unfold place_predators. destruct (pred >? 0); [|assumption].
  simpl. apply cells_valid_place; [unfold PREDATOR; lia | assumption].
Qed.

Lemma place_prey_valid (size prey : Z) (idx : list Z) (g : array2)
    (ci : Z) (info : AdjustmentInfo) :
  cells_valid g ->
  cells_valid (fst (fst (place_prey size prey idx g ci info))).
Proof.
  intros Hg. unfold place_prey. destruct (prey >? 0); [|assumption].
  simpl. apply cells_valid_place; [unfold PREY; lia | assumption].
Qed.

Lemma place_substrate_valid (size : Z) (prob : Q) (idx : list Z) (g : array2)
    (ci : Z) (info : AdjustmentInfo) :
  cells_valid g ->
  cells_valid (fst (place_substrate size prob idx g ci info)).
Proof.
  intros Hg. unfold place_substrate. destruct (Qltb 0 prob); [|assumption].
  destruct (_ >? 0); [|assumption].
  simpl. apply cells_valid_place; [unfold SUBSTRATE; lia | assumption].
Qed.

Lemma fmul_zero (a p : Q) :
  Qltb 0 p = false -> (0 <= p)%Q -> Qtrunc (fmul a p) = 0.
Proof.
  intros H H0. apply Qltb_false_iff in H.
  assert (E : (p == 0)%Q) by lra.
  unfold fmul. rewrite (double_zero p E).
  rewrite double_zero; [reflexivity | ring].
Qed.

Lemma fmul_trunc_nonneg (a p : Q) :
  (0 <= a)%Q -> (0 <= p)%Q -> 0 <= Qtrunc (fmul a p).
Proof.
  intros Ha Hp. unfold fmul.
  pose proof (double_nonneg a Ha) as A. pose proof (double_nonneg p Hp) as B.
  assert (H : (0 <= double a * double p)%Q) by nra.
  pose proof (double_nonneg _ H) as D.
  rewrite Qtrunc_floor by assumption.
  exact (Qfloor_resp_le 0 _ D).
Qed.

(** The substrate stage gives Substrate to [int(remaining * prob)] of the
    remaining cells, and to all of them when there are fewer. *)
Lemma place_substrate_count (n : nat) (idx : list Z) (g : array2) (ci : Z)
    (prob : Q) (info : AdjustmentInfo) :
  (0 < n)%nat -> NoDup idx ->
  (forall i, In i idx -> 0 <= i < Z.of_nat n * Z.of_nat n) ->
  stage_ok n idx g ci -> (0 <= prob)%Q ->
  Z.of_nat (length idx) = Z.of_nat n * Z.of_nat n ->
  let g' := fst (place_substrate (Z.of_nat n) prob idx g ci info) in
  let info' := snd (place_substrate (Z.of_nat n) prob idx g ci info) in
  count_eq g' SUBSTRATE
  = count_eq g SUBSTRATE
    + Z.min (Z.of_nat n * Z.of_nat n - ci)
            (Qtrunc (fmul (inject_Z (Z.of_nat n * Z.of_nat n - ci)) prob))
  /\ adj_actual_predator_count (adjusted_of info')
     = adj_actual_predator_count (adjusted_of info)
  /\ adj_actual_prey_count (adjusted_of info')
     = adj_actual_prey_count (adjusted_of info).
Proof.
  intros Hn0 Hnd Hidx Hok Hp0 Hlen. unfold place_substrate.
  pose proof Hok as (Hsq & Hci & Hempty).
  assert (Hrem : (0 <= inject_Z (Z.of_nat n * Z.of_nat n - ci))%Q).
  { change 0%Q with (inject_Z 0). rewrite <- Zle_Qle. lia. }
  pose proof (fmul_trunc_nonneg _ prob Hrem Hp0) as Hk0.
  destruct (Qltb 0 prob) eqn:Epos.
  - destruct (_ >? 0) eqn:E.
    + simpl.
      set (k := Qtrunc (fmul (inject_Z (Z.of_nat n * Z.of_nat n - ci)) prob))
        in *.
      rewrite (slice_min idx ci k) by lia. rewrite Hlen.
      destruct (stage_step n idx Hn0 Hnd Hidx g ci
                  (Z.min k (Z.of_nat n * Z.of_nat n - ci)) SUBSTRATE)
        as (_ & C & _); try lia; try discriminate; try assumption.
      split; [rewrite C; lia|]. split; reflexivity.
    + simpl. split; [lia|]. split; reflexivity.
  - simpl. rewrite fmul_zero by assumption. split; [lia|]. split; reflexivity.
Qed.

Lemma place_entities_rest (size prey pred : Z) (prob : Q)
    (info : AdjustmentInfo) (idx : list Z) :
  0 < size -> 0 <= prey -> 0 <= pred -> prey + pred <= size * size ->
  (0 <= prob)%Q ->
  Permutation idx (range_Z 0 (size * size)) ->
  let g := fst (place_entities size prey pred prob info idx) in
  let info' := snd (place_entities size prey pred prob info idx) in
  cells_valid g
  /\ count_eq g SUBSTRATE
     = Z.min (size * size - pred - prey)
             (Qtrunc (fmul (inject_Z (size * size - pred - prey)) prob))
  /\ adj_actual_predator_count (adjusted_of info')
     = adj_actual_predator_count (adjusted_of info)
  /\ adj_actual_prey_count (adjusted_of info')
     = adj_actual_prey_count (adjusted_of info).
Proof.
  intros Hsize Hprey Hpred Htotal Hp0 Hperm.
  pose proof (place_entities_exact size prey pred prob info idx
                Hsize Hprey Hpred Htotal Hperm) as Hexact.
  cbv zeta in Hexact. destruct Hexact as (_ & Hcp & Hcy & _).
  assert (Hn : size = Z.of_nat (Z.to_nat size)) by lia.
  generalize dependent (Z.to_nat size). intros n Hn. subst size.
  assert (Hn0 : (0 < n)%nat) by lia.
  assert (Hnd : NoDup idx).
  { eapply Permutation_NoDup; [symmetry; exact Hperm | apply range_Z_NoDup]. }
  assert (Hidx : forall i, In i idx -> 0 <= i < Z.of_nat n * Z.of_nat n).
  { intros i Hi. apply (Permutation_in _ Hperm), range_Z_spec in Hi. lia. }
  assert (Hlen : Z.of_nat (length idx) = Z.of_nat n * Z.of_nat n).
  { rewrite (Permutation_length Hperm), length_range_Z. lia. }
  assert (Hok0 : stage_ok n idx (create_empty_grid (Z.of_nat n)) 0).
  { unfold create_empty_grid. rewrite Nat2Z.id.
    split; [apply square_full|]. split; [lia|]. intros i _. apply get2_full. }
  assert (Hv0 : cells_valid (create_empty_grid (Z.of_nat n))).
  { apply cells_valid_full. lia. }
  assert (Hc0 : count_eq (create_empty_grid (Z.of_nat n)) SUBSTRATE = 0).
  { apply count_eq_full. discriminate. }
  revert Hcp Hcy. unfold place_entities.
  pose proof (place_predators_valid (Z.of_nat n) pred idx _ 0 info Hv0) as Hv1.
  destruct (place_predators_fit n idx Hn0 Hnd Hidx _ 0 pred info Hok0)
    as (g1 & E1 & Hok1 & Hc1 & Ho1); try lia.
  rewrite E1 in *. cbn [fst] in Hv1.
  pose proof (place_prey_valid (Z.of_nat n) prey idx g1 (0 + pred) info Hv1)
    as Hv2.
  destruct (place_prey_fit n idx Hn0 Hnd Hidx g1 (0 + pred) prey info Hok1)
    as (g2 & E2 & Hok2 & Hc2 & Ho2); try lia.
  rewrite E2 in *. cbn [fst] in Hv2.
  pose proof (place_substrate_valid (Z.of_nat n) prob idx g2 (0 + pred + prey)
                info Hv2) as Hv3.
  destruct (place_substrate_count n idx g2 (0 + pred + prey) prob info
              Hn0 Hnd Hidx Hok2 Hp0 Hlen) as (Hs3 & Ha3 & Hb3).
  destruct (place_substrate (Z.of_nat n) prob idx g2 (0 + pred + prey) info)
    as [g3 info3].
  cbn [fst snd] in *. intros Hcp Hcy.
  split; [assumption|]. split.
  - rewrite Hs3, Ho2, Ho1, Hc0 by discriminate.
    replace (Z.of_nat n * Z.of_nat n - (0 + pred + prey))
      with (Z.of_nat n * Z.of_nat n - pred - prey) by lia.
    lia.
  - unfold reconcile. rewrite Hcp, Hcy, !Z.eqb_refl. simpl.
    split; assumption.
Qed.

Lemma Qmin_capped (p q : Q) : Qltb q p = false -> Qmin p q = p.
Proof.
  unfold Qltb. intros H. apply negb_false_iff, Qle_bool_iff in H.
  unfold Qmin, GenericMinMax.gmin.
  destruct (p ?= q)%Q eqn:E; try reflexivity.
  apply Qgt_alt in E. exfalso. now apply (Qlt_not_le q p).
Qed.

(** Without the clamp the request is at most the number of cells. *)
Lemma unclamped_fits (size total : Z) :
  0 < size -> ~ size * size * density_tenths size < total * 10 ->
  total <= size * size.
Proof.
  intros Hs H. unfold density_tenths in H.
  destruct (size >=? 1000), (size >=? 800); nia.
Qed.

(** What the density policy returns for arguments that passed the
    validation. *)
Lemma density_policy_spec (size prey pred : Z) (prob : Q) :
  0 < size -> 0 <= prey -> 0 <= pred ->
  exists prey' pred' info,
    density_policy size prey pred prob
    = (prey', pred', applied_substrate_prob size prob, info)
    /\ 0 <= prey' /\ 0 <= pred'
    /\ prey' + pred' <= size * size
    /\ (clamp_applies size prey pred ->
        prey' = prey_share (entity_cap size) prey pred
        /\ prey' + pred' = entity_cap size)
    /\ (~ clamp_applies size prey pred -> prey' = prey /\ pred' = pred)
    /\ (values_adjusted info = true
        <-> clamp_applies size prey pred
            \/ (800 <= size /\ Qltb (2 # 10) prob = true))
    /\ original_values info = Some (mkOriginal prey pred prob)
    /\ adj_actual_predator_count (adjusted_of info) = None
    /\ adj_actual_prey_count (adjusted_of info) = None.
Proof.
  intros Hs Hprey Hpred.
  destruct (entity_cap_bounds size Hs) as [Hcap0 Hcap].
  pose proof (entity_cap_double size Hs) as Hcapd.
  destruct (Z.lt_ge_cases (size * size * density_tenths size)
              ((prey + pred) * 10)) as [Hclamp|Hfit].
  - (* the cap applies *)
    assert (Htot : 0 < prey + pred).
    { unfold density_tenths in Hclamp.
      destruct (size >=? 1000), (size >=? 800); nia. }
    destruct (share_bounds (entity_cap size) prey pred Hcap0 Hcapd Hprey Hpred
                Htot) as [Hsh0 Hsh].
    pose proof (split_entities_shares size prey pred Htot) as Hsplit.
    set (cap := entity_cap size) in *.
    set (share := prey_share cap prey pred) in *.
    exists share, (cap - share).
    assert (Hsq : 0 <= size * size) by nia.
    unfold density_policy, applied_substrate_prob, clamp_applies,
      max_density, density_tenths in *.
    destruct (size >=? 800) eqn:E800.
    + assert (Hd : exists n, (if size >=? 1000 then 3 # 10 else 4 # 10)
                             = (n # 10) /\ 0 <= n
                             /\ n = (if size >=? 1000 then 3 else 4)).
      { destruct (size >=? 1000); [exists 3 | exists 4]; repeat split; lia. }
      destruct Hd as (n & Ed & Hn & En). rewrite <- En in *.
      assert (Ed' : (if size >=? 1000 then 3 # 10
                     else if true then 4 # 10 else 8 # 10) = (n # 10))
        by (destruct (size >=? 1000); assumption).
      rewrite Ed' in Hsplit. rewrite Ed.
      rewrite Qltb_scaled.
      destruct (size * size * n <? (prey + pred) * 10) eqn:E; [|lia].
      rewrite Hsplit.
      destruct (Qltb (2 # 10) prob) eqn:Eprob.
      * eexists. split; [reflexivity|]. simpl.
        repeat split; auto; try lia; tauto.
      * rewrite Qmin_capped by assumption.
        eexists. split; [reflexivity|]. simpl.
        repeat split; auto; try lia; tauto.
    + destruct (size >=? 1000) eqn:E1000; [lia|].
      rewrite Qltb_scaled.
      destruct (size * size * 8 <? (prey + pred) * 10) eqn:E; [|lia].
      rewrite Hsplit.
      eexists. split; [reflexivity|]. simpl.
      repeat split; auto; try lia; tauto.
  - (* the request fits *)
    exists prey, pred.
    pose proof (unclamped_fits size (prey + pred) Hs ltac:(lia)) as Hle.
    unfold density_policy, applied_substrate_prob, clamp_applies,
      density_tenths in *.
    destruct (size >=? 800) eqn:E800.
    + assert (Hd : exists n, (if size >=? 1000 then 3 # 10 else 4 # 10)
                             = (n # 10)
                             /\ n = (if size >=? 1000 then 3 else 4)).
      { destruct (size >=? 1000); [exists 3 | exists 4]; split; reflexivity. }
      destruct Hd as (n & -> & En). rewrite <- En in *.
      rewrite Qltb_scaled.
      destruct (size * size * n <? (prey + pred) * 10) eqn:E; [lia|].
      destruct (Qltb (2 # 10) prob) eqn:Eprob.
      * eexists. split; [reflexivity|]. simpl.
        repeat split; auto; try lia.
      * rewrite Qmin_capped by assumption.
        eexists. split; [reflexivity|]. simpl.
        repeat split; auto; try lia; try discriminate.
    + destruct (size >=? 1000) eqn:E1000; [lia|].
      rewrite Qltb_scaled.
      destruct (size * size * 8 <? (prey + pred) * 10) eqn:E; [lia|].
      eexists. split; [reflexivity|]. simpl.
      repeat split; auto; try lia; try discriminate.
Qed.

Lemma applied_substrate_prob_bounds (size : Z) (prob : Q) :
  (0 <= prob)%Q -> (prob <= 1)%Q ->
  (0 <= applied_substrate_prob size prob)%Q
  /\ (applied_substrate_prob size prob <= 1)%Q.
Proof.
  intros H0 H1. unfold applied_substrate_prob.
  destruct (size >=? 800); [|now split]. split.
  - apply Q.min_glb; [assumption | discriminate].
  - eapply Qle_trans; [apply Q.le_min_l | assumption].
Qed.

Lemma Qltb_true_iff (a b : Q) : Qltb a b = true <-> (a < b)%Q.
Proof.
  split; [apply Qltb_lt|]. intros H. unfold Qltb. apply negb_true_iff.
  destruct (Qle_bool b a) eqn:E; [|reflexivity].
  apply Qle_bool_iff in E. exfalso. now apply (Qlt_not_le a b).
Qed.

(** The validation of [initialize_grid] and what follows it. *)
Lemma initialize_grid_cases (size prey pred : Z) (prob : Q) (r : Rng) :
  (~ valid_request size prey pred prob
   /\ exists msg, initialize_grid size prey pred prob r = (inl msg, r))
  \/ (valid_request size prey pred prob
      /\ initialize_grid size prey pred prob r
         = (let '(prey', pred', prob', info) :=
              density_policy size prey pred prob in
            let '(idx, r') := shuffle (range_Z 0 (size * size)) r in
            (inr (place_entities size prey' pred' prob' info idx), r'))).
Proof.
  unfold initialize_grid, valid_request.
  destruct (size <=? 0) eqn:E1.
  { left. split; [lia | eexists; reflexivity]. }
  destruct (prey <? 0) eqn:E2.
  { left. split; [lia | eexists; reflexivity]. }
  destruct (pred <? 0) eqn:E3.
  { left. split; [lia | eexists; reflexivity]. }
  destruct (Qle_bool 0 prob) eqn:E4; simpl.
  - destruct (Qle_bool prob 1) eqn:E5; simpl.
    + right. apply Qle_bool_iff in E4, E5. split; [|reflexivity].
      repeat split; (lia || assumption).
    + left. split; [|eexists; reflexivity].
      intros (_ & _ & _ & _ & H). apply Qle_bool_iff in H. congruence.
  - left. split; [|eexists; reflexivity].
    intros (_ & _ & _ & H & _). apply Qle_bool_iff in H. congruence.
Qed.

End InitializeGrid.

(** X7. [initialize_grid] raises exactly for arguments that fail its
    validation, and then draws nothing from the generator.  Otherwise it
    returns a [size] x [size] grid of entity codes.  When the requested
    total exceeds the density limit (80% of the cells below size 800, 40%
    from 800 on, 30% from 1000 on), predators plus prey are
    [int(cells * density)] and the prey are [int(cap * (prey / total))],
    products of doubles; otherwise exactly the requested numbers are
    placed.  The substrate cells are [int(remaining * probability)],
    again a product of doubles, of the cells that remain (the probability
    capped at 0.2 from size 800 on): never more than remain, and exactly
    this number in a grid of at most [2 ^ 53] cells.  All other cells are
    Empty. *)
Theorem initialize_grid_contract (size prey pred : Z) (prob : Q) (r : Rng) :
  match initialize_grid size prey pred prob r with
  | (inl _, r') => ~ valid_request size prey pred prob /\ r' = r
  | (inr (g, info), _) =>
      let remaining :=
        size * size - (count_eq g PREDATOR + count_eq g PREY) in
      let substrate :=
        Qtrunc (fmul (inject_Z remaining)
                     (applied_substrate_prob size prob)) in
      valid_request size prey pred prob
      /\ square (Z.to_nat size) g /\ cells_valid g
      /\ (clamp_applies size prey pred ->
          count_eq g PREDATOR + count_eq g PREY = entity_cap size
          /\ count_eq g PREY = prey_share (entity_cap size) prey pred)
      /\ (~ clamp_applies size prey pred ->
          count_eq g PREDATOR = pred /\ count_eq g PREY = prey)
      /\ count_eq g SUBSTRATE = Z.min remaining substrate
      /\ (size * size <= 2 ^ 53 -> count_eq g SUBSTRATE = substrate)
      /\ count_eq g EMPTY
         = size * size
           - (count_eq g PREDATOR + count_eq g PREY + count_eq g SUBSTRATE)
  end.
Proof.
  destruct (initialize_grid_cases size prey pred prob r)
    as [[Hbad [msg ->]]|[Hvalid ->]]; [now split|].
  pose proof Hvalid as (Hs & Hprey & Hpred & Hp0 & Hp1).
  destruct (density_policy_spec size prey pred prob Hs Hprey Hpred)
    as (prey' & pred' & info0 & -> & Hprey' & Hpred' & Hfit & Hclamped
        & Hsame & _).
  destruct (applied_substrate_prob_bounds size prob Hp0 Hp1) as [Ha0 Ha1].
  pose proof (shuffle_perm (range_Z 0 (size * size)) r) as Hperm.
  destruct (shuffle (range_Z 0 (size * size)) r) as [idx r'].
  cbn [fst] in Hperm.
  pose proof (place_entities_exact size prey' pred'
                (applied_substrate_prob size prob) info0 idx
                Hs Hprey' Hpred' Hfit Hperm) as Hexact.
  pose proof (place_entities_rest size prey' pred'
                (applied_substrate_prob size prob) info0 idx
                Hs Hprey' Hpred' Hfit Ha0 Hperm) as Hrest.
  cbv zeta in Hexact, Hrest.
  destruct (place_entities size prey' pred' (applied_substrate_prob size prob)
              info0 idx) as [g info].
  cbn [fst snd] in Hexact, Hrest.
  destruct Hexact as (Hsq & Hcp & Hcy & _).
  destruct Hrest as (Hv & Hcs & _).
  cbv zeta. rewrite Hcp, Hcy.
  replace (size * size - (pred' + prey')) with (size * size - pred' - prey')
    by lia.
  split; [assumption|]. split; [assumption|]. split; [assumption|].
  split; [intros Hc; destruct (Hclamped Hc); split; [lia | assumption]|].
  split; [intros Hc; destruct (Hsame Hc); split; assumption|].
  split; [assumption|]. split.
  - intros Hsmall. rewrite Hcs. apply Z.min_r.
    apply fmul_share; try assumption; [lia|].
    apply double_Z. lia.
  - pose proof (count_total g Hv) as Htot.
    rewrite (array_size_square _ g Hsq) in Htot. lia.
Qed.



(** ** One generation, cell by cell *)

Section Generation.

Lemma nth_upd_nth {A : Type} (i j : nat) (f : A -> A) (l : list A) (d : A) :
  nth j (upd_nth i f l) d
  = if (i =? j)%nat && (i <? length l)%nat then f (nth j l d) else nth j l d.
Proof.
  revert i j. induction l as [|a l IH]; intros [|i] [|j]; simpl; auto;
    rewrite ?andb_false_r, ?IH; reflexivity.
Qed.

(** A read after a write returns the value written, at the cell written,
    or what was there before. *)
Lemma get2_set2_cases (a : array2) (d c : coord) (v : Z) :
  get2 (set2 a d v) c = get2 a c \/ (c = d /\ get2 (set2 a d v) c = v).
Proof.
  destruct (coord_eqb d c) eqn:E.
  2:{ left. apply get2_set2_other. now apply coord_eqb_neq in E. }
  apply coord_eqb_eq in E. subst c.
  unfold get2, set2. destruct ((0 <=? fst d) && (0 <=? snd d)); [|now left].
  rewrite nth_upd_nth, Nat.eqb_refl. simpl.
  destruct (Z.to_nat (fst d) <? length a)%nat; [|now left].
  rewrite nth_upd_nth, Nat.eqb_refl. simpl.
  destruct (Z.to_nat (snd d) <? _)%nat; [right; auto | now left].
Qed.

(** An invariant of the buffers that every cell effect preserves holds at
    the end of the sweep. *)
Lemma sweep_invariant (s : Simulation) (Q : coord -> Prop)
    (P : list coord -> Work -> Prop) :
  (forall c rest w w',
     Q c -> cell_effect s c w w' -> P (c :: rest) w -> P rest w') ->
  forall coords w r,
    Forall Q coords -> P coords w -> P [] (fst (sweep s coords w r)).
Proof.
  intros Hstep. unfold sweep.
  induction coords as [|c coords IH]; intros w r Hin Hw; simpl; [assumption|].
  inversion Hin as [|? ? Hc Hin']; subst.
  destruct (process_cell s w c r) as [w' r'] eqn:E.
  apply IH; [assumption|]. simpl.
  apply (Hstep c coords w w' Hc); [|assumption].
  pose proof (process_cell_effect s w c r) as H. now rewrite E in H.
Qed.

(** What a successful call of [step] commits. *)
Lemma step_commits (now : string) (s : Simulation) (r : Rng) :
  exists coords r1 w r2,
    Permutation coords (all_coords (shape0 (grid s)))
    /\ sweep s coords (fresh_work s) r1 = (w, r2)
    /\ step true now s r
       = (Returned (new_grid w),
          mkSimulation (new_grid w) (params s) (adjustment_info s)
            (recording_enabled s)
            (if recording_enabled s
             then recorded_frames s
                  ++ [step_frame (new_grid w)
                        (Z.of_nat (length (recorded_frames s))) now]
             else recorded_frames s)
            (mkHistory
               (hist_predator_count (stats s) ++ [count_eq (new_grid w) PREDATOR])
               (hist_prey_count (stats s) ++ [count_eq (new_grid w) PREY])
               (hist_substrate_count (stats s)
                ++ [count_eq (new_grid w) SUBSTRATE]))
            (events w) (new_predator_hunger w) (new_prey_hunger w),
          r2).
Proof.
  unfold step, step_try. simpl.
  pose proof (shuffle_perm (all_coords (shape0 (grid s))) r) as Hperm.
  destruct (shuffle (all_coords (shape0 (grid s))) r) as [coords r1].
  destruct (sweep s coords (fresh_work s) r1) as [w r2] eqn:E.
  exists coords, r1, w, r2. auto.
Qed.

Lemma step_fails (now : string) (s : Simulation) (r : Rng) :
  snd (fst (step false now s r)) = s.
Proof. reflexivity. Qed.

(** The writes of the rules follow the table of [may_become]. *)
Lemma cell_effect_table (s : Simulation) (c0 : coord) (w w' : Work) :
  cell_effect s c0 w w' ->
  (forall c, may_become (get2 (grid s) c) (get2 (new_grid w) c)) ->
  forall c, may_become (get2 (grid s) c) (get2 (new_grid w') c).
Proof.
  intros Heff Hw c.
  assert (Epair : (fst c0, snd c0) = c0) by (now destruct c0).
  assert (Hwrite : forall a d v,
            may_become (get2 (grid s) d) v ->
            may_become (get2 (grid s) c) (get2 a c) ->
            may_become (get2 (grid s) c) (get2 (set2 a d v) c)).
  { intros a d v Hd Ha.
    destruct (get2_set2_cases a d c v) as [E|[-> E]]; rewrite E; assumption. }
  assert (Hdie : forall k, get2 (grid s) c0 = k -> 1 <= k <= 3 ->
            may_become (get2 (grid s) c0) 0).
  { intros k Hk Hr. right. left. split; [lia | reflexivity]. }
  assert (Hfill : forall d v, get2 (grid s) d = 0 -> 1 <= v <= 3 ->
            may_become (get2 (grid s) d) v).
  { intros d v Hd Hv. right. right. right. split; assumption. }
  assert (Hhunt : forall d, get2 (grid s) d = 1 ->
            may_become (get2 (grid s) d) 2).
  { intros d Hd. right. right. left. split; [assumption | reflexivity]. }
  inversion Heff as [Hskip|w1 Hb Hg Hp|Hg Ht Hh|w1 Hb Hg Hp|w1 Hb Hg Hp
                    |w1 Hb Hg Hp|]; subst; try apply Hw.
  - (* predator *)
    inversion Hp; subst; unfold predator_goes, EMPTY, PREY, PREDATOR, SUBSTRATE in *;
      simpl; rewrite ?Epair;
      repeat (apply Hwrite; [|]); try apply Hw;
      try (apply (Hdie 2); [assumption | lia]);
      try (apply Hfill; [assumption | lia]);
      try (apply Hhunt; assumption).
  - simpl. apply Hwrite; [now left | apply Hw].
  - (* prey *)
    inversion Hp; subst; unfold EMPTY, PREY, PREDATOR, SUBSTRATE in *;
      simpl; rewrite ?Epair;
      repeat (apply Hwrite; [|]); try apply Hw;
      try (apply (Hdie 1); [assumption | lia]);
      try (apply Hfill; [assumption | lia]).
    all: right; left; split; [lia | reflexivity].
  - (* substrate *)
    inversion Hp; subst; unfold EMPTY, PREY, PREDATOR, SUBSTRATE in *;
      simpl; rewrite ?Epair; try apply Hw.
    apply Hwrite; [|apply Hw]. apply (Hdie 3); [assumption | lia].
  - (* empty *)
    inversion Hp; subst; unfold EMPTY, PREY, PREDATOR, SUBSTRATE in *;
      simpl; rewrite ?Epair; try apply Hw;
      apply Hwrite; try apply Hw; apply Hfill; (assumption || lia).
Qed.

Lemma count_neighbors_none (g : array2) (x y e : Z) (nt gt : string) :
  (forall c, get2 g c <> e) -> count_neighbors g x y e nt gt = 0.
Proof.
  intros Hno. unfold count_neighbors. rewrite fold_count_filter.
  assert (E : filter (fun c => get2 g c =? e)
                (get_neighbors_coords g x y nt gt) = []).
  { induction (get_neighbors_coords g x y nt gt) as [|c l IH]; simpl; auto.
    destruct (get2 g c =? e) eqn:E; [|exact IH].
    apply Z.eqb_eq in E. now apply Hno in E. }
  rewrite E. reflexivity.
Qed.

Lemma count_row_zero (row : list Z) (v : Z) :
  count_row row v = 0 <-> Forall (fun x => x <> v) row.
Proof.
  induction row as [|x row IH]; simpl; [split; auto|].
  fold (count_row row v). pose proof (count_row_nonneg row v) as Hn.
  destruct (x =? v) eqn:E.
  - apply Z.eqb_eq in E. split; [lia|].
    intros H. inversion H; subst. congruence.
  - apply Z.eqb_neq in E. rewrite IH. split.
    + intros H. now constructor.
    + intros H. now inversion H.
Qed.

Lemma count_eq_zero (g : array2) (v : Z) :
  count_eq g v = 0 <-> Forall (Forall (fun x => x <> v)) g.
Proof.
  induction g as [|row g IH]; [split; auto; reflexivity|].
  rewrite count_eq_cons.
  pose proof (count_row_nonneg row v). pose proof (count_eq_nonneg g v).
  split.
  - intros H1. constructor; [apply count_row_zero | apply IH]; lia.
  - intros H1. inversion H1 as [|? ? Hr Hg]; subst.
    apply count_row_zero in Hr. apply IH in Hg. lia.
Qed.

Lemma get2_Forall (P : Z -> Prop) (g : array2) (c : coord) :
  P 0 -> Forall (Forall P) g -> P (get2 g c).
Proof.
  intros H0 Hg. unfold get2. destruct (_ && _); [|assumption].
  assert (Hrow : Forall P (nth (Z.to_nat (fst c)) g [])).
  { destruct (nth_in_or_default (Z.to_nat (fst c)) g []) as [H| ->];
      [|constructor].
    rewrite Forall_forall in Hg. now apply Hg. }
  destruct (nth_in_or_default (Z.to_nat (snd c)) (nth (Z.to_nat (fst c)) g []) 0)
    as [H| ->]; [|assumption].
  rewrite Forall_forall in Hrow. now apply Hrow.
Qed.

Lemma Forall_get2 (P : Z -> Prop) (g : array2) :
  (forall c, P (get2 g c)) -> Forall (Forall P) g.
Proof.
  intros H. apply Forall_forall. intros row Hrow.
  apply Forall_forall. intros x Hx.
  destruct (In_nth g row [] Hrow) as (i & Hi & Ei).
  destruct (In_nth row x 0 Hx) as (j & Hj & Ej).
  specialize (H (Z.of_nat i, Z.of_nat j)). unfold get2 in H. simpl in H.
  destruct (0 <=? Z.of_nat i) eqn:E1; [|lia].
  destruct (0 <=? Z.of_nat j) eqn:E2; [|lia].
  simpl in H. rewrite !Nat2Z.id, Ei, Ej in H. exact H.
Qed.

(** No cell holds the code [v] exactly when its count is 0. *)
Lemma count_eq_zero_iff (g : array2) (v : Z) :
  v <> 0 -> (count_eq g v = 0 <-> forall c, get2 g c <> v).
Proof.
  intros Hv. rewrite count_eq_zero. split.
  - intros H c. apply (get2_Forall (fun x => x <> v)); [congruence | assumption].
  - apply (Forall_get2 (fun x => x <> v)).
Qed.

(** Without predators in the committed grid, the rules write none. *)
Lemma cell_effect_no_predator (s : Simulation) (c0 : coord) (w w' : Work) :
  (forall c, get2 (grid s) c <> PREDATOR) ->
  cell_effect s c0 w w' ->
  (forall c, get2 (new_grid w) c <> PREDATOR) ->
  forall c, get2 (new_grid w') c <> PREDATOR.
Proof.
  intros Hno Heff Hw c.
  assert (Hwrite : forall a d v, v <> PREDATOR -> get2 a c <> PREDATOR ->
            get2 (set2 a d v) c <> PREDATOR).
  { intros a d v Hv Ha.
    destruct (get2_set2_cases a d c v) as [E|[_ E]]; rewrite E; assumption. }
  inversion Heff as [Hskip|w1 Hb Hg Hp|Hg Ht Hh|w1 Hb Hg Hp|w1 Hb Hg Hp
                    |w1 Hb Hg Hp|]; subst; try apply Hw;
    try (now apply Hno in Hg).
  - inversion Hp; subst; simpl;
      repeat (apply Hwrite; [discriminate|]); apply Hw.
  - inversion Hp; subst; simpl;
      repeat (apply Hwrite; [discriminate|]); apply Hw.
  - inversion Hp as [H2 H1|Hpos|]; subst; simpl.
    + rewrite count_neighbors_none in H2 by assumption. lia.
    + apply Hwrite; [discriminate | apply Hw].
    + apply Hw.
Qed.

(** Without prey in the committed grid, the rules write none. *)
Lemma cell_effect_no_prey (s : Simulation) (c0 : coord) (w w' : Work) :
  (forall c, get2 (grid s) c <> PREY) ->
  cell_effect s c0 w w' ->
  (forall c, get2 (new_grid w) c <> PREY) ->
  forall c, get2 (new_grid w') c <> PREY.
Proof.
  intros Hno Heff Hw c.
  assert (Hwrite : forall a d v, v <> PREY -> get2 a c <> PREY ->
            get2 (set2 a d v) c <> PREY).
  { intros a d v Hv Ha.
    destruct (get2_set2_cases a d c v) as [E|[_ E]]; rewrite E; assumption. }
  inversion Heff as [Hskip|w1 Hb Hg Hp|Hg Ht Hh|w1 Hb Hg Hp|w1 Hb Hg Hp
                    |w1 Hb Hg Hp|]; subst; try apply Hw;
    try (now apply Hno in Hg).
  - inversion Hp; subst; unfold predator_goes; simpl;
      repeat (apply Hwrite; [discriminate|]); apply Hw.
  - simpl. apply Hwrite; [rewrite Hg; discriminate | apply Hw].
  - inversion Hp; subst; simpl;
      repeat (apply Hwrite; [discriminate|]); apply Hw.
  - inversion Hp; subst; simpl;
      repeat (apply Hwrite; [discriminate|]); apply Hw.
Qed.

(** A property of the grid that the sweep preserves is preserved by
    [step], whether its allocations succeed or not. *)
Lemma step_grid_invariant (P : array2 -> Prop) (s : Simulation) :
  P (grid s) ->
  (forall c w w', cell_effect s c w w' -> P (new_grid w) -> P (new_grid w')) ->
  forall alloc_ok now r, P (grid (snd (fst (step alloc_ok now s r)))).
Proof.
  intros H0 Hstep [|] now r; [|exact H0].
  destruct (step_commits now s r) as (coords & r1 & w & r2 & _ & Esw & ->).
  simpl.
  pose proof (sweep_invariant s (fun _ => True) (fun _ w => P (new_grid w)))
    as Hinv.
  specialize (Hinv (fun c rest w w' _ => Hstep c w w') coords (fresh_work s) r1).
  rewrite Esw in Hinv. apply Hinv; [|exact H0].
  apply Forall_forall. auto.
Qed.

End Generation.

(** X9. In one call of [step] on a square grid, the code of a cell changes
    only along the table of [may_become]: any entity can give way to Empty,
    a Prey to the Predator that hunts it, and an Empty cell can receive any
    entity; a Predator or Substrate cell never turns into another entity
    and a Prey cell never into Substrate. *)
Theorem generation_transitions (n : nat) (alloc_ok : bool) (now : string)
    (s : Simulation) (r : Rng) :
  square n (grid s) ->
  forall c,
    may_become (get2 (grid s) c)
               (get2 (grid (snd (fst (step alloc_ok now s r)))) c).
Proof.
  intros _.
  apply (step_grid_invariant
           (fun g => forall c, may_become (get2 (grid s) c) (get2 g c))).
  - intros c. now left.
  - intros c0 w w'. apply cell_effect_table.
Qed.

Lemma generation_transitions_witness :
  may_become (get2 (grid Examples.hunt_sim) (2, 3))
    (get2 (grid (snd (fst (step true "t1" Examples.hunt_sim
                              Examples.hunt_rng)))) (2, 3)).
Proof.
  apply (generation_transitions 5 true "t1" Examples.hunt_sim Examples.hunt_rng).
  split; [reflexivity | repeat constructor].
Defined.

(** X10. Extinction is permanent: once a square grid holds no Predator, no
    later state of the session holds one, and the same for Prey. *)
Theorem extinction_is_permanent (n : nat) (s s' : Simulation) :
  square n (grid s) -> evolves s s' ->
  (count_eq (grid s) PREDATOR = 0 -> count_eq (grid s') PREDATOR = 0)
  /\ (count_eq (grid s) PREY = 0 -> count_eq (grid s') PREY = 0).
Proof.
  intros _ Hev.
  rewrite !count_eq_zero_iff by discriminate.
  induction Hev as [|s1 alloc_ok now r Hev [IH1 IH2]]; [tauto|].
  split; intros H0.
  - apply (step_grid_invariant (fun g => forall c, get2 g c <> PREDATOR));
      [now apply IH1|].
    intros c0 w w'. apply cell_effect_no_predator. now apply IH1.
  - apply (step_grid_invariant (fun g => forall c, get2 g c <> PREY));
      [now apply IH2|].
    intros c0 w w'. apply cell_effect_no_prey. now apply IH2.
Qed.

Lemma extinction_is_permanent_witness :
  (count_eq (grid Examples.lone_sim) PREDATOR = 0 ->
   count_eq (grid (snd (fst (step true "t1" Examples.lone_sim
                               Examples.steady_rng)))) PREDATOR = 0)
  /\ (count_eq (grid Examples.lone_sim) PREY = 0 ->
      count_eq (grid (snd (fst (step true "t1" Examples.lone_sim
                                  Examples.steady_rng)))) PREY = 0).
Proof.
  apply (extinction_is_permanent 5 Examples.lone_sim).
  - split; [reflexivity | repeat constructor].
  - apply evolves_step, evolves_here.
Defined.

(** ** Predators without prey *)

Section WithoutPrey.

Variable s : Simulation.
Variable n : nat.
Variable k : Z.
Hypothesis Hsq : square n (grid s).
Hypothesis Hno : forall c, get2 (grid s) c <> PREY.
Hypothesis Hk : 0 <= k.
Hypothesis Hhun : hunger_at_least k s.

Lemma no_prey_no_birth (x y : Z) :
  ~ 1 <= count_neighbors (grid s) x y PREY (neighborhood_type (params s))
          (grid_type (params s)).
Proof. rewrite count_neighbors_none by assumption. lia. Qed.

Lemma sweep_hungry_cell (c0 : coord) (rest : list coord) (w w' : Work) :
  in_range (Z.of_nat n) c0 ->
  cell_effect s c0 w w' ->
  sweep_hungry s n k (c0 :: rest) w -> sweep_hungry s n k rest w'.
Proof.
  intros Hc0 Heff (Hsg & Hsh & Hw).
  assert (Hnear : forall x y d c, In c (_get_nearby_cells s x y d) ->
                    in_range (Z.of_nat n) c).
  { intros x y d c. now apply (nearby_in_range n s x y d c c0). }
  assert (Hold : forall c, c <> c0 -> get2 (new_grid w) c = PREDATOR ->
            k + 1 <= get2 (new_predator_hunger w) c
            \/ (get2 (grid s) c = PREDATOR /\ In c rest)).
  { intros c Hne Hc. destruct (Hw c Hc) as [H|[H [H'|H']]]; auto. congruence. }
  destruct c0 as [x y]. simpl in Heff.
  destruct Heff as [Hskip | w' Hnew Hold0 Heff | Hold0 Ht Hh
                   | w' Hnew Hold0 Heff | w' Hnew Hold0 Heff
                   | w' Hnew Hold0 Heff | H1 H2 H3 H4].
  - (* skipped *)
    split; [assumption|]. split; [assumption|]. intros c Hc.
    destruct (Hw c Hc) as [H|[H [H'|H']]]; auto. subst c. congruence.
  - (* predator *)
    pose proof (Hhun _ Hold0) as Hh0.
    destruct Heff as [Hd | Hst | prey Hlt Hin Hprey | prey m Hlt Hin Hprey Hin' Hm
                     | Hlt | m Hlt Hin Hm];
      try (now apply Hno in Hprey);
      unfold sweep_hungry, predator_goes, set_grid, set_predator_hunger; simpl;
      (split; [auto 10 with squares|]); (split; [auto 10 with squares|]);
      intros c; rewrite ?(get2_set2 n) by eauto 10 with squares;
      intros Hc; split_cells; subst; try discriminate; try congruence;
      try (left; lia); try (apply Hold; congruence);
      try (apply Hold; [intro; subst; unfold PREY, PREDATOR, EMPTY, SUBSTRATE in *;
                        congruence | congruence]).
  - (* division by zero: excluded by the counter of the predator *)
    pose proof (Hhun _ Hold0). lia.
  - (* prey *)
    now apply Hno in Hold0.
  - (* substrate *)
    destruct Heff as [Hd|];
      unfold sweep_hungry, set_grid; simpl;
      (split; [auto 10 with squares|]); (split; [auto 10 with squares|]);
      intros c; rewrite ?(get2_set2 n) by eauto 10 with squares;
      intros Hc; split_cells; subst; try discriminate; try congruence;
      try (apply Hold; congruence);
      try (apply Hold; [intro; subst; unfold PREY, PREDATOR, EMPTY, SUBSTRATE in *;
                        congruence | congruence]).
  - (* empty *)
    destruct Heff as [H2 H1 | Hp |];
      try (now apply no_prey_no_birth in H1);
      unfold sweep_hungry, count_substrate_created, set_grid; simpl;
      (split; [auto 10 with squares|]); (split; [auto 10 with squares|]);
      intros c; rewrite ?(get2_set2 n) by eauto 10 with squares;
      intros Hc; split_cells; subst; try discriminate; try congruence;
      try (apply Hold; congruence);
      try (apply Hold; [intro; subst; unfold PREY, PREDATOR, EMPTY, SUBSTRATE in *;
                        congruence | congruence]).
  - (* a value that is no entity kind *)
    split; [assumption|]. split; [assumption|]. intros c Hc.
    destruct (Hw c Hc) as [H|[H [H'|H']]]; auto. subst c. congruence.
Qed.

(** When no predator is below the starvation threshold, each of them is
    removed at its turn. *)
Lemma sweep_starving_cell (c0 : coord) (rest : list coord) (w w' : Work) :
  predator_threshold s <= k ->
  in_range (Z.of_nat n) c0 ->
  cell_effect s c0 w w' ->
  sweep_starving s n (c0 :: rest) w -> sweep_starving s n rest w'.
Proof.
  intros Ht Hc0 Heff (Hsg & Hw).
  assert (Hnear : forall x y d c, In c (_get_nearby_cells s x y d) ->
                    in_range (Z.of_nat n) c).
  { intros x y d c. now apply (nearby_in_range n s x y d c c0). }
  assert (Hold : forall c, c <> c0 -> get2 (new_grid w) c = PREDATOR ->
            get2 (grid s) c = PREDATOR /\ In c rest).
  { intros c Hne Hc. destruct (Hw c Hc) as [H [H'|H']]; auto. congruence. }
  destruct c0 as [x y]. simpl in Heff.
  destruct Heff as [Hskip | w' Hnew Hold0 Heff | Hold0 Ht0 Hh
                   | w' Hnew Hold0 Heff | w' Hnew Hold0 Heff
                   | w' Hnew Hold0 Heff | H1 H2 H3 H4].
  - (* skipped *)
    split; [assumption|]. intros c Hc.
    destruct (Hw c Hc) as [H [H'|H']]; auto. subst c. congruence.
  - (* predator *)
    pose proof (Hhun _ Hold0) as Hh0.
    destruct Heff as [Hd | Hst | prey Hlt Hin Hprey | prey m Hlt Hin Hprey Hin' Hm
                     | Hlt | m Hlt Hin Hm];
      cbn [fst snd] in *; try lia;
      unfold sweep_starving, set_grid; simpl;
      (split; [auto 10 with squares|]);
      intros c; rewrite ?(get2_set2 n) by eauto 10 with squares;
      intros Hc; split_cells; subst; try discriminate; try congruence;
      try (apply Hold; congruence).
  - pose proof (Hhun _ Hold0). lia.
  - now apply Hno in Hold0.
  - (* substrate *)
    destruct Heff as [Hd|];
      unfold sweep_starving, set_grid; simpl;
      (split; [auto 10 with squares|]);
      intros c; rewrite ?(get2_set2 n) by eauto 10 with squares;
      intros Hc; split_cells; subst; try discriminate; try congruence;
      try (apply Hold; congruence);
      try (apply Hold; [intro; subst; unfold PREY, PREDATOR, EMPTY, SUBSTRATE in *;
                        congruence | congruence]).
  - (* empty *)
    destruct Heff as [H2 H1 | Hp |];
      try (now apply no_prey_no_birth in H1);
      unfold sweep_starving, count_substrate_created, set_grid; simpl;
      (split; [auto 10 with squares|]);
      intros c; rewrite ?(get2_set2 n) by eauto 10 with squares;
      intros Hc; split_cells; subst; try discriminate; try congruence;
      try (apply Hold; congruence);
      try (apply Hold; [intro; subst; unfold PREY, PREDATOR, EMPTY, SUBSTRATE in *;
                        congruence | congruence]).
  - split; [assumption|]. intros c Hc.
    destruct (Hw c Hc) as [H [H'|H']]; auto. subst c. congruence.
Qed.

End WithoutPrey.

Lemma next_commits (now : string) (s : Simulation) (r : Rng) :
  exists coords r1 w r2,
    Permutation coords (all_coords (shape0 (grid s)))
    /\ sweep s coords (fresh_work s) r1 = (w, r2)
    /\ grid (fst (next now s r)) = new_grid w
    /\ predator_hunger (fst (next now s r)) = new_predator_hunger w
    /\ prey_hunger (fst (next now s r)) = new_prey_hunger w
    /\ statistics (fst (next now s r)) = events w
    /\ params (fst (next now s r)) = params s.
Proof.
  destruct (step_commits now s r) as (coords & r1 & w & r2 & Hperm & Esw & E).
  exists coords, r1, w, r2. unfold next. rewrite E. simpl. auto 10.
Qed.

Lemma coords_in_range (n : nat) (g : array2) (coords : list coord) :
  square n g -> Permutation coords (all_coords (shape0 g)) ->
  Forall (in_range (Z.of_nat n)) coords.
Proof.
  intros Hsq Hperm. apply Forall_forall. intros c Hc.
  apply (Permutation_in _ Hperm), all_coords_spec in Hc.
  now rewrite (shape0_square n) in Hc.
Qed.

Lemma coords_complete (n : nat) (g : array2) (coords : list coord) (c : coord) :
  square n g -> Permutation coords (all_coords (shape0 g)) ->
  get2 g c <> 0 -> In c coords.
Proof.
  intros Hsq Hperm Hc.
  apply (Permutation_in _ (Permutation_sym Hperm)), all_coords_spec.
  rewrite (shape0_square n) by assumption.
  now apply (get2_nonzero_in_range n g).
Qed.

(** One generation without prey: the predators that are left have gone one
    more generation without feeding. *)
Lemma hungry_generation (n : nat) (k : Z) (now : string) (s : Simulation)
    (r : Rng) :
  square n (grid s) ->
  (forall c, get2 (grid s) c <> PREY) -> 0 <= k -> hunger_at_least k s ->
  let s' := fst (next now s r) in
  square n (grid s')
  /\ (forall c, get2 (grid s') c <> PREY)
  /\ hunger_at_least (k + 1) s'
  /\ params s' = params s.
Proof.
  intros Hsq Hno Hk Hhun s'. subst s'. unfold hunger_at_least at 1.
  destruct (next_commits now s r)
    as (coords & r1 & w & r2 & Hperm & Esw & -> & -> & _ & _ & ->).
  pose proof (sweep_invariant s (in_range (Z.of_nat n)) (sweep_hungry s n k))
    as Hinv.
  specialize (Hinv (sweep_hungry_cell s n k Hsq Hno Hk Hhun)
                coords (fresh_work s) r1 (coords_in_range n _ _ Hsq Hperm)).
  pose proof (sweep_invariant s (fun _ => True)
                (fun _ w => forall c, get2 (new_grid w) c <> PREY)) as Hprey.
  specialize (Hprey (fun c rest w w' _ => cell_effect_no_prey s c w w' Hno)
                coords (fresh_work s) r1).
  rewrite Esw in Hinv, Hprey. simpl in Hinv, Hprey.
  destruct Hinv as (Hsg & Hsh & Hw).
  { split; [assumption|]. split; [now apply square_full_like|].
    intros c Hc. right. split; [assumption|].
    apply (coords_complete n (grid s)); auto. simpl in Hc. rewrite Hc.
    discriminate. }
  split; [assumption|].
  split; [apply Hprey; [apply Forall_forall; auto | assumption]|].
  split; [|reflexivity].
  intros c Hc. destruct (Hw c Hc) as [H|[_ []]]. assumption.
Qed.

(** One generation without prey in which no predator is below the
    starvation threshold: no predator is left. *)
Lemma starving_generation (n : nat) (k : Z) (now : string) (s : Simulation)
    (r : Rng) :
  square n (grid s) ->
  (forall c, get2 (grid s) c <> PREY) -> 0 <= k -> hunger_at_least k s ->
  predator_threshold s <= k ->
  forall c, get2 (grid (fst (next now s r))) c <> PREDATOR.
Proof.
  intros Hsq Hno Hk Hhun Ht.
  destruct (next_commits now s r)
    as (coords & r1 & w & r2 & Hperm & Esw & -> & _).
  pose proof (sweep_invariant s (in_range (Z.of_nat n)) (sweep_starving s n))
    as Hinv.
  specialize (Hinv (fun c rest w w' =>
                      sweep_starving_cell s n k Hsq Hno Hk Hhun c rest w w' Ht)
                coords (fresh_work s) r1 (coords_in_range n _ _ Hsq Hperm)).
  rewrite Esw in Hinv. simpl in Hinv.
  destruct Hinv as (_ & Hw).
  { split; [assumption|]. intros c Hc. split; [assumption|].
    apply (coords_complete n (grid s)); auto. simpl in Hc. rewrite Hc.
    discriminate. }
  intros c Hc. destruct (Hw c Hc) as [_ []].
Qed.

Lemma generations_succ (j : nat) (now : string) (s : Simulation) (r : Rng) :
  fst (generations (S j) now s r)
  = fst (next now (fst (generations j now s r)) (snd (generations j now s r))).
Proof. simpl. now destruct (generations j now s r). Qed.

(** After [j] generations without prey every predator has hunger at least
    [j]. *)
Lemma hungry_generations (n : nat) (now : string) (s : Simulation) (r : Rng)
    (j : nat) :
  hunger_tracked n s -> (forall c, get2 (grid s) c <> PREY) ->
  let s' := fst (generations j now s r) in
  square n (grid s')
  /\ (forall c, get2 (grid s') c <> PREY)
  /\ hunger_at_least (Z.of_nat j) s'
  /\ params s' = params s.
Proof.
  intros (Hsq & _ & Hok) Hno. induction j as [|j IH].
  - simpl. auto 10.
  - cbv zeta in *. rewrite generations_succ.
    destruct IH as (A & C & D & E).
    destruct (hungry_generation n (Z.of_nat j) now
                (fst (generations j now s r)) (snd (generations j now s r))
                A C ltac:(lia) D) as (A' & C' & D' & E').
    split; [assumption|]. split; [assumption|].
    split; [|congruence].
    now replace (Z.of_nat (S j)) with (Z.of_nat j + 1) by lia.
Qed.

(** X11. Without prey, predators die out: from a reachable state whose grid
    holds no Prey, no Predator is left after [predator_starvation_steps + 1]
    further generations, whatever the random draws. *)
Theorem predators_starve_without_prey (now : string) (s : Simulation) (r : Rng) :
  reachable s -> count_eq (grid s) PREY = 0 ->
  count_eq
    (grid (fst (generations (Z.to_nat (predator_threshold s) + 1) now s r)))
    PREDATOR = 0.
Proof.
  intros Hreach Hprey.
  rewrite count_eq_zero_iff in Hprey by discriminate.
  rewrite count_eq_zero_iff by discriminate.
  destruct (reachable_tracked s Hreach) as [n Htr].
  rewrite Nat.add_1_r, generations_succ.
  destruct (hungry_generations n now s r (Z.to_nat (predator_threshold s))
              Htr Hprey) as (A & C & D & E).
  apply (starving_generation n (Z.of_nat (Z.to_nat (predator_threshold s))));
    auto; try lia.
  unfold predator_threshold in *. rewrite E. lia.
Qed.

Lemma predators_starve_without_prey_witness :
  count_eq
    (grid (fst (generations
                  (Z.to_nat (predator_threshold Examples.lone_sim) + 1)
                  "t1" Examples.lone_sim Examples.steady_rng)))
    PREDATOR = 0.
Proof.
  apply (predators_starve_without_prey "t1" Examples.lone_sim
           Examples.steady_rng).
  - apply (reachable_init 5). split; [reflexivity | repeat constructor].
  - reflexivity.
Defined.

(** ** The state across generations *)

Section AcrossGenerations.

(** The rules write entity codes only. *)
Lemma cell_effect_valid (s : Simulation) (c0 : coord) (w w' : Work) :
  cells_valid (grid s) ->
  cell_effect s c0 w w' ->
  cells_valid (new_grid w) -> cells_valid (new_grid w').
Proof.
  intros Hs Heff Hw.
  assert (Hcode : forall v, v = EMPTY \/ v = PREY \/ v = PREDATOR
                            \/ v = SUBSTRATE -> 0 <= v <= 3).
  { unfold EMPTY, PREY, PREDATOR, SUBSTRATE. lia. }
  inversion Heff as [Hskip|w1 Hb Hg Hp|Hg Ht Hh|w1 Hb Hg Hp|w1 Hb Hg Hp
                    |w1 Hb Hg Hp|]; subst; try assumption.
  - inversion Hp; subst; unfold predator_goes; simpl;
      repeat (apply cells_valid_set2; [apply Hcode; auto|]); assumption.
  - simpl. apply cells_valid_set2; [|assumption].
    now apply cells_valid_get2.
  - inversion Hp; subst; simpl;
      repeat (apply cells_valid_set2; [apply Hcode; auto|]); assumption.
  - inversion Hp; subst; simpl;
      repeat (apply cells_valid_set2; [apply Hcode; auto|]); assumption.
  - inversion Hp; subst; simpl;
      repeat (apply cells_valid_set2; [apply Hcode; auto|]); assumption.
Qed.

(** The rules leave seven of the nine event counters alone and never
    decrease the other two. *)
Lemma cell_effect_events (s : Simulation) (c0 : coord) (w w' : Work) :
  cell_effect s c0 w w' ->
  predator_deaths (events w') = predator_deaths (events w)
  /\ predator_starved (events w') = predator_starved (events w)
  /\ prey_deaths (events w') = prey_deaths (events w)
  /\ prey_births (events w') = prey_births (events w)
  /\ prey_hunted (events w') = prey_hunted (events w)
  /\ prey_starved (events w') = prey_starved (events w)
  /\ substrate_consumed (events w') = substrate_consumed (events w)
  /\ predator_births (events w) <= predator_births (events w')
  /\ substrate_created (events w) <= substrate_created (events w').
Proof.
  intros Heff.
  inversion Heff as [Hskip|w1 Hb Hg Hp|Hg Ht Hh|w1 Hb Hg Hp|w1 Hb Hg Hp
                    |w1 Hb Hg Hp|]; subst; simpl; try (repeat split; lia);
    inversion Hp; subst; simpl; repeat split; lia.
Qed.

Lemma last_app_one (l : list Z) (x d : Z) : last (l ++ [x]) d = x.
Proof. apply last_last. Qed.

(** Calls of [step] keep the shape of the three arrays and leave the
    parameters, the recording flag and the adjustment report alone. *)
Lemma evolves_square (n : nat) (s0 s : Simulation) :
  square n (grid s0) -> square n (predator_hunger s0) ->
  square n (prey_hunger s0) -> evolves s0 s ->
  square n (grid s) /\ square n (predator_hunger s) /\ square n (prey_hunger s)
  /\ params s = params s0 /\ recording_enabled s = recording_enabled s0
  /\ adjustment_info s = adjustment_info s0.
Proof.
  intros A0 C0 D0 Hev.
  induction Hev as [|s1 alloc_ok now1 r Hev IH]; [auto 10|].
  destruct IH as (A & C & D & E & F & G).
  destruct alloc_ok; [|rewrite step_fails; auto 10].
  destruct (step_commits now1 s1 r)
    as (coords & r1 & w & r2 & Hperm & Esw & E').
  rewrite E' in *. simpl in *.
  pose proof (sweep_invariant s1 (fun _ => True)
                (fun _ w => square n (new_grid w)
                            /\ square n (new_predator_hunger w)
                            /\ square n (new_prey_hunger w))) as Hinv.
  assert (Hstep : forall c (rest : list coord) w0 w', True ->
            cell_effect s1 c w0 w' ->
            square n (new_grid w0) /\ square n (new_predator_hunger w0)
            /\ square n (new_prey_hunger w0) ->
            square n (new_grid w') /\ square n (new_predator_hunger w')
            /\ square n (new_prey_hunger w')).
  { intros c rest w0 w' _ Heff (Hw0 & Hw1 & Hw2).
    inversion Heff as [Hskip|w1 Hb Hg Hp|Hg Ht Hh|w1 Hb Hg Hp|w1 Hb Hg Hp
                      |w1 Hb Hg Hp|]; subst; simpl;
      try ((split; [|split]); auto with squares; fail);
      inversion Hp; subst; unfold predator_goes; simpl;
      (split; [|split]); auto 10 with squares. }
  specialize (Hinv Hstep coords (fresh_work s1) r1).
  rewrite Esw in Hinv. simpl in Hinv.
  destruct Hinv as (H1 & H2 & H3).
  { apply Forall_forall; auto. }
  { split; [assumption|]. split; now apply square_full_like. }
  auto 10.
Qed.

(** Calls of [step] keep a grid of entity codes one. *)
Lemma evolves_valid (s0 s : Simulation) :
  cells_valid (grid s0) -> evolves s0 s -> cells_valid (grid s).
Proof.
  intros Hv Hev. induction Hev as [|s1 alloc_ok now1 r Hev IH]; [assumption|].
  apply (step_grid_invariant cells_valid); [assumption|].
  intros c w w'. now apply cell_effect_valid.
Qed.

Lemma init_square (n : nat) (g : array2) (p : Params) (recording : bool)
    (adjustment : option AdjustmentInfo) (now : string) :
  square n g ->
  square n (predator_hunger (init g p recording adjustment now))
  /\ square n (prey_hunger (init g p recording adjustment now)).
Proof.
  intros Hsq.
  pose proof (init_tracked n g p recording adjustment now Hsq) as (_ & A & _).
  pose proof (init_prey_tracked n g p recording adjustment now Hsq)
    as (_ & B & _).
  now split.
Qed.

Lemma generations_evolves (k : nat) (now : string) (s : Simulation) (r : Rng) :
  evolves s (fst (generations k now s r)).
Proof.
  induction k as [|k IH]; [apply evolves_here|].
  rewrite generations_succ. unfold next.
  destruct (step true now (fst (generations k now s r))
              (snd (generations k now s r))) as [[res s'] r'] eqn:E.
  simpl. change s' with (snd (fst (res, s', r'))). rewrite <- E.
  now apply evolves_step.
Qed.

End AcrossGenerations.

(** X12. A session that starts from a square grid of entity codes keeps
    it so: after any number of calls of [step] the grid and the two hunger
    arrays are [n] x [n], every cell holds one of the four entity codes,
    and the parameters, the recording flag and the adjustment report are
    the ones given to the constructor. *)
Theorem session_keeps_grid_well_formed (n : nat) (g : array2) (p : Params)
    (recording : bool) (adjustment : option AdjustmentInfo) (now : string)
    (s : Simulation) :
  square n g -> cells_valid g ->
  evolves (init g p recording adjustment now) s ->
  square n (grid s) /\ cells_valid (grid s)
  /\ square n (predator_hunger s) /\ square n (prey_hunger s)
  /\ params s = p /\ recording_enabled s = recording
  /\ adjustment_info s
     = adjustment_info (init g p recording adjustment now).
Proof.
  intros Hsq Hv Hev.
  destruct (init_square n g p recording adjustment now Hsq) as [A B].
  destruct (evolves_square n (init g p recording adjustment now) s Hsq A B Hev)
    as (H1 & H2 & H3 & H4 & H5 & H6).
  pose proof (evolves_valid (init g p recording adjustment now) s Hv Hev) as H7.
  auto 10.
Qed.

Lemma session_keeps_grid_well_formed_witness :
  let s0 := Examples.hunt_sim in
  let s1 := snd (fst (step true "t1" s0 Examples.hunt_rng)) in
  square 5 (grid s1) /\ cells_valid (grid s1)
  /\ square 5 (predator_hunger s1) /\ square 5 (prey_hunger s1)
  /\ params s1 = Examples.quiet "moore" "torus"
  /\ recording_enabled s1 = false
  /\ adjustment_info s1 = adjustment_info s0.
Proof.
  apply (session_keeps_grid_well_formed 5 Examples.hunt_grid
           (Examples.quiet "moore" "torus") false None "2024-01-01T00:00:00").
  - split; [reflexivity | repeat constructor].
  - repeat constructor; lia.
  - apply evolves_step, evolves_here.
Defined.

(** X13. Of the nine event counters of [self.statistics], only
    [predator_births] and [substrate_created] ever change: after any number
    of calls of [step] the other seven hold what they held before, and
    these two have not decreased. *)
Theorem only_two_event_counters_move (s s' : Simulation) :
  evolves s s' ->
  predator_deaths (statistics s') = predator_deaths (statistics s)
  /\ predator_starved (statistics s') = predator_starved (statistics s)
  /\ prey_deaths (statistics s') = prey_deaths (statistics s)
  /\ prey_births (statistics s') = prey_births (statistics s)
  /\ prey_hunted (statistics s') = prey_hunted (statistics s)
  /\ prey_starved (statistics s') = prey_starved (statistics s)
  /\ substrate_consumed (statistics s') = substrate_consumed (statistics s)
  /\ predator_births (statistics s) <= predator_births (statistics s')
  /\ substrate_created (statistics s) <= substrate_created (statistics s').
Proof.
  induction 1 as [|s1 alloc_ok now r Hev IH]; [repeat split; lia|].
  destruct alloc_ok; [|rewrite step_fails; exact IH].
  destruct (step_commits now s1 r) as (coords & r1 & w & r2 & _ & Esw & ->).
  simpl.
  pose proof (sweep_invariant s1 (fun _ => True)
    (fun _ w =>
       predator_deaths (events w) = predator_deaths (statistics s)
       /\ predator_starved (events w) = predator_starved (statistics s)
       /\ prey_deaths (events w) = prey_deaths (statistics s)
       /\ prey_births (events w) = prey_births (statistics s)
       /\ prey_hunted (events w) = prey_hunted (statistics s)
       /\ prey_starved (events w) = prey_starved (statistics s)
       /\ substrate_consumed (events w) = substrate_consumed (statistics s)
       /\ predator_births (statistics s) <= predator_births (events w)
       /\ substrate_created (statistics s) <= substrate_created (events w)))
    as Hinv.
  cbv beta in Hinv.
  assert (Hstep : forall c (rest : list coord) w0 w', True ->
            cell_effect s1 c w0 w' ->
            predator_deaths (events w0) = predator_deaths (statistics s)
            /\ predator_starved (events w0) = predator_starved (statistics s)
            /\ prey_deaths (events w0) = prey_deaths (statistics s)
            /\ prey_births (events w0) = prey_births (statistics s)
            /\ prey_hunted (events w0) = prey_hunted (statistics s)
            /\ prey_starved (events w0) = prey_starved (statistics s)
            /\ substrate_consumed (events w0) = substrate_consumed (statistics s)
            /\ predator_births (statistics s) <= predator_births (events w0)
            /\ substrate_created (statistics s) <= substrate_created (events w0) ->
            predator_deaths (events w') = predator_deaths (statistics s)
            /\ predator_starved (events w') = predator_starved (statistics s)
            /\ prey_deaths (events w') = prey_deaths (statistics s)
            /\ prey_births (events w') = prey_births (statistics s)
            /\ prey_hunted (events w') = prey_hunted (statistics s)
            /\ prey_starved (events w') = prey_starved (statistics s)
            /\ substrate_consumed (events w') = substrate_consumed (statistics s)
            /\ predator_births (statistics s) <= predator_births (events w')
            /\ substrate_created (statistics s) <= substrate_created (events w')).
  { intros c rest w0 w' _ Heff H0.
    pose proof (cell_effect_events s1 c w0 w' Heff). lia. }
  specialize (Hinv Hstep coords (fresh_work s1) r1).
  rewrite Esw in Hinv. apply Hinv; [apply Forall_forall; auto|].
  exact IH.
Qed.

Lemma only_two_event_counters_move_witness :
  let s0 := Examples.torus_sim in
  let s1 := snd (fst (step true "t1" s0 Examples.zeros)) in
  predator_deaths (statistics s1) = predator_deaths (statistics s0)
  /\ predator_starved (statistics s1) = predator_starved (statistics s0)
  /\ prey_deaths (statistics s1) = prey_deaths (statistics s0)
  /\ prey_births (statistics s1) = prey_births (statistics s0)
  /\ prey_hunted (statistics s1) = prey_hunted (statistics s0)
  /\ prey_starved (statistics s1) = prey_starved (statistics s0)
  /\ substrate_consumed (statistics s1) = substrate_consumed (statistics s0)
  /\ predator_births (statistics s0) <= predator_births (statistics s1)
  /\ substrate_created (statistics s0) <= substrate_created (statistics s1).
Proof.
  apply (only_two_event_counters_move Examples.torus_sim).
  apply evolves_step, evolves_here.
Defined.

(** ** History, frames and statistics *)

Section Records.

Lemma next_records (now : string) (s : Simulation) (r : Rng) :
  let s' := fst (next now s r) in
  stats s'
  = mkHistory
      (hist_predator_count (stats s) ++ [count_eq (grid s') PREDATOR])
      (hist_prey_count (stats s) ++ [count_eq (grid s') PREY])
      (hist_substrate_count (stats s) ++ [count_eq (grid s') SUBSTRATE])
  /\ recorded_frames s'
     = (if recording_enabled s
        then recorded_frames s
             ++ [step_frame (grid s')
                   (Z.of_nat (length (recorded_frames s))) now]
        else recorded_frames s)
  /\ recording_enabled s' = recording_enabled s.
Proof.
  destruct (step_commits now s r) as (coords & r1 & w & r2 & _ & _ & E).
  unfold next. rewrite E. simpl. auto.
Qed.

Lemma generation_succ (now : string) (s0 : Simulation) (r : Rng) (k : nat) :
  generation now s0 r (S k)
  = fst (next now (generation now s0 r k) (snd (generations k now s0 r))).
Proof. apply generations_succ. Qed.

(** The counts of a frame written by [step] are the counts of the grid,
    the Empty count included. *)
Lemma step_frame_counts (n : nat) (g : array2) (k : Z) (now : string) :
  square n g -> cells_valid g ->
  fr_statistics (step_frame g k now) = grid_counts g
  /\ fr_step (step_frame g k now) = k.
Proof.
  intros Hsq Hv. pose proof (count_total g Hv) as Htot.
  rewrite (array_size_square n g Hsq) in Htot.
  unfold step_frame, grid_counts. rewrite (shape0_square n g Hsq).
  destruct (Z.of_nat n >? 500); simpl; (split; [f_equal; lia | reflexivity]).
Qed.

Lemma count_at_risk_bounds (a g : array2) (t v : Z) :
  0 <= count_at_risk a g t v <= count_eq g v.
Proof.
  assert (H : forall (ar row0 : list Z) acc,
            acc <= fold_right (fun ag acc' =>
                     if (fst ag >=? t) && (snd ag =? v) then acc' + 1 else acc')
                     acc (combine ar row0)
            <= acc + count_row row0 v).
  { intros ar row0 acc. revert ar.
    induction row0 as [|x row0 IHr]; intros [|y ar];
      try (pose proof (count_row_nonneg (x :: row0) v) as Hn);
      try (simpl in *; lia).
    specialize (IHr ar).
    change (combine (y :: ar) (x :: row0)) with ((y, x) :: combine ar row0).
    cbn [fold_right fst snd count_row] in *.
    fold (count_row row0 v) in *.
    destruct ((y >=? t) && (x =? v)) eqn:E.
    - apply andb_true_iff in E as [_ E]. rewrite E. lia.
    - destruct (x =? v); lia. }
  unfold count_at_risk. revert a.
  induction g as [|row g IH]; intros a.
  - destruct a; simpl; lia.
  - destruct a as [|arow a].
    + pose proof (count_eq_nonneg (row :: g) v). simpl combine. simpl fold_right. lia.
    + rewrite count_eq_cons.
      change (combine (arow :: a) (row :: g)) with ((arow, row) :: combine a g).
      cbn [fold_right fst snd]. specialize (IH a).
      specialize (H arow row (fold_right
        (fun rows acc =>
           fold_right (fun ag acc' =>
             if (fst ag >=? t) && (snd ag =? v) then acc' + 1 else acc')
             acc (combine (fst rows) (snd rows))) 0 (combine a g))).
      lia.
Qed.

Lemma round_half_even_bounds (q : Q) (m : Z) :
  (0 <= q)%Q -> (q <= inject_Z m)%Q -> 0 <= round_half_even q <= m.
Proof.
  intros H0 Hm. unfold round_half_even.
  pose proof (Qfloor_le q) as Hfl. pose proof (Qlt_floor q) as Hlt.
  assert (Hf0 : 0 <= Qfloor q).
  { change 0 with (Qfloor 0). now apply Qfloor_resp_le. }
  assert (Hfm : Qfloor q <= m).
  { rewrite <- (Qfloor_Z m). now apply Qfloor_resp_le. }
  destruct (Qltb (q - inject_Z (Qfloor q)) (1 # 2)) eqn:E1; [lia|].
  assert (Hlow : ~ (q - inject_Z (Qfloor q) < 1 # 2)%Q).
  { intros H. apply Qltb_true_iff in H. congruence. }
  assert (Hne : Qfloor q <> m).
  { intros E. apply Hlow. rewrite E.
    apply Qle_lt_trans with 0%Q; [|reflexivity].
    apply (Qplus_le_l _ _ (inject_Z m)). ring_simplify. exact Hm. }
  destruct (Qltb (1 # 2) (q - inject_Z (Qfloor q))); [lia|].
  destruct (Z.even (Qfloor q)); lia.
Qed.

(** A percentage of a part of the cells lies between 0 and 100. *)

(** The last entry of each series is the count of the current grid. *)
Lemma history_last (s0 s : Simulation) :
  (exists g p recording adjustment now,
     s0 = init g p recording adjustment now) ->
  evolves s0 s ->
  hist_predator_count (stats s) <> []
  /\ last_of (hist_predator_count (stats s)) = count_eq (grid s) PREDATOR
  /\ last_of (hist_prey_count (stats s)) = count_eq (grid s) PREY
  /\ last_of (hist_substrate_count (stats s)) = count_eq (grid s) SUBSTRATE.
Proof.
  intros (g & p & recording & adjustment & now & ->) Hev.
  induction Hev as [|s1 alloc_ok now1 r Hev IH].
  - simpl. repeat split; discriminate.
  - destruct alloc_ok; [|rewrite step_fails; exact IH].
    destruct (step_commits now1 s1 r) as (coords & r1 & w & r2 & _ & _ & ->).
    simpl. unfold last_of. rewrite !last_last.
    repeat split. intros E. now apply app_eq_nil in E as [_ E].
Qed.

End Records.

(** X14. [get_historical_stats] returns, after [m] generations of a
    session, three series of [m + 1] entries each: entry [k] is the number
    of Predator, Prey and Substrate cells of the grid after [k]
    generations, entry 0 being the count of the grid given to the
    constructor. *)
Theorem history_records_every_generation (n : nat) (g : array2) (p : Params)
    (recording : bool) (adjustment : option AdjustmentInfo)
    (now0 now : string) (r : Rng) (m : nat) :
  square n g ->
  let s := generation now (init g p recording adjustment now0) r in
  let h := get_historical_stats (s m) in
  hist_predator_count h
  = map (fun k => count_eq (grid (s k)) PREDATOR) (seq 0 (S m))
  /\ hist_prey_count h
     = map (fun k => count_eq (grid (s k)) PREY) (seq 0 (S m))
  /\ hist_substrate_count h
     = map (fun k => count_eq (grid (s k)) SUBSTRATE) (seq 0 (S m)).
Proof.
  intros _ s h. subst h. unfold get_historical_stats.
  induction m as [|m (IH1 & IH2 & IH3)]; [simpl; auto|].
  unfold s at 1 3 5. rewrite generation_succ.
  destruct (next_records now (generation now (init g p recording adjustment now0) r m)
              (snd (generations m now (init g p recording adjustment now0) r)))
    as (-> & _).
  rewrite <- generation_succ. fold s. simpl hist_predator_count.
  simpl hist_prey_count. simpl hist_substrate_count.
  rewrite IH1, IH2, IH3.
  rewrite (seq_S (S m) 0), !map_app. simpl. auto.
Qed.

Lemma history_records_every_generation_witness :
  let s := generation "t1" Examples.hunt_sim Examples.hunt_rng in
  let h := get_historical_stats (s 1%nat) in
  hist_predator_count h
  = map (fun k => count_eq (grid (s k)) PREDATOR) (seq 0 2)
  /\ hist_prey_count h
     = map (fun k => count_eq (grid (s k)) PREY) (seq 0 2)
  /\ hist_substrate_count h
     = map (fun k => count_eq (grid (s k)) SUBSTRATE) (seq 0 2).
Proof.
  apply (history_records_every_generation 5 Examples.hunt_grid
           (Examples.quiet "moore" "torus") false None
           "2024-01-01T00:00:00" "t1" Examples.hunt_rng 1).
  split; [reflexivity | repeat constructor].
Defined.

(** X15. With recording enabled on a square grid of entity codes, after
    [m] generations there are [m + 1] recorded frames; frame [k] carries
    the step number [k] and the four cell counts of the grid after [k]
    generations (the Empty count of the frames written by [step], which is
    computed by subtraction, included).  With recording disabled no frame
    is ever recorded. *)
Theorem frames_record_every_generation (n : nat) (g : array2) (p : Params)
    (adjustment : option AdjustmentInfo) (now0 now : string) (r : Rng)
    (m : nat) :
  square n g -> cells_valid g ->
  (let s := generation now (init g p true adjustment now0) r in
   map fr_step (recorded_frames (s m)) = map Z.of_nat (seq 0 (S m))
   /\ map fr_statistics (recorded_frames (s m))
      = map (fun k => grid_counts (grid (s k))) (seq 0 (S m)))
  /\ recorded_frames (generation now (init g p false adjustment now0) r m) = [].
Proof.
  intros Hsq Hv. split.
  - intros s.
    assert (Hrec : forall k, recording_enabled (s k) = true
                             /\ square n (grid (s k))
                             /\ cells_valid (grid (s k))).
    { intros k.
      pose proof (generations_evolves k now (init g p true adjustment now0) r)
        as Hev. fold (generation now (init g p true adjustment now0) r k) in Hev.
      fold s in Hev.
      destruct (init_square n g p true adjustment now0 Hsq) as [A B].
      destruct (evolves_square n (init g p true adjustment now0) (s k) Hsq A B Hev)
        as (H1 & _ & _ & _ & H5 & _).
      pose proof (evolves_valid (init g p true adjustment now0) (s k) Hv Hev).
      auto. }
    induction m as [|m (IH1 & IH2)]; [simpl; auto|].
    unfold s at 1 2. rewrite generation_succ.
    destruct (next_records now (generation now (init g p true adjustment now0) r m)
                (snd (generations m now (init g p true adjustment now0) r)))
      as (_ & -> & _).
    rewrite <- generation_succ. fold s.
    destruct (Hrec m) as (-> & _). destruct (Hrec (S m)) as (_ & Hs1 & Hs2).
    destruct (step_frame_counts n (grid (s (S m)))
                (Z.of_nat (length (recorded_frames (s m)))) now Hs1 Hs2)
      as [Hc Hk].
    assert (Hlen : length (recorded_frames (s m)) = S m).
    { rewrite <- (length_map fr_step), IH1, length_map, length_seq.
      reflexivity. }
    rewrite !map_app, IH1, IH2. cbn [map]. rewrite Hc, Hk, Hlen.
    rewrite (seq_S (S m) 0), !map_app. cbn [map Nat.add]. auto.
  - induction m as [|m IH]; [reflexivity|].
    rewrite generation_succ.
    destruct (next_records now (generation now (init g p false adjustment now0) r m)
                (snd (generations m now (init g p false adjustment now0) r)))
      as (_ & -> & _).
    pose proof (generations_evolves m now (init g p false adjustment now0) r)
      as Hev.
    destruct (init_square n g p false adjustment now0 Hsq) as [A B].
    destruct (evolves_square n (init g p false adjustment now0) _ Hsq A B Hev)
      as (_ & _ & _ & _ & H5 & _).
    unfold generation at 1. rewrite H5. simpl. exact IH.
Qed.

Lemma frames_record_every_generation_witness :
  (let s := generation "t1" (init Examples.small_grid
                               (Examples.settings "moore" "torus") true None
                               "t0") Examples.zeros in
   map fr_step (recorded_frames (s 2%nat)) = map Z.of_nat (seq 0 3)
   /\ map fr_statistics (recorded_frames (s 2%nat))
      = map (fun k => grid_counts (grid (s k))) (seq 0 3))
  /\ recorded_frames
       (generation "t1" (init Examples.small_grid
                           (Examples.settings "moore" "torus") false None "t0")
          Examples.zeros 2) = [].
Proof.
  apply (frames_record_every_generation 3 Examples.small_grid
           (Examples.settings "moore" "torus") None "t0" "t1" Examples.zeros 2).
  - split; [reflexivity | repeat constructor].
  - repeat constructor; lia.
Defined.

(** X16. In every state of a session on a non-empty square grid,
    [get_statistics] reports the cell counts of the current grid; the
    numbers of starving predators and prey lie between 0 and the
    respective count, and the four percentages between 0 and 100. *)
Theorem get_statistics_reports_grid (n : nat) (g : array2) (p : Params)
    (recording : bool) (adjustment : option AdjustmentInfo) (now : string)
    (s : Simulation) :
  (0 < n)%nat -> square n g ->
  evolves (init g p recording adjustment now) s ->
  let st := fst (get_statistics s) in
  st_predator_count st = count_eq (grid s) PREDATOR
  /\ st_prey_count st = count_eq (grid s) PREY
  /\ st_substrate_count st = count_eq (grid s) SUBSTRATE
  /\ st_empty_count st = count_eq (grid s) EMPTY
  /\ 0 <= st_starving_predators st <= st_predator_count st
  /\ 0 <= st_starving_prey st <= st_prey_count st
  /\ (0 <= st_predator_percentage st <= 100)%Q
  /\ (0 <= st_prey_percentage st <= 100)%Q
  /\ (0 <= st_substrate_percentage st <= 100)%Q
  /\ (0 <= st_empty_percentage st <= 100)%Q.
Proof.
  intros Hn Hsq Hev st. subst st.
  destruct (init_square n g p recording adjustment now Hsq) as [A B].
  destruct (evolves_square n (init g p recording adjustment now) s Hsq A B Hev)
    as (Hg & _).
  destruct (history_last (init g p recording adjustment now) s) as (Hne & L1 & L2 & L3);
    [repeat eexists | assumption |].
  pose proof (array_size_square n (grid s) Hg) as Hsize.
  assert (Hpos : 0 < array_size (grid s)) by nia.
  unfold get_statistics.
  destruct (array_size (grid s) =? 0) eqn:E; [lia|].
  assert (Hlen : (0 <? Z.of_nat (length (hist_predator_count (stats s)))) = true).
  { destruct (hist_predator_count (stats s)); [congruence | reflexivity]. }
  cbn [fst st_predator_count st_prey_count st_substrate_count st_empty_count
       st_starving_predators st_starving_prey st_predator_percentage
       st_prey_percentage st_substrate_percentage st_empty_percentage].
  rewrite Hlen, L1, L2, L3.
  pose proof (count_at_risk_bounds (predator_hunger s) (grid s)
                (Qtrunc (fmul (inject_Z (get_or (predator_starvation_steps
                                                    (params s)) 10))
                              (8 # 10))) PREDATOR).
  pose proof (count_at_risk_bounds (prey_hunger s) (grid s)
                (Qtrunc (fmul (inject_Z (get_or (prey_starvation_steps
                                                    (params s)) 3))
                              (8 # 10))) PREY).
  assert (Hpct : forall v,
            (0 <= round2 (fmul (int_truediv (count_eq (grid s) v)
                                            (array_size (grid s))) 100)
             <= 100)%Q).
  { intros v. apply percentage_bounds; [|assumption].
    split; [apply count_eq_nonneg | apply count_eq_le_size]. }
  repeat split; try lia; apply Hpct.
Qed.

Lemma get_statistics_reports_grid_witness :
  let s := snd (fst (step true "t1" Examples.torus_sim Examples.zeros)) in
  let st := fst (get_statistics s) in
  st_predator_count st = count_eq (grid s) PREDATOR
  /\ st_prey_count st = count_eq (grid s) PREY
  /\ st_substrate_count st = count_eq (grid s) SUBSTRATE
  /\ st_empty_count st = count_eq (grid s) EMPTY
  /\ 0 <= st_starving_predators st <= st_predator_count st
  /\ 0 <= st_starving_prey st <= st_prey_count st
  /\ (0 <= st_predator_percentage st <= 100)%Q
  /\ (0 <= st_prey_percentage st <= 100)%Q
  /\ (0 <= st_substrate_percentage st <= 100)%Q
  /\ (0 <= st_empty_percentage st <= 100)%Q.
Proof.
  apply (get_statistics_reports_grid 3 Examples.small_grid
           (Examples.settings "moore" "torus") true None
           "2024-01-01T00:00:00").
  - lia.
  - split; [reflexivity | repeat constructor].
  - apply evolves_step, evolves_here.
Defined.

(** ** The extended neighbourhood and the hunt *)

Section Hunt.

Lemma NoDup_list_prod {A B : Type} (l : list A) (l' : list B) :
  NoDup l -> NoDup l' -> NoDup (list_prod l l').
Proof.
  intros Hl Hl'. induction Hl as [|a l Ha Hl IH]; simpl; [constructor|].
  apply NoDup_app; repeat split.
  - apply Finite.Injective_map_NoDup; [|assumption].
    intros b b' E. now inversion E.
  - exact IH.
  - intros [a' b] H1 H2. apply in_map_iff in H1 as [b' [E _]].
    inversion E; subst. apply in_prod_iff in H2 as [H2 _]. contradiction.
Qed.

(** In ["bounded"] mode the extended-radius helper filters the shifted
    offsets. *)
Lemma nearby_cells_bounded (s : Simulation) (x y distance : Z) :
  grid_type (params s) = "bounded" ->
  _get_nearby_cells s x y distance
  = filter (in_rangeb (shape0 (grid s)))
      (map (shift x y) (nearby_offsets (neighborhood_type (params s)) distance)).
Proof.
  intros Hgt. unfold _get_nearby_cells, nearby_offsets. rewrite Hgt. simpl.
  rewrite (flat_map_flat_map_prod
    (fun o => if (fst o =? 0) && (snd o =? 0) then []
              else if String.eqb (neighborhood_type (params s)) "von_neumann"
                      && (Z.abs (fst o) + Z.abs (snd o) >? distance) then []
              else if (0 <=? x + fst o) && (x + fst o <? shape0 (grid s))
                      && (0 <=? y + snd o) && (y + snd o <? shape0 (grid s))
                   then [(x + fst o, y + snd o)] else [])).
  induction (list_prod (range_Z (- distance) (distance + 1))
               (range_Z (- distance) (distance + 1))) as [|o l IH];
    [reflexivity|].
  simpl. rewrite IH.
  destruct ((fst o =? 0) && (snd o =? 0)); simpl; [reflexivity|].
  destruct (String.eqb (neighborhood_type (params s)) "von_neumann"
            && (Z.abs (fst o) + Z.abs (snd o) >? distance)); simpl;
    [reflexivity|].
  unfold in_rangeb, shift; simpl.
  destruct ((0 <=? x + fst o) && (x + fst o <? shape0 (grid s))
            && (0 <=? y + snd o) && (y + snd o <? shape0 (grid s)));
    reflexivity.
Qed.

Lemma nearby_offsets_spec (nt : string) (distance : Z) (o : coord) :
  In o (nearby_offsets nt distance) <-> within nt distance 0 0 o.
Proof.
  unfold nearby_offsets, within. rewrite filter_In.
  destruct o as [dx dy]. cbn [fst snd]. rewrite !Z.sub_0_r.
  assert (Hin : In (dx, dy)
                  (list_prod (range_Z (- distance) (distance + 1))
                     (range_Z (- distance) (distance + 1)))
                <-> Z.abs dx <= distance /\ Z.abs dy <= distance).
  { split.
    - intros H. apply in_prod_iff in H as [H1 H2].
      apply range_Z_spec in H1, H2. lia.
    - intros [H1 H2]. apply in_prod_iff. split; apply range_Z_spec; lia. }
  rewrite Hin. clear Hin.
  rewrite andb_true_iff, !negb_true_iff, !andb_false_iff, !Z.eqb_neq.
  destruct (String.eqb nt "von_neumann") eqn:E.
  - apply String.eqb_eq in E. split.
    + intros [[H1 H2] [H3 [H4|H4]]]; [discriminate|].
      repeat split; try lia.
    + intros (H1 & H2 & H3 & H4). specialize (H4 E).
      split; [lia|]. split; [lia|]. right. lia.
  - apply String.eqb_neq in E. split.
    + intros [[H1 H2] [H3 _]]. repeat split; try lia. congruence.
    + intros (H1 & H2 & H3 & _). split; [lia|]. split; [lia|]. now left.
Qed.

Lemma nearby_offsets_NoDup (nt : string) (distance : Z) :
  NoDup (nearby_offsets nt distance).
Proof.
  unfold nearby_offsets. apply NoDup_filter, NoDup_list_prod;
    apply range_Z_NoDup.
Qed.

Lemma within_shift (nt : string) (distance x y : Z) (o : coord) :
  within nt distance 0 0 o <-> within nt distance x y (shift x y o).
Proof.
  unfold within, shift; simpl.
  replace (x + fst o - x) with (fst o - 0) by lia.
  replace (y + snd o - y) with (snd o - 0) by lia. reflexivity.
Qed.

Lemma random_below_one (r : Rng) : (fst (random r) < 1)%Q.
Proof.
  unfold random, Qlt; simpl. rewrite Z.mul_1_r.
  assert (H : (word r mod Npos two53 < Npos two53)%N)
    by (apply N.mod_lt; discriminate).
  lia.
Qed.

Lemma and_draw_certain (cond : bool) (p : Q) (r : Rng) :
  cond = true -> (1 <= p)%Q -> and_draw cond p r = (true, snd (random r)).
Proof.
  intros -> Hp. unfold and_draw.
  pose proof (random_below_one r) as Hlt.
  destruct (random r) as [u r'] eqn:E. simpl in *. f_equal.
  apply Qltb_true_iff. now apply Qlt_le_trans with 1%Q.
Qed.

End Hunt.

(** X17. In ["bounded"] mode, [_get_nearby_cells] returns exactly the cells
    inside the grid that are within [distance] of [(x, y)] in both
    coordinates (and, for the von Neumann neighbourhood, in the sum of the
    two offsets), without [(x, y)] itself, each listed once. *)
Theorem nearby_cells_bounded_within (s : Simulation) (x y distance : Z) :
  grid_type (params s) = "bounded" ->
  let l := _get_nearby_cells s x y distance in
  NoDup l
  /\ forall c,
       In c l <-> in_range (shape0 (grid s)) c
                  /\ within (neighborhood_type (params s)) distance x y c.
Proof.
  intros Hgt l. subst l. rewrite nearby_cells_bounded by assumption. split.
  - apply NoDup_filter, Finite.Injective_map_NoDup;
      [|apply nearby_offsets_NoDup].
    intros d d'. apply shift_injective.
  - intros c. rewrite filter_In, in_map_iff, in_rangeb_iff. split.
    + intros [[o [<- Ho]] Hr]. split; [assumption|].
      now apply within_shift, nearby_offsets_spec.
    + intros [Hr Hw]. split; [|assumption].
      exists (fst c - x, snd c - y). split.
      * unfold shift; simpl. destruct c; simpl. f_equal; lia.
      * apply nearby_offsets_spec,
          (within_shift (neighborhood_type (params s)) distance x y).
        unfold shift; simpl.
        replace (x + (fst c - x), y + (snd c - y)) with c; [assumption|].
        destruct c; simpl. f_equal; lia.
Qed.

Lemma nearby_cells_bounded_within_witness :
  let s := init Examples.small_grid (Examples.settings "von_neumann" "bounded")
             false None "t0" in
  let l := _get_nearby_cells s 0 0 2 in
  NoDup l
  /\ forall c, In c l <-> in_range (shape0 (grid s)) c
                          /\ within "von_neumann" 2 0 0 c.
Proof.
  apply (nearby_cells_bounded_within
           (init Examples.small_grid (Examples.settings "von_neumann" "bounded")
              false None "t0") 0 0 2).
  reflexivity.
Defined.

(** X18. The hunting probability is the success probability scaled by
    [1 + hunger / threshold], a product of doubles, and is not capped at 1:
    a predator that survives the death draw, is below its starvation
    threshold and has a Prey within distance 2 hunts with certainty as soon
    as this product reaches 1 (with the defaults 0.7 and 10, from hunger 5
    on); it leaves its cell for the cell of a Prey in reach with hunger 0,
    possibly with an offspring on an Empty neighbour. *)
Theorem hunt_is_certain_when_probability_reaches_one (s : Simulation)
    (w : Work) (x y : Z) (r : Rng) :
  Qltb (fst (random r)) (get_or (predator_death_chance (params s)) (5 # 1000))
  = false ->
  0 <= get2 (predator_hunger s) (x, y) < predator_threshold s ->
  (exists c, In c (_get_nearby_cells s x y 2) /\ get2 (grid s) c = PREY) ->
  (1 <= hunt_probability s x y)%Q ->
  exists w' r', _update_predator s w x y r = Done w' r' /\ hunted s x y w w'.
Proof.
  intros Hlive Hh [c [Hc Hprey]] Hp.
  unfold _update_predator.
  destruct (random r) as [u r1] eqn:Eu. simpl in Hlive. rewrite Hlive.
  fold (predator_threshold s).
  destruct (get2 (predator_hunger s) (x, y) >=? predator_threshold s) eqn:Est;
    [lia|].
  unfold predator_hunt_or_move.
  destruct (predator_threshold s =? 0) eqn:E0; [lia|].
  set (preys := filter (fun c => get2 (grid s) c =? PREY)
                  (_get_nearby_cells s x y 2)).
  assert (Hne : nonempty preys = true).
  { assert (Hin : In c preys).
    { apply filter_In. split; [assumption | now apply Z.eqb_eq]. }
    destruct preys; [contradiction | reflexivity]. }
  unfold hunt_probability in Hp. cbv zeta.
  rewrite (and_draw_certain (nonempty preys) _ r1 Hne Hp).
  destruct (choose_filter (fun c => get2 (grid s) c =? PREY)
              (_get_nearby_cells s x y 2) (snd (random r1)) Hne) as [Hin Heq].
  fold preys in Hin, Heq.
  destruct (choose preys (snd (random r1))) as [prey r2] eqn:Ech.
  simpl in Hin, Heq. apply Z.eqb_eq in Heq.
  destruct (random r2) as [u2 r3] eqn:Eu2.
  destruct (Qltb u2 _).
  - set (empties := filter (fun c => get2 (grid s) c =? EMPTY)
                      (_get_nearby_cells s x y 1)).
    destruct (nonempty empties) eqn:Ee.
    + destruct (choose_filter (fun c => get2 (grid s) c =? EMPTY)
                  (_get_nearby_cells s x y 1) r3 Ee) as [Hin' Heq'].
      fold empties in Hin', Heq'.
      destruct (choose empties r3) as [m r4] eqn:Em.
      simpl in Hin', Heq'. apply Z.eqb_eq in Heq'.
      do 2 eexists. split; [reflexivity|].
      exists prey. split; [assumption|]. split; [assumption|].
      right. exists m. auto.
    + do 2 eexists. split; [reflexivity|].
      exists prey. split; [assumption|]. split; [assumption|]. now left.
  - do 2 eexists. split; [reflexivity|].
    exists prey. split; [assumption|]. split; [assumption|]. now left.
Qed.

Lemma hunt_is_certain_when_probability_reaches_one_witness :
  exists w' r',
    _update_predator MoreExamples.hungry_sim
      (fresh_work MoreExamples.hungry_sim) 2 2 Examples.steady_rng
    = Done w' r'
    /\ hunted MoreExamples.hungry_sim 2 2
         (fresh_work MoreExamples.hungry_sim) w'.
Proof.
  apply (hunt_is_certain_when_probability_reaches_one MoreExamples.hungry_sim
           (fresh_work MoreExamples.hungry_sim) 2 2 Examples.steady_rng).
  - reflexivity.
  - vm_compute. split; [discriminate | reflexivity].
  - exists (2, 3). split; [|reflexivity].
    vm_compute. repeat (try (left; reflexivity); right).
  - vm_compute. discriminate.
Defined.

(** ** Prey without substrate *)

Section WithoutSubstrate.

Variable s : Simulation.
Variable n : nat.
Variable k : Z.
Hypothesis Hsq : square n (grid s).
Hypothesis Hbarren : barren s.
Hypothesis Hhun : prey_hunger_at_least k s.

Lemma barren_no_regrowth :
  ~ (0 < fdiv (initial_substrate_probability (params s)) 10)%Q.
Proof.
  destruct Hbarren as [_ H]. intros Hpos.
  pose proof (fdiv_nonpos _ 10 H ltac:(lia)) as Hle.
  change (inject_Z 10) with 10%Q in Hle. lra.
Qed.

Lemma sweep_hungry_prey_cell (c0 : coord) (rest : list coord) (w w' : Work) :
  in_range (Z.of_nat n) c0 ->
  cell_effect s c0 w w' ->
  sweep_hungry_prey s n k (c0 :: rest) w -> sweep_hungry_prey s n k rest w'.
Proof.
  pose proof barren_no_regrowth as Hdry. destruct Hbarren as [Hno _].
  intros Hc0 Heff (Hsg & Hsh & Hw).
  assert (Hnear : forall x y d c, In c (_get_nearby_cells s x y d) ->
                    in_range (Z.of_nat n) c).
  { intros x y d c. now apply (nearby_in_range n s x y d c c0). }
  assert (Hold : forall c, c <> c0 -> get2 (new_grid w) c = PREY ->
            k + 1 <= get2 (new_prey_hunger w) c
            \/ (get2 (grid s) c = PREY /\ In c rest)).
  { intros c Hne Hc. destruct (Hw c Hc) as [H|[H [H'|H']]]; auto. congruence. }
  assert (Hkeep : sweep_hungry_prey s n k rest w
                  \/ get2 (new_grid w) c0 = get2 (grid s) c0).
  { destruct (Z.eq_dec (get2 (new_grid w) c0) (get2 (grid s) c0)) as [E|E];
      [now right | left].
    split; [assumption|]. split; [assumption|]. intros c Hc.
    destruct (Hw c Hc) as [H|[H [H'|H']]]; auto. subst c. congruence. }
  destruct c0 as [x y]. simpl in Heff.
  destruct Heff as [Hskip | w' Hnew Hold0 Heff | Hold0 Ht Hh
                   | w' Hnew Hold0 Heff | w' Hnew Hold0 Heff
                   | w' Hnew Hold0 Heff | H1 H2 H3 H4].
  - (* skipped *)
    destruct Hkeep as [H|H]; [assumption | contradiction].
  - (* predator *)
    destruct Heff as [Hd | Hst | prey Hlt Hin Hprey | prey m Hlt Hin Hprey Hin' Hm
                     | Hlt | m Hlt Hin Hm];
      unfold sweep_hungry_prey, predator_goes, set_grid, set_predator_hunger;
      simpl;
      (split; [auto 10 with squares|]); (split; [auto 10 with squares|]);
      intros c; rewrite ?(get2_set2 n) by eauto 10 with squares;
      intros Hc; split_cells; subst; try discriminate; try congruence;
      try (apply Hold; congruence);
      try (apply Hold; [intro; subst; unfold PREY, PREDATOR, EMPTY, SUBSTRATE in *;
                        congruence | congruence]).
  - (* division by zero: the handler restores the Predator *)
    unfold sweep_hungry_prey, set_grid; simpl.
    split; [auto with squares|]. split; [assumption|].
    intros c. rewrite (get2_set2 n) by assumption.
    intros Hc. split_cells; subst;
      [unfold PREY, PREDATOR in *; congruence | now apply Hold].
  - (* prey *)
    pose proof (Hhun _ Hold0) as Hh0.
    destruct Heff as [Hd | Hst | Hlt | sub Hlt Hin Hsub
                     | sub m Hlt Hin Hsub Hin' Hm | m Hlt Hnos Hin Hm];
      try (now apply Hno in Hsub);
      unfold sweep_hungry_prey, set_grid, set_prey_hunger; simpl;
      (split; [auto 10 with squares|]); (split; [auto 10 with squares|]);
      intros c; rewrite ?(get2_set2 n) by eauto 10 with squares;
      intros Hc; split_cells; subst; try discriminate; try congruence;
      try (left; lia); try (apply Hold; congruence).
  - (* substrate *)
    now apply Hno in Hold0.
  - (* empty *)
    destruct Heff as [H2 H1 | Hp |]; try contradiction;
      unfold sweep_hungry_prey, count_predator_birth, set_grid,
        set_predator_hunger; simpl;
      (split; [auto 10 with squares|]); (split; [auto 10 with squares|]);
      intros c; rewrite ?(get2_set2 n) by eauto 10 with squares;
      intros Hc; split_cells; subst; try discriminate; try congruence;
      try (apply Hold; congruence);
      try (apply Hold; [intro; subst; unfold PREY, PREDATOR, EMPTY, SUBSTRATE in *;
                        congruence | congruence]).
  - (* a value that is no entity kind *)
    split; [assumption|]. split; [assumption|]. intros c Hc.
    destruct (Hw c Hc) as [H|[H [H'|H']]]; auto. subst c. congruence.
Qed.

(** When no prey is below the starvation threshold, each of them is
    removed at its turn, unless a predator has taken its cell before. *)
Lemma sweep_starving_prey_cell (c0 : coord) (rest : list coord) (w w' : Work) :
  prey_threshold s <= k ->
  in_range (Z.of_nat n) c0 ->
  cell_effect s c0 w w' ->
  sweep_starving_prey s n (c0 :: rest) w -> sweep_starving_prey s n rest w'.
Proof.
  pose proof barren_no_regrowth as Hdry. destruct Hbarren as [Hno _].
  intros Ht Hc0 Heff (Hsg & Hw).
  assert (Hnear : forall x y d c, In c (_get_nearby_cells s x y d) ->
                    in_range (Z.of_nat n) c).
  { intros x y d c. now apply (nearby_in_range n s x y d c c0). }
  assert (Hold : forall c, c <> c0 -> get2 (new_grid w) c = PREY ->
            get2 (grid s) c = PREY /\ In c rest).
  { intros c Hne Hc. destruct (Hw c Hc) as [H [H'|H']]; auto. congruence. }
  destruct c0 as [x y]. simpl in Heff.
  destruct Heff as [Hskip | w' Hnew Hold0 Heff | Hold0 Ht0 Hh
                   | w' Hnew Hold0 Heff | w' Hnew Hold0 Heff
                   | w' Hnew Hold0 Heff | H1 H2 H3 H4].
  - (* skipped *)
    split; [assumption|]. intros c Hc.
    destruct (Hw c Hc) as [H [H'|H']]; auto. subst c. congruence.
  - (* predator *)
    destruct Heff as [Hd | Hst | prey Hlt Hin Hprey | prey m Hlt Hin Hprey Hin' Hm
                     | Hlt | m Hlt Hin Hm];
      unfold sweep_starving_prey, predator_goes, set_grid, set_predator_hunger;
      simpl;
      (split; [auto 10 with squares|]);
      intros c; rewrite ?(get2_set2 n) by eauto 10 with squares;
      intros Hc; split_cells; subst; try discriminate; try congruence;
      try (apply Hold; congruence);
      try (apply Hold; [intro; subst; unfold PREY, PREDATOR, EMPTY, SUBSTRATE in *;
                        congruence | congruence]).
  - unfold sweep_starving_prey, set_grid; simpl.
    split; [auto with squares|].
    intros c. rewrite (get2_set2 n) by assumption.
    intros Hc. split_cells; subst;
      [unfold PREY, PREDATOR in *; congruence | now apply Hold].
  - (* prey *)
    pose proof (Hhun _ Hold0) as Hh0.
    destruct Heff as [Hd | Hst | Hlt | sub Hlt Hin Hsub
                     | sub m Hlt Hin Hsub Hin' Hm | m Hlt Hnos Hin Hm];
      cbn [fst snd] in *; try lia;
      unfold sweep_starving_prey, set_grid; simpl;
      (split; [auto 10 with squares|]);
      intros c; rewrite ?(get2_set2 n) by eauto 10 with squares;
      intros Hc; split_cells; subst; try discriminate; try congruence;
      try (apply Hold; congruence).
  - now apply Hno in Hold0.
  - (* empty *)
    destruct Heff as [H2 H1 | Hp |]; try contradiction;
      unfold sweep_starving_prey, count_predator_birth, set_grid,
        set_predator_hunger; simpl;
      (split; [auto 10 with squares|]);
      intros c; rewrite ?(get2_set2 n) by eauto 10 with squares;
      intros Hc; split_cells; subst; try discriminate; try congruence;
      try (apply Hold; congruence);
      try (apply Hold; [intro; subst; unfold PREY, PREDATOR, EMPTY, SUBSTRATE in *;
                        congruence | congruence]).
  - split; [assumption|]. intros c Hc.
    destruct (Hw c Hc) as [H [H'|H']]; auto. subst c. congruence.
Qed.

(** On a barren grid the rules write no Substrate. *)
Lemma cell_effect_barren (c0 : coord) (w w' : Work) :
  cell_effect s c0 w w' ->
  (forall c, get2 (new_grid w) c <> SUBSTRATE) ->
  forall c, get2 (new_grid w') c <> SUBSTRATE.
Proof.
  pose proof barren_no_regrowth as Hdry. destruct Hbarren as [Hno _].
  intros Heff Hw c.
  assert (Hwrite : forall a d v, v <> SUBSTRATE -> get2 a c <> SUBSTRATE ->
            get2 (set2 a d v) c <> SUBSTRATE).
  { intros a d v Hv Ha.
    destruct (get2_set2_cases a d c v) as [E|[_ E]]; rewrite E; assumption. }
  inversion Heff as [Hskip|w1 Hb Hg Hp|Hg Ht Hh|w1 Hb Hg Hp|w1 Hb Hg Hp
                    |w1 Hb Hg Hp|]; subst; try apply Hw;
    try (now apply Hno in Hg).
  - inversion Hp; subst; unfold predator_goes; simpl;
      repeat (apply Hwrite; [discriminate|]); apply Hw.
  - simpl. apply Hwrite; [rewrite Hg; discriminate | apply Hw].
  - inversion Hp; subst; simpl;
      repeat (apply Hwrite; [discriminate|]); apply Hw.
  - inversion Hp; subst; simpl; try contradiction;
      repeat (apply Hwrite; [discriminate|]); apply Hw.
Qed.

End WithoutSubstrate.

(** One generation on a barren grid: the grid stays barren and the prey
    that are left have gone one more generation without feeding. *)
Lemma barren_generation (n : nat) (k : Z) (now : string) (s : Simulation)
    (r : Rng) :
  square n (grid s) -> barren s -> prey_hunger_at_least k s ->
  let s' := fst (next now s r) in
  square n (grid s') /\ barren s' /\ prey_hunger_at_least (k + 1) s'
  /\ params s' = params s.
Proof.
  intros Hsq Hb Hhun s'. subst s'. unfold prey_hunger_at_least at 1, barren at 1.
  destruct (next_commits now s r)
    as (coords & r1 & w & r2 & Hperm & Esw & -> & _ & -> & _ & ->).
  pose proof (sweep_invariant s (in_range (Z.of_nat n)) (sweep_hungry_prey s n k))
    as Hinv.
  specialize (Hinv (sweep_hungry_prey_cell s n k Hsq Hb Hhun)
                coords (fresh_work s) r1 (coords_in_range n _ _ Hsq Hperm)).
  pose proof (sweep_invariant s (fun _ => True)
                (fun _ w => forall c, get2 (new_grid w) c <> SUBSTRATE)) as Hsub.
  specialize (Hsub (fun c rest w w' _ => cell_effect_barren s Hb c w w')
                coords (fresh_work s) r1).
  rewrite Esw in Hinv, Hsub. simpl in Hinv, Hsub.
  destruct Hinv as (Hsg & Hsh & Hw).
  { split; [assumption|]. split; [now apply square_full_like|].
    intros c Hc. right. split; [assumption|].
    apply (coords_complete n (grid s)); auto. simpl in Hc. rewrite Hc.
    discriminate. }
  split; [assumption|].
  split; [split; [apply Hsub; [apply Forall_forall; auto | apply Hb] | apply Hb]|].
  split; [|reflexivity].
  intros c Hc. destruct (Hw c Hc) as [H|[_ []]]. assumption.
Qed.

(** One generation on a barren grid in which no prey is below the
    starvation threshold: no prey is left. *)
Lemma starving_prey_generation (n : nat) (k : Z) (now : string)
    (s : Simulation) (r : Rng) :
  square n (grid s) -> barren s -> prey_hunger_at_least k s ->
  prey_threshold s <= k ->
  forall c, get2 (grid (fst (next now s r))) c <> PREY.
Proof.
  intros Hsq Hb Hhun Ht.
  destruct (next_commits now s r)
    as (coords & r1 & w & r2 & Hperm & Esw & -> & _).
  pose proof (sweep_invariant s (in_range (Z.of_nat n)) (sweep_starving_prey s n))
    as Hinv.
  specialize (Hinv (fun c rest w w' =>
                      sweep_starving_prey_cell s n k Hsq Hb Hhun c rest w w' Ht)
                coords (fresh_work s) r1 (coords_in_range n _ _ Hsq Hperm)).
  rewrite Esw in Hinv. simpl in Hinv.
  destruct Hinv as (_ & Hw).
  { split; [assumption|]. intros c Hc. split; [assumption|].
    apply (coords_complete n (grid s)); auto. simpl in Hc. rewrite Hc.
    discriminate. }
  intros c Hc. destruct (Hw c Hc) as [_ []].
Qed.

Lemma barren_generations (n : nat) (now : string) (s : Simulation) (r : Rng)
    (j : nat) :
  square n (grid s) -> barren s -> prey_hunger_at_least 0 s ->
  let s' := fst (generations j now s r) in
  square n (grid s') /\ barren s' /\ prey_hunger_at_least (Z.of_nat j) s'
  /\ params s' = params s.
Proof.
  intros Hsq Hb Hhun. induction j as [|j IH].
  - simpl. auto.
  - cbv zeta in *. rewrite generations_succ.
    destruct IH as (A & B & C & D).
    destruct (barren_generation n (Z.of_nat j) now
                (fst (generations j now s r)) (snd (generations j now s r))
                A B C) as (A' & B' & C' & D').
    split; [assumption|]. split; [assumption|].
    split; [|congruence].
    now replace (Z.of_nat (S j)) with (Z.of_nat j + 1) by lia.
Qed.

(** X19. Without substrate, prey die out: from a reachable state whose grid
    holds no Substrate, with a substrate probability that is not positive
    (so that no Substrate forms), no Prey is left after
    [prey_starvation_steps + 1] further generations (the threshold that the
    rule reads, 15 when the key is absent), whatever the random draws. *)
Theorem prey_starve_without_substrate (now : string) (s : Simulation) (r : Rng) :
  reachable s -> count_eq (grid s) SUBSTRATE = 0 ->
  (initial_substrate_probability (params s) <= 0)%Q ->
  count_eq
    (grid (fst (generations (Z.to_nat (prey_threshold s) + 1) now s r)))
    PREY = 0.
Proof.
  intros Hreach Hsub Hprob.
  rewrite count_eq_zero_iff in Hsub by discriminate.
  rewrite count_eq_zero_iff by discriminate.
  destruct (reachable_tracked s Hreach) as (n & Hsq & _).
  destruct (reachable_counters s Hreach) as [_ Hok].
  assert (Hb : barren s) by (now split).
  rewrite Nat.add_1_r, generations_succ.
  destruct (barren_generations n now s r (Z.to_nat (prey_threshold s))
              Hsq Hb Hok) as (A & B & C & D).
  apply (starving_prey_generation n (Z.of_nat (Z.to_nat (prey_threshold s))));
    auto.
  unfold prey_threshold in *. rewrite D. lia.
Qed.

Lemma prey_starve_without_substrate_witness :
  count_eq
    (grid (fst (generations
                  (Z.to_nat (prey_threshold MoreExamples.barren_sim) + 1)
                  "t1" MoreExamples.barren_sim Examples.steady_rng)))
    PREY = 0.
Proof.
  apply (prey_starve_without_substrate "t1" MoreExamples.barren_sim
           Examples.steady_rng).
  - apply (reachable_init 5). split; [reflexivity | repeat constructor].
  - reflexivity.
  - discriminate.
Defined.

(** ** The transport layer *)

Section Transport.

Lemma registry_get_set_same (reg : Registry) (key : string) (d : SimData) :
  registry_get (registry_set reg key d) key = Some d.
Proof.
  induction reg as [|[k d'] reg IH]; simpl.
  - now rewrite String.eqb_refl.
  - destruct (String.eqb k key) eqn:E; simpl; rewrite E; auto.
Qed.

Lemma registry_get_set_other (reg : Registry) (key key' : string) (d : SimData) :
  key' <> key ->
  registry_get (registry_set reg key d) key' = registry_get reg key'.
Proof.
  intros Hne. induction reg as [|[k d'] reg IH]; simpl.
  - destruct (String.eqb key key') eqn:E; [|reflexivity].
    apply String.eqb_eq in E. congruence.
  - destruct (String.eqb k key) eqn:E; simpl.
    + apply String.eqb_eq in E. subst k.
      destruct (String.eqb key key') eqn:E'; [|reflexivity].
      apply String.eqb_eq in E'. congruence.
    + destruct (String.eqb k key'); auto.
Qed.

Lemma get_statistics_keeps (s : Simulation) : snd (get_statistics s) = s.
Proof.
  unfold get_statistics. now destruct (array_size (grid s) =? 0).
Qed.

(** Calls of [step] made one after the other are the generations of the
    session. *)
Lemma generations_shift (k : nat) (now : string) (s : Simulation) (r : Rng) :
  generations (S k) now s r
  = generations k now (fst (next now s r)) (snd (next now s r)).
Proof.
  induction k as [|k IH].
  - simpl. now destruct (next now s r).
  - change (generations (S (S k)) now s r)
      with (let '(s', r') := generations (S k) now s r in next now s' r').
    rewrite IH. reflexivity.
Qed.

Lemma steps_of_generations (k : nat) (now : string) (s : Simulation) (r : Rng) :
  steps_of k true now s r = generations k now s r.
Proof.
  revert s r. induction k as [|k IH]; intros s r; [reflexivity|].
  rewrite generations_shift. simpl steps_of. unfold next.
  destruct (step true now s r) as [[res s'] r']. simpl. apply IH.
Qed.

(** The loop of [step_simulation]: it runs [steps_to_run] generations and
    counts them; it marks the entry completed when the last one reaches the
    total. *)
Lemma run_steps_spec (k : nat) (alloc_ok : bool) (now : string) (d : SimData)
    (r : Rng) (acc : Z) :
  let m := steps_to_run (Z.of_nat k) d in
  let out := run_steps k alloc_ok now d r acc in
  let d' := fst (fst out) in
  snd out = acc + m
  /\ sd_current_step d' = sd_current_step d + m
  /\ sd_total_steps d' = sd_total_steps d
  /\ sd_settings d' = sd_settings d
  /\ sd_created_at d' = sd_created_at d
  /\ (sd_status d' = sd_status d
      \/ (sd_status d' = "completed"
          /\ sd_total_steps d <= sd_current_step d + m))
  /\ (sd_simulation d', snd (fst out))
     = steps_of (Z.to_nat m) alloc_ok now (sd_simulation d) r.
Proof.
  revert d r acc. unfold steps_to_run.
  induction k as [|k IH]; intros d r acc.
  - cbn [run_steps fst snd]. change (Z.of_nat 0) with 0.
    replace (Z.max 0 (Z.min 0 (sd_total_steps d - sd_current_step d))) with 0
      by lia.
    simpl. repeat split; auto; lia.
  - cbn [run_steps].
    destruct (sd_current_step d <? sd_total_steps d) eqn:E.
    + destruct (step alloc_ok now (sd_simulation d) r) as [[res s1] r1] eqn:Es.
      cbn [with_simulation sd_current_step sd_total_steps].
      destruct (sd_current_step d + 1 >=? sd_total_steps d) eqn:E1.
      * replace (Z.max 0 (Z.min (Z.of_nat (S k))
                            (sd_total_steps d - sd_current_step d))) with 1
          by lia.
        simpl. rewrite Es. repeat split; auto; try lia. right. split; [auto|lia].
      * specialize (IH (with_simulation d s1 (sd_current_step d + 1)) r1
                      (acc + 1)).
        cbv zeta in IH. cbn [with_simulation sd_current_step sd_total_steps
                              sd_settings sd_created_at sd_status
                              sd_simulation] in IH.
        destruct IH as (A & B & C & D & F & G & H).
        replace (Z.max 0 (Z.min (Z.of_nat (S k))
                            (sd_total_steps d - sd_current_step d)))
          with (1 + Z.max 0 (Z.min (Z.of_nat k)
                               (sd_total_steps d - (sd_current_step d + 1))))
          by lia.
        split; [lia|]. split; [lia|]. split; [assumption|].
        split; [assumption|]. split; [assumption|].
        split; [destruct G as [G|[G G']]; [now left | right; split; [auto|lia]]|].
        rewrite H.
        replace (Z.to_nat (1 + Z.max 0 (Z.min (Z.of_nat k)
                   (sd_total_steps d - (sd_current_step d + 1)))))
          with (S (Z.to_nat (Z.max 0 (Z.min (Z.of_nat k)
                   (sd_total_steps d - (sd_current_step d + 1)))))) by lia.
        simpl steps_of. rewrite Es. reflexivity.
    + specialize (IH d r acc). cbv zeta in IH.
      replace (Z.max 0 (Z.min (Z.of_nat (S k))
                          (sd_total_steps d - sd_current_step d))) with 0 by lia.
      replace (Z.max 0 (Z.min (Z.of_nat k)
                          (sd_total_steps d - sd_current_step d))) with 0 in IH
        by lia.
      exact IH.
Qed.

(** The loop of the action ["step"] of the socket. *)
Lemma ws_run_steps_spec (k : nat) (alloc_ok : bool) (now : string) (d : SimData)
    (r : Rng) :
  let m := steps_to_run (Z.of_nat k) d in
  let out := ws_run_steps k alloc_ok now d r in
  let d' := fst out in
  sd_current_step d' = sd_current_step d + m
  /\ sd_total_steps d' = sd_total_steps d
  /\ sd_settings d' = sd_settings d
  /\ sd_created_at d' = sd_created_at d
  /\ (sd_status d' = sd_status d
      \/ (sd_status d' = "completed"
          /\ sd_total_steps d <= sd_current_step d + m))
  /\ (sd_simulation d', snd out)
     = steps_of (Z.to_nat m) alloc_ok now (sd_simulation d) r.
Proof.
  revert d r. unfold steps_to_run.
  induction k as [|k IH]; intros d r.
  - cbn [ws_run_steps fst snd]. change (Z.of_nat 0) with 0.
    replace (Z.max 0 (Z.min 0 (sd_total_steps d - sd_current_step d))) with 0
      by lia.
    simpl. repeat split; auto; lia.
  - cbn [ws_run_steps].
    destruct (sd_current_step d <? sd_total_steps d) eqn:E.
    + destruct (step alloc_ok now (sd_simulation d) r) as [[res s1] r1] eqn:Es.
      specialize (IH (with_simulation d s1 (sd_current_step d + 1)) r1).
      cbv zeta in IH. cbn [with_simulation sd_current_step sd_total_steps
                            sd_settings sd_created_at sd_status
                            sd_simulation] in IH.
      destruct IH as (B & C & D & F & G & H).
      replace (Z.max 0 (Z.min (Z.of_nat (S k))
                          (sd_total_steps d - sd_current_step d)))
        with (1 + Z.max 0 (Z.min (Z.of_nat k)
                             (sd_total_steps d - (sd_current_step d + 1))))
        by lia.
      split; [lia|]. split; [assumption|].
      split; [assumption|]. split; [assumption|].
      split; [destruct G as [G|[G G']]; [now left | right; split; [auto|lia]]|].
      rewrite H.
      replace (Z.to_nat (1 + Z.max 0 (Z.min (Z.of_nat k)
                 (sd_total_steps d - (sd_current_step d + 1)))))
        with (S (Z.to_nat (Z.max 0 (Z.min (Z.of_nat k)
                 (sd_total_steps d - (sd_current_step d + 1)))))) by lia.
      simpl steps_of. rewrite Es. reflexivity.
    + replace (Z.max 0 (Z.min (Z.of_nat (S k))
                          (sd_total_steps d - sd_current_step d))) with 0 by lia.
      simpl. repeat split; auto; try lia. right. split; [reflexivity | lia].
Qed.

(** The status after the closing test of the two step handlers. *)
Lemma closing_status (d d' : SimData) (m : Z) :
  sd_current_step d' = sd_current_step d + m ->
  sd_total_steps d' = sd_total_steps d ->
  (sd_status d' = sd_status d
   \/ (sd_status d' = "completed"
       /\ sd_total_steps d <= sd_current_step d + m)) ->
  sd_status (if sd_current_step d' >=? sd_total_steps d'
             then with_status d' "completed" else d')
  = (if sd_current_step d + m >=? sd_total_steps d
     then "completed" else sd_status d).
Proof.
  intros -> -> H.
  destruct (sd_current_step d + m >=? sd_total_steps d) eqn:E;
    [reflexivity|].
  destruct H as [H|[_ H]]; [assumption | lia].
Qed.

(** Overwriting an entry. *)
Lemma registry_set_set (reg : Registry) (key : string) (d d' : SimData) :
  registry_set (registry_set reg key d) key d' = registry_set reg key d'.
Proof.
  induction reg as [|[k e] reg IH]; simpl.
  - now rewrite String.eqb_refl.
  - destruct (String.eqb k key) eqn:E; simpl; rewrite E; [reflexivity|].
    now rewrite IH.
Qed.

(** What [initialize_grid] returns, as far as the endpoints rely on it. *)
Lemma initialize_grid_shape (size prey pred : Z) (prob : Q) (r : Rng) :
  match initialize_grid size prey pred prob r with
  | (inl _, _) => ~ valid_request size prey pred prob
  | (inr (g, _), _) =>
      valid_request size prey pred prob
      /\ square (Z.to_nat size) g /\ cells_valid g
  end.
Proof.
  destruct (initialize_grid_cases size prey pred prob r)
    as [[Hbad [msg ->]]|[Hvalid ->]]; [assumption|].
  pose proof Hvalid as (Hs & Hprey & Hpred & Hp0 & Hp1).
  destruct (density_policy_spec size prey pred prob Hs Hprey Hpred)
    as (prey' & pred' & info0 & -> & Hprey' & Hpred' & Hfit & _).
  destruct (applied_substrate_prob_bounds size prob Hp0 Hp1) as [Ha0 Ha1].
  pose proof (shuffle_perm (range_Z 0 (size * size)) r) as Hperm.
  destruct (shuffle (range_Z 0 (size * size)) r) as [idx r'].
  cbn [fst] in Hperm.
  pose proof (place_entities_exact size prey' pred'
                (applied_substrate_prob size prob) info0 idx
                Hs Hprey' Hpred' Hfit Hperm) as Hexact.
  pose proof (place_entities_rest size prey' pred'
                (applied_substrate_prob size prob) info0 idx
                Hs Hprey' Hpred' Hfit Ha0 Hperm) as Hrest.
  cbv zeta in Hexact, Hrest.
  destruct (place_entities size prey' pred' (applied_substrate_prob size prob)
              info0 idx) as [g info].
  cbn [fst snd] in Hexact, Hrest.
  destruct Hexact as (Hsq & _). destruct Hrest as (Hv & _).
  auto.
Qed.

(** The report that the constructor stores is flagged exactly when one was
    passed. *)
Lemma init_adjustment_flag (g : array2) (p : Params) (recording : bool)
    (info : AdjustmentInfo) (now : string) :
  let adj := if values_adjusted info then Some info else None in
  values_adjusted (adjustment_info (init g p recording adj now)) = true
  <-> adj <> None.
Proof.
  cbv zeta. destruct (values_adjusted info) eqn:E; simpl.
  - rewrite E. split; [discriminate | reflexivity].
  - split; [discriminate | congruence].
Qed.

(** A write keeps the number of rows. *)
Lemma upd_nth_length {A : Type} (n : nat) (f : A -> A) (l : list A) :
  length (upd_nth n f l) = length l.
Proof.
  revert n. induction l as [|a l IH]; intros [|n]; simpl; auto.
Qed.

Lemma shape0_set2 (a : array2) (c : coord) (v : Z) :
  shape0 (set2 a c v) = shape0 a.
Proof.
  unfold shape0, set2.
  destruct ((0 <=? fst c) && (0 <=? snd c)); [|reflexivity].
  now rewrite upd_nth_length.
Qed.

Lemma cell_effect_shape0 (s : Simulation) (c0 : coord) (w w' : Work) :
  cell_effect s c0 w w' -> shape0 (new_grid w') = shape0 (new_grid w).
Proof.
  intros Heff.
  inversion Heff as [Hskip|w1 Hb Hg Hp|Hg Ht Hh|w1 Hb Hg Hp|w1 Hb Hg Hp
                    |w1 Hb Hg Hp|]; subst; try reflexivity;
    try (simpl; now rewrite ?shape0_set2);
    inversion Hp; subst; unfold predator_goes; simpl;
    now rewrite ?shape0_set2.
Qed.

(** A call of [step] keeps the number of rows of the grid. *)
Lemma step_shape0 (alloc_ok : bool) (now : string) (s : Simulation) (r : Rng) :
  shape0 (grid (snd (fst (step alloc_ok now s r)))) = shape0 (grid s).
Proof.
  apply (step_grid_invariant (fun g => shape0 g = shape0 (grid s)));
    [reflexivity|].
  intros c w w' Heff Hw. now rewrite (cell_effect_shape0 s c w w' Heff).
Qed.

Lemma steps_of_shape0 (k : nat) (alloc_ok : bool) (now : string)
    (s : Simulation) (r : Rng) :
  shape0 (grid (fst (steps_of k alloc_ok now s r))) = shape0 (grid s).
Proof.
  revert s r. induction k as [|k IH]; intros s r; [reflexivity|].
  simpl. pose proof (step_shape0 alloc_ok now s r) as H.
  destruct (step alloc_ok now s r) as [[res s1] r1]. simpl in H.
  now rewrite IH.
Qed.

Lemma steps_of_app (a b : nat) (alloc_ok : bool) (now : string)
    (s : Simulation) (r : Rng) :
  steps_of (a + b) alloc_ok now s r
  = steps_of b alloc_ok now (fst (steps_of a alloc_ok now s r))
      (snd (steps_of a alloc_ok now s r)).
Proof.
  revert s r. induction a as [|a IH]; intros s r; [reflexivity|].
  simpl. destruct (step alloc_ok now s r) as [[res s1] r1]. apply IH.
Qed.

(** The entry that a request for steps leaves. *)
Definition stepped (alloc_ok : bool) (now : string) (steps : Z) (d : SimData)
    (r : Rng) : SimData * Rng :=
  let k := steps_to_run steps d in
  let out := steps_of (Z.to_nat k) alloc_ok now (sd_simulation d) r in
  (mkSimData (fst out) (sd_settings d) (sd_current_step d + k)
     (sd_total_steps d)
     (if sd_current_step d + k >=? sd_total_steps d
      then "completed" else sd_status d)
     (sd_created_at d),
   snd out).

Lemma step_simulation_entry (alloc_ok : bool) (now : string)
    (simulation_id : string) (steps : Z) (reg : Registry) (r : Rng)
    (d : SimData) :
  registry_get reg simulation_id = Some d ->
  sd_status d <> "completed" ->
  shape0 (grid (sd_simulation d)) < 500 ->
  let out := stepped alloc_ok now (if steps <=? 0 then 1 else steps) d r in
  let d' := fst out in
  step_simulation alloc_ok now simulation_id steps reg r
  = Some (Http200
            (mkStepResponse simulation_id (sd_status d') (sd_current_step d')
               (sd_total_steps d') (grid (sd_simulation d'))
               (fst (get_statistics (sd_simulation d'))) None
               (steps_to_run (if steps <=? 0 then 1 else steps) d)),
          registry_set reg simulation_id d', snd out).
Proof.
  intros Hget Hstatus Hsize.
  unfold step_simulation. rewrite Hget.
  apply String.eqb_neq in Hstatus. rewrite Hstatus.
  destruct (shape0 (grid (sd_simulation d)) >=? 500) eqn:E; [lia|].
  set (n := if steps <=? 0 then 1 else steps).
  assert (Hn : Z.of_nat (Z.to_nat n) = n).
  { subst n. destruct (steps <=? 0) eqn:E0; lia. }
  pose proof (run_steps_spec (Z.to_nat n) alloc_ok now d r 0) as Hrun.
  cbv zeta in Hrun. rewrite Hn in Hrun.
  destruct (run_steps (Z.to_nat n) alloc_ok now d r 0) as [[d1 r1] run].
  cbn [fst snd] in Hrun.
  destruct Hrun as (A & B & C & D & F & G & H).
  pose proof (closing_status d d1 (steps_to_run n d) B C G) as Hclose.
  cbv zeta. unfold stepped. cbn [fst snd].
  rewrite <- H. cbn [fst snd].
  set (d2 := if sd_current_step d1 >=? sd_total_steps d1
             then with_status d1 "completed" else d1) in *.
  assert (Hd2 : d2 = mkSimData (sd_simulation d1) (sd_settings d)
                       (sd_current_step d + steps_to_run n d)
                       (sd_total_steps d)
                       (if sd_current_step d + steps_to_run n d
                           >=? sd_total_steps d
                        then "completed" else sd_status d)
                       (sd_created_at d)).
  { rewrite <- Hclose, <- B, <- C, <- D, <- F. subst d2.
    destruct (sd_current_step d1 >=? sd_total_steps d1);
      now destruct d1. }
  rewrite <- Hd2. simpl in A. rewrite A. reflexivity.
Qed.

End Transport.

(** X20. [step_simulation], for a registered simulation that is not
    completed and whose grid is below size 500: a request for [steps]
    steps (a request for 0 or fewer counts as 1) runs that many calls of
    [step], but no more than the steps that remain up to [total_steps], or
    none when none remains; [steps_run] reports this number,
    [current_step] advances by it, and the status becomes ["completed"]
    exactly when [current_step] has reached [total_steps] (otherwise it is
    left as it was, ["stopped"] included).  The registry holds the entry
    with the stepped simulation, whose grid is the one returned. *)
Theorem step_simulation_accounting (alloc_ok : bool) (now : string)
    (simulation_id : string) (steps : Z) (reg : Registry) (r : Rng)
    (d : SimData) :
  registry_get reg simulation_id = Some d ->
  sd_status d <> "completed" ->
  shape0 (grid (sd_simulation d)) < 500 ->
  let k := steps_to_run (if steps <=? 0 then 1 else steps) d in
  exists resp reg' r' d',
    step_simulation alloc_ok now simulation_id steps reg r
    = Some (Http200 resp, reg', r')
    /\ rs_steps_run resp = k
    /\ rs_current_step resp = sd_current_step d + k
    /\ rs_total_steps resp = sd_total_steps d
    /\ rs_status resp
       = (if sd_current_step d + k >=? sd_total_steps d
          then "completed" else sd_status d)
    /\ registry_get reg' simulation_id = Some d'
    /\ sd_current_step d' = rs_current_step resp
    /\ sd_status d' = rs_status resp
    /\ sd_total_steps d' = sd_total_steps d
    /\ rs_grid resp = grid (sd_simulation d')
    /\ (sd_simulation d', r')
       = steps_of (Z.to_nat k) alloc_ok now (sd_simulation d) r.
Proof.
  intros Hget Hstatus Hsize k. subst k.
  unfold step_simulation. rewrite Hget.
  apply String.eqb_neq in Hstatus. rewrite Hstatus.
  destruct (shape0 (grid (sd_simulation d)) >=? 500) eqn:E; [lia|].
  set (n := if steps <=? 0 then 1 else steps).
  assert (Hn : Z.of_nat (Z.to_nat n) = n).
  { subst n. destruct (steps <=? 0) eqn:E0; lia. }
  pose proof (run_steps_spec (Z.to_nat n) alloc_ok now d r 0) as Hrun.
  cbv zeta in Hrun. rewrite Hn in Hrun.
  destruct (run_steps (Z.to_nat n) alloc_ok now d r 0) as [[d1 r1] run].
  cbn [fst snd] in Hrun.
  destruct Hrun as (A & B & C & D & F & G & H).
  pose proof (closing_status d d1 (steps_to_run n d) B C G) as Hclose.
  set (d2 := if sd_current_step d1 >=? sd_total_steps d1
             then with_status d1 "completed" else d1) in *.
  assert (Hsame : sd_current_step d2 = sd_current_step d1
                  /\ sd_total_steps d2 = sd_total_steps d1
                  /\ sd_simulation d2 = sd_simulation d1).
  { subst d2. destruct (sd_current_step d1 >=? sd_total_steps d1); auto. }
  destruct Hsame as (S1 & S2 & S3).
  exists (mkStepResponse simulation_id (sd_status d2) (sd_current_step d2)
            (sd_total_steps d2) (grid (sd_simulation d2))
            (fst (get_statistics (sd_simulation d2))) None run),
         (registry_set reg simulation_id d2), r1, d2.
  split; [reflexivity|]. cbn [rs_steps_run rs_current_step rs_total_steps
                              rs_status rs_grid].
  rewrite registry_get_set_same, S1, S2, S3, B, C, Hclose, <- H.
  repeat split; auto; lia.
Qed.

Lemma step_simulation_accounting_witness :
  exists resp reg' r' d',
    step_simulation true "t1" "sim_1" 5 TransportExamples.registry
      Examples.hunt_rng
    = Some (Http200 resp, reg', r')
    /\ rs_steps_run resp = 3
    /\ rs_current_step resp = 0 + 3
    /\ rs_total_steps resp = 3
    /\ rs_status resp = "completed"
    /\ registry_get reg' "sim_1" = Some d'
    /\ sd_current_step d' = rs_current_step resp
    /\ sd_status d' = rs_status resp
    /\ sd_total_steps d' = 3
    /\ rs_grid resp = grid (sd_simulation d')
    /\ (sd_simulation d', r')
       = steps_of 3 true "t1" Examples.hunt_sim Examples.hunt_rng.
Proof.
  apply (step_simulation_accounting true "t1" "sim_1" 5
           TransportExamples.registry Examples.hunt_rng
           TransportExamples.entry).
  - reflexivity.
  - discriminate.
  - reflexivity.
Defined.

(** X21. The action ["reset"] of the socket never resets: the handler
    binds the pair returned by [initialize_grid] (grid and report) and
    passes it as the grid to the constructor of [Simulation], which fails
    on it, as it fails when [initialize_grid] itself raises; the handler
    answers with an error message and the entry of the simulation (its
    simulation, step counter and status) and the generator of the engine
    are left as they were. *)
Theorem ws_reset_never_resets (alloc_ok : bool) (now : string)
    (simulation_id : string) (steps : option Z) (d : SimData) (r r_np : Rng) :
  let out := ws_command alloc_ok now simulation_id (mkCommand "reset" steps)
               d r r_np in
  fst (fst (fst out)) = d
  /\ snd (fst out) = r
  /\ exists e, snd (fst (fst out)) = WsError e.
Proof.
  unfold ws_command. cbn [cmd_action String.eqb Ascii.eqb Bool.eqb].
  destruct (initialize_grid _ _ _ _ r_np) as [[msg|[g report]] r1];
    cbn [new_simulation fst snd]; (split; [reflexivity|]);
    (split; [reflexivity|]); eexists; reflexivity.
Qed.

(** X22. The action ["step"] of the socket runs as many calls of [step] as
    the command asks for (1 when the key is absent, none for 0 or fewer),
    but no more than the steps that remain up to [total_steps];
    [current_step] advances by this number and the status becomes
    ["completed"] exactly when [current_step] has reached [total_steps]
    (otherwise it is left as it was: a simulation marked ["stopped"] is
    stepped like any other).  The message sent is the state of the
    entry. *)
Theorem ws_step_accounting (alloc_ok : bool) (now : string)
    (simulation_id : string) (steps : option Z) (d : SimData) (r r_np : Rng) :
  let k := steps_to_run (get_or steps 1) d in
  let out := ws_command alloc_ok now simulation_id (mkCommand "step" steps)
               d r r_np in
  let d' := fst (fst (fst out)) in
  sd_current_step d' = sd_current_step d + k
  /\ sd_total_steps d' = sd_total_steps d
  /\ sd_status d'
     = (if sd_current_step d + k >=? sd_total_steps d
        then "completed" else sd_status d)
  /\ (sd_simulation d', snd (fst out))
     = steps_of (Z.to_nat k) alloc_ok now (sd_simulation d) r
  /\ snd (fst (fst out)) = ws_state simulation_id d'
  /\ snd out = r_np.
Proof.
  intros k. subst k.
  unfold ws_command. cbn [cmd_action cmd_steps String.eqb Ascii.eqb Bool.eqb].
  set (n := get_or steps 1).
  pose proof (ws_run_steps_spec (Z.to_nat n) alloc_ok now d r) as Hrun.
  cbv zeta in Hrun.
  assert (Hk : steps_to_run (Z.of_nat (Z.to_nat n)) d = steps_to_run n d).
  { unfold steps_to_run. lia. }
  rewrite Hk in Hrun.
  destruct (ws_run_steps (Z.to_nat n) alloc_ok now d r) as [d1 r1].
  cbn [fst snd] in *.
  destruct Hrun as (B & C & D & F & G & H).
  pose proof (closing_status d d1 (steps_to_run n d) B C G) as Hclose.
  set (d2 := if sd_current_step d1 >=? sd_total_steps d1
             then with_status d1 "completed" else d1) in *.
  assert (Hsame : sd_current_step d2 = sd_current_step d1
                  /\ sd_total_steps d2 = sd_total_steps d1
                  /\ sd_simulation d2 = sd_simulation d1).
  { subst d2. destruct (sd_current_step d1 >=? sd_total_steps d1); auto. }
  destruct Hsame as (S1 & S2 & S3).
  rewrite S1, S2, S3, B, C, Hclose, <- H. auto 10.
Qed.

(** X23. [start_simulation] answers 504 exactly when the initialisation
    does not end in time and 500 exactly when it ends in time on counts,
    size or probability that [initialize_grid] rejects; in both cases the
    registry is left as it was.  Otherwise it registers, under the
    identifier it returns, an entry at step 0 with status ["running"]
    whose simulation holds the grid of the response, a
    [grid_size] x [grid_size] grid of entity codes; the entries under other
    identifiers are left alone, the report of adjustments is part of the
    response exactly when it is flagged, and [db_save_success] tells
    whether the database returned a positive identifier. *)
Theorem start_simulation_outcomes (env : StartEnv) (settings : Settings)
    (reg : Registry) (r : Rng) :
  let c := reduce_for_large_grid settings in
  let valid :=
    valid_request (cfg_grid_size c) (cfg_initial_prey c)
      (cfg_initial_predators c) (cfg_initial_substrate_probability c) in
  match start_simulation env settings reg r with
  | (HttpError code _, reg', _) =>
      reg' = reg
      /\ ((code = 504 /\ env_init_in_time env = false)
          \/ (code = 500 /\ env_init_in_time env = true /\ ~ valid))
  | (Http200 resp, reg', _) =>
      env_init_in_time env = true /\ valid
      /\ sr_simulation_id resp
         = ("sim_" ++ env_stamp env ++ "_"
            ++ str_Z (Z.of_nat (length reg)))%string
      /\ sr_status resp = "running" /\ sr_current_step resp = 0
      /\ sr_total_steps resp = cfg_steps c
      /\ sr_db_save_success resp = (env_settings_id env >? 0)
      /\ square (Z.to_nat (cfg_grid_size c)) (sr_grid resp)
      /\ cells_valid (sr_grid resp)
      /\ (forall info, sr_adjustments resp = Some info ->
          values_adjusted info = true)
      /\ (exists sim,
            registry_get reg' (sr_simulation_id resp)
            = Some (mkSimData sim c 0 (cfg_steps c) "running" (env_now env))
            /\ grid sim = sr_grid resp
            /\ params sim = settings_dict c
            /\ recording_enabled sim = cfg_record_simulation c
            /\ (values_adjusted (adjustment_info sim) = true
                <-> sr_adjustments resp <> None))
      /\ forall key, key <> sr_simulation_id resp ->
           registry_get reg' key = registry_get reg key
  end.
Proof.
  cbv zeta. unfold start_simulation.
  set (c := reduce_for_large_grid settings).
  pose proof (initialize_grid_shape (cfg_grid_size c) (cfg_initial_prey c)
                (cfg_initial_predators c)
                (cfg_initial_substrate_probability c) r) as Hinit.
  destruct (initialize_grid (cfg_grid_size c) (cfg_initial_prey c)
              (cfg_initial_predators c)
              (cfg_initial_substrate_probability c) r)
    as [[msg|[g info]] r1].
  - destruct (env_init_in_time env); simpl; split; auto.
  - destruct Hinit as (Hvalid & Hsq & Hcells).
    destruct (env_init_in_time env); simpl; [|split; auto].
    cbn [new_simulation].
    set (adj := if values_adjusted info then Some info else None).
    pose proof (get_statistics_keeps
                  (init g (settings_dict c) (cfg_record_simulation c) adj
                     (env_now env))) as Hkeep.
    destruct (get_statistics (init g (settings_dict c)
                (cfg_record_simulation c) adj (env_now env)))
      as [st0 sim] eqn:Est.
    cbn [snd] in Hkeep. subst sim. rewrite Est.
    cbn [sr_simulation_id sr_status sr_current_step sr_total_steps
         sr_db_save_success sr_grid sr_adjustments].
    split; [reflexivity|]. split; [assumption|].
    do 5 (split; [reflexivity|]).
    split; [assumption|]. split; [assumption|].
    split.
    { subst adj. intros info'.
      destruct (values_adjusted info) eqn:E; [|discriminate].
      intros [= <-]. assumption. }
    split.
    { eexists. split; [apply registry_get_set_same|].
      split; [reflexivity|]. split; [reflexivity|]. split; [reflexivity|].
      apply init_adjustment_flag. }
    intros key Hkey. apply registry_get_set_other. congruence.
Qed.

(** X24. Requests for steps compose: on a registered simulation that is
    not completed and whose grid is below size 500, a request for [a]
    steps followed by a request for [b] steps (both at least 1) leaves the
    registry and the generator that one request for [a + b] steps leaves,
    and the two numbers of steps run add up to the number run by the one
    request. *)
Theorem step_requests_compose (alloc_ok : bool) (now : string)
    (simulation_id : string) (a b : Z) (reg : Registry) (r : Rng)
    (d : SimData) :
  registry_get reg simulation_id = Some d ->
  sd_status d <> "completed" ->
  shape0 (grid (sd_simulation d)) < 500 ->
  1 <= a -> 1 <= b ->
  exists resp1 reg1 r1 resp2 reg2 r2 resp,
    step_simulation alloc_ok now simulation_id a reg r
    = Some (Http200 resp1, reg1, r1)
    /\ step_simulation alloc_ok now simulation_id b reg1 r1
       = Some (Http200 resp2, reg2, r2)
    /\ step_simulation alloc_ok now simulation_id (a + b) reg r
       = Some (Http200 resp, reg2, r2)
    /\ rs_steps_run resp = rs_steps_run resp1 + rs_steps_run resp2
    /\ rs_current_step resp = rs_current_step resp2
    /\ rs_status resp = rs_status resp2
    /\ rs_grid resp = rs_grid resp2.
Proof.
  intros Hget Hstatus Hsize Ha Hb.
  pose proof (step_simulation_entry alloc_ok now simulation_id a reg r d
                Hget Hstatus Hsize) as E1.
  pose proof (step_simulation_entry alloc_ok now simulation_id (a + b) reg r d
                Hget Hstatus Hsize) as E12.
  cbv zeta in E1, E12.
  replace (a <=? 0) with false in E1 by lia.
  replace (a + b <=? 0) with false in E12 by lia.
  set (x := steps_to_run a d) in *.
  set (y := steps_to_run (a + b) d) in *.
  assert (Hx : 0 <= x) by (subst x; unfold steps_to_run; lia).
  destruct (stepped alloc_ok now a d r) as [d1 r1] eqn:Ed1.
  destruct (stepped alloc_ok now (a + b) d r) as [d12 r12] eqn:Ed12.
  cbn [fst snd] in E1, E12.
  unfold stepped in Ed1, Ed12. fold x in Ed1. fold y in Ed12.
  injection Ed1 as Ed1 Er1. injection Ed12 as Ed12 Er12.
  assert (Hget1 : registry_get (registry_set reg simulation_id d1)
                    simulation_id = Some d1)
    by apply registry_get_set_same.
  assert (Hcur1 : sd_current_step d1 = sd_current_step d + x)
    by (now rewrite <- Ed1).
  assert (Htot1 : sd_total_steps d1 = sd_total_steps d)
    by (now rewrite <- Ed1).
  assert (Hsim1 : sd_simulation d1
                  = fst (steps_of (Z.to_nat x) alloc_ok now
                           (sd_simulation d) r))
    by (now rewrite <- Ed1).
  assert (Hst1 : sd_status d1
                 = if sd_current_step d + x >=? sd_total_steps d
                   then "completed" else sd_status d)
    by (now rewrite <- Ed1).
  destruct (sd_current_step d + x >=? sd_total_steps d) eqn:Edone.
  - (* the first request completes the run *)
    assert (Hy : y = x) by (subst x y; unfold steps_to_run in *; lia).
    assert (Hsame : d12 = d1 /\ r12 = r1).
    { rewrite <- Ed12, <- Er12, <- Ed1, <- Er1, Hy, Edone. auto. }
    destruct Hsame as [-> ->].
    do 7 eexists. split; [exact E1|]. split.
    { unfold step_simulation. rewrite Hget1, Hst1. cbn [String.eqb Ascii.eqb
        Bool.eqb]. reflexivity. }
    split; [exact E12|].
    cbn [rs_steps_run rs_current_step rs_status rs_grid].
    repeat split; first [lia | assumption | reflexivity].
  - (* steps remain after the first request *)
    assert (Hneq : sd_status d1 <> "completed") by (now rewrite Hst1).
    assert (Hsize1 : shape0 (grid (sd_simulation d1)) < 500).
    { rewrite Hsim1, steps_of_shape0. assumption. }
    pose proof (step_simulation_entry alloc_ok now simulation_id b
                  (registry_set reg simulation_id d1) r1 d1
                  Hget1 Hneq Hsize1) as E2.
    cbv zeta in E2. replace (b <=? 0) with false in E2 by lia.
    set (z := steps_to_run b d1) in *.
    assert (Hxa : x = a) by (subst x; unfold steps_to_run in *; lia).
    assert (Hz : y = x + z).
    { subst x y z. unfold steps_to_run in *. rewrite Hcur1, Htot1. lia. }
    assert (Hz0 : 0 <= z) by (subst z; unfold steps_to_run; lia).
    assert (Hsame : stepped alloc_ok now b d1 r1 = (d12, r12)).
    { unfold stepped. fold z.
      rewrite <- Ed12, <- Er12, Hz, Z2Nat.inj_add, steps_of_app by lia.
      rewrite Hsim1, <- Er1, Hcur1, Htot1, Hst1.
      rewrite <- Ed1. cbn [sd_settings sd_created_at].
      replace (sd_current_step d + x + z) with (sd_current_step d + (x + z))
        by lia.
      destruct (sd_current_step d + (x + z) >=? sd_total_steps d);
        reflexivity. }
    rewrite Hsame in E2. cbn [fst snd] in E2.
    rewrite registry_set_set in E2.
    do 7 eexists. split; [exact E1|]. split; [exact E2|].
    split; [exact E12|].
    cbn [rs_steps_run rs_current_step rs_status rs_grid].
    repeat split; first [lia | assumption | reflexivity].
Qed.

Lemma step_requests_compose_witness :
  exists resp1 reg1 r1 resp2 reg2 r2 resp,
    step_simulation true "t1" "sim_1" 2 TransportExamples.registry
      Examples.hunt_rng
    = Some (Http200 resp1, reg1, r1)
    /\ step_simulation true "t1" "sim_1" 2 reg1 r1
       = Some (Http200 resp2, reg2, r2)
    /\ step_simulation true "t1" "sim_1" (2 + 2) TransportExamples.registry
         Examples.hunt_rng
       = Some (Http200 resp, reg2, r2)
    /\ rs_steps_run resp = rs_steps_run resp1 + rs_steps_run resp2
    /\ rs_current_step resp = rs_current_step resp2
    /\ rs_status resp = rs_status resp2
    /\ rs_grid resp = rs_grid resp2.
Proof.
  apply (step_requests_compose true "t1" "sim_1" 2 2
           TransportExamples.registry Examples.hunt_rng
           TransportExamples.entry).
  - reflexivity.
  - discriminate.
  - reflexivity.
  - lia.
  - lia.
Defined.
